(** * Tremolo-1.0: a shallow embedding of the signal-processing core

    The C++ sources embedded here are [OnePoleSmoother.h], [Tremolo.h] /
    [Tremolo.cpp], [FeatureExtractor.h] and the tempo-sync fragment of
    [main.cpp].  C++ [float] is IEEE-754 binary32 and [double] is binary64;
    both are modelled bit-exactly with the Standard Library's [SpecFloat]
    (round-to-nearest-even, a single NaN).  The transcendental functions
    of the C math library ([std::sin], [std::tanh], [std::exp]) are not part
    of the repository and are taken as a parameter ([Libm]); [std::fmod] is
    exact in IEEE-754 arithmetic and is modelled. *)

From Stdlib Require Import ZArith Bool Lia.
From Stdlib Require Import Floats.SpecFloat.
From stdpp Require Import base option list strings gmap.

Local Open Scope Z_scope.

(** ** IEEE-754 binary32 ([float]) and binary64 ([double]) *)

Abbreviation float := spec_float (only parsing).
Abbreviation double := spec_float (only parsing).

Module F32.
Definition prec : Z := 24.
Definition emax : Z := 128.

Definition add : float -> float -> float := SFadd prec emax.
Definition sub : float -> float -> float := SFsub prec emax.
Definition mul : float -> float -> float := SFmul prec emax.
Definition div : float -> float -> float := SFdiv prec emax.

(** C++ comparisons; every comparison with a NaN is false. *)
Definition lt (x y : float) : bool := SFltb x y.
Definition le (x y : float) : bool := SFleb x y.
Definition gt (x y : float) : bool := SFltb y x.
Definition ge (x y : float) : bool := SFleb y x.
Definition eqb (x y : float) : bool := SFeqb x y.

(** The correctly rounded quotient [n / d] of two integers: how a
    decimal literal such as [1e-20f] is read. *)
Definition of_ratio (n : Z) (d : positive) : float :=
  match n with
  | Z0 => S754_zero false
  | Zpos p =>
      let '(q, e, l) := SFdiv_core_binary prec emax (Zpos p) 0 (Zpos d) 0 in
      binary_round_aux prec emax false q e l
  | Zneg p =>
      let '(q, e, l) := SFdiv_core_binary prec emax (Zpos p) 0 (Zpos d) 0 in
      binary_round_aux prec emax true q e l
  end.

(** Conversion of an integer ([size_t], [int]) to [float]. *)
Definition of_Z (n : Z) : float := binary_normalize prec emax n 0 false.

(** The value with a given binary32 bit pattern (sign, 8 exponent bits,
    23 fraction bits); NaN payloads are forgotten. *)
Definition of_bits (b : Z) : float :=
  let s := Z.testbit b 31 in
  let ebits := Z.land (Z.shiftr b 23) 255 in
  let frac := Z.land b 8388607 in
  if ebits =? 255 then (if frac =? 0 then S754_infinity s else S754_nan)
  else if ebits =? 0 then
    match frac with Zpos m => S754_finite s m (-149) | _ => S754_zero s end
  else
    match frac + 8388608 with
    | Zpos m => S754_finite s m (ebits - 150)
    | _ => S754_nan
    end.

Definition zero : float := S754_zero false.
Definition one : float := Eval vm_compute in of_Z 1.
Definition infinity : float := S754_infinity false.
Definition neg_infinity : float := S754_infinity true.
Definition nan : float := S754_nan.

(** Neither an infinity nor a NaN. *)
Definition is_finite (x : float) : bool :=
  match x with
  | S754_zero _ | S754_finite _ _ _ => true
  | _ => false
  end.

Definition valid (x : float) : bool := valid_binary prec emax x.
End F32.

Module F64.
Definition prec : Z := 53.
Definition emax : Z := 1024.

Definition add : double -> double -> double := SFadd prec emax.
Definition mul : double -> double -> double := SFmul prec emax.
Definition div : double -> double -> double := SFdiv prec emax.
Definition sqrt : double -> double := SFsqrt prec emax.
Definition gt (x y : double) : bool := SFltb y x.

Definition of_ratio (n : Z) (d : positive) : double :=
  match n with
  | Z0 => S754_zero false
  | Zpos p =>
      let '(q, e, l) := SFdiv_core_binary prec emax (Zpos p) 0 (Zpos d) 0 in
      binary_round_aux prec emax false q e l
  | Zneg p =>
      let '(q, e, l) := SFdiv_core_binary prec emax (Zpos p) 0 (Zpos d) 0 in
      binary_round_aux prec emax true q e l
  end.

Definition of_Z (n : Z) : double := binary_normalize prec emax n 0 false.

Definition zero : double := S754_zero false.
Definition valid (x : double) : bool := valid_binary prec emax x.
End F64.

(** [float(x)] for a [double] x: rounding to binary32. *)
Definition float_of_double (x : double) : float :=
  match x with
  | S754_finite s m e => binary_round F32.prec F32.emax s m e
  | _ => x
  end.

(** [double(x)] for a [float] x: exact, renormalised to 53 bits. *)
Definition double_of_float (x : float) : double :=
  match x with
  | S754_finite s m e => binary_round F64.prec F64.emax s m e
  | _ => x
  end.

Declare Scope f32_scope.
Delimit Scope f32_scope with f32.
Infix "+" := F32.add : f32_scope.
Infix "-" := F32.sub : f32_scope.
Infix "*" := F32.mul : f32_scope.
Infix "/" := F32.div : f32_scope.
Infix "<?" := F32.lt : f32_scope.
Infix "<=?" := F32.le : f32_scope.
Infix ">?" := F32.gt : f32_scope.
Infix ">=?" := F32.ge : f32_scope.

(** The [float] literals of the sources. *)
Definition f_0 : float := F32.zero.
Definition f_1 : float := F32.one.
Definition f_neg1 : float := Eval vm_compute in F32.of_Z (-1).
Definition f_2 : float := Eval vm_compute in F32.of_Z 2.
Definition f_3 : float := Eval vm_compute in F32.of_Z 3.
Definition f_4 : float := Eval vm_compute in F32.of_Z 4.
Definition f_5 : float := Eval vm_compute in F32.of_Z 5.
Definition f_60 : float := Eval vm_compute in F32.of_Z 60.
Definition f_180 : float := Eval vm_compute in F32.of_Z 180.
Definition f_360 : float := Eval vm_compute in F32.of_Z 360.
Definition f_0_5 : float := Eval vm_compute in F32.of_ratio 1 2.
Definition f_0_25 : float := Eval vm_compute in F32.of_ratio 1 4.
Definition f_0_6 : float := Eval vm_compute in F32.of_ratio 6 10.
Definition f_0_01 : float := Eval vm_compute in F32.of_ratio 1 100.
Definition f_0_0001 : float := Eval vm_compute in F32.of_ratio 1 10000.
Definition f_1e_6 : float := Eval vm_compute in F32.of_ratio 1 (10 ^ 6).
Definition f_1e_9 : float := Eval vm_compute in F32.of_ratio 1 (10 ^ 9).
Definition f_1e_20 : float := Eval vm_compute in F32.of_ratio 1 (10 ^ 20).

(** The [double] literals of the sources. *)
Definition d_48000 : double := Eval vm_compute in F64.of_Z 48000.
Definition d_neg1 : double := Eval vm_compute in F64.of_Z (-1).
Definition d_M_PI : double :=
  Eval vm_compute in F64.of_ratio 314159265358979323846 (10 ^ 20).
Definition f_M_PI : float := Eval vm_compute in float_of_double d_M_PI.

(** ** Library functions with an exact IEEE-754 meaning *)

(** [std::fmod(x, y)] on [float] (C11 7.12.10.1 and F.10.7.1): the result
    [x - n*y], with [n] the quotient truncated towards zero, is always
    representable, so the function is exact; it has the sign of [x]. *)
Definition fmodf (x y : float) : float :=
  match x, y with
  | S754_nan, _ | _, S754_nan => S754_nan
  | S754_infinity _, _ => S754_nan
  | _, S754_zero _ => S754_nan
  | S754_zero _, _ => x
  | S754_finite _ _ _, S754_infinity _ => x
  | S754_finite sx mx ex, S754_finite _ my ey =>
      let e := Z.min ex ey in
      let X := Zpos (fst (shl_align mx ex e)) in
      let Y := Zpos (fst (shl_align my ey e)) in
      match X mod Y with
      | Zpos r => binary_round F32.prec F32.emax sx r e
      | _ => S754_zero sx
      end
  end.

(** [std::max(a, b)] is [(a < b) ? b : a] and [std::min(a, b)] is
    [(b < a) ? b : a]: with a NaN in either place the first argument is
    returned. *)
Definition std_max (a b : float) : float := if (a <? b)%f32 then b else a.
Definition std_min (a b : float) : float := if (b <? a)%f32 then b else a.

(** [Tremolo.cpp]: [clamp01], [clamp11]. *)
Definition clamp01 (x : float) : float := std_max f_0 (std_min f_1 x).
Definition clamp11 (x : float) : float := std_max f_neg1 (std_min f_1 x).

(** ** The C math library, a parameter of the model *)

Record Libm := {
  sinf : float -> float;   (* std::sin  on float *)
  tanhf : float -> float;  (* std::tanh on float *)
  expf : float -> float    (* std::exp  on float *)
}.

(** ** [OnePoleSmoother.h] *)

Module OnePoleSmoother.

Record t := mk {
  sampleRate : double;
  tau : float;
  a : float;
  z : float
}.

(** The default member initialisers. *)
Definition init : t :=
  {| sampleRate := d_48000; tau := f_0_01; a := f_0; z := f_0 |}.

Section WithLibm.
Context (libm : Libm).

(** [a = std::exp(float(-1.0 / (tau * float(sampleRate))))]: the product
    is a [float], the quotient a [double]. *)
Definition coeff (tau0 : float) (fs : double) : float :=
  expf libm
    (float_of_double
       (F64.div d_neg1 (double_of_float (tau0 * float_of_double fs)%f32))).

Definition updateCoeff (s : t) : t :=
  {| sampleRate := sampleRate s; tau := tau s;
     a := coeff (tau s) (sampleRate s); z := z s |}.

Definition setSampleRate (fs : double) (s : t) : t :=
  updateCoeff
    {| sampleRate := if F64.gt fs F64.zero then fs else d_48000;
       tau := tau s; a := a s; z := z s |}.

Definition setTimeConstant (tauSeconds : float) (s : t) : t :=
  updateCoeff
    {| sampleRate := sampleRate s;
       tau := if (tauSeconds >? f_1e_6)%f32 then tauSeconds else f_1e_6;
       a := a s; z := z s |}.
End WithLibm.

Definition reset (value : float) (s : t) : t :=
  {| sampleRate := sampleRate s; tau := tau s; a := a s; z := value |}.

(** [z = a * (z + tiny) + (1.0f - a) * target; return z;] *)
Definition step (a0 z0 target : float) : float :=
  (a0 * (z0 + f_1e_20) + (f_1 - a0) * target)%f32.

Definition process (target : float) (s : t) : t * float :=
  let z' := step (a s) (z s) target in
  ({| sampleRate := sampleRate s; tau := tau s; a := a s; z := z' |}, z').

End OnePoleSmoother.

(** ** [Tremolo.h], [Tremolo.cpp] *)

Inductive LFOShape := Sine | Triangle | Square | SquareSoft.

Module Tremolo.

Record t := mk {
  sr_ : double;
  rateHz_ : float;
  depth_ : float;
  wet_ : float;
  phase_ : float;
  phaseInc_ : float;
  stereoPhaseR_ : float;
  shape_ : LFOShape;
  depthSm_ : OnePoleSmoother.t;
  rateSm_ : OnePoleSmoother.t
}.

(** The default member initialisers of [struct Tremolo]. *)
Definition init : t :=
  {| sr_ := d_48000; rateHz_ := f_5; depth_ := f_0_6; wet_ := f_1;
     phase_ := f_0; phaseInc_ := f_0; stereoPhaseR_ := f_0; shape_ := Sine;
     depthSm_ := OnePoleSmoother.init; rateSm_ := OnePoleSmoother.init |}.

Definition setDepth (d : float) (tr : t) : t :=
  {| sr_ := sr_ tr; rateHz_ := rateHz_ tr; depth_ := clamp01 d;
     wet_ := wet_ tr; phase_ := phase_ tr; phaseInc_ := phaseInc_ tr;
     stereoPhaseR_ := stereoPhaseR_ tr; shape_ := shape_ tr;
     depthSm_ := depthSm_ tr; rateSm_ := rateSm_ tr |}.

Definition setRateHz (r : float) (tr : t) : t :=
  {| sr_ := sr_ tr; rateHz_ := std_max f_0_0001 r; depth_ := depth_ tr;
     wet_ := wet_ tr; phase_ := phase_ tr; phaseInc_ := phaseInc_ tr;
     stereoPhaseR_ := stereoPhaseR_ tr; shape_ := shape_ tr;
     depthSm_ := depthSm_ tr; rateSm_ := rateSm_ tr |}.

Definition setWet (w : float) (tr : t) : t :=
  {| sr_ := sr_ tr; rateHz_ := rateHz_ tr; depth_ := depth_ tr;
     wet_ := clamp01 w; phase_ := phase_ tr; phaseInc_ := phaseInc_ tr;
     stereoPhaseR_ := stereoPhaseR_ tr; shape_ := shape_ tr;
     depthSm_ := depthSm_ tr; rateSm_ := rateSm_ tr |}.

Definition setStereoPhaseDeg (deg : float) (tr : t) : t :=
  let d := std_max f_0 (std_min f_180 deg) in
  {| sr_ := sr_ tr; rateHz_ := rateHz_ tr; depth_ := depth_ tr;
     wet_ := wet_ tr; phase_ := phase_ tr; phaseInc_ := phaseInc_ tr;
     stereoPhaseR_ := (d / f_360)%f32; shape_ := shape_ tr;
     depthSm_ := depthSm_ tr; rateSm_ := rateSm_ tr |}.

Definition setShape (s : LFOShape) (tr : t) : t :=
  {| sr_ := sr_ tr; rateHz_ := rateHz_ tr; depth_ := depth_ tr;
     wet_ := wet_ tr; phase_ := phase_ tr; phaseInc_ := phaseInc_ tr;
     stereoPhaseR_ := stereoPhaseR_ tr; shape_ := s;
     depthSm_ := depthSm_ tr; rateSm_ := rateSm_ tr |}.

(** [lfoTriangle] uses no transcendental function. *)
Definition lfoTriangle (ph : float) : float :=
  let t0 := fmodf ph f_1 in
  let tri := if (t0 <? f_0_5)%f32 then (t0 * f_4 - f_1)%f32
             else (f_3 - t0 * f_4)%f32 in
  (f_0_5 * (tri + f_1))%f32.

(** One sample of the wet/dry mix: [x] is the input with [tiny] added. *)
Definition mix (wet x gain : float) : float :=
  let wetSig := (x * gain)%f32 in
  clamp11 ((f_1 - wet) * x + wet * wetSig)%f32.

Section WithLibm.
Context (libm : Libm).

Definition setSampleRate (fs : double) (tr : t) : t :=
  let sr := if F64.gt fs F64.zero then fs else d_48000 in
  let dsm := OnePoleSmoother.setSampleRate libm sr (depthSm_ tr) in
  let rsm := OnePoleSmoother.setSampleRate libm sr (rateSm_ tr) in
  let dsm := OnePoleSmoother.setTimeConstant libm f_0_01 dsm in
  let rsm := OnePoleSmoother.setTimeConstant libm f_0_01 rsm in
  let dsm := OnePoleSmoother.reset (depth_ tr) dsm in
  let rsm := OnePoleSmoother.reset (rateHz_ tr) rsm in
  {| sr_ := sr; rateHz_ := rateHz_ tr; depth_ := depth_ tr;
     wet_ := wet_ tr; phase_ := phase_ tr;
     phaseInc_ :=
       float_of_double (F64.div (double_of_float (rateHz_ tr)) sr);
     stereoPhaseR_ := stereoPhaseR_ tr; shape_ := shape_ tr;
     depthSm_ := dsm; rateSm_ := rsm |}.

(** [2.0f * float(M_PI) * ph] *)
Definition two_pi_times (ph : float) : float :=
  (f_2 * f_M_PI * ph)%f32.

Definition lfoSine (ph : float) : float :=
  (f_0_5 * (f_1 + sinf libm (two_pi_times ph)))%f32.

Definition lfoSquare (ph : float) : float :=
  let s := sinf libm (two_pi_times ph) in
  if (s >=? f_0)%f32 then f_1 else f_0.

Definition lfoSquareSoft (ph : float) : float :=
  let s := sinf libm (two_pi_times ph) in
  let y := tanhf libm (f_3 * s)%f32 in
  (f_0_5 * (y + f_1))%f32.

(** The [switch (shape_)] of [process]. *)
Definition lfo (s : LFOShape) (ph : float) : float :=
  match s with
  | Triangle => lfoTriangle ph
  | Square => lfoSquare ph
  | SquareSoft => lfoSquareSoft ph
  | Sine => lfoSine ph
  end.

(** The body of the [for] loop of [process] at frame [i].  A read
    outside the buffer has no defined behaviour in C++: [None]. *)
Definition process_frame (channels : Z) (i : nat) (tr : t)
    (buf : list float) : option (t * list float) :=
  let '(rsm, rateNow) := OnePoleSmoother.process (rateHz_ tr) (rateSm_ tr) in
  let phaseInc :=
    std_max f_1e_9
      (float_of_double (F64.div (double_of_float rateNow) (sr_ tr))) in
  let '(dsm, dNow) := OnePoleSmoother.process (depth_ tr) (depthSm_ tr) in
  let phL := phase_ tr in
  let phR := fmodf (phase_ tr + stereoPhaseR_ tr)%f32 f_1 in
  let lfoL := lfo (shape_ tr) phL in
  let lfoR := lfo (shape_ tr) phR in
  let gainL := (f_1 - dNow * lfoL)%f32 in
  let gainR := (f_1 - dNow * lfoR)%f32 in
  buf' ←
    (if channels =? 1 then
       s ← buf !! i;
       let x := (s + f_1e_20)%f32 in
       Some (<[i := mix (wet_ tr) x gainL]> buf)
     else
       sL ← buf !! (i * 2 + 0)%nat;
       sR ← buf !! (i * 2 + 1)%nat;
       let xL := (sL + f_1e_20)%f32 in
       let xR := (sR + f_1e_20)%f32 in
       Some (<[(i * 2 + 1)%nat := mix (wet_ tr) xR gainR]>
               (<[(i * 2 + 0)%nat := mix (wet_ tr) xL gainL]> buf)));
  let ph := (phase_ tr + phaseInc)%f32 in
  let ph := if (ph >=? f_1)%f32 then (ph - f_1)%f32 else ph in
  Some ({| sr_ := sr_ tr; rateHz_ := rateHz_ tr; depth_ := depth_ tr;
           wet_ := wet_ tr; phase_ := ph; phaseInc_ := phaseInc;
           stereoPhaseR_ := stereoPhaseR_ tr; shape_ := shape_ tr;
           depthSm_ := dsm; rateSm_ := rsm |}, buf').

(** [for (size_t i = 0; i < frames; ++i)], with [n] frames left. *)
Fixpoint process_loop (channels : Z) (n : nat) (i : nat) (tr : t)
    (buf : list float) : option (t * list float) :=
  match n with
  | O => Some (tr, buf)
  | S n' =>
      '(tr', buf') ← process_frame channels i tr buf;
      process_loop channels n' (S i) tr' buf'
  end.

(** [void Tremolo::process(float* interleaved, size_t frames, int channels)]:
    a null pointer is [None]; the result is the engine and the buffer
    after the call. *)
Definition process (tr : t) (interleaved : option (list float))
    (frames : nat) (channels : Z) : option (t * option (list float)) :=
  match interleaved with
  | None => Some (tr, None)
  | Some buf =>
      if channels <? 1 then Some (tr, Some buf)
      else
        '(tr', buf') ← process_loop channels frames 0 tr buf;
        Some (tr', Some buf')
  end.
(** Two views of one loop iteration, for stating properties: the gains
    applied to the left and right samples, and the engine after the
    iteration.  [process_frame_mono] and [process_frame_stereo] below show
    that they are what [process_frame] computes. *)
Definition frame_gains (tr : t) : float * float :=
  let dNow := snd (OnePoleSmoother.process (depth_ tr) (depthSm_ tr)) in
  let phL := phase_ tr in
  let phR := fmodf (phase_ tr + stereoPhaseR_ tr)%f32 f_1 in
  ((f_1 - dNow * lfo (shape_ tr) phL)%f32,
   (f_1 - dNow * lfo (shape_ tr) phR)%f32).

Definition frame_next (tr : t) : t :=
  let '(rsm, rateNow) := OnePoleSmoother.process (rateHz_ tr) (rateSm_ tr) in
  let phaseInc :=
    std_max f_1e_9
      (float_of_double (F64.div (double_of_float rateNow) (sr_ tr))) in
  let ph := (phase_ tr + phaseInc)%f32 in
  {| sr_ := sr_ tr; rateHz_ := rateHz_ tr; depth_ := depth_ tr;
     wet_ := wet_ tr;
     phase_ := if (ph >=? f_1)%f32 then (ph - f_1)%f32 else ph;
     phaseInc_ := phaseInc;
     stereoPhaseR_ := stereoPhaseR_ tr; shape_ := shape_ tr;
     depthSm_ := fst (OnePoleSmoother.process (depth_ tr) (depthSm_ tr));
     rateSm_ := rsm |}.

(** The sample written for input [s] under gain [g]. *)
Definition out_sample (tr : t) (s g : float) : float :=
  mix (wet_ tr) (s + f_1e_20)%f32 g.

End WithLibm.

End Tremolo.

(** ** [FeatureExtractor.h] *)

Module FeatureExtractor.

Definition FrameSize : nat := 1024.

(** The only member is [std::vector<float> buf]. *)
Record t := mk { buf : list float }.

Definition init : t := {| buf := [] |}.

(** [buf.push_back(m); if (buf.size() > FrameSize) buf.erase(buf.begin());] *)
Definition pushSample (L R : float) (fe : t) : t :=
  let m := (f_0_5 * (L + R))%f32 in
  let b := buf fe ++ [m] in
  {| buf := if (FrameSize <? length b)%nat then drop 1 b else b |}.

Definition ready (fe : t) : bool := (length (buf fe) =? FrameSize)%nat.

Definition reset (fe : t) : t := {| buf := [] |}.

(** [for (float x : buf) acc += double(x) * double(x);] *)
Definition sum_squares (b : list float) : double :=
  fold_left
    (fun acc x => F64.add acc (F64.mul (double_of_float x) (double_of_float x)))
    b F64.zero.

Definition rms (fe : t) : float :=
  match buf fe with
  | [] => f_0
  | _ =>
      float_of_double
        (F64.sqrt
           (F64.div (sum_squares (buf fe))
              (F64.of_Z (Z.of_nat (length (buf fe))))))
  end.

(** [(a >= 0.f && b < 0.f) || (a < 0.f && b >= 0.f)] *)
Definition crossing (a b : float) : bool :=
  ((a >=? f_0) && (b <? f_0) || (a <? f_0) && (b >=? f_0))%f32.

(** [for (size_t i = 1; i < buf.size(); ++i)], with [n] iterations left;
    the loop bound keeps both reads inside the vector. *)
Fixpoint zcr_loop (b : list float) (n : nat) (i : nat) (crossings : nat)
    : nat :=
  match n with
  | O => crossings
  | S n' =>
      match b !! (i - 1)%nat, b !! i with
      | Some x, Some y =>
          zcr_loop b n' (S i)
            (crossings + (if crossing x y then 1 else 0))%nat
      | _, _ => crossings
      end
  end.

Definition zcr (fe : t) : float :=
  if (length (buf fe) <? 2)%nat then f_0
  else
    let crossings := zcr_loop (buf fe) (length (buf fe) - 1) 1 0 in
    (F32.of_Z (Z.of_nat crossings)
     / F32.of_Z (Z.of_nat (length (buf fe) - 1)))%f32.

(** The operations a client can perform; the three queries are [const]
    member functions. *)
Inductive op :=
  | PushSample (L R : float)
  | Reset
  | Ready
  | Rms
  | Zcr.

Definition apply_op (fe : t) (o : op) : t :=
  match o with
  | PushSample L R => pushSample L R fe
  | Reset => reset fe
  | Ready | Rms | Zcr => fe
  end.

(** The extractor after a sequence of operations on a fresh one. *)
Definition run (ops : list op) : t := fold_left apply_op ops init.

(** The number of sign transitions between adjacent samples, by recursion
    on the window: what [zcr] is specified to count. *)
Fixpoint sign_changes (b : list float) : nat :=
  match b with
  | x :: (y :: _) as rest =>
      ((if crossing x y then 1 else 0) + sign_changes rest)%nat
  | _ => 0%nat
  end.

End FeatureExtractor.

(** ** The tempo-sync fragment of [main.cpp] *)

Module Main.

(** The [std::map<std::string, float> beats] of [divisionToHz]. *)
Definition beats : gmap string float :=
  {[ "1" := f_4; "1/2" := f_2; "1/4" := f_1; "1/8" := f_0_5;
     "1/16" := f_0_25 ]}%string.

Definition divisionToHz (bpm : float) (div : string) : float :=
  match beats !! div with
  | None => f_neg1
  | Some beatsPerCycle => (bpm / f_60 / beatsPerCycle)%f32
  end.

(** [if (hz > 0.f) trem.setRateHz(hz); else] a warning only. *)
Definition syncRate (bpm : float) (div : string) (trem : Tremolo.t)
    : Tremolo.t :=
  let hz := divisionToHz bpm div in
  if (hz >? f_0)%f32 then Tremolo.setRateHz hz trem else trem.

Section WithStof.
(** [std::stof], [None] when it throws. *)
Context (stof : string -> option float).

(** ["bpm:120,div:1/8"]; [s.find] gives the first occurrence. *)
Definition parseRateSync (s : string) : option (float * string) :=
  if String.eqb s "" then None
  else
    match String.index 0 "bpm:" s, String.index 0 ",div:" s with
    | Some p1, Some p2 =>
        if (p2 <=? p1)%nat then None
        else
          match stof (String.substring (p1 + 4) (p2 - (p1 + 4)) s) with
          | Some tbpm =>
              Some (tbpm,
                    String.substring (p2 + 5)
                      (String.length s - (p2 + 5)) s)
          | None => None
          end
    | _, _ => None
    end.

(** [main], "Optional: rate sync overrides rate". *)
Definition rateSync (arg : string) (trem : Tremolo.t) : Tremolo.t :=
  if String.eqb arg "" then trem
  else
    match parseRateSync arg with
    | Some (bpm, div) => syncRate bpm div trem
    | None => trem
    end.
End WithStof.

End Main.

(** ** Predicates and values used in the statements *)

(** A [float] that holds a number: a binary32 value that is neither an
    infinity nor a NaN. *)
Definition finite32 (x : float) : Prop :=
  F32.valid x = true /\ F32.is_finite x = true.

(** A result in [[0, 1]]. *)
Definition in_unit (v : float) : Prop :=
  (f_0 <=? v)%f32 = true /\ (v <=? f_1)%f32 = true.

(** A binary32 value in [[lo, hi]]. *)
Definition in_range (lo hi v : float) : Prop :=
  F32.valid v = true /\ (lo <=? v)%f32 = true /\ (v <=? hi)%f32 = true.

Definition in_signed_unit (v : float) : Prop := in_range f_neg1 f_1 v.

(** A phase in [[0, 1)], as the comment on [phase_] in [Tremolo.h] has
    it. *)
Definition wrapped (p : float) : Prop :=
  F32.valid p = true /\ (f_0 <=? p)%f32 = true /\ (p <? f_1)%f32 = true.

(** [FLT_MAX], the largest finite [float]. *)
Definition f_max : float := S754_finite false 16777215 104.

(** The member functions of [struct OnePoleSmoother], as calls a client
    makes on one smoother. *)
Inductive smoother_call :=
  | SmSetSampleRate (fs : double)
  | SmSetTimeConstant (tauSeconds : float)
  | SmReset (value : float)
  | SmProcess (target : float).

(** The smoother after one call, and what [process] returned. *)
Definition smoother_apply (libm : Libm) (s : OnePoleSmoother.t)
    (c : smoother_call) : OnePoleSmoother.t * option float :=
  match c with
  | SmSetSampleRate fs => (OnePoleSmoother.setSampleRate libm fs s, None)
  | SmSetTimeConstant tauSeconds =>
      (OnePoleSmoother.setTimeConstant libm tauSeconds s, None)
  | SmReset value => (OnePoleSmoother.reset value s, None)
  | SmProcess target =>
      (fst (OnePoleSmoother.process target s),
       Some (snd (OnePoleSmoother.process target s)))
  end.

(** The smoother after a sequence of calls, and the values that the
    [process] calls among them returned, in order. *)
Fixpoint smoother_run (libm : Libm) (calls : list smoother_call)
    (s : OnePoleSmoother.t) : OnePoleSmoother.t * list float :=
  match calls with
  | [] => (s, [])
  | c :: calls =>
      let r := smoother_run libm calls (fst (smoother_apply libm s c)) in
      (fst r,
       match snd (smoother_apply libm s c) with
       | Some y => y :: snd r
       | None => snd r
       end)
  end.

(** The [float] arguments of a call are finite; the sample rate is any
    [double], infinities and NaN included. *)
Definition finite_arguments (c : smoother_call) : Prop :=
  match c with
  | SmSetSampleRate fs => F64.valid fs = true
  | SmSetTimeConstant tauSeconds => finite32 tauSeconds
  | SmReset value => finite32 value
  | SmProcess target => finite32 target
  end.

(** The [process] calls of a sequence. *)
Definition process_calls (calls : list smoother_call) : nat :=
  length
    (List.filter (fun c => match c with SmProcess _ => true | _ => false end)
       calls).

(** What finite arguments keep: a coefficient in [[0, 1]], a finite state,
    a finite positive time constant and a positive sample rate. *)
Definition smoother_ok (s : OnePoleSmoother.t) : Prop :=
  in_range f_0 f_1 (OnePoleSmoother.a s)
  /\ finite32 (OnePoleSmoother.z s)
  /\ finite32 (OnePoleSmoother.tau s)
  /\ (f_0 <? OnePoleSmoother.tau s)%f32 = true
  /\ F64.valid (OnePoleSmoother.sampleRate s) = true
  /\ F64.gt (OnePoleSmoother.sampleRate s) F64.zero = true.

(** What [process] writes for the sample [s] under the gain [g] when the
    wet mix is 0: the clamped dry sample when the wet product is finite,
    and 1 when it is not ([0 * wetSig] is then a NaN, which [clamp11]
    turns into 1). *)
Definition dry_written (s g : float) : float :=
  if F32.is_finite ((s + f_1e_20) * g)%f32 then clamp11 (s + f_1e_20)%f32
  else f_1.




(** A rate of 240 kHz, five times the default sample rate. *)
Definition f_240000 : float := Eval vm_compute in F32.of_Z 240000.

(** Reference values of the C library, correctly rounded:
    [exp(-1/480) = 0.99791884f], the smoothing coefficient at 48 kHz with
    [tau = 0.01f] (the argument is [float(-1.0 / 480.0)]); and the sine of
    the [float] nearest to [8*pi], which is above [8*pi] by [6.99e-7]. *)
Definition f_exp_coeff : float := S754_finite false 16742300 (-24).
Definition f_sin_8pi : float := S754_finite false 12303662 (-44).

(** [2^-21] and [2^-20]: the sine above lies between them. *)
Definition f_2pm21 : float := S754_finite false 8388608 (-44).
Definition f_2pm20 : float := S754_finite false 8388608 (-43).

(** A library for the examples: right at [sin 0 = 0], [tanh 0 = 0] and at
    the two arguments above. *)
Definition libm_ref : Libm :=
  {| sinf := fun x => if F32.eqb x f_0 then f_0 else f_sin_8pi;
     tanhf := fun _ => f_0;
     expf := fun _ => f_exp_coeff |}.

(** An engine at the default 48 kHz with the rate set to 240 kHz, in the
    configuration of the spec's stereo scenario (depth 1, wet 1, sine, no
    stereo offset). *)
Definition fast_engine : Tremolo.t :=
  Tremolo.setStereoPhaseDeg f_0
    (Tremolo.setShape Sine
       (Tremolo.setWet f_1
          (Tremolo.setRateHz f_240000 (Tremolo.setDepth f_1 Tremolo.init)))).

(** ** Definitions for the rounding theory

    [binary_round_aux] works on a mantissa with two extra bits of
    information (a round bit and a sticky bit); [Tenc] packs the three into
    one integer, so that the order of the packed integers is the order of the
    quantities they stand for. *)

Definition Tenc (mrs : shr_record) : Z :=
  4 * shr_m mrs + (if shr_r mrs then 2 else 0) + (if shr_s mrs then 1 else 0).

Definition loc_bits (l : location) : Z :=
  match l with
  | loc_Exact => 0
  | loc_Inexact Lt => 1
  | loc_Inexact Eq => 2
  | loc_Inexact Gt => 3
  end.

Definition rne (mrs : shr_record) : Z :=
  round_nearest_even (shr_m mrs) (loc_of_shr_record mrs).

Definition finite_or_zero (x : spec_float) : bool :=
  match x with
  | S754_zero _ | S754_finite _ _ _ => true
  | _ => false
  end.

Definition has_sign (s : bool) (x : spec_float) : Prop :=
  match x with
  | S754_zero s' | S754_infinity s' | S754_finite s' _ _ => s' = s
  | S754_nan => False
  end.

Module Rnd.
Section Defs.
Variables prec emax : Z.

Definition round_shape (s : bool) (m1 c : Z) : spec_float :=
  if m1 =? 0 then S754_zero s
  else if m1 <? 2 ^ prec then
    (if c <=? emax - prec then S754_finite s (Z.to_pos m1) c else S754_infinity s)
  else
    (if c + 1 <=? emax - prec then S754_finite s (Z.to_pos (2 ^ (prec - 1))) (c + 1)
     else S754_infinity s).

Definition shifted (m e : Z) (l : location) : shr_record :=
  Nat.iter (Z.to_nat (SpecFloat.fexp prec emax (Zdigits2 m + e) - e)) shr_1 (shr_record_of_loc m l).

Definition mag (x : spec_float) : Z :=
  match x with
  | S754_finite _ m e => Zpos m * 2 ^ (e - SpecFloat.emin prec emax)
  | _ => 0
  end.

(** The signed magnitude, in units of [2 ^ SpecFloat.emin prec emax]. *)
Definition sv (x : spec_float) : Z :=
  match x with
  | S754_finite s m e => cond_Zopp s (Zpos m * 2 ^ (e - SpecFloat.emin prec emax))
  | _ => 0
  end.

Definition aligned_exp (m : positive) (e : Z) : Z :=
  Z.min e (SpecFloat.fexp prec emax (Zdigits2 (Zpos m) + e)).

End Defs.
End Rnd.

(** The value of a finite [float], in units of [2^-149]. *)
Abbreviation sv32 := (Rnd.sv F32.prec F32.emax).

(** * More of the program, and the vocabulary of its properties *)

(** A sample in [[-1, 1]] (in particular not a NaN). *)
Definition clamped (v : float) : Prop :=
  (f_neg1 <=? v)%f32 = true /\ (v <=? f_1)%f32 = true.

(** The members of the engine that [process] only reads. *)
Definition parameters (tr : Tremolo.t)
    : double * float * float * float * float * LFOShape :=
  (Tremolo.sr_ tr, Tremolo.rateHz_ tr, Tremolo.depth_ tr, Tremolo.wet_ tr,
   Tremolo.stereoPhaseR_ tr, Tremolo.shape_ tr).

(** The public member functions of [struct Tremolo], as calls a client
    makes on one engine. *)
Inductive call :=
  | SetSampleRate (fs : double)
  | SetDepth (d : float)
  | SetRateHz (r : float)
  | SetWet (w : float)
  | SetStereoPhaseDeg (deg : float)
  | SetShape (s : LFOShape)
  | Process (interleaved : option (list float)) (frames : nat) (channels : Z).

(** The engine after one call; [None] when [process] reads outside the
    buffer. *)
Definition apply_call (libm : Libm) (tr : Tremolo.t) (c : call)
    : option Tremolo.t :=
  match c with
  | SetSampleRate fs => Some (Tremolo.setSampleRate libm fs tr)
  | SetDepth d => Some (Tremolo.setDepth d tr)
  | SetRateHz r => Some (Tremolo.setRateHz r tr)
  | SetWet w => Some (Tremolo.setWet w tr)
  | SetStereoPhaseDeg deg => Some (Tremolo.setStereoPhaseDeg deg tr)
  | SetShape s => Some (Tremolo.setShape s tr)
  | Process interleaved frames channels =>
      fst <$> Tremolo.process libm tr interleaved frames channels
  end.

(** The engine after a sequence of calls on a default-constructed one. *)
Definition run_calls (libm : Libm) (calls : list call) : option Tremolo.t :=
  foldl (fun tr c => tr ≫= fun tr => apply_call libm tr c)
    (Some Tremolo.init) calls.

(** The floating-point arguments of a call are IEEE-754 values. *)
Definition valid_call (c : call) : Prop :=
  match c with
  | SetStereoPhaseDeg deg => F32.valid deg = true
  | _ => True
  end.

(** What every engine satisfies, whatever was called on it. *)
Definition engine_ok (libm : Libm) (tr : Tremolo.t) : Prop :=
  F64.gt (Tremolo.sr_ tr) F64.zero = true
  /\ in_unit (Tremolo.depth_ tr)
  /\ in_unit (Tremolo.wet_ tr)
  /\ (f_0_0001 <=? Tremolo.rateHz_ tr)%f32 = true
  /\ in_range f_0 f_0_5 (Tremolo.stereoPhaseR_ tr)
  /\ OnePoleSmoother.sampleRate (Tremolo.depthSm_ tr) = Tremolo.sr_ tr
  /\ OnePoleSmoother.sampleRate (Tremolo.rateSm_ tr) = Tremolo.sr_ tr
  /\ OnePoleSmoother.tau (Tremolo.depthSm_ tr) = f_0_01
  /\ OnePoleSmoother.tau (Tremolo.rateSm_ tr) = f_0_01
  /\ OnePoleSmoother.a (Tremolo.depthSm_ tr)
       = OnePoleSmoother.a (Tremolo.rateSm_ tr)
  /\ (OnePoleSmoother.a (Tremolo.rateSm_ tr) = f_0
      \/ OnePoleSmoother.a (Tremolo.rateSm_ tr)
           = OnePoleSmoother.coeff libm f_0_01 (Tremolo.sr_ tr)).

(** ** [WavIO.h], [WAVIO.cpp] *)

(** [struct WavData]. *)
Record WavData := mkWavData {
  sampleRate : Z;
  channels : Z;
  samples : list float
}.

(** [std::lround] on a [float]: the nearest integer, halfway cases away
    from zero.  The result is unspecified for a NaN, an infinity, or a
    value outside the range of [long], which has at least 32 bits:
    [None]. *)
Definition lround (x : float) : option Z :=
  match x with
  | S754_zero _ => Some 0
  | S754_finite s m e =>
      let r := if 0 <=? e then Zpos m * 2 ^ e
               else (2 * Zpos m + 2 ^ (- e)) / (2 * 2 ^ (- e)) in
      if r <? 2 ^ 31 then Some (cond_Zopp s r) else None
  | _ => None
  end.

(** The conversion [(int16_t) v] of an integer: modulo [2^16]. *)
Definition to_int16 (v : Z) : Z := (v + 32768) mod 65536 - 32768.

Module WavIO.

Definition f_32767 : float := Eval vm_compute in F32.of_Z 32767.
Definition f_32768 : float := Eval vm_compute in F32.of_Z 32768.
Definition f_0_9999695 : float :=
  Eval vm_compute in F32.of_ratio 9999695 10000000.

(** [const float scale = 1.0f / 32768.0f;] *)
Definition scale : float := (f_1 / f_32768)%f32.

(** [read16]: [std::max(-1.0f, std::min(0.9999695f, temp[i] * scale))] for
    the [int16_t] sample [temp[i]], which the product converts to
    [float]. *)
Definition sample_of_int16 (n : Z) : float :=
  std_max f_neg1 (std_min f_0_9999695 (F32.of_Z n * scale)%f32).

(** [write16]: [float c = std::max(-1.0f, std::min(1.0f, x));
    int16_t s = (int16_t)std::lround(c * 32767.0f);] *)
Definition int16_of_sample (x : float) : option Z :=
  let c := std_max f_neg1 (std_min f_1 x) in
  to_int16 <$> lround (c * f_32767)%f32.

(** *** Bytes

    The integers of the header go to the file as they lie in memory; the
    model takes the byte order of the hosts the program is built for,
    least significant byte first. *)

Definition byte_of_Z (z : Z) : Byte.byte :=
  default Byte.x00 (Byte.of_N (Z.to_N (z mod 256))).

Definition Z_of_byte (b : Byte.byte) : Z := Z.of_N (Byte.to_N b).

(** The memory of a [uint16_t], of a [uint32_t]. *)
Definition u16_bytes (v : Z) : list Byte.byte :=
  [byte_of_Z v; byte_of_Z (v / 2 ^ 8)].

Definition u32_bytes (v : Z) : list Byte.byte :=
  [byte_of_Z v; byte_of_Z (v / 2 ^ 8); byte_of_Z (v / 2 ^ 16);
   byte_of_Z (v / 2 ^ 24)].

(** The unsigned integer whose memory starts with the given bytes and is
    zero after them. *)
Definition Z_of_bytes (bs : list Byte.byte) : Z :=
  foldr (fun b acc => Z_of_byte b + 256 * acc) 0 bs.

(** The conversion [int(v)] of a [uint32_t]. *)
Definition to_int32 (v : Z) : Z := (v + 2 ^ 31) mod 2 ^ 32 - 2 ^ 31.

(** *** [write16]

    The bytes written to a file that could be opened ([write16] returns
    [false] and writes nothing when it could not); [None] when the
    conversion of a sample is not defined. *)
Definition write16 (w : WavData) : option (list Byte.byte) :=
  let channels := channels w mod 2 ^ 16 in
  let sampleRate := sampleRate w mod 2 ^ 32 in
  let bitsPerSample := 16 in
  let blockAlign := (channels * bitsPerSample / 8) mod 2 ^ 16 in
  let byteRate := (sampleRate * blockAlign) mod 2 ^ 32 in
  let dataBytes := (Z.of_nat (length (samples w)) * 2) mod 2 ^ 32 in
  let riffChunkSize := (36 + dataBytes) mod 2 ^ 32 in
  body ← mapM int16_of_sample (samples w);
  Some (String.list_byte_of_string "RIFF" ++ u32_bytes riffChunkSize
        ++ String.list_byte_of_string "WAVE"
        ++ String.list_byte_of_string "fmt " ++ u32_bytes 16
        ++ u16_bytes 1
        ++ u16_bytes channels
        ++ u32_bytes sampleRate
        ++ u32_bytes byteRate
        ++ u16_bytes blockAlign
        ++ u16_bytes bitsPerSample
        ++ String.list_byte_of_string "data" ++ u32_bytes dataBytes
        ++ concat (u16_bytes <$> body)).

(** *** The input stream

    A [std::ifstream] on a file that could be opened: the bytes of the
    file, the read position, and the state bits that [read16] can meet
    ([badbit] needs a failing device).  The position may lie beyond the
    end of the file; a read there finds nothing. *)
Record ifstream := mkStream {
  data : list Byte.byte;
  pos : Z;
  failbit : bool;
  eofbit : bool
}.

(** [f.read(s, n)]: the characters stored and the stream after the call.
    On a stream that is not good the call sets [failbit] and stores
    nothing; at the end of the file it stores what is left and sets
    [eofbit] and [failbit]. *)
Definition read (n : Z) (f : ifstream) : list Byte.byte * ifstream :=
  if failbit f || eofbit f then
    ([], {| data := data f; pos := pos f; failbit := true;
            eofbit := eofbit f |})
  else
    let got := take (Z.to_nat n) (drop (Z.to_nat (pos f)) (data f)) in
    if Z.of_nat (length got) <? n then
      (got, {| data := data f; pos := pos f + Z.of_nat (length got);
               failbit := true; eofbit := true |})
    else
      (got, {| data := data f; pos := pos f + n; failbit := false;
               eofbit := false |}).

(** [read_u32], [read_u16]: [v = 0] keeps the bytes that the read does not
    store. *)
Definition read_u32 (f : ifstream) : Z * ifstream :=
  let '(bs, f) := read 4 f in (Z_of_bytes bs, f).

Definition read_u16 (f : ifstream) : Z * ifstream :=
  let '(bs, f) := read 2 f in (Z_of_bytes bs, f).

(** [f.seekg(off, std::ios::cur)] with [off >= 0]: the call clears
    [eofbit] and, unless [failbit] is set, moves the position. *)
Definition seekg_cur (off : Z) (f : ifstream) : ifstream :=
  if failbit f then
    {| data := data f; pos := pos f; failbit := true; eofbit := false |}
  else
    {| data := data f; pos := pos f + off; failbit := false;
       eofbit := false |}.

(** [f.seekg(p)]: a negative position, which is what a failed [tellg]
    gives, makes the call fail. *)
Definition seekg (p : Z) (f : ifstream) : ifstream :=
  if failbit f then
    {| data := data f; pos := pos f; failbit := true; eofbit := false |}
  else if p <? 0 then
    {| data := data f; pos := pos f; failbit := true; eofbit := false |}
  else
    {| data := data f; pos := p; failbit := false; eofbit := false |}.

(** [f.tellg()]: [-1] on a stream that is not good, which then has
    [failbit] set. *)
Definition tellg (f : ifstream) : Z * ifstream :=
  if failbit f || eofbit f then
    (-1, {| data := data f; pos := pos f; failbit := true;
            eofbit := eofbit f |})
  else (pos f, f).

(** [f.clear()] *)
Definition clear (f : ifstream) : ifstream :=
  {| data := data f; pos := pos f; failbit := false; eofbit := false |}.

(** [std::strncmp(s, lit, 4) != 0] for the four characters [lit] of a
    literal and an array [s] of which only the characters [got] were
    stored: the comparison stops at the first difference, and has no
    defined result when it reaches a character that was not stored. *)
Fixpoint differs (got lit : list Byte.byte) : option bool :=
  match lit with
  | [] => Some false
  | c :: lit' =>
      match got with
      | [] => None
      | b :: got' =>
          if Byte.eqb b c then differs got' lit' else Some true
      end
  end.

(** [std::strncmp(id, lit, 4) == 0] on four characters that were read. *)
Definition same4 (id lit : list Byte.byte) : bool :=
  match differs id lit with Some false => true | _ => false end.

(** The variables that the chunk loop of [read16] sets. *)
Record fmt := mkFmt {
  audioFormat : Z;
  numChannels : Z;
  bitsPerSample : Z;
  fmt_sampleRate : Z;
  byteRate : Z;
  blockAlign : Z;
  dataSize : Z;
  dataPos : Z
}.

(** [while (f && !f.eof())], with [fuel] iterations allowed. *)
Fixpoint chunks (fuel : nat) (f : ifstream) (h : fmt)
    : option (ifstream * fmt) :=
  if negb (failbit f) && negb (eofbit f) then
    match fuel with
    | O => None
    | S fuel' =>
        let '(id, f) := read 4 f in
        if failbit f then Some (f, h)
        else
          let '(sz, f) := read_u32 f in
          let '(f, h) :=
            if same4 id (String.list_byte_of_string "fmt ") then
              let '(v1, f) := read_u16 f in
              let '(v2, f) := read_u16 f in
              let '(v3, f) := read_u32 f in
              let '(v4, f) := read_u32 f in
              let '(v5, f) := read_u16 f in
              let '(v6, f) := read_u16 f in
              (if 16 <? sz then seekg_cur (sz - 16) f else f,
               {| audioFormat := v1; numChannels := v2; bitsPerSample := v6;
                  fmt_sampleRate := v3; byteRate := v4; blockAlign := v5;
                  dataSize := dataSize h; dataPos := dataPos h |})
            else if same4 id (String.list_byte_of_string "data") then
              let '(p, f) := tellg f in
              (seekg_cur sz f,
               {| audioFormat := audioFormat h; numChannels := numChannels h;
                  bitsPerSample := bitsPerSample h;
                  fmt_sampleRate := fmt_sampleRate h; byteRate := byteRate h;
                  blockAlign := blockAlign h; dataSize := sz; dataPos := p |})
            else (seekg_cur sz f, h) in
          let f := if Z.odd sz then seekg_cur 1 f else f in
          chunks fuel' f h
    end
  else Some (f, h).

(** What a call of [read16] comes to. *)
Inductive outcome :=
  | Returned (ok : bool) (out : option WavData)
  | Thrown (what : string)
  | Undefined
  | OutOfFuel.

(** The [int16_t] at index [i] of the zero-initialised [temp] into which
    the bytes [raw] were read. *)
Definition temp_at (raw : list Byte.byte) (i : nat) : Z :=
  to_int16
    (Z_of_byte (default Byte.x00 (raw !! (2 * i)%nat))
     + 256 * Z_of_byte (default Byte.x00 (raw !! (2 * i + 1)%nat))).

(** [read16] on the file at [path], if it can be opened.  [out] is only
    written on success.  Every iteration of the chunk loop that goes on
    has read four bytes, so one iteration more than the file has bytes is
    enough. *)
Definition read16 (file : option (list Byte.byte)) : outcome :=
  match file with
  | None => Returned false None
  | Some bytes =>
      let f := {| data := bytes; pos := 0; failbit := false;
                  eofbit := false |} in
      let '(riff, f) := read 4 f in
      match differs riff (String.list_byte_of_string "RIFF") with
      | None => Undefined
      | Some true => Thrown "Not a RIFF file"
      | Some false =>
          let '(_, f) := read_u32 f in
          let '(wave, f) := read 4 f in
          match differs wave (String.list_byte_of_string "WAVE") with
          | None => Undefined
          | Some true => Thrown "Not a WAVE file"
          | Some false =>
              match
                chunks (S (length bytes)) f
                  {| audioFormat := 0; numChannels := 0; bitsPerSample := 0;
                     fmt_sampleRate := 0; byteRate := 0; blockAlign := 0;
                     dataSize := 0; dataPos := 0 |}
              with
              | None => OutOfFuel
              | Some (f, h) =>
                  if negb (audioFormat h =? 1) then
                    Thrown "Unsupported WAV format (not PCM)"
                  else if negb (bitsPerSample h =? 16) then
                    Thrown "Unsupported bits (need 16-bit)"
                  else if (numChannels h <? 1) || (2 <? numChannels h) then
                    Thrown "Unsupported channel count"
                  else
                    let f := seekg (dataPos h) (clear f) in
                    let '(raw, f) := read (dataSize h) f in
                    let n := Z.to_nat (dataSize h / 2) in
                    if (2 * n <? length raw)%nat then Undefined
                    else
                      Returned true
                        (Some
                           {| sampleRate := to_int32 (fmt_sampleRate h);
                              channels := numChannels h;
                              samples :=
                                (fun i => sample_of_int16 (temp_at raw i))
                                <$> seq 0 n |})
              end
          end
      end
  end.

End WavIO.

(** The checks of the sample conversions on one 16-bit value, and on a
    range of them. *)
Definition int16_check (n : Z) : bool :=
  let x := WavIO.sample_of_int16 n in
  F32.valid x && F32.is_finite x && (sv32 x =? n * 2 ^ 134)
  && match WavIO.int16_of_sample x with
     | Some v => v =? (if Z.abs n <=? 16416 then n else n - Z.sgn n)
     | None => false
     end.

Fixpoint int16_check_from (lo : Z) (k : nat) : bool :=
  match k with
  | O => true
  | S k' => int16_check lo && int16_check_from (lo + 1) k'
  end.

(** A file with the 44-byte header that [write16] writes: the RIFF size
    [riff], a [fmt] chunk of 16 bytes for PCM with 16 bits, a [data]
    chunk announced with [sz] bytes, and the bytes [payload] up to the end
    of the file. *)
Definition pcm16_header (riff ch sr br ba sz : Z) : list Byte.byte :=
  String.list_byte_of_string "RIFF" ++ WavIO.u32_bytes riff
  ++ String.list_byte_of_string "WAVE"
  ++ String.list_byte_of_string "fmt " ++ WavIO.u32_bytes 16
  ++ WavIO.u16_bytes 1 ++ WavIO.u16_bytes ch ++ WavIO.u32_bytes sr
  ++ WavIO.u32_bytes br ++ WavIO.u16_bytes ba ++ WavIO.u16_bytes 16
  ++ String.list_byte_of_string "data" ++ WavIO.u32_bytes sz.

Definition pcm16_file (riff ch sr br ba sz : Z) (payload : list Byte.byte)
    : list Byte.byte :=
  pcm16_header riff ch sr br ba sz ++ payload.

(** A good stream that has read [pre] and has [rest] before it. *)
Definition stream_at (pre rest : list Byte.byte) : WavIO.ifstream :=
  {| WavIO.data := pre ++ rest; WavIO.pos := Z.of_nat (length pre);
     WavIO.failbit := false; WavIO.eofbit := false |}.

(** The value of a finite [double], in units of [2^-1074]. *)
Abbreviation sv64 := (Rnd.sv F64.prec F64.emax).

Definition finite64 (x : double) : Prop :=
  F64.valid x = true /\ finite_or_zero x = true.

(** A [double] in [[0, n]], for an integer [n]. *)
Definition within64 (n : Z) (x : double) : Prop :=
  finite64 x /\ 0 <= sv64 x <= n * 2 ^ 1074.

(** The depth path of an engine: the depth and the state and the
    coefficient of the depth smoother in [[0, 1]]. *)
Definition depth_path_ok (tr : Tremolo.t) : Prop :=
  in_range f_0 f_1 (Tremolo.depth_ tr)
  /\ in_range f_0 f_1 (OnePoleSmoother.a (Tremolo.depthSm_ tr))
  /\ in_range f_0 f_1 (OnePoleSmoother.z (Tremolo.depthSm_ tr)).

(** The waveform values of one frame: at the left phase [phase_] and at
    the right phase [fmod(phase_ + stereoPhaseR_, 1.0f)]. *)
Definition lfo_left (libm : Libm) (tr : Tremolo.t) : float :=
  Tremolo.lfo libm (Tremolo.shape_ tr) (Tremolo.phase_ tr).

Definition lfo_right (libm : Libm) (tr : Tremolo.t) : float :=
  Tremolo.lfo libm (Tremolo.shape_ tr)
    (fmodf (Tremolo.phase_ tr + Tremolo.stereoPhaseR_ tr)%f32 f_1).

(** A triangle engine at 48 kHz with full depth, a rate of 5 Hz and the
    right channel a quarter of a period ahead, as the setters leave it. *)
Definition triangle_engine : Tremolo.t :=
  Tremolo.setStereoPhaseDeg (F32.of_Z 90)
    (Tremolo.setShape Triangle
       (Tremolo.setDepth f_1
          (Tremolo.setSampleRate libm_ref d_48000 Tremolo.init))).

(** ** [Tremolo::parseShape] *)

(** [std::tolower] in the "C" locale, the one in force as the program never
    calls [setlocale]: the letters [A]..[Z] go to [a]..[z] and every other
    character of the basic set is returned as it is. *)
Definition tolower (c : Ascii.ascii) : Ascii.ascii :=
  let n := Ascii.nat_of_ascii c in
  if ((65 <=? n) && (n <=? 90))%nat then Ascii.ascii_of_nat (n + 32) else c.

(** A [char] above 127 is negative where [char] is signed; [std::tolower]
    has no defined behaviour on such an argument. *)
Definition is_basic (c : Ascii.ascii) : bool := (Ascii.nat_of_ascii c <? 128)%nat.

(** [auto lower = s; for (auto& c : lower) c = char(std::tolower(c));]:
    [None] when a character is outside the domain of [std::tolower]. *)
Fixpoint lower (s : string) : option string :=
  match s with
  | EmptyString => Some EmptyString
  | String c rest =>
      if is_basic c then String (tolower c) <$> lower rest else None
  end.

Definition parseShape (s : string) : option LFOShape :=
  l ← lower s;
  Some (if String.eqb l "sine" then Sine
        else if String.eqb l "triangle" then Triangle
        else if String.eqb l "square" then Square
        else if String.eqb l "square-soft" then SquareSoft
        else Sine).

(** Two characters that are equal, or the upper-case and the lower-case
    form of one letter. *)
Definition same_letter (c d : Ascii.ascii) : bool :=
  let n := Ascii.nat_of_ascii c in
  let k := Ascii.nat_of_ascii d in
  ((n =? k) || ((65 <=? n) && (n <=? 90) && (k =? n + 32))
   || ((65 <=? k) && (k <=? 90) && (n =? k + 32)))%nat.

(** Two strings that are equal up to the case of their letters. *)
Fixpoint same_word (s t : string) : bool :=
  match s, t with
  | EmptyString, EmptyString => true
  | String c s', String d t' => same_letter c d && same_word s' t'
  | _, _ => false
  end.

(** A string without upper-case letters. *)
Fixpoint no_upper (t : string) : bool :=
  match t with
  | EmptyString => true
  | String d t' =>
      negb ((65 <=? Ascii.nat_of_ascii d) && (Ascii.nat_of_ascii d <=? 90))%nat
      && no_upper t'
  end.

Fixpoint all_basic (s : string) : bool :=
  match s with
  | EmptyString => true
  | String c rest => is_basic c && all_basic rest
  end.

(** ** [main.cpp]: the audio path of [main] *)

Module App.

(** [struct Args]. *)
Record Args := mkArgs {
  in_ : string;
  out : string;
  rate : float;
  depth : float;
  wet : float;
  stereophase : float;
  shape : string;
  analyze : bool;
  demo : bool;
  rateSync : string
}.

Definition f_0_2 : float := Eval vm_compute in F32.of_ratio 2 10.
Definition f_0_8 : float := Eval vm_compute in F32.of_ratio 8 10.
Definition d_1 : double := Eval vm_compute in F64.of_Z 1.
Definition demoStart : double := Eval vm_compute in F64.of_Z 5.
Definition demoEnd : double := Eval vm_compute in F64.of_Z 8.

Definition dsub : double -> double -> double := SFsub F64.prec F64.emax.
Definition dle (x y : double) : bool := SFleb x y.

(** [std::floor] of a finite [double], as an integer. *)
Definition floor_Z (x : double) : option Z :=
  match x with
  | S754_zero _ => Some 0
  | S754_finite s m e =>
      Some (if 0 <=? e then cond_Zopp s (Zpos m) * 2 ^ e
            else cond_Zopp s (Zpos m) / 2 ^ (- e))
  | _ => None
  end.

(** [size_t(std::floor(x))]: the conversion is not defined for a NaN, an
    infinity, or a floor that a (64-bit) [size_t] cannot hold, a negative
    one included. *)
Definition size_t_of_floor (x : double) : option Z :=
  z ← floor_Z x;
  if (0 <=? z) && (z <? 2 ^ 64) then Some z else None.

(** [NoOpController::update]: the rate and the depth, passed by reference,
    are left as they are. *)
Definition NoOpController_update (timeSeconds : double) (rms zcr : float)
    (rateHz_depth : float * float) : float * float := rateHz_depth.

(** [const size_t block = 512;] *)
Definition block : nat := 512.

Section WithEnv.
Context (libm : Libm) (stof : string -> option float).

(** The engine of [main] before the loop: the six setters, then the
    optional rate sync.  [None] when [parseShape] is outside its domain. *)
Definition setup (args : Args) (fs : Z) : option Tremolo.t :=
  let trem := Tremolo.init in
  let trem := Tremolo.setSampleRate libm (F64.of_Z fs) trem in
  let trem := Tremolo.setDepth (depth args) trem in
  let trem := Tremolo.setRateHz (rate args) trem in
  let trem := Tremolo.setWet (wet args) trem in
  let trem := Tremolo.setStereoPhaseDeg (stereophase args) trem in
  s ← parseShape (shape args);
  let trem := Tremolo.setShape s trem in
  Some (Main.rateSync stof (rateSync args) trem).

(** The body of the per-sample loop "features + controller" at index [i]
    of the block: it works on the engine, the feature extractor and
    [timeSec].  The sums kept for [--analyze] only reach the printed
    report and are left out. *)
Definition feature_step (args : Args) (nch : Z) (dt : double)
    (blockBuf : list float) (i : nat)
    (st : Tremolo.t * FeatureExtractor.t * double)
    : option (Tremolo.t * FeatureExtractor.t * double) :=
  let '(trem, feat, timeSec) := st in
  L ← blockBuf !! (if nch =? 1 then i else (i * 2 + 0)%nat);
  R ← blockBuf !! (if nch =? 1 then i else (i * 2 + 1)%nat);
  let feat := FeatureExtractor.pushSample L R feat in
  let '(trem, feat) :=
    if FeatureExtractor.ready feat then
      let rms := FeatureExtractor.rms feat in
      let zcr := FeatureExtractor.zcr feat in
      let '(rate1, depth1) :=
        NoOpController_update timeSec rms zcr (rate args, depth args) in
      (Tremolo.setDepth depth1 (Tremolo.setRateHz rate1 trem),
       FeatureExtractor.reset feat)
    else (trem, feat) in
  let trem :=
    if demo args && dle demoStart timeSec && dle timeSec demoEnd then
      let t :=
        float_of_double
          (F64.div (dsub timeSec demoStart) (dsub demoEnd demoStart)) in
      let d := (depth args * (f_0_2 + f_0_8 * t))%f32 in
      Tremolo.setDepth d trem
    else if demo args && F64.gt timeSec demoEnd then
      Tremolo.setDepth (depth args) trem
    else trem in
  Some (trem, feat, F64.add timeSec dt).

(** [for (size_t i = 0; i < todo; ++i)], with [n] iterations left. *)
Fixpoint feature_loop (args : Args) (nch : Z) (dt : double)
    (blockBuf : list float) (n i : nat)
    (st : Tremolo.t * FeatureExtractor.t * double)
    : option (Tremolo.t * FeatureExtractor.t * double) :=
  match n with
  | O => Some st
  | S n' =>
      st' ← feature_step args nch dt blockBuf i st;
      feature_loop args nch dt blockBuf n' (S i) st'
  end.

(** The variables of the block loop. *)
Record state := mkState {
  trem : Tremolo.t;
  feat : FeatureExtractor.t;
  timeSec : double;
  audio_samples : list float;
  blockBuf : list float;
  processed : nat
}.

(** One iteration of [while (processed < frames)]: copy the block, run the
    feature loop, process the block in place, copy it back, and convert
    the time to whole seconds ([size_t curSec = size_t(std::floor(timeSec))],
    evaluated whatever [--analyze] is).  A copy that would leave either
    vector is [None], and so is a conversion that is not defined. *)
Definition block_step (args : Args) (nch : Z) (dt : double) (frames : nat)
    (st : state) : option state :=
  let todo := Nat.min block (frames - processed st) in
  let n := (todo * Z.to_nat nch)%nat in
  let off := (processed st * Z.to_nat nch)%nat in
  if ((off + n <=? length (audio_samples st))
      && (n <=? length (blockBuf st)))%nat then
    let bb := take n (drop off (audio_samples st)) ++ drop n (blockBuf st) in
    '(tr, fe, t) ←
      feature_loop args nch dt bb todo 0 (trem st, feat st, timeSec st);
    '(tr', obb) ← Tremolo.process libm tr (Some bb) todo nch;
    bb' ← obb;
    curSec ← size_t_of_floor t;
    Some {| trem := tr'; feat := fe; timeSec := t;
            audio_samples :=
              take off (audio_samples st) ++ take n bb'
              ++ drop (off + n) (audio_samples st);
            blockBuf := bb'; processed := (processed st + todo)%nat |}
  else None.

(** [while (processed < frames)], with [fuel] iterations allowed. *)
Fixpoint main_loop (args : Args) (nch : Z) (dt : double) (frames : nat)
    (fuel : nat) (st : state) : option state :=
  if (processed st <? frames)%nat then
    match fuel with
    | O => None
    | S fuel' =>
        st' ← block_step args nch dt frames st;
        main_loop args nch dt frames fuel' st'
    end
  else Some st.

(** The samples that [main] hands to [write16], from the [WavData] that
    [read16] gave it (one or two channels).  The product
    [audio.sampleRate * audio.channels] of [durationSec] is an [int]
    product: [None] when an [int] cannot hold it.  Every iteration of the
    loop takes at least one frame, so [frames] iterations are enough. *)
Definition main_audio (args : Args) (audio : WavData) : option (list float) :=
  if (1 <=? channels audio) && (channels audio <=? 2)
     && (- 2 ^ 31 <=? sampleRate audio * channels audio)
     && (sampleRate audio * channels audio <? 2 ^ 31) then
    tr ← setup args (sampleRate audio);
    let frames := (length (samples audio) / Z.to_nat (channels audio))%nat in
    let dt := F64.div d_1 (F64.of_Z (sampleRate audio)) in
    st ← main_loop args (channels audio) dt frames frames
           {| trem := tr; feat := FeatureExtractor.init; timeSec := F64.zero;
              audio_samples := samples audio;
              blockBuf := replicate (block * Z.to_nat (channels audio)) f_0;
              processed := 0 |};
    Some (audio_samples st)
  else None.

End WithEnv.

(** [trem.setRateHz(rate); trem.setDepth(depth);] with the values of the
    command line: what the loop does each time an analysis frame is
    complete. *)
Definition retarget (args : Args) (tr : Tremolo.t) : Tremolo.t :=
  Tremolo.setDepth (depth args) (Tremolo.setRateHz (rate args) tr).

End App.

(** A command line that sets [--rate-sync], a [stof] that reads 120, and a
    mono file of 1024 samples. *)
Definition sync_args : App.Args :=
  {| App.in_ := "in.wav"; App.out := "out.wav"; App.rate := f_5;
     App.depth := f_0_6; App.wet := f_1; App.stereophase := f_0;
     App.shape := "sine"; App.analyze := false; App.demo := false;
     App.rateSync := "bpm:120,div:1/8" |}.

Definition plain_args : App.Args :=
  {| App.in_ := "in.wav"; App.out := "out.wav"; App.rate := f_5;
     App.depth := f_0_6; App.wet := f_1; App.stereophase := f_0;
     App.shape := "sine"; App.analyze := false; App.demo := false;
     App.rateSync := "" |}.

Definition stof_120 (s : string) : option float := Some (F32.of_Z 120).

Definition mono_1024 : WavData :=
  {| sampleRate := 44100; channels := 1; samples := replicate 1024 f_0_5 |}.

(** A command line with [--demo] and [--rate-sync], and a stereo file of
    three samples: one frame and a sample left over. *)
Definition demo_args : App.Args :=
  {| App.in_ := "in.wav"; App.out := "out.wav"; App.rate := f_5;
     App.depth := f_0_6; App.wet := f_0_5; App.stereophase := f_0;
     App.shape := "Triangle"; App.analyze := true; App.demo := true;
     App.rateSync := "bpm:120,div:1/8" |}.

Definition stereo_3 : WavData :=
  {| sampleRate := 44100; channels := 2;
     samples := [F32.nan; F32.infinity; f_2] |}.
(** The state of the block loop after some blocks: the lengths are kept,
    the frames already processed hold values in [[-1, 1]], the others are
    as they were read, and the time is at most one second per frame. *)
Definition loop_inv (orig : list float) (c frames : nat) (st : App.state) : Prop :=
  length (App.audio_samples st) = length orig
  /\ length (App.blockBuf st) = (App.block * c)%nat
  /\ (App.processed st <= frames)%nat
  /\ (forall j v, (j < App.processed st * c)%nat ->
        App.audio_samples st !! j = Some v -> clamped v)
  /\ (forall j, (App.processed st * c <= j)%nat ->
        App.audio_samples st !! j = orig !! j)
  /\ within64 (Z.of_nat (App.processed st)) (App.timeSec st).

(** ** [WAVIO.cpp]: [makeTestPad] *)

(** [int(x)] for a [float]: the fraction is dropped; the conversion is not
    defined for a NaN, an infinity, or a value that an [int] cannot
    hold. *)
Definition to_int (x : float) : option Z :=
  match x with
  | S754_zero _ => Some 0
  | S754_finite s m e =>
      let mag := if 0 <=? e then Z.pos m * 2 ^ e else Z.pos m / 2 ^ (- e) in
      let z := cond_Zopp s mag in
      if (- 2 ^ 31 <=? z) && (z <? 2 ^ 31) then Some z else None
  | _ => None
  end.

Definition f_220 : float := Eval vm_compute in F32.of_Z 220.
Definition f_330 : float := Eval vm_compute in F32.of_Z 330.
Definition f_10 : float := Eval vm_compute in F32.of_Z 10.
Definition f_neg0_2 : float := Eval vm_compute in F32.of_ratio (-2) 10.

Section TestPad.
Context (libm : Libm) (cosf : float -> float).

(** The body of the loop at frame [i]: the left and the right sample. *)
Definition pad_frame (seconds : float) (sr : Z) (i : Z) : list float :=
  let t := (F32.of_Z i / F32.of_Z sr)%f32 in
  let env :=
    (f_0_5 * (f_1 - cosf (f_2 * f_M_PI * std_min (t / seconds) f_1)))%f32 in
  let l := (App.f_0_2 * env * sinf libm (f_2 * f_M_PI * f_220 * t))%f32 in
  let r := (App.f_0_2 * env * sinf libm (f_2 * f_M_PI * f_330 * t))%f32 in
  [l; r].

(** [WavData WavIO::makeTestPad(float seconds, int sr)], with the cosine
    of the C library as a second parameter. *)
Definition makeTestPad (seconds : float) (sr : Z) : option WavData :=
  n ← to_int (seconds * F32.of_Z sr)%f32;
  let frames := Z.max 1 n in
  Some {| sampleRate := sr; channels := 2;
          samples :=
            concat ((fun i => pad_frame seconds sr (Z.of_nat i))
                      <$> seq 0 (Z.to_nat frames)) |}.

End TestPad.

(** A C library for the examples that propagates NaNs and infinities and
    is at an extreme of its range on every finite argument: the sine at
    its top, the cosine at its bottom. *)
Definition libm_peak : Libm :=
  {| sinf := fun x => if F32.is_finite x then f_1 else F32.nan;
     tanhf := fun x => if F32.is_finite x then f_1 else F32.nan;
     expf := fun x => if F32.is_finite x then f_1 else F32.nan |}.

Definition cosf_trough (x : float) : float :=
  if F32.is_finite x then f_neg1 else F32.nan.

(** * The rounding of [SpecFloat], in integer arithmetic

    The lemmas below are stated for any format with [0 < prec < emax]; they
    say that [binary_round_aux] returns a valid float, never moves across a
    representable bound, and leaves representable values alone.  The value
    [sv x] of a finite float is counted in units of [2 ^ emin], so it is an
    integer. *)

Lemma digits2_pos_size (m : positive) : digits2_pos m = Pos.size m.
Proof. induction m; cbn; congruence. Qed.

Lemma digits2_pos_bounds (m : positive) :
  2 ^ (Zpos (digits2_pos m) - 1) <= Zpos m < 2 ^ Zpos (digits2_pos m).
Proof.
  rewrite digits2_pos_size. split.
  - pose proof (Pos.size_le m) as H.
    assert (2 ^ Zpos (Pos.size m) <= 2 * Zpos m).
    { change (2 * Zpos m) with (Zpos (m~0)). rewrite <- Pos2Z.inj_pow. apply Pos2Z.pos_le_pos. exact H. }
    replace (Zpos (Pos.size m)) with (Z.succ (Zpos (Pos.size m) - 1)) in H0 by lia.
    rewrite Z.pow_succ_r in H0 by lia. lia.
  - pose proof (Pos.size_gt m) as H. 
    change 2 with (Zpos 2). rewrite <- Pos2Z.inj_pow. apply Pos2Z.pos_lt_pos. exact H.
Qed.

Lemma Zdigits2_bounds (m : Z) :
  0 < m -> 2 ^ (Zdigits2 m - 1) <= m < 2 ^ Zdigits2 m.
Proof. destruct m; try lia. intros _. apply digits2_pos_bounds. Qed.

Lemma Zdigits2_nonneg (m : Z) : 0 <= Zdigits2 m.
Proof. destruct m; cbn; lia. Qed.

Lemma Zdigits2_pos (m : Z) : 0 < m -> 0 < Zdigits2 m.
Proof. destruct m; cbn; lia. Qed.

(** digits are characterised by the bounds *)
Lemma Zdigits2_unique (m d : Z) :
  0 < m -> 2 ^ (d - 1) <= m < 2 ^ d -> Zdigits2 m = d.
Proof.
  intros Hm [Hlo Hhi].
  pose proof (Zdigits2_bounds m Hm) as [Hlo' Hhi'].
  pose proof (Zdigits2_pos m Hm).
  assert (0 < d).
  { destruct d as [|p|p]; [cbn in Hhi; lia | lia |].
    rewrite Z.pow_neg_r in Hhi by lia. lia. }
  destruct (Z.lt_trichotomy (Zdigits2 m) d) as [Hlt|[Heq|Hgt]]; auto; exfalso.
  - assert (2 ^ Zdigits2 m <= 2 ^ (d - 1)) by (apply Z.pow_le_mono_r; lia). lia.
  - assert (2 ^ d <= 2 ^ (Zdigits2 m - 1)) by (apply Z.pow_le_mono_r; lia). lia.
Qed.

Lemma Zdigits2_le (m1 m2 : Z) : 0 < m1 -> m1 <= m2 -> Zdigits2 m1 <= Zdigits2 m2.
Proof.
  intros H1 H12.
  pose proof (Zdigits2_bounds m1 H1) as [Hlo1 Hhi1].
  pose proof (Zdigits2_bounds m2 ltac:(lia)) as [Hlo2 Hhi2].
  destruct (Z.le_gt_cases (Zdigits2 m1) (Zdigits2 m2)); auto. exfalso.
  assert (2 ^ Zdigits2 m2 <= 2 ^ (Zdigits2 m1 - 1)) by (apply Z.pow_le_mono_r; lia). lia.
Qed.

(** ** Shifting a located mantissa *)


Lemma shr_1_m (mrs : shr_record) :
  0 <= shr_m mrs -> shr_m (shr_1 mrs) = shr_m mrs / 2.
Proof.
  destruct mrs as [m r s]. cbn [shr_m]. intros Hm.
  destruct m as [|q|q]; [reflexivity| |lia].
  destruct q as [q|q|]; cbn [shr_1 shr_m].
  - apply (Z.div_unique_pos _ 2 (Zpos q) 1); lia.
  - apply (Z.div_unique_pos _ 2 (Zpos q) 0); lia.
  - reflexivity.
Qed.

Lemma shr_1_nonneg (mrs : shr_record) :
  0 <= shr_m mrs -> 0 <= shr_m (shr_1 mrs).
Proof. intros H. rewrite shr_1_m by assumption. apply Z.div_pos; lia. Qed.

Lemma shr_1_Tenc (mrs : shr_record) :
  0 <= shr_m mrs ->
  Tenc (shr_1 mrs) = 2 * shr_m mrs + (if shr_r mrs || shr_s mrs then 1 else 0).
Proof.
  destruct mrs as [m r s]. cbn [shr_m shr_r shr_s]. intros Hm.
  destruct m as [|[p|p|]|p]; try lia; destruct r, s;
    unfold Tenc; cbn [shr_1 shr_m shr_r shr_s orb]; lia.
Qed.

Lemma shr_1_mono (a b : shr_record) :
  0 <= shr_m a -> 0 <= shr_m b ->
  Tenc a <= Tenc b -> Tenc (shr_1 a) <= Tenc (shr_1 b).
Proof.
  intros Ha Hb. rewrite !shr_1_Tenc by assumption. unfold Tenc.
  destruct (shr_r a), (shr_s a), (shr_r b), (shr_s b); cbn [orb]; lia.
Qed.

Lemma iter_pos_nat {A : Type} (f : A -> A) (p : positive) (x : A) :
  SpecFloat.iter_pos f p x = Nat.iter (Pos.to_nat p) f x.
Proof.
  revert x. induction p as [p IH|p IH|]; intros x; cbn [SpecFloat.iter_pos].
  - rewrite !IH, Pos2Nat.inj_xI.
    replace (S (2 * Pos.to_nat p)) with (Pos.to_nat p + S (Pos.to_nat p))%nat by lia.
    rewrite Nat.iter_add, Nat.iter_succ_r. reflexivity.
  - rewrite !IH, Pos2Nat.inj_xO.
    replace (2 * Pos.to_nat p)%nat with (Pos.to_nat p + Pos.to_nat p)%nat by lia.
    rewrite Nat.iter_add. reflexivity.
  - reflexivity.
Qed.

Lemma shr_nat (mrs : shr_record) (e n : Z) :
  0 <= n -> shr mrs e n = (Nat.iter (Z.to_nat n) shr_1 mrs, e + n).
Proof.
  intros Hn. destruct n as [|p|p]; try lia; cbn [shr].
  - rewrite Z.add_0_r. reflexivity.
  - rewrite iter_pos_nat. reflexivity.
Qed.

Lemma shr_neg (mrs : shr_record) (e n : Z) :
  n <= 0 -> shr mrs e n = (mrs, e).
Proof. destruct n; try lia; reflexivity. Qed.

Lemma iter_shr_1_nonneg (n : nat) (mrs : shr_record) :
  0 <= shr_m mrs -> 0 <= shr_m (Nat.iter n shr_1 mrs).
Proof.
  induction n as [|n IH]; intros H; [assumption|].
  rewrite Nat.iter_succ. apply shr_1_nonneg, IH, H.
Qed.

Lemma iter_shr_1_m (n : nat) (mrs : shr_record) :
  0 <= shr_m mrs ->
  shr_m (Nat.iter n shr_1 mrs) = shr_m mrs / 2 ^ Z.of_nat n.
Proof.
  intros H. induction n as [|n IH].
  - cbn. rewrite Z.div_1_r. reflexivity.
  - rewrite Nat.iter_succ, shr_1_m by (apply iter_shr_1_nonneg, H).
    rewrite IH, Nat2Z.inj_succ, Z.pow_succ_r by lia.
    rewrite Z.div_div by lia. f_equal. lia.
Qed.

Lemma iter_shr_1_mono (n : nat) (a b : shr_record) :
  0 <= shr_m a -> 0 <= shr_m b ->
  Tenc a <= Tenc b ->
  Tenc (Nat.iter n shr_1 a) <= Tenc (Nat.iter n shr_1 b).
Proof.
  intros Ha Hb Hab. induction n as [|n IH]; [assumption|].
  rewrite !Nat.iter_succ. apply shr_1_mono; auto using iter_shr_1_nonneg.
Qed.

Lemma iter_shr_1_exact (n : nat) (m : Z) :
  0 <= m ->
  Nat.iter n shr_1 (Build_shr_record (m * 2 ^ Z.of_nat n) false false) =
    Build_shr_record m false false.
Proof.
  revert m. induction n as [|n IH]; intros m Hm.
  - change (2 ^ Z.of_nat 0) with 1. rewrite Z.mul_1_r. reflexivity.
  - rewrite Nat.iter_succ_r.
    replace (shr_1 (Build_shr_record (m * 2 ^ Z.of_nat (S n)) false false))
      with (Build_shr_record (m * 2 ^ Z.of_nat n) false false).
    + apply IH, Hm.
    + rewrite Nat2Z.inj_succ, Z.pow_succ_r by lia.
      assert (0 <= m * 2 ^ Z.of_nat n) by (apply Z.mul_nonneg_nonneg; lia).
      replace (m * (2 * 2 ^ Z.of_nat n)) with (2 * (m * 2 ^ Z.of_nat n)) by lia.
      destruct (m * 2 ^ Z.of_nat n) as [|p|p]; try lia; reflexivity.
Qed.

(** ** Locations *)


Lemma Tenc_of_loc (m : Z) (l : location) :
  Tenc (shr_record_of_loc m l) = 4 * m + loc_bits l.
Proof.
  destruct l as [|[]]; unfold Tenc;
    cbn [shr_record_of_loc shr_m shr_r shr_s loc_bits]; lia.
Qed.

Lemma shr_m_of_loc (m : Z) (l : location) : shr_m (shr_record_of_loc m l) = m.
Proof. destruct l as [|[]]; reflexivity. Qed.


Lemma rne_bounds (mrs : shr_record) : shr_m mrs <= rne mrs <= shr_m mrs + 1.
Proof.
  destruct mrs as [m [] []]; unfold rne;
    cbn [shr_m loc_of_shr_record round_nearest_even]; try lia.
  destruct (Z.even m); lia.
Qed.

Lemma rne_exact (m : Z) : rne (Build_shr_record m false false) = m.
Proof. reflexivity. Qed.

Lemma rne_mono (a b : shr_record) : Tenc a <= Tenc b -> rne a <= rne b.
Proof.
  destruct a as [m1 r1 s1], b as [m2 r2 s2]. unfold Tenc, rne. cbn [shr_m shr_r shr_s].
  intros H.
  destruct r1, s1, r2, s2; cbn [loc_of_shr_record round_nearest_even] in *;
    try lia;
    try (destruct (Z.even m1) eqn:E1; try lia);
    try (destruct (Z.even m2) eqn:E2; try lia).
  all: destruct (Z.eq_dec m1 m2) as [->|Hne]; [congruence | lia].
Qed.

Lemma pow2_pos (k : Z) : 0 <= k -> 0 < 2 ^ k.
Proof. intros. apply Z.pow_pos_nonneg; lia. Qed.

Lemma pow2_split (a b : Z) : 0 <= a -> 0 <= b -> 2 ^ (a + b) = 2 ^ a * 2 ^ b.
Proof. intros. apply Z.pow_add_r; lia. Qed.

Lemma pow2_le (a b : Z) : 0 <= a <= b -> 2 ^ a <= 2 ^ b.
Proof. intros. apply Z.pow_le_mono_r; lia. Qed.

Lemma pow2_lt (a b : Z) : 0 <= a < b -> 2 ^ a < 2 ^ b.
Proof. intros. apply Z.pow_lt_mono_r; lia. Qed.

Lemma Zdigits2_pow2 (k : Z) : 0 <= k -> Zdigits2 (2 ^ k) = k + 1.
Proof.
  intros Hk. apply Zdigits2_unique.
  - apply pow2_pos; lia.
  - replace (k + 1 - 1) with k by lia. split; [lia|]. apply pow2_lt; lia.
Qed.


Lemma Zdigits2_mul_pow2 (m k : Z) :
  0 < m -> 0 <= k -> Zdigits2 (m * 2 ^ k) = Zdigits2 m + k.
Proof.
  intros Hm Hk. pose proof (Zdigits2_bounds m Hm) as [Hlo Hhi].
  pose proof (Zdigits2_pos m Hm). pose proof (pow2_pos k Hk).
  apply Zdigits2_unique; [nia|].
  replace (Zdigits2 m + k - 1) with ((Zdigits2 m - 1) + k) by lia.
  rewrite !pow2_split by lia. nia.
Qed.

Lemma Zdigits2_mul_ge (a b : Z) :
  0 < a -> 0 < b -> Zdigits2 a + Zdigits2 b - 1 <= Zdigits2 (a * b).
Proof.
  intros Ha Hb.
  pose proof (Zdigits2_bounds a Ha) as [Hla _].
  pose proof (Zdigits2_bounds b Hb) as [Hlb _].
  pose proof (Zdigits2_bounds (a * b) ltac:(nia)) as [_ Hhab].
  pose proof (Zdigits2_pos a Ha). pose proof (Zdigits2_pos b Hb).
  destruct (Z.le_gt_cases (Zdigits2 a + Zdigits2 b - 1) (Zdigits2 (a * b)));
    [assumption|exfalso].
  assert (2 ^ Zdigits2 (a * b) <= 2 ^ ((Zdigits2 a - 1) + (Zdigits2 b - 1))).
  { apply pow2_le. pose proof (Zdigits2_pos (a * b) ltac:(nia)). lia. }
  rewrite pow2_split in H2 by lia.
  pose proof (pow2_pos (Zdigits2 a - 1) ltac:(lia)).
  pose proof (pow2_pos (Zdigits2 b - 1) ltac:(lia)).
  nia.
Qed.

Lemma pos_iter_xO (m d : positive) :
  Zpos (Pos.iter xO m d) = Zpos m * 2 ^ Zpos d.
Proof.
  induction d as [|d IH] using Pos.peano_ind.
  - cbn [Pos.iter]. change (2 ^ 1) with 2. lia.
  - rewrite Pos.iter_succ, Pos2Z.inj_xO, IH, Pos2Z.inj_succ.
    rewrite Z.pow_succ_r by lia. ring.
Qed.

Lemma shl_align_spec (m : positive) (e e' : Z) :
  snd (shl_align m e e') = Z.min e e'
  /\ Zpos (fst (shl_align m e e')) = Zpos m * 2 ^ (e - Z.min e e').
Proof.
  unfold shl_align. destruct (e' - e) as [|d|d] eqn:Hd; cbn [fst snd].
  - replace (Z.min e e') with e by lia. rewrite Z.sub_diag. change (2 ^ 0) with 1. lia.
  - replace (Z.min e e') with e by lia. rewrite Z.sub_diag. change (2 ^ 0) with 1. lia.
  - replace (Z.min e e') with e' by lia. split; [reflexivity|].
    rewrite pos_iter_xO. do 2 f_equal. lia.
Qed.

Lemma compare_scaled (a b P : Z) : 0 < P -> (a * P ?= b * P) = (a ?= b).
Proof.
  intros HP. destruct (Z.compare_spec a b) as [->|H|H].
  - apply Z.compare_refl.
  - apply Z.compare_lt_iff. nia.
  - apply Z.compare_gt_iff. nia.
Qed.

Section Rounding.
Variables prec emax : Z.
Hypothesis Hprec : 0 < prec.
Hypothesis Hemax : prec < emax.

Local Abbreviation emin := (SpecFloat.emin prec emax).
Local Abbreviation fexp := (SpecFloat.fexp prec emax).
Local Abbreviation valid := (valid_binary prec emax).
Local Abbreviation round_shape := (Rnd.round_shape prec emax).
Local Abbreviation shifted := (Rnd.shifted prec emax).
Local Abbreviation mag := (Rnd.mag prec emax).
Local Abbreviation sv := (Rnd.sv prec emax).
Local Abbreviation aligned_exp := (Rnd.aligned_exp prec emax).



Lemma fexp_mono (a b : Z) : a <= b -> fexp a <= fexp b.
Proof. unfold SpecFloat.fexp. lia. Qed.

Lemma fexp_ge_emin (a : Z) : emin <= fexp a.
Proof. unfold SpecFloat.fexp. lia. Qed.

Lemma fexp_ge_sub (a : Z) : a - prec <= fexp a.
Proof. unfold SpecFloat.fexp. lia. Qed.

Lemma fexp_cases (a : Z) :
  (fexp a = emin /\ a - prec <= emin) \/ (fexp a = a - prec /\ emin < a - prec).
Proof. unfold SpecFloat.fexp. lia. Qed.

(** The first shift of [binary_round_aux], for an input whose exponent is
    not above the canonical one. *)
Lemma shr_fexp_aligned (m e : Z) (l : location) :
  e <= fexp (Zdigits2 m + e) ->
  shr_fexp prec emax m e l =
    (Nat.iter (Z.to_nat (fexp (Zdigits2 m + e) - e)) shr_1 (shr_record_of_loc m l),
     fexp (Zdigits2 m + e)).
Proof.
  intros H. unfold shr_fexp. rewrite shr_nat by lia. f_equal. lia.
Qed.



Lemma shifted_m (m e : Z) (l : location) :
  0 <= m -> e <= fexp (Zdigits2 m + e) ->
  shr_m (shifted m e l) = m / 2 ^ (fexp (Zdigits2 m + e) - e).
Proof.
  intros Hm Hal. unfold Rnd.shifted.
  rewrite iter_shr_1_m by (rewrite shr_m_of_loc; assumption).
  rewrite shr_m_of_loc, Z2Nat.id by lia. reflexivity.
Qed.

Lemma shifted_m_lt (m e : Z) (l : location) :
  0 <= m -> e <= fexp (Zdigits2 m + e) ->
  0 <= shr_m (shifted m e l) < 2 ^ prec.
Proof.
  intros Hm Hal. rewrite shifted_m by assumption.
  set (n := fexp (Zdigits2 m + e) - e).
  assert (Hn : 0 <= n) by (unfold n; lia).
  pose proof (pow2_pos n Hn) as Hpn.
  split; [apply Z.div_pos; lia|].
  apply Z.div_lt_upper_bound; [lia|].
  destruct (Z.eq_dec m 0) as [->|Hne].
  - pose proof (pow2_pos prec ltac:(lia)). nia.
  - pose proof (Zdigits2_bounds m ltac:(lia)) as [_ Hhi].
    pose proof (fexp_ge_sub (Zdigits2 m + e)).
    pose proof (Zdigits2_pos m ltac:(lia)).
    rewrite <- pow2_split by lia.
    assert (2 ^ Zdigits2 m <= 2 ^ (n + prec)) by (apply pow2_le; unfold n; lia).
    lia.
Qed.

(** In the normal range the shifted mantissa keeps [prec] digits. *)
Lemma shifted_m_ge (m e : Z) (l : location) :
  0 < m -> e <= fexp (Zdigits2 m + e) ->
  emin < fexp (Zdigits2 m + e) ->
  2 ^ (prec - 1) <= shr_m (shifted m e l).
Proof.
  intros Hm Hal Hnorm. rewrite shifted_m by lia.
  destruct (fexp_cases (Zdigits2 m + e)) as [[Hc _]|[Hc _]]; [lia|].
  rewrite Hc.
  replace (Zdigits2 m + e - prec - e) with (Zdigits2 m - prec) by lia.
  assert (Hn : 0 <= Zdigits2 m - prec) by lia.
  pose proof (Zdigits2_bounds m Hm) as [Hlo _].
  apply Z.div_le_lower_bound; [apply pow2_pos; lia|].
  rewrite <- pow2_split by lia.
  replace (Zdigits2 m - prec + (prec - 1)) with (Zdigits2 m - 1) by lia.
  exact Hlo.
Qed.

Lemma rne_shifted_bounds (m e : Z) (l : location) :
  0 <= m -> e <= fexp (Zdigits2 m + e) ->
  0 <= rne (shifted m e l) <= 2 ^ prec.
Proof.
  intros Hm Hal.
  pose proof (shifted_m_lt m e l Hm Hal).
  pose proof (rne_bounds (shifted m e l)). lia.
Qed.

(** What is left is canonical. *)
Lemma rne_shifted_canonical (m e : Z) (l : location) :
  0 <= m -> e <= fexp (Zdigits2 m + e) ->
  0 < rne (shifted m e l) < 2 ^ prec ->
  fexp (Zdigits2 (rne (shifted m e l)) + fexp (Zdigits2 m + e)) =
    fexp (Zdigits2 m + e).
Proof.
  intros Hm Hal [Hpos Hlt].
  set (c := fexp (Zdigits2 m + e)) in *.
  set (m1 := rne (shifted m e l)) in *.
  assert (Hd1 : Zdigits2 m1 <= prec).
  { pose proof (Zdigits2_bounds m1 Hpos) as [Hlo _].
    destruct (Z.le_gt_cases (Zdigits2 m1) prec); auto. exfalso.
    assert (2 ^ prec <= 2 ^ (Zdigits2 m1 - 1)) by (apply pow2_le; lia). lia. }
  destruct (Z.eq_dec c emin) as [Hc|Hc].
  - unfold SpecFloat.fexp. lia.
  - pose proof (fexp_ge_emin (Zdigits2 m + e)). fold c in H.
    assert (Hm' : 0 < m).
    { destruct (Z.eq_dec m 0) as [->|]; [|lia]. exfalso.
      unfold c, SpecFloat.fexp in *. cbn [Zdigits2] in *. lia. }
    pose proof (shifted_m_ge m e l Hm' Hal ltac:(fold c; lia)) as Hge.
    pose proof (rne_bounds (shifted m e l)) as [Hb _]. fold m1 in Hb.
    assert (prec <= Zdigits2 m1).
    { pose proof (Zdigits2_bounds m1 Hpos) as [_ Hhi].
      destruct (Z.le_gt_cases prec (Zdigits2 m1)); auto. exfalso.
      assert (2 ^ Zdigits2 m1 <= 2 ^ (prec - 1)) by (apply pow2_le; pose proof (Zdigits2_pos m1 Hpos); lia).
      lia. }
    unfold SpecFloat.fexp. lia.
Qed.

Lemma binary_round_aux_shape (s : bool) (m e : Z) (l : location) :
  0 <= m -> e <= fexp (Zdigits2 m + e) ->
  binary_round_aux prec emax s m e l =
    round_shape s (rne (shifted m e l)) (fexp (Zdigits2 m + e)).
Proof.
  intros Hm Hal. unfold binary_round_aux.
  rewrite shr_fexp_aligned by assumption.
  fold (shifted m e l). fold (rne (shifted m e l)).
  pose proof (rne_shifted_bounds m e l Hm Hal) as [Hlo Hhi].
  pose proof (rne_shifted_canonical m e l Hm Hal) as Hcan.
  set (c := fexp (Zdigits2 m + e)) in *.
  set (m1 := rne (shifted m e l)) in *.
  assert (Hcmin : emin <= c) by apply fexp_ge_emin.
  unfold Rnd.round_shape.
  destruct (Z.eqb_spec m1 0) as [H0|H0].
  - rewrite H0. unfold shr_fexp. cbn [Zdigits2 Z.add].
    rewrite shr_neg by (unfold SpecFloat.fexp; lia). reflexivity.
  - destruct (Z.ltb_spec m1 (2 ^ prec)) as [Hlt|Hge].
    + unfold shr_fexp.
      rewrite Hcan by lia. rewrite Z.sub_diag. cbn [shr shr_record_of_loc shr_m].
      destruct m1 as [|p|p]; try lia. reflexivity.
    + assert (Hm1 : m1 = 2 ^ prec) by lia. rewrite Hm1.
      unfold shr_fexp. rewrite Zdigits2_pow2 by lia.
      replace (fexp (prec + 1 + c)) with (c + 1) by (unfold SpecFloat.fexp; lia).
      replace (c + 1 - c) with 1 by lia.
      cbn [shr SpecFloat.iter_pos shr_record_of_loc].
      pose proof (iter_shr_1_exact 1 (2 ^ (prec - 1)) ltac:(pose proof (pow2_pos (prec - 1)); lia)) as Hx.
      change (2 ^ Z.of_nat 1) with 2 in Hx.
      replace (2 ^ (prec - 1) * 2) with (2 ^ prec) in Hx
        by (replace prec with (prec - 1 + 1) at 1 by lia; rewrite pow2_split by lia; reflexivity).
      cbn [Nat.iter nat_rect] in Hx. rewrite Hx. cbn [shr_m].
      pose proof (pow2_pos (prec - 1) ltac:(lia)).
      destruct (2 ^ (prec - 1)) as [|p|p]; try lia. reflexivity.
Qed.

(** ** Magnitudes, in units of [2 ^ emin] *)




Lemma bounded_inv (m : positive) (e : Z) :
  bounded prec emax m e = true ->
  fexp (Zdigits2 (Zpos m) + e) = e /\ e <= emax - prec /\ emin <= e
  /\ Zpos m < 2 ^ prec.
Proof.
  unfold bounded, canonical_mantissa. intros H.
  apply andb_prop in H as [H1 H2].
  apply Z.eqb_eq in H1. apply Z.leb_le in H2. cbn [Zdigits2].
  split; [exact H1|]. split; [exact H2|].
  pose proof (fexp_ge_emin (Zpos (digits2_pos m) + e)).
  pose proof (fexp_ge_sub (Zpos (digits2_pos m) + e)).
  split; [lia|].
  pose proof (digits2_pos_bounds m) as [_ Hhi].
  assert (2 ^ Zpos (digits2_pos m) <= 2 ^ prec) by (apply pow2_le; lia).
  lia.
Qed.

Lemma round_shape_valid (s : bool) (m1 c : Z) :
  0 <= m1 <= 2 ^ prec -> emin <= c ->
  (0 < m1 < 2 ^ prec -> fexp (Zdigits2 m1 + c) = c) ->
  valid_binary prec emax (round_shape s m1 c) = true.
Proof.
  intros Hm1 Hc Hcan. unfold Rnd.round_shape.
  destruct (Z.eqb_spec m1 0); [reflexivity|].
  destruct (Z.ltb_spec m1 (2 ^ prec)).
  - destruct (Z.leb_spec c (emax - prec)); [|reflexivity].
    cbn [valid_binary]. unfold bounded, canonical_mantissa.
    apply andb_true_intro. split; [|apply Z.leb_le; lia].
    apply Z.eqb_eq.
    specialize (Hcan ltac:(lia)).
    destruct m1 as [|p|p]; try lia. cbn [Z.to_pos]. exact Hcan.
  - destruct (Z.leb_spec (c + 1) (emax - prec)); [|reflexivity].
    cbn [valid_binary]. unfold bounded, canonical_mantissa.
    apply andb_true_intro. split; [|apply Z.leb_le; lia].
    apply Z.eqb_eq.
    pose proof (pow2_pos (prec - 1) ltac:(lia)) as Hp.
    pose proof (Zdigits2_pow2 (prec - 1) ltac:(lia)) as Hd.
    destruct (2 ^ (prec - 1)) as [|p|p]; try lia. cbn [Z.to_pos].
    cbn [Zdigits2] in Hd. rewrite Hd. unfold SpecFloat.fexp. lia.
Qed.

Lemma round_shape_sign (s : bool) (m1 c : Z) : has_sign s (round_shape s m1 c).
Proof.
  unfold Rnd.round_shape.
  destruct (m1 =? 0); [reflexivity|].
  destruct (m1 <? 2 ^ prec);
    [destruct (c <=? emax - prec) | destruct (c + 1 <=? emax - prec)];
    reflexivity.
Qed.

Lemma round_shape_mag (s : bool) (m1 c : Z) :
  0 <= m1 <= 2 ^ prec -> emin <= c ->
  finite_or_zero (round_shape s m1 c) = true ->
  mag (round_shape s m1 c) = m1 * 2 ^ (c - emin).
Proof.
  intros Hm1 Hc. unfold Rnd.round_shape.
  destruct (Z.eqb_spec m1 0) as [->|Hne]; [reflexivity|].
  destruct (Z.ltb_spec m1 (2 ^ prec)).
  - destruct (c <=? emax - prec); [|discriminate]. intros _.
    cbn [Rnd.mag]. rewrite Z2Pos.id by lia. reflexivity.
  - destruct (c + 1 <=? emax - prec); [|discriminate]. intros _.
    cbn [Rnd.mag]. rewrite Z2Pos.id by (apply pow2_pos; lia).
    replace m1 with (2 ^ prec) by lia.
    replace (c + 1 - emin) with (Z.succ (c - emin)) by lia.
    rewrite Z.pow_succ_r by lia.
    replace (2 ^ prec) with (2 ^ Z.succ (prec - 1)) by (f_equal; lia).
    rewrite Z.pow_succ_r by lia. ring.
Qed.

(** The result of rounding is a valid float with the sign it was given. *)
Lemma binary_round_aux_valid (s : bool) (m e : Z) (l : location) :
  0 <= m -> e <= fexp (Zdigits2 m + e) ->
  valid_binary prec emax (binary_round_aux prec emax s m e l) = true
  /\ has_sign s (binary_round_aux prec emax s m e l).
Proof.
  intros Hm Hal. rewrite binary_round_aux_shape by assumption. split.
  - apply round_shape_valid.
    + apply rne_shifted_bounds; assumption.
    + apply fexp_ge_emin.
    + apply rne_shifted_canonical; assumption.
  - apply round_shape_sign.
Qed.

(** Rounding does not exceed a float that is not below the exact value. *)
Lemma binary_round_aux_upper (s : bool) (m e : Z) (l : location)
    (mh : positive) (eh : Z) :
  0 <= m -> e <= fexp (Zdigits2 m + e) ->
  bounded prec emax mh eh = true ->
  e <= eh ->
  4 * m + loc_bits l <= 4 * (Zpos mh * 2 ^ (eh - e)) ->
  finite_or_zero (binary_round_aux prec emax s m e l) = true
  /\ mag (binary_round_aux prec emax s m e l) <= Zpos mh * 2 ^ (eh - emin).
Proof.
  intros Hm Hal Hb Heh HT.
  destruct (bounded_inv mh eh Hb) as (Hcanh & Hehmax & Hehmin & Hmh).
  rewrite binary_round_aux_shape by assumption.
  pose proof (rne_shifted_bounds m e l Hm Hal) as Hm1.
  pose proof (fexp_ge_emin (Zdigits2 m + e)) as Hcmin.
  set (c := fexp (Zdigits2 m + e)) in *.
  assert (Hloc : 0 <= loc_bits l <= 3) by (destruct l as [|[]]; cbn; lia).
  assert (Hpe : 0 < 2 ^ (eh - e)) by (apply pow2_pos; lia).
  (* the canonical exponent of the input is not above the bound's *)
  assert (Hceh : c <= eh).
  { destruct (Z.le_gt_cases c eh) as [|Hgt]; [assumption|exfalso].
    destruct (Z.eq_dec m 0) as [->|Hm0].
    - unfold c, SpecFloat.fexp in *. cbn [Zdigits2] in *. lia.
    - assert (Hd : Zdigits2 (Zpos mh) + eh < Zdigits2 m + e).
      { destruct (Z.lt_ge_cases (Zdigits2 (Zpos mh) + eh) (Zdigits2 m + e));
          [assumption|].
        pose proof (fexp_mono (Zdigits2 m + e) (Zdigits2 (Zpos mh) + eh)
                      ltac:(lia)). fold c in H0. lia. }
      pose proof (Zdigits2_bounds m ltac:(lia)) as [Hlo _].
      pose proof (Zdigits2_bounds (Zpos mh) ltac:(lia)) as [_ Hhih].
      pose proof (Zdigits2_pos (Zpos mh) ltac:(lia)).
      assert (Zpos mh * 2 ^ (eh - e) < 2 ^ (Zdigits2 (Zpos mh) + (eh - e))).
      { rewrite pow2_split by lia. nia. }
      assert (2 ^ (Zdigits2 (Zpos mh) + (eh - e)) <= 2 ^ (Zdigits2 m - 1))
        by (apply pow2_le; lia).
      lia. }
  set (n := Z.to_nat (c - e)).
  set (h1 := Zpos mh * 2 ^ (eh - c)).
  assert (Hh1 : 0 < h1).
  { unfold h1. pose proof (pow2_pos (eh - c) ltac:(lia)). nia. }
  assert (Hsplit : Zpos mh * 2 ^ (eh - e) = h1 * 2 ^ Z.of_nat n).
  { unfold h1, n. rewrite Z2Nat.id by lia. rewrite <- Z.mul_assoc.
    rewrite <- pow2_split by lia. do 2 f_equal. lia. }
  assert (Hle : rne (shifted m e l) <= h1).
  { rewrite <- (rne_exact h1).
    rewrite <- (iter_shr_1_exact n h1) by lia.
    apply rne_mono. unfold Rnd.shifted. fold c. fold n.
    apply iter_shr_1_mono.
    - rewrite shr_m_of_loc. assumption.
    - cbn [shr_m]. pose proof (pow2_pos (Z.of_nat n)). nia.
    - rewrite Tenc_of_loc. unfold Tenc. cbn [shr_m shr_r shr_s]. lia. }
  set (m1 := rne (shifted m e l)) in *.
  assert (Hfin : finite_or_zero (round_shape s m1 c) = true).
  { unfold Rnd.round_shape.
    destruct (Z.eqb_spec m1 0); [reflexivity|].
    destruct (Z.ltb_spec m1 (2 ^ prec)).
    - destruct (Z.leb_spec c (emax - prec)); [reflexivity|lia].
    - destruct (Z.leb_spec (c + 1) (emax - prec)); [reflexivity|exfalso].
      assert (c = eh) by lia. subst h1.
      replace (eh - c) with 0 in Hle by lia.
      change (2 ^ 0) with 1 in Hle. lia. }
  split; [exact Hfin|].
  rewrite round_shape_mag by (assumption || lia).
  replace (eh - emin) with ((eh - c) + (c - emin)) by lia.
  rewrite pow2_split by lia.
  pose proof (pow2_pos (c - emin) ltac:(lia)). fold h1.
  rewrite Z.mul_assoc. fold h1. nia.
Qed.

(** Rounding does not go below a float that is not above the exact value. *)
Lemma binary_round_aux_lower (s : bool) (m e : Z) (l : location)
    (ml : positive) (el : Z) :
  0 <= m -> e <= fexp (Zdigits2 m + e) ->
  bounded prec emax ml el = true ->
  e <= el ->
  4 * (Zpos ml * 2 ^ (el - e)) <= 4 * m + loc_bits l ->
  binary_round_aux prec emax s m e l = S754_infinity s
  \/ (exists mr er,
        binary_round_aux prec emax s m e l = S754_finite s mr er
        /\ Zpos ml * 2 ^ (el - emin) <= Zpos mr * 2 ^ (er - emin)).
Proof.
  intros Hm Hal Hb Hel HT.
  destruct (bounded_inv ml el Hb) as (Hcanl & Helmax & Helmin & Hml).
  rewrite binary_round_aux_shape by assumption.
  pose proof (rne_shifted_bounds m e l Hm Hal) as Hm1.
  pose proof (fexp_ge_emin (Zdigits2 m + e)) as Hcmin.
  assert (Hloc : 0 <= loc_bits l <= 3) by (destruct l as [|[]]; cbn; lia).
  assert (Hpe : 0 < 2 ^ (el - e)) by (apply pow2_pos; lia).
  assert (Hm0 : 0 < m) by nia.
  assert (Hge : Zpos ml * 2 ^ (el - emin)
                <= rne (shifted m e l) * 2 ^ (fexp (Zdigits2 m + e) - emin)
                /\ 0 < rne (shifted m e l)).
  { set (c := fexp (Zdigits2 m + e)) in *.
    destruct (Z.le_gt_cases c el) as [Hcl|Hcl].
    - set (n := Z.to_nat (c - e)).
      set (l1 := Zpos ml * 2 ^ (el - c)).
      assert (Hl1 : 0 < l1).
      { unfold l1. pose proof (pow2_pos (el - c) ltac:(lia)). nia. }
      assert (Hsplit : Zpos ml * 2 ^ (el - e) = l1 * 2 ^ Z.of_nat n).
      { unfold l1, n. rewrite Z2Nat.id by lia. rewrite <- Z.mul_assoc.
        rewrite <- pow2_split by lia. do 2 f_equal. lia. }
      assert (Hle : l1 <= rne (shifted m e l)).
      { rewrite <- (rne_exact l1).
        rewrite <- (iter_shr_1_exact n l1) by lia.
        apply rne_mono. unfold Rnd.shifted. fold c. fold n.
        apply iter_shr_1_mono.
        - cbn [shr_m]. pose proof (pow2_pos (Z.of_nat n)). nia.
        - rewrite shr_m_of_loc. assumption.
        - rewrite Tenc_of_loc. unfold Tenc. cbn [shr_m shr_r shr_s]. lia. }
      split; [|lia].
      replace (el - emin) with ((el - c) + (c - emin)) by lia.
      rewrite pow2_split by lia. rewrite Z.mul_assoc. fold l1.
      pose proof (pow2_pos (c - emin) ltac:(lia)). nia.
    - pose proof (shifted_m_ge m e l Hm0 Hal ltac:(fold c; lia)) as Hsm.
      pose proof (rne_bounds (shifted m e l)) as [Hrb _].
      pose proof (pow2_pos (prec - 1) ltac:(lia)).
      split; [|lia].
      assert (2 ^ (prec - 1) * 2 ^ (c - emin)
              <= rne (shifted m e l) * 2 ^ (c - emin)).
      { apply Z.mul_le_mono_nonneg_r; [|lia].
        pose proof (pow2_pos (c - emin)); lia. }
      assert (Zpos ml * 2 ^ (el - emin) < 2 ^ prec * 2 ^ (el - emin)).
      { apply Z.mul_lt_mono_pos_r; [apply pow2_pos; lia | lia]. }
      assert (2 ^ prec * 2 ^ (el - emin) <= 2 ^ (prec - 1) * 2 ^ (c - emin)).
      { rewrite <- !pow2_split by lia. apply pow2_le. lia. }
      lia. }
  destruct Hge as [Hge Hpos].
  set (c := fexp (Zdigits2 m + e)) in *.
  set (m1 := rne (shifted m e l)) in *.
  destruct (finite_or_zero (round_shape s m1 c)) eqn:Hfin.
  - right. pose proof (round_shape_mag s m1 c Hm1 Hcmin Hfin) as Hmag.
    pose proof (round_shape_sign s m1 c) as Hsg.
    destruct (round_shape s m1 c) as [s'|s'| |s' mr er] eqn:Hr;
      try discriminate.
    + exfalso. unfold Rnd.round_shape in Hr.
      destruct (Z.eqb_spec m1 0); [lia|].
      destruct (m1 <? 2 ^ prec);
        [destruct (c <=? emax - prec) | destruct (c + 1 <=? emax - prec)];
        discriminate.
    + cbn in Hsg. subst s'. exists mr, er. split; [reflexivity|].
      cbn [Rnd.mag] in Hmag. lia.
  - left. pose proof (round_shape_sign s m1 c) as Hsg.
    destruct (round_shape s m1 c) as [s'|s'| |s' mr er] eqn:Hr;
      try discriminate.
    + cbn in Hsg. congruence.
    + exfalso. unfold Rnd.round_shape in Hr.
      destruct (m1 =? 0); [discriminate|].
      destruct (m1 <? 2 ^ prec);
        [destruct (c <=? emax - prec) | destruct (c + 1 <=? emax - prec)];
        discriminate.
Qed.



Lemma emin_nonpos : emin <= 0.
Proof. unfold SpecFloat.emin. lia. Qed.


Lemma mag_pos (s : bool) (m : positive) (e : Z) :
  emin <= e -> 0 < mag (S754_finite s m e).
Proof. intros. cbn [Rnd.mag]. pose proof (pow2_pos (e - emin) ltac:(lia)). nia. Qed.

Lemma abs_sv (x : spec_float) : Z.abs (sv x) = mag x.
Proof.
  destruct x as [| | |s m e]; try reflexivity. cbn [Rnd.sv Rnd.mag].
  destruct (Z.le_gt_cases emin e).
  - pose proof (pow2_pos (e - emin) ltac:(lia)). destruct s; cbn [cond_Zopp]; nia.
  - rewrite Z.pow_neg_r by lia. destruct s; cbn [cond_Zopp]; lia.
Qed.

Lemma canonical_lt (m1 m2 : positive) (e1 e2 : Z) :
  bounded prec emax m1 e1 = true -> bounded prec emax m2 e2 = true ->
  e1 < e2 ->
  Zpos m1 * 2 ^ (e1 - emin) < Zpos m2 * 2 ^ (e2 - emin).
Proof.
  intros H1 H2 Hlt.
  destruct (bounded_inv m1 e1 H1) as (Hc1 & _ & Hmin1 & Hm1).
  destruct (bounded_inv m2 e2 H2) as (Hc2 & _ & Hmin2 & Hm2).
  destruct (fexp_cases (Zdigits2 (Zpos m2) + e2)) as [[Hf _]|[Hf _]];
    [lia|].
  assert (Hd2 : Zdigits2 (Zpos m2) = prec) by lia.
  pose proof (Zdigits2_bounds (Zpos m2) ltac:(lia)) as [Hlo2 _].
  rewrite Hd2 in Hlo2.
  assert (Zpos m1 * 2 ^ (e1 - emin) < 2 ^ prec * 2 ^ (e1 - emin)).
  { apply Z.mul_lt_mono_pos_r; [apply pow2_pos; lia|lia]. }
  assert (2 ^ (prec - 1) * 2 ^ (e2 - emin) <= Zpos m2 * 2 ^ (e2 - emin)).
  { apply Z.mul_le_mono_nonneg_r; [pose proof (pow2_pos (e2 - emin)); lia|lia]. }
  assert (2 ^ prec * 2 ^ (e1 - emin) <= 2 ^ (prec - 1) * 2 ^ (e2 - emin)).
  { rewrite <- !pow2_split by lia. apply pow2_le. lia. }
  lia.
Qed.

Lemma SFcompare_sv (x y : spec_float) :
  valid x = true -> valid y = true ->
  finite_or_zero x = true -> finite_or_zero y = true ->
  SFcompare x y = Some (sv x ?= sv y).
Proof.
  intros Vx Vy Fx Fy.
  destruct x as [sx| | |sx mx ex], y as [sy| | |sy my ey]; try discriminate;
    cbn [valid_binary] in *.
  - reflexivity.
  - destruct (bounded_inv my ey Vy) as (_ & _ & Hmin & _).
    pose proof (mag_pos sy my ey Hmin) as Hp. cbn [Rnd.mag] in Hp.
    cbn [SFcompare Rnd.sv]. destruct sy; cbn [cond_Zopp]; f_equal; symmetry.
    + apply Z.compare_gt_iff. lia.
    + apply Z.compare_lt_iff. lia.
  - destruct (bounded_inv mx ex Vx) as (_ & _ & Hmin & _).
    pose proof (mag_pos sx mx ex Hmin) as Hp. cbn [Rnd.mag] in Hp.
    cbn [SFcompare Rnd.sv]. destruct sx; cbn [cond_Zopp]; f_equal; symmetry.
    + apply Z.compare_lt_iff. lia.
    + apply Z.compare_gt_iff. lia.
  - destruct (bounded_inv mx ex Vx) as (_ & _ & Hminx & _).
    destruct (bounded_inv my ey Vy) as (_ & _ & Hminy & _).
    pose proof (mag_pos sx mx ex Hminx) as Hpx. cbn [Rnd.mag] in Hpx.
    pose proof (mag_pos sy my ey Hminy) as Hpy. cbn [Rnd.mag] in Hpy.
    cbn [SFcompare Rnd.sv].
    assert (Hcmp : forall a b : comparison, a = b -> Some a = Some b)
      by (intros; congruence).
    destruct sx, sy; cbn [cond_Zopp]; apply Hcmp; symmetry.
    + destruct (Z.compare_spec ex ey) as [Heq|Hlt|Hgt].
      * subst ey. change (Pos.compare_cont Eq mx my) with (Pos.compare mx my).
        rewrite Z.compare_opp, compare_scaled by (apply pow2_pos; lia).
        rewrite Pos2Z.inj_compare. apply Z.compare_antisym.
      * apply Z.compare_gt_iff.
        pose proof (canonical_lt mx my ex ey Vx Vy Hlt). lia.
      * apply Z.compare_lt_iff.
        pose proof (canonical_lt my mx ey ex Vy Vx ltac:(lia)). lia.
    + apply Z.compare_lt_iff. lia.
    + apply Z.compare_gt_iff. lia.
    + destruct (Z.compare_spec ex ey) as [Heq|Hlt|Hgt].
      * subst ey. change (Pos.compare_cont Eq mx my) with (Pos.compare mx my).
        rewrite compare_scaled by (apply pow2_pos; lia).
        symmetry. apply Pos2Z.inj_compare.
      * apply Z.compare_lt_iff. apply canonical_lt; assumption.
      * apply Z.compare_gt_iff.
        pose proof (canonical_lt my mx ey ex Vy Vx ltac:(lia)). lia.
Qed.

Lemma SFleb_sv (x y : spec_float) :
  valid x = true -> valid y = true ->
  finite_or_zero x = true -> finite_or_zero y = true ->
  SFleb x y = (sv x <=? sv y).
Proof.
  intros. unfold SFleb. rewrite SFcompare_sv by assumption.
  unfold Z.leb. destruct (sv x ?= sv y); reflexivity.
Qed.

Lemma SFltb_sv (x y : spec_float) :
  valid x = true -> valid y = true ->
  finite_or_zero x = true -> finite_or_zero y = true ->
  SFltb x y = (sv x <? sv y).
Proof.
  intros. unfold SFltb. rewrite SFcompare_sv by assumption.
  unfold Z.ltb. destruct (sv x ?= sv y); reflexivity.
Qed.

(** Between two finite floats there are only finite floats. *)
Lemma SFleb_between_finite (lo x hi : spec_float) :
  finite_or_zero lo = true -> finite_or_zero hi = true ->
  SFleb lo x = true -> SFleb x hi = true -> finite_or_zero x = true.
Proof.
  intros Hlo Hhi H1 H2.
  destruct x as [s|[]| |s m e]; try reflexivity;
    destruct lo as [| | |], hi as [| | |]; try discriminate.
Qed.



(** A positive dyadic number below a float has a canonical exponent that
    is not above the float's. *)
Lemma canonical_exp_le (m e : Z) (mh : positive) (eh b : Z) :
  0 < m -> bounded prec emax mh eh = true ->
  b <= e -> b <= eh ->
  m * 2 ^ (e - b) <= Zpos mh * 2 ^ (eh - b) ->
  fexp (Zdigits2 m + e) <= eh.
Proof.
  intros Hm Hb Hbe Hbh Hle.
  destruct (bounded_inv mh eh Hb) as (Hcanh & _ & _ & _).
  destruct (Z.le_gt_cases (fexp (Zdigits2 m + e)) eh) as [|Hgt];
    [assumption|exfalso].
  assert (Hd : Zdigits2 (Zpos mh) + eh < Zdigits2 m + e).
  { destruct (Z.lt_ge_cases (Zdigits2 (Zpos mh) + eh) (Zdigits2 m + e));
      [assumption|].
    pose proof (fexp_mono (Zdigits2 m + e) (Zdigits2 (Zpos mh) + eh)
                  ltac:(lia)). lia. }
  pose proof (Zdigits2_bounds m Hm) as [Hlo _].
  pose proof (Zdigits2_bounds (Zpos mh) ltac:(lia)) as [_ Hhih].
  pose proof (Zdigits2_pos (Zpos mh) ltac:(lia)).
  pose proof (Zdigits2_pos m Hm).
  assert (H1 : Zpos mh * 2 ^ (eh - b) < 2 ^ (Zdigits2 (Zpos mh) + (eh - b))).
  { rewrite pow2_split by lia. pose proof (pow2_pos (eh - b) ltac:(lia)). nia. }
  assert (H2 : 2 ^ (Zdigits2 (Zpos mh) + (eh - b)) <= 2 ^ ((Zdigits2 m - 1) + (e - b)))
    by (apply pow2_le; lia).
  assert (H3 : 2 ^ ((Zdigits2 m - 1) + (e - b)) <= m * 2 ^ (e - b)).
  { rewrite pow2_split by lia. pose proof (pow2_pos (e - b) ltac:(lia)). nia. }
  lia.
Qed.

Lemma scaled_le_cancel (a c k1 k2 b' : Z) :
  0 <= k1 -> 0 <= k2 -> 0 <= b' ->
  a * 2 ^ (k1 + b') <= c * 2 ^ (k2 + b') -> a * 2 ^ k1 <= c * 2 ^ k2.
Proof.
  intros H1 H2 Hb H. rewrite !pow2_split in H by lia.
  pose proof (pow2_pos b' Hb). nia.
Qed.

Lemma binary_round_aux_upper_exact (s : bool) (m e : Z) (mh : positive)
    (eh b : Z) :
  0 <= m -> e <= fexp (Zdigits2 m + e) ->
  bounded prec emax mh eh = true ->
  b <= e -> b <= eh ->
  m * 2 ^ (e - b) <= Zpos mh * 2 ^ (eh - b) ->
  finite_or_zero (binary_round_aux prec emax s m e loc_Exact) = true
  /\ mag (binary_round_aux prec emax s m e loc_Exact) <= Zpos mh * 2 ^ (eh - emin).
Proof.
  intros Hm Hal Hb Hbe Hbh Hle.
  destruct (bounded_inv mh eh Hb) as (_ & _ & Hehmin & _).
  assert (Heh : e <= eh).
  { destruct (Z.eq_dec m 0) as [->|Hm0].
    - cbn [Zdigits2 Z.add] in Hal. unfold SpecFloat.fexp in Hal. lia.
    - pose proof (canonical_exp_le m e mh eh b ltac:(lia) Hb Hbe Hbh Hle). lia. }
  apply binary_round_aux_upper; try assumption.
  cbn [loc_bits].
  assert (m <= Zpos mh * 2 ^ (eh - e)); [|lia].
  replace (eh - b) with ((eh - e) + (e - b)) in Hle by lia.
  rewrite pow2_split in Hle by lia.
  pose proof (pow2_pos (e - b) ltac:(lia)). nia.
Qed.

Lemma binary_round_aux_lower_exact (s : bool) (m e : Z) (ml : positive)
    (el b : Z) :
  0 <= m -> e <= fexp (Zdigits2 m + e) ->
  bounded prec emax ml el = true ->
  b <= e -> e <= el ->
  Zpos ml * 2 ^ (el - b) <= m * 2 ^ (e - b) ->
  binary_round_aux prec emax s m e loc_Exact = S754_infinity s
  \/ (exists mr er,
        binary_round_aux prec emax s m e loc_Exact = S754_finite s mr er
        /\ Zpos ml * 2 ^ (el - emin) <= Zpos mr * 2 ^ (er - emin)).
Proof.
  intros Hm Hal Hb Hbe Hel Hle.
  apply binary_round_aux_lower; try assumption.
  cbn [loc_bits].
  assert (Zpos ml * 2 ^ (el - e) <= m); [|lia].
  replace (el - b) with ((el - e) + (e - b)) in Hle by lia.
  rewrite pow2_split in Hle by lia.
  pose proof (pow2_pos (e - b) ltac:(lia)). nia.
Qed.

(** ** [binary_round]: rounding an arbitrary positive dyadic number *)


Lemma binary_round_eq (s : bool) (m : positive) (e : Z) :
  binary_round prec emax s m e =
    binary_round_aux prec emax s (Zpos m * 2 ^ (e - aligned_exp m e))
      (aligned_exp m e) loc_Exact.
Proof.
  unfold binary_round, Rnd.aligned_exp. cbn [Zdigits2].
  pose proof (shl_align_spec m e (fexp (Zpos (digits2_pos m) + e))) as [H1 H2].
  destruct (shl_align m e (fexp (Zpos (digits2_pos m) + e))) as [mz ez].
  cbn [fst snd] in *. subst ez. rewrite H2. reflexivity.
Qed.

Lemma binary_round_aligned (m : positive) (e : Z) :
  aligned_exp m e <=
    fexp (Zdigits2 (Zpos m * 2 ^ (e - aligned_exp m e)) + aligned_exp m e).
Proof.
  unfold Rnd.aligned_exp.
  rewrite Zdigits2_mul_pow2 by lia.
  replace (Zdigits2 (Zpos m) + (e - Z.min e (fexp (Zdigits2 (Zpos m) + e)))
           + Z.min e (fexp (Zdigits2 (Zpos m) + e)))
    with (Zdigits2 (Zpos m) + e) by lia.
  lia.
Qed.

Lemma aligned_mantissa_nonneg (m : positive) (e : Z) :
  0 < Zpos m * 2 ^ (e - aligned_exp m e).
Proof.
  pose proof (pow2_pos (e - aligned_exp m e) ltac:(unfold Rnd.aligned_exp; lia)).
  nia.
Qed.

Lemma binary_round_valid (s : bool) (m : positive) (e : Z) :
  valid (binary_round prec emax s m e) = true
  /\ has_sign s (binary_round prec emax s m e).
Proof.
  rewrite binary_round_eq. apply binary_round_aux_valid; try assumption.
  - pose proof (aligned_mantissa_nonneg m e). lia.
  - apply binary_round_aligned.
Qed.

Lemma binary_round_upper (s : bool) (m : positive) (e : Z) (mh : positive)
    (eh b : Z) :
  bounded prec emax mh eh = true ->
  b <= e -> b <= eh ->
  Zpos m * 2 ^ (e - b) <= Zpos mh * 2 ^ (eh - b) ->
  finite_or_zero (binary_round prec emax s m e) = true
  /\ mag (binary_round prec emax s m e) <= Zpos mh * 2 ^ (eh - emin).
Proof.
  intros Hb Hbe Hbh Hle.
  destruct (bounded_inv mh eh Hb) as (_ & _ & Hehmin & _).
  rewrite binary_round_eq.
  assert (Hae : aligned_exp m e <= e) by (unfold Rnd.aligned_exp; lia).
  apply (binary_round_aux_upper_exact s _ _ mh eh (Z.min b (aligned_exp m e)));
    try assumption; try lia.
  - apply binary_round_aligned.
  - rewrite <- Z.mul_assoc, <- pow2_split by lia.
    replace (e - aligned_exp m e + (aligned_exp m e - Z.min b (aligned_exp m e)))
      with ((e - b) + (b - Z.min b (aligned_exp m e))) by lia.
    replace (eh - Z.min b (aligned_exp m e))
      with ((eh - b) + (b - Z.min b (aligned_exp m e))) by lia.
    rewrite !pow2_split by lia.
    pose proof (pow2_pos (b - Z.min b (aligned_exp m e)) ltac:(lia)). nia.
Qed.



Lemma canonical_unique (m1 m2 : positive) (e1 e2 : Z) :
  bounded prec emax m1 e1 = true -> bounded prec emax m2 e2 = true ->
  Zpos m1 * 2 ^ (e1 - emin) = Zpos m2 * 2 ^ (e2 - emin) ->
  m1 = m2 /\ e1 = e2.
Proof.
  intros H1 H2 Heq.
  destruct (Z.lt_trichotomy e1 e2) as [Hlt|[->|Hgt]].
  - pose proof (canonical_lt m1 m2 e1 e2 H1 H2 Hlt). lia.
  - split; [|reflexivity].
    destruct (bounded_inv m2 e2 H2) as (_ & _ & Hmin & _).
    pose proof (pow2_pos (e2 - emin) ltac:(lia)).
    assert (Zpos m1 = Zpos m2) by nia. congruence.
  - pose proof (canonical_lt m2 m1 e2 e1 H2 H1 ltac:(lia)). lia.
Qed.

Lemma binary_round_aux_representable (s : bool) (m e : Z) (mx : positive)
    (ex b : Z) :
  0 <= m -> e <= fexp (Zdigits2 m + e) ->
  bounded prec emax mx ex = true ->
  b <= e -> b <= ex ->
  m * 2 ^ (e - b) = Zpos mx * 2 ^ (ex - b) ->
  binary_round_aux prec emax s m e loc_Exact = S754_finite s mx ex.
Proof.
  intros Hm Hal Hb Hbe Hbx Heq.
  destruct (bounded_inv mx ex Hb) as (_ & _ & Hexmin & _).
  assert (Hm0 : 0 < m).
  { pose proof (pow2_pos (ex - b) ltac:(lia)).
    pose proof (pow2_pos (e - b) ltac:(lia)). nia. }
  pose proof (canonical_exp_le m e mx ex b Hm0 Hb Hbe Hbx
                ltac:(lia)) as Hc.
  destruct (binary_round_aux_upper_exact s m e mx ex b
              Hm Hal Hb Hbe Hbx ltac:(lia)) as [Hfin Hup].
  destruct (binary_round_aux_valid s m e loc_Exact Hm Hal)
    as [Hval Hsign].
  destruct (binary_round_aux_lower_exact s m e mx ex b
              Hm Hal Hb Hbe ltac:(lia) ltac:(lia)) as [Hinf|(mr & er & Hr & Hlo)].
  - rewrite Hinf in Hfin. discriminate.
  - rewrite Hr in *. cbn [Rnd.mag valid_binary] in *.
    destruct (canonical_unique mr mx er ex Hval Hb ltac:(lia)) as [-> ->].
    reflexivity.
Qed.

Lemma binary_round_representable (s : bool) (m : positive) (e : Z)
    (mx : positive) (ex b : Z) :
  bounded prec emax mx ex = true ->
  b <= e -> b <= ex ->
  Zpos m * 2 ^ (e - b) = Zpos mx * 2 ^ (ex - b) ->
  binary_round prec emax s m e = S754_finite s mx ex.
Proof.
  intros Hb Hbe Hbx Heq. rewrite binary_round_eq.
  assert (Hae : aligned_exp m e <= e) by (unfold Rnd.aligned_exp; lia).
  pose proof (aligned_mantissa_nonneg m e).
  apply (binary_round_aux_representable s _ _ mx ex
           (Z.min b (aligned_exp m e))); try assumption; try lia.
  - apply binary_round_aligned.
  - rewrite <- Z.mul_assoc, <- pow2_split by lia.
    replace (e - aligned_exp m e
             + (aligned_exp m e - Z.min b (aligned_exp m e)))
      with ((e - b) + (b - Z.min b (aligned_exp m e))) by lia.
    replace (ex - Z.min b (aligned_exp m e))
      with ((ex - b) + (b - Z.min b (aligned_exp m e))) by lia.
    rewrite !pow2_split by lia. rewrite !Z.mul_assoc. rewrite Heq. reflexivity.
Qed.

(** A valid float rounds to itself. *)
Lemma binary_round_id (s : bool) (mx : positive) (ex : Z) :
  bounded prec emax mx ex = true ->
  binary_round prec emax s mx ex = S754_finite s mx ex.
Proof.
  intros Hb. apply (binary_round_representable s mx ex mx ex ex); auto; lia.
Qed.

Lemma binary_round_lower (s : bool) (m : positive) (e : Z) (ml : positive)
    (el b : Z) :
  bounded prec emax ml el = true ->
  b <= e -> e <= el ->
  Zpos ml * 2 ^ (el - b) <= Zpos m * 2 ^ (e - b) ->
  binary_round prec emax s m e = S754_infinity s
  \/ (exists mr er,
        binary_round prec emax s m e = S754_finite s mr er
        /\ Zpos ml * 2 ^ (el - emin) <= Zpos mr * 2 ^ (er - emin)).
Proof.
  intros Hb Hbe Hel Hle. rewrite binary_round_eq.
  assert (Hae : aligned_exp m e <= e) by (unfold Rnd.aligned_exp; lia).
  pose proof (aligned_mantissa_nonneg m e).
  apply (binary_round_aux_lower_exact s _ _ ml el
           (Z.min b (aligned_exp m e))); try assumption; try lia.
  - apply binary_round_aligned.
  - rewrite <- Z.mul_assoc, <- pow2_split by lia.
    replace (e - aligned_exp m e
             + (aligned_exp m e - Z.min b (aligned_exp m e)))
      with ((e - b) + (b - Z.min b (aligned_exp m e))) by lia.
    replace (el - Z.min b (aligned_exp m e))
      with ((el - b) + (b - Z.min b (aligned_exp m e))) by lia.
    rewrite !pow2_split by lia.
    pose proof (pow2_pos (b - Z.min b (aligned_exp m e)) ltac:(lia)).
    nia.
Qed.

(** ** [binary_normalize]: rounding a signed integer at a given exponent *)

Lemma binary_normalize_valid (M e : Z) :
  valid (binary_normalize prec emax M e false) = true.
Proof.
  destruct M as [|p|p]; cbn [binary_normalize]; [reflexivity| |];
    apply binary_round_valid; assumption.
Qed.

Lemma binary_normalize_upper (M e : Z) (mh : positive) (eh : Z) :
  bounded prec emax mh eh = true ->
  emin <= e ->
  Z.abs M * 2 ^ (e - emin) <= Zpos mh * 2 ^ (eh - emin) ->
  finite_or_zero (binary_normalize prec emax M e false) = true
  /\ Z.abs (sv (binary_normalize prec emax M e false))
     <= Zpos mh * 2 ^ (eh - emin).
Proof.
  intros Hb He Hle.
  destruct (bounded_inv mh eh Hb) as (_ & _ & Hehmin & _).
  rewrite abs_sv.
  destruct M as [|p|p]; cbn [binary_normalize].
  - split; [reflexivity|]. cbn [Rnd.mag].
    pose proof (pow2_pos (eh - emin) ltac:(lia)). nia.
  - apply (binary_round_upper false p e mh eh emin);
      auto; lia.
  - apply (binary_round_upper true p e mh eh emin);
      auto; lia.
Qed.

Lemma sv_sign (s : bool) (x : spec_float) :
  has_sign s x -> if s then sv x <= 0 else 0 <= sv x.
Proof.
  destruct x as [s'|s'| |s' m e]; cbn [has_sign Rnd.sv]; try (destruct s; lia).
  intros ->. destruct (Z.le_gt_cases emin e).
  - pose proof (pow2_pos (e - emin) ltac:(lia)).
    destruct s; cbn [cond_Zopp]; nia.
  - rewrite Z.pow_neg_r by lia. destruct s; cbn [cond_Zopp]; lia.
Qed.

Lemma binary_normalize_sign (M e : Z) :
  (0 <= M -> has_sign false (binary_normalize prec emax M e false))
  /\ (M < 0 -> has_sign true (binary_normalize prec emax M e false)).
Proof.
  destruct M as [|p|p]; cbn [binary_normalize]; split; intros H; try lia;
    try reflexivity; apply binary_round_valid; assumption.
Qed.

Lemma binary_normalize_lower (M e : Z) (ml : positive) (el : Z) :
  bounded prec emax ml el = true ->
  emin <= e -> e <= el ->
  Zpos ml * 2 ^ (el - emin) <= M * 2 ^ (e - emin) ->
  binary_normalize prec emax M e false = S754_infinity false
  \/ (exists mr er,
        binary_normalize prec emax M e false = S754_finite false mr er
        /\ Zpos ml * 2 ^ (el - emin) <= Zpos mr * 2 ^ (er - emin)).
Proof.
  intros Hb He Hel Hle.
  destruct (bounded_inv ml el Hb) as (_ & _ & Helmin & _).
  pose proof (pow2_pos (el - emin) ltac:(lia)).
  pose proof (pow2_pos (e - emin) ltac:(lia)).
  destruct M as [|p|p]; try nia. cbn [binary_normalize].
  apply (binary_round_lower false p e ml el emin); auto.
Qed.

(** An integer of at most [prec] bits converts exactly. *)
Lemma binary_normalize_exact (M e : Z) :
  emin <= e -> M <> 0 -> Z.abs M < 2 ^ prec -> e + prec <= emax ->
  finite_or_zero (binary_normalize prec emax M e false) = true
  /\ sv (binary_normalize prec emax M e false) = M * 2 ^ (e - emin).
Proof.
  intros He HM Hlt Hmax.
  set (d := Zdigits2 (Z.abs M)).
  assert (Habs : 0 < Z.abs M) by lia.
  pose proof (Zdigits2_bounds (Z.abs M) Habs) as [Hlo Hhi]. fold d in Hlo, Hhi.
  pose proof (Zdigits2_pos (Z.abs M) Habs) as Hd. fold d in Hd.
  assert (Hdp : d <= prec).
  { destruct (Z.le_gt_cases d prec); [assumption|exfalso].
    assert (2 ^ prec <= 2 ^ (d - 1)) by (apply pow2_le; lia). lia. }
  (* the canonical representation of |M| * 2^e *)
  set (ex := fexp (d + e)).
  assert (Hex : ex <= e) by (unfold ex, SpecFloat.fexp; lia).
  assert (Hexmin : emin <= ex) by apply fexp_ge_emin.
  set (mx := Z.abs M * 2 ^ (e - ex)).
  assert (Hmx : 0 < mx).
  { unfold mx. pose proof (pow2_pos (e - ex) ltac:(lia)). nia. }
  assert (Hbx : bounded prec emax (Z.to_pos mx) ex = true).
  { unfold bounded, canonical_mantissa. apply andb_true_intro. split.
    - apply Z.eqb_eq.
      change (Zpos (digits2_pos (Z.to_pos mx))) with (Zdigits2 (Zpos (Z.to_pos mx))).
      rewrite Z2Pos.id by lia. unfold mx.
      rewrite Zdigits2_mul_pow2 by lia. fold d.
      replace (d + (e - ex) + ex) with (d + e) by lia. reflexivity.
    - apply Z.leb_le. unfold ex, SpecFloat.fexp. lia. }
  assert (Hval : forall s p, Zpos p = Z.abs M ->
            binary_round prec emax s p e = S754_finite s (Z.to_pos mx) ex).
  { intros s p Hp.
    apply (binary_round_representable s p e (Z.to_pos mx) ex ex); auto; try lia.
    rewrite Z2Pos.id by lia. rewrite Z.sub_diag. change (2 ^ 0) with 1.
    unfold mx. rewrite Hp. lia. }
  assert (Hsv : Zpos (Z.to_pos mx) * 2 ^ (ex - emin) = Z.abs M * 2 ^ (e - emin)).
  { rewrite Z2Pos.id by lia. unfold mx. rewrite <- Z.mul_assoc, <- pow2_split by lia.
    do 2 f_equal. lia. }
  destruct M as [|p|p]; try lia; cbn [binary_normalize].
  - rewrite (Hval false p eq_refl). split; [reflexivity|].
    cbn [Rnd.sv cond_Zopp]. exact Hsv.
  - rewrite (Hval true p eq_refl). split; [reflexivity|].
    cbn [Rnd.sv cond_Zopp]. rewrite Hsv. cbn [Z.abs]. lia.
Qed.


(** ** Products *)

Lemma mul_aligned (mx my : positive) (ex ey : Z) :
  bounded prec emax mx ex = true -> bounded prec emax my ey = true ->
  ex + ey <= fexp (Zdigits2 (Zpos (mx * my)) + (ex + ey)).
Proof.
  intros Hx Hy.
  destruct (bounded_inv mx ex Hx) as (Hcx & _ & Hminx & _).
  destruct (bounded_inv my ey Hy) as (Hcy & _ & Hminy & _).
  pose proof (Zdigits2_mul_ge (Zpos mx) (Zpos my) ltac:(lia) ltac:(lia)) as Hd.
  pose proof (Zdigits2_pos (Zpos mx) ltac:(lia)).
  pose proof (Zdigits2_pos (Zpos my) ltac:(lia)).
  pose proof emin_nonpos.
  rewrite Pos2Z.inj_mul.
  unfold SpecFloat.fexp in *. lia.
Qed.

Lemma SFmul_valid (x y : spec_float) :
  valid x = true -> valid y = true -> valid (SFmul prec emax x y) = true.
Proof.
  intros Vx Vy.
  destruct x as [sx|sx| |sx mx ex], y as [sy|sy| |sy my ey];
    try reflexivity.
  cbn [SFmul valid_binary] in *.
  apply binary_round_aux_valid; [lia|].
  apply mul_aligned; assumption.
Qed.

Lemma SFmul_upper (x y : spec_float) (mh : positive) (eh : Z) :
  valid x = true -> valid y = true ->
  finite_or_zero x = true -> finite_or_zero y = true ->
  bounded prec emax mh eh = true ->
  Z.abs (sv x) * Z.abs (sv y) <= Zpos mh * 2 ^ (eh - emin) * 2 ^ (- emin) ->
  finite_or_zero (SFmul prec emax x y) = true
  /\ Z.abs (sv (SFmul prec emax x y)) <= Zpos mh * 2 ^ (eh - emin).
Proof.
  intros Vx Vy Fx Fy Hb Hle.
  destruct (bounded_inv mh eh Hb) as (_ & _ & Hehmin & _).
  pose proof emin_nonpos as Hemin.
  assert (Hpos : 0 <= Zpos mh * 2 ^ (eh - emin)).
  { pose proof (pow2_pos (eh - emin) ltac:(lia)). nia. }
  destruct x as [sx|sx| |sx mx ex], y as [sy|sy| |sy my ey]; try discriminate;
    try (split; [reflexivity | cbn [SFmul Rnd.sv Z.abs]; exact Hpos]).
  cbn [valid_binary] in Vx, Vy.
  destruct (bounded_inv mx ex Vx) as (_ & _ & Hminx & _).
  destruct (bounded_inv my ey Vy) as (_ & _ & Hminy & _).
  rewrite !abs_sv in *. cbn [SFmul Rnd.mag] in *.
  apply (binary_round_aux_upper_exact _ _ _ mh eh (emin + emin));
    try assumption; try lia.
  - apply mul_aligned; assumption.
  - rewrite Pos2Z.inj_mul.
    replace (ex + ey - (emin + emin)) with ((ex - emin) + (ey - emin)) by lia.
    replace (eh - (emin + emin)) with ((eh - emin) + (- emin)) by lia.
    rewrite !pow2_split by lia. nia.
Qed.

Lemma sv_nonneg_sign (s : bool) (m : positive) (e : Z) :
  emin <= e -> 0 <= sv (S754_finite s m e) -> s = false.
Proof.
  intros He. cbn [Rnd.sv]. pose proof (pow2_pos (e - emin) ltac:(lia)).
  destruct s; cbn [cond_Zopp]; [nia|reflexivity].
Qed.

Lemma SFmul_nonneg (x y : spec_float) :
  valid x = true -> valid y = true ->
  finite_or_zero x = true -> finite_or_zero y = true ->
  0 <= sv x -> 0 <= sv y -> 0 <= sv (SFmul prec emax x y).
Proof.
  intros Vx Vy Fx Fy Hx Hy.
  destruct x as [sx|sx| |sx mx ex], y as [sy|sy| |sy my ey]; try discriminate;
    try (cbn [SFmul Rnd.sv]; lia).
  cbn [valid_binary] in Vx, Vy.
  destruct (bounded_inv mx ex Vx) as (_ & _ & Hminx & _).
  destruct (bounded_inv my ey Vy) as (_ & _ & Hminy & _).
  rewrite (sv_nonneg_sign sx mx ex Hminx Hx), (sv_nonneg_sign sy my ey Hminy Hy).
  cbn [SFmul xorb].
  apply (sv_sign false). apply binary_round_aux_valid; [lia|].
  apply mul_aligned; assumption.
Qed.

Lemma SFmul_lower (mx my : positive) (ex ey : Z) (ml : positive) (el : Z) :
  bounded prec emax mx ex = true -> bounded prec emax my ey = true ->
  bounded prec emax ml el = true ->
  ex + ey <= el ->
  Zpos ml * 2 ^ (el - emin) * 2 ^ (- emin)
    <= (Zpos mx * 2 ^ (ex - emin)) * (Zpos my * 2 ^ (ey - emin)) ->
  SFmul prec emax (S754_finite false mx ex) (S754_finite false my ey)
    = S754_infinity false
  \/ (exists mr er,
        SFmul prec emax (S754_finite false mx ex) (S754_finite false my ey)
          = S754_finite false mr er
        /\ bounded prec emax mr er = true
        /\ Zpos ml * 2 ^ (el - emin) <= Zpos mr * 2 ^ (er - emin)).
Proof.
  intros Vx Vy Hb Hel Hle.
  destruct (bounded_inv mx ex Vx) as (_ & _ & Hminx & _).
  destruct (bounded_inv my ey Vy) as (_ & _ & Hminy & _).
  destruct (bounded_inv ml el Hb) as (_ & _ & Helmin & _).
  pose proof emin_nonpos as Hemin.
  pose proof (SFmul_valid (S754_finite false mx ex) (S754_finite false my ey)
                Vx Vy) as Hval.
  cbn [SFmul xorb] in *.
  destruct (binary_round_aux_lower_exact false (Zpos (mx * my)) (ex + ey)
              ml el (emin + emin)) as [Hinf|(mr & er & Hr & Hlo)];
    try assumption; try lia.
  - apply mul_aligned; assumption.
  - rewrite Pos2Z.inj_mul.
    replace (ex + ey - (emin + emin)) with ((ex - emin) + (ey - emin)) by lia.
    replace (el - (emin + emin)) with ((el - emin) + (- emin)) by lia.
    rewrite !pow2_split by lia. nia.
  - left. exact Hinf.
  - right. exists mr, er. rewrite Hr in Hval. cbn [valid_binary] in Hval.
    repeat split; assumption.
Qed.

(** ** Sums and differences *)

Lemma add_exact (sx sy : bool) (mx my : positive) (ex ey : Z) :
  emin <= ex -> emin <= ey ->
  (cond_Zopp sx (Zpos (fst (shl_align mx ex (Z.min ex ey))))
   + cond_Zopp sy (Zpos (fst (shl_align my ey (Z.min ex ey)))))
  * 2 ^ (Z.min ex ey - emin)
  = sv (S754_finite sx mx ex) + sv (S754_finite sy my ey).
Proof.
  intros Hx Hy.
  destruct (shl_align_spec mx ex (Z.min ex ey)) as [_ ->].
  destruct (shl_align_spec my ey (Z.min ex ey)) as [_ ->].
  replace (Z.min ex (Z.min ex ey)) with (Z.min ex ey) by lia.
  replace (Z.min ey (Z.min ex ey)) with (Z.min ex ey) by lia.
  cbn [Rnd.sv].
  replace (ex - emin) with ((ex - Z.min ex ey) + (Z.min ex ey - emin)) by lia.
  replace (ey - emin) with ((ey - Z.min ex ey) + (Z.min ex ey - emin)) by lia.
  rewrite !pow2_split by lia.
  destruct sx, sy; cbn [cond_Zopp]; ring.
Qed.

Lemma sub_exact (sx sy : bool) (mx my : positive) (ex ey : Z) :
  emin <= ex -> emin <= ey ->
  (cond_Zopp sx (Zpos (fst (shl_align mx ex (Z.min ex ey))))
   - cond_Zopp sy (Zpos (fst (shl_align my ey (Z.min ex ey)))))
  * 2 ^ (Z.min ex ey - emin)
  = sv (S754_finite sx mx ex) - sv (S754_finite sy my ey).
Proof.
  intros Hx Hy.
  destruct (shl_align_spec mx ex (Z.min ex ey)) as [_ ->].
  destruct (shl_align_spec my ey (Z.min ex ey)) as [_ ->].
  replace (Z.min ex (Z.min ex ey)) with (Z.min ex ey) by lia.
  replace (Z.min ey (Z.min ex ey)) with (Z.min ex ey) by lia.
  cbn [Rnd.sv].
  replace (ex - emin) with ((ex - Z.min ex ey) + (Z.min ex ey - emin)) by lia.
  replace (ey - emin) with ((ey - Z.min ex ey) + (Z.min ex ey - emin)) by lia.
  rewrite !pow2_split by lia.
  destruct sx, sy; cbn [cond_Zopp]; ring.
Qed.

Lemma SFadd_valid (x y : spec_float) :
  valid x = true -> valid y = true -> valid (SFadd prec emax x y) = true.
Proof.
  intros Vx Vy.
  destruct x as [sx|sx| |sx mx ex], y as [sy|sy| |sy my ey];
    try reflexivity; try assumption;
    try (destruct sx, sy; reflexivity).
  cbn [SFadd]. apply binary_normalize_valid.
Qed.

Lemma SFsub_valid (x y : spec_float) :
  valid x = true -> valid y = true -> valid (SFsub prec emax x y) = true.
Proof.
  intros Vx Vy.
  destruct x as [sx|sx| |sx mx ex], y as [sy|sy| |sy my ey];
    try reflexivity; try assumption;
    try (destruct sx, sy; reflexivity).
  cbn [SFsub]. apply binary_normalize_valid.
Qed.

Lemma SFadd_upper (x y : spec_float) (mh : positive) (eh : Z) :
  valid x = true -> valid y = true ->
  finite_or_zero x = true -> finite_or_zero y = true ->
  bounded prec emax mh eh = true ->
  Z.abs (sv x + sv y) <= Zpos mh * 2 ^ (eh - emin) ->
  finite_or_zero (SFadd prec emax x y) = true
  /\ Z.abs (sv (SFadd prec emax x y)) <= Zpos mh * 2 ^ (eh - emin).
Proof.
  intros Vx Vy Fx Fy Hb Hle.
  destruct (bounded_inv mh eh Hb) as (_ & _ & Hehmin & _).
  assert (Hpos : 0 <= Zpos mh * 2 ^ (eh - emin)).
  { pose proof (pow2_pos (eh - emin) ltac:(lia)). nia. }
  destruct x as [sx|sx| |sx mx ex], y as [sy|sy| |sy my ey]; try discriminate.
  - split; [destruct sx, sy; reflexivity|].
    destruct sx, sy; cbn [SFadd Rnd.sv Z.abs]; exact Hpos.
  - cbn [SFadd]. split; [reflexivity|]. exact Hle.
  - cbn [SFadd]. split; [reflexivity|]. rewrite Z.add_0_r in Hle. exact Hle.
  - cbn [valid_binary] in Vx, Vy.
    destruct (bounded_inv mx ex Vx) as (_ & _ & Hminx & _).
    destruct (bounded_inv my ey Vy) as (_ & _ & Hminy & _).
    cbn [SFadd]. apply binary_normalize_upper; [assumption|lia|].
    rewrite <- (add_exact sx sy mx my ex ey Hminx Hminy) in Hle.
    rewrite Z.abs_mul in Hle.
    rewrite (Z.abs_eq (2 ^ _)) in Hle
      by (pose proof (pow2_pos (Z.min ex ey - emin) ltac:(lia)); lia).
    exact Hle.
Qed.

Lemma SFsub_upper (x y : spec_float) (mh : positive) (eh : Z) :
  valid x = true -> valid y = true ->
  finite_or_zero x = true -> finite_or_zero y = true ->
  bounded prec emax mh eh = true ->
  Z.abs (sv x - sv y) <= Zpos mh * 2 ^ (eh - emin) ->
  finite_or_zero (SFsub prec emax x y) = true
  /\ Z.abs (sv (SFsub prec emax x y)) <= Zpos mh * 2 ^ (eh - emin).
Proof.
  intros Vx Vy Fx Fy Hb Hle.
  destruct (bounded_inv mh eh Hb) as (_ & _ & Hehmin & _).
  assert (Hpos : 0 <= Zpos mh * 2 ^ (eh - emin)).
  { pose proof (pow2_pos (eh - emin) ltac:(lia)). nia. }
  destruct x as [sx|sx| |sx mx ex], y as [sy|sy| |sy my ey]; try discriminate.
  - split; [destruct sx, sy; reflexivity|].
    destruct sx, sy; cbn [SFsub Rnd.sv Z.abs]; exact Hpos.
  - cbn [SFsub]. split; [reflexivity|].
    cbn [Rnd.sv] in *. destruct sy; cbn [cond_Zopp negb] in *; lia.
  - cbn [SFsub]. split; [reflexivity|]. rewrite Z.sub_0_r in Hle. exact Hle.
  - cbn [valid_binary] in Vx, Vy.
    destruct (bounded_inv mx ex Vx) as (_ & _ & Hminx & _).
    destruct (bounded_inv my ey Vy) as (_ & _ & Hminy & _).
    cbn [SFsub]. apply binary_normalize_upper; [assumption|lia|].
    rewrite <- (sub_exact sx sy mx my ex ey Hminx Hminy) in Hle.
    rewrite Z.abs_mul in Hle.
    rewrite (Z.abs_eq (2 ^ _)) in Hle
      by (pose proof (pow2_pos (Z.min ex ey - emin) ltac:(lia)); lia).
    exact Hle.
Qed.

Lemma SFadd_nonneg (x y : spec_float) :
  valid x = true -> valid y = true ->
  finite_or_zero x = true -> finite_or_zero y = true ->
  0 <= sv x + sv y -> 0 <= sv (SFadd prec emax x y).
Proof.
  intros Vx Vy Fx Fy Hs.
  destruct x as [sx|sx| |sx mx ex], y as [sy|sy| |sy my ey]; try discriminate.
  - destruct sx, sy; cbn [SFadd Rnd.sv]; lia.
  - cbn [SFadd]. exact Hs.
  - cbn [SFadd]. rewrite Z.add_0_r in Hs. exact Hs.
  - cbn [valid_binary] in Vx, Vy.
    destruct (bounded_inv mx ex Vx) as (_ & _ & Hminx & _).
    destruct (bounded_inv my ey Vy) as (_ & _ & Hminy & _).
    cbn [SFadd]. apply (sv_sign false). apply binary_normalize_sign.
    rewrite <- (add_exact sx sy mx my ex ey Hminx Hminy) in Hs.
    pose proof (pow2_pos (Z.min ex ey - emin) ltac:(lia)). nia.
Qed.

Lemma SFsub_nonneg (x y : spec_float) :
  valid x = true -> valid y = true ->
  finite_or_zero x = true -> finite_or_zero y = true ->
  0 <= sv x - sv y -> 0 <= sv (SFsub prec emax x y).
Proof.
  intros Vx Vy Fx Fy Hs.
  destruct x as [sx|sx| |sx mx ex], y as [sy|sy| |sy my ey]; try discriminate.
  - destruct sx, sy; cbn [SFsub Rnd.sv]; lia.
  - cbn [SFsub]. cbn [Rnd.sv] in *. destruct sy; cbn [cond_Zopp negb] in *; lia.
  - cbn [SFsub]. rewrite Z.sub_0_r in Hs. exact Hs.
  - cbn [valid_binary] in Vx, Vy.
    destruct (bounded_inv mx ex Vx) as (_ & _ & Hminx & _).
    destruct (bounded_inv my ey Vy) as (_ & _ & Hminy & _).
    cbn [SFsub]. apply (sv_sign false). apply binary_normalize_sign.
    rewrite <- (sub_exact sx sy mx my ex ey Hminx Hminy) in Hs.
    pose proof (pow2_pos (Z.min ex ey - emin) ltac:(lia)). nia.
Qed.

(** ** Quotients *)

Lemma new_location_bits (nb r : Z) :
  0 <= loc_bits (new_location nb r) <= 3
  /\ (r = 0 -> loc_bits (new_location nb r) = 0).
Proof.
  unfold new_location, new_location_even, new_location_odd.
  destruct (Z.even nb); destruct (Z.eqb_spec r 0) as [->|Hr]; cbn [loc_bits];
    try (split; [lia | intros; lia]).
  - destruct (2 * r ?= nb); cbn [loc_bits]; split; try lia; intros; lia.
  - destruct (2 * r + 1 ?= nb); cbn [loc_bits]; split; try lia; intros; lia.
Qed.

Lemma shiftl_match (m s : Z) :
  0 <= s ->
  match s with
  | Zpos _ => Z.shiftl m s
  | Z0 => m
  | Zneg _ => 0
  end = m * 2 ^ s.
Proof.
  intros Hs. destruct s as [|p|p]; try lia.
  apply Z.shiftl_mul_pow2. lia.
Qed.

Lemma div_core_spec (m1 m2 : positive) (e1 e2 : Z) :
  let e' := Z.min (fexp (Zdigits2 (Zpos m1) + e1 - (Zdigits2 (Zpos m2) + e2)))
                  (e1 - e2) in
  let s := e1 - e2 - e' in
  let a := Zpos m1 * 2 ^ s in
  0 <= s
  /\ SFdiv_core_binary prec emax (Zpos m1) e1 (Zpos m2) e2 =
       (a / Zpos m2, e', new_location (Zpos m2) (a mod Zpos m2)).
Proof.
  intros e' s a. assert (Hs : 0 <= s) by (unfold s, e'; lia).
  split; [exact Hs|].
  unfold SFdiv_core_binary. fold e'. fold s.
  rewrite (shiftl_match (Zpos m1) s Hs). fold a.
  unfold Z.div, Z.modulo.
  destruct (Z.div_eucl a (Zpos m2)) as [q r]. reflexivity.
Qed.

Lemma div_aligned (m1 m2 : positive) (e1 e2 : Z) :
  bounded prec emax m1 e1 = true ->
  let e' := Z.min (fexp (Zdigits2 (Zpos m1) + e1 - (Zdigits2 (Zpos m2) + e2)))
                  (e1 - e2) in
  let a := Zpos m1 * 2 ^ (e1 - e2 - e') in
  0 <= a / Zpos m2 /\ e' <= fexp (Zdigits2 (a / Zpos m2) + e').
Proof.
  intros H1 e' a.
  destruct (bounded_inv m1 e1 H1) as (_ & _ & _ & Hm1).
  set (d1 := Zdigits2 (Zpos m1)) in *. set (d2 := Zdigits2 (Zpos m2)) in *.
  set (s := e1 - e2 - e') in *.
  assert (Hs : 0 <= s) by (unfold s, e'; lia).
  pose proof (pow2_pos s Hs) as Hps.
  assert (Ha : 0 < a) by (unfold a; nia).
  pose proof (Zdigits2_bounds (Zpos m1) ltac:(lia)) as [Hlo1 Hhi1]. fold d1 in Hlo1, Hhi1.
  pose proof (Zdigits2_bounds (Zpos m2) ltac:(lia)) as [Hlo2 Hhi2]. fold d2 in Hlo2, Hhi2.
  pose proof (Zdigits2_pos (Zpos m1) ltac:(lia)) as Hd1. fold d1 in Hd1.
  pose proof (Zdigits2_pos (Zpos m2) ltac:(lia)) as Hd2. fold d2 in Hd2.
  assert (Hd1p : d1 <= prec).
  { destruct (Z.le_gt_cases d1 prec); [assumption|exfalso].
    assert (2 ^ prec <= 2 ^ (d1 - 1)) by (apply pow2_le; lia). lia. }
  assert (Hq0 : 0 <= a / Zpos m2) by (apply Z.div_pos; lia).
  split; [exact Hq0|].
  assert (Hal : 2 ^ (d1 - 1 + s) <= a).
  { unfold a. fold s. rewrite pow2_split by lia. nia. }
  destruct (Z.eq_dec (a / Zpos m2) 0) as [Hz|Hnz].
  - rewrite Hz. cbn [Zdigits2 Z.add].
    assert (Hlt : a < Zpos m2).
    { destruct (Z.lt_ge_cases a (Zpos m2)); [assumption|exfalso].
      assert (1 <= a / Zpos m2) by (apply Z.div_le_lower_bound; lia). lia. }
    assert (Hsd : d1 - 1 + s < d2).
    { destruct (Z.lt_ge_cases (d1 - 1 + s) d2); [assumption|exfalso].
      assert (2 ^ d2 <= 2 ^ (d1 - 1 + s)) by (apply pow2_le; lia). lia. }
    unfold s, e', SpecFloat.fexp in *. lia.
  - assert (Hd : d1 + s - d2 <= Zdigits2 (a / Zpos m2)).
    { pose proof (Zdigits2_pos (a / Zpos m2) ltac:(lia)) as Hdq.
      destruct (Z.le_gt_cases (d1 + s - d2 - 1) (-1)) as [Hsmall|Hbig]; [lia|].
      pose proof (Zdigits2_bounds (a / Zpos m2) ltac:(lia)) as [_ Hhiq].
      destruct (Z.le_gt_cases (d1 + s - d2) (Zdigits2 (a / Zpos m2)));
        [assumption|exfalso].
      assert (Hql : 2 ^ (d1 + s - d2 - 1) <= a / Zpos m2).
      { apply Z.div_le_lower_bound; [lia|].
        assert (Zpos m2 * 2 ^ (d1 + s - d2 - 1) <= 2 ^ d2 * 2 ^ (d1 + s - d2 - 1)).
        { apply Z.mul_le_mono_nonneg_r; [|lia].
          pose proof (pow2_pos (d1 + s - d2 - 1) ltac:(lia)). lia. }
        rewrite <- pow2_split in H0 by lia.
        replace (d2 + (d1 + s - d2 - 1)) with (d1 - 1 + s) in H0 by lia. lia. }
      assert (2 ^ Zdigits2 (a / Zpos m2) <= 2 ^ (d1 + s - d2 - 1))
        by (apply pow2_le; lia).
      lia. }
    pose proof (fexp_mono (d1 + e1 - (d2 + e2)) (Zdigits2 (a / Zpos m2) + e')
                  ltac:(unfold s in Hd; lia)).
    unfold e' at 1. lia.
Qed.

Lemma SFdiv_valid (x y : spec_float) :
  valid x = true -> valid y = true -> valid (SFdiv prec emax x y) = true.
Proof.
  intros Vx Vy.
  destruct x as [sx|sx| |sx mx ex], y as [sy|sy| |sy my ey];
    try reflexivity.
  cbn [SFdiv valid_binary] in *.
  destruct (div_core_spec mx my ex ey) as [_ ->].
  destruct (div_aligned mx my ex ey Vx) as [Hq Hal].
  apply binary_round_aux_valid; assumption.
Qed.

Lemma SFdiv_upper (x y : spec_float) (mh : positive) (eh : Z) :
  valid x = true -> valid y = true ->
  finite_or_zero x = true ->
  (exists sy my ey, y = S754_finite sy my ey) ->
  bounded prec emax mh eh = true ->
  Z.abs (sv x) * 2 ^ (- emin) <= Zpos mh * 2 ^ (eh - emin) * Z.abs (sv y) ->
  finite_or_zero (SFdiv prec emax x y) = true
  /\ Z.abs (sv (SFdiv prec emax x y)) <= Zpos mh * 2 ^ (eh - emin).
Proof.
  intros Vx Vy Fx (sy & my & ey & ->) Hb Hle.
  destruct (bounded_inv mh eh Hb) as (Hcanh & _ & Hehmin & _).
  pose proof emin_nonpos as Hemin.
  assert (Hpos : 0 <= Zpos mh * 2 ^ (eh - emin)).
  { pose proof (pow2_pos (eh - emin) ltac:(lia)). nia. }
  destruct x as [sx|sx| |sx mx ex]; try discriminate.
  { split; [reflexivity | cbn [SFdiv Rnd.sv Z.abs]; exact Hpos]. }
  cbn [valid_binary] in Vx, Vy.
  destruct (bounded_inv mx ex Vx) as (_ & _ & Hminx & _).
  destruct (bounded_inv my ey Vy) as (_ & _ & Hminy & _).
  rewrite !abs_sv in *. cbn [Rnd.mag] in Hle. cbn [SFdiv].
  destruct (div_core_spec mx my ex ey) as [Hs ->].
  destruct (div_aligned mx my ex ey Vx) as [Hq Hal].
  set (d1 := Zdigits2 (Zpos mx)) in *. set (d2 := Zdigits2 (Zpos my)) in *.
  set (e' := Z.min (fexp (d1 + ex - (d2 + ey))) (ex - ey)) in *.
  set (s := ex - ey - e') in *.
  set (a := Zpos mx * 2 ^ s) in *.
  pose proof (Zdigits2_bounds (Zpos mx) ltac:(lia)) as [Hlo1 Hhi1]. fold d1 in Hlo1, Hhi1.
  pose proof (Zdigits2_bounds (Zpos my) ltac:(lia)) as [Hlo2 Hhi2]. fold d2 in Hlo2, Hhi2.
  pose proof (Zdigits2_bounds (Zpos mh) ltac:(lia)) as [Hloh Hhih].
  pose proof (Zdigits2_pos (Zpos mx) ltac:(lia)) as Hd1. fold d1 in Hd1.
  pose proof (Zdigits2_pos (Zpos my) ltac:(lia)) as Hd2. fold d2 in Hd2.
  pose proof (Zdigits2_pos (Zpos mh) ltac:(lia)) as Hdh.
  (* the quotient's exponent is not above the bound's *)
  assert (Hc : e' <= eh).
  { destruct (Z.le_gt_cases e' eh) as [|Hgt]; [assumption|exfalso].
    assert (HD : Zdigits2 (Zpos mh) + eh < d1 + ex - (d2 + ey)).
    { destruct (Z.lt_ge_cases (Zdigits2 (Zpos mh) + eh) (d1 + ex - (d2 + ey)));
        [assumption|].
      pose proof (fexp_mono (d1 + ex - (d2 + ey)) (Zdigits2 (Zpos mh) + eh)
                    ltac:(lia)).
      unfold e' in Hgt. lia. }
    assert (L : 2 ^ ((d1 - 1) + (ex - emin) + (- emin))
                <= Zpos mx * 2 ^ (ex - emin) * 2 ^ (- emin)).
    { rewrite !pow2_split by lia.
      pose proof (pow2_pos (ex - emin) ltac:(lia)).
      pose proof (pow2_pos (- emin) ltac:(lia)). nia. }
    assert (R : Zpos mh * 2 ^ (eh - emin) * (Zpos my * 2 ^ (ey - emin))
                < 2 ^ (Zdigits2 (Zpos mh) + (eh - emin) + (d2 + (ey - emin)))).
    { rewrite (pow2_split (Zdigits2 (Zpos mh) + (eh - emin))) by lia.
      rewrite !pow2_split by lia.
      pose proof (pow2_pos (eh - emin) ltac:(lia)).
      pose proof (pow2_pos (ey - emin) ltac:(lia)).
      assert (Zpos mh * 2 ^ (eh - emin) < 2 ^ Zdigits2 (Zpos mh) * 2 ^ (eh - emin)) by nia.
      assert (Zpos my * 2 ^ (ey - emin) < 2 ^ d2 * 2 ^ (ey - emin)) by nia.
      assert (0 < Zpos mh * 2 ^ (eh - emin)) by nia.
      assert (0 < Zpos my * 2 ^ (ey - emin)) by nia.
      nia. }
    assert (2 ^ (Zdigits2 (Zpos mh) + (eh - emin) + (d2 + (ey - emin)))
            <= 2 ^ ((d1 - 1) + (ex - emin) + (- emin)))
      by (apply pow2_le; lia).
    lia. }
  set (H := Zpos mh * 2 ^ (eh - e')).
  assert (HaH : a <= Zpos my * H).
  { assert (He2 : 0 <= e' + ey - emin - emin)
      by (unfold e', SpecFloat.fexp; lia).
    apply (Z.mul_le_mono_pos_r _ _ (2 ^ (e' + ey - emin - emin)));
      [apply pow2_pos; lia|].
    assert (E1 : 2 ^ s * 2 ^ (e' + ey - emin - emin)
                 = 2 ^ (ex - emin) * 2 ^ (- emin)).
    { rewrite <- !pow2_split by lia. f_equal. unfold s. lia. }
    assert (E2 : 2 ^ (eh - e') * 2 ^ (e' + ey - emin - emin)
                 = 2 ^ (eh - emin) * 2 ^ (ey - emin)).
    { rewrite <- !pow2_split by lia. f_equal. lia. }
    replace (a * 2 ^ (e' + ey - emin - emin))
      with (Zpos mx * (2 ^ s * 2 ^ (e' + ey - emin - emin)))
      by (unfold a; ring).
    replace (Zpos my * H * 2 ^ (e' + ey - emin - emin))
      with (Zpos my * Zpos mh * (2 ^ (eh - e') * 2 ^ (e' + ey - emin - emin)))
      by (unfold H; ring).
    rewrite E1, E2.
    replace (Zpos mx * (2 ^ (ex - emin) * 2 ^ (- emin)))
      with (Zpos mx * 2 ^ (ex - emin) * 2 ^ (- emin)) by ring.
    replace (Zpos my * Zpos mh * (2 ^ (eh - emin) * 2 ^ (ey - emin)))
      with (Zpos mh * 2 ^ (eh - emin) * (Zpos my * 2 ^ (ey - emin))) by ring.
    exact Hle. }
  apply binary_round_aux_upper; try assumption.
  fold H.
  pose proof (new_location_bits (Zpos my) (a mod Zpos my)) as [Hbits Hbits0].
  pose proof (Z.div_mod a (Zpos my) ltac:(lia)) as Hdm.
  pose proof (Z.mod_pos_bound a (Zpos my) ltac:(lia)) as Hr.
  destruct (Z.eq_dec (a mod Zpos my) 0) as [Hz|Hnz].
  - rewrite (Hbits0 Hz). nia.
  - assert (a / Zpos my < H) by nia. lia.
Qed.

Lemma SFdiv_nonneg (x y : spec_float) :
  valid x = true -> valid y = true ->
  finite_or_zero x = true ->
  (exists my ey, y = S754_finite false my ey) ->
  0 <= sv x -> 0 <= sv (SFdiv prec emax x y).
Proof.
  intros Vx Vy Fx (my & ey & ->) Hx.
  destruct x as [sx|sx| |sx mx ex]; try discriminate.
  cbn [valid_binary] in Vx, Vy.
  destruct (bounded_inv mx ex Vx) as (_ & _ & Hminx & _).
  rewrite (sv_nonneg_sign sx mx ex Hminx Hx). cbn [SFdiv xorb].
  destruct (div_core_spec mx my ex ey) as [Hs ->].
  destruct (div_aligned mx my ex ey Vx) as [Hq Hal].
  apply (sv_sign false). apply binary_round_aux_valid; assumption.
Qed.

(** ** Rounding never flushes an exact quantity to zero *)

Lemma binary_round_nonzero (s : bool) (m : positive) (e : Z) :
  emin <= e -> finite_or_zero (binary_round prec emax s m e) = true ->
  exists mr er, binary_round prec emax s m e = S754_finite s mr er.
Proof.
  intros He Hfin.
  destruct (binary_round_valid s m e) as [_ Hsign].
  assert (Hlo : bounded prec emax 1 emin = true).
  { unfold bounded, canonical_mantissa. cbn [digits2_pos].
    apply andb_true_intro. split.
    - apply Z.eqb_eq. unfold SpecFloat.fexp. lia.
    - apply Z.leb_le. unfold SpecFloat.emin. lia. }
  destruct (binary_round prec emax s m e) as [s'|s'| |s' mr er] eqn:Hr;
    try discriminate.
  - exfalso. rewrite binary_round_eq in Hr.
    pose proof (binary_round_aligned m e) as Hal.
    pose proof (aligned_mantissa_nonneg m e) as Hm.
    rewrite binary_round_aux_shape in Hr by (assumption || lia).
    unfold Rnd.round_shape in Hr.
    set (m' := Zpos m * 2 ^ (e - aligned_exp m e)) in *.
    set (e' := aligned_exp m e) in *.
    assert (Hpos : 0 < rne (shifted m' e' loc_Exact)).
    { destruct (fexp_cases (Zdigits2 m' + e')) as [[Hc Hsmall]|[Hc Hnorm]].
      - (* at emin nothing is shifted out *)
        assert (He' : e' = emin).
        { unfold e', Rnd.aligned_exp in *. unfold m' in Hc.
          rewrite Zdigits2_mul_pow2 in Hc by (unfold Rnd.aligned_exp; lia).
          replace (Zdigits2 (Zpos m) + (e - Z.min e (fexp (Zdigits2 (Zpos m) + e)))
                   + Z.min e (fexp (Zdigits2 (Zpos m) + e)))
            with (Zdigits2 (Zpos m) + e) in Hc by lia.
          lia. }
        unfold Rnd.shifted. rewrite Hc, He', Z.sub_diag.
        change (0 < rne (Build_shr_record m' false false)).
        rewrite rne_exact. exact Hm.
      - pose proof (shifted_m_ge m' e' loc_Exact Hm Hal ltac:(lia)) as Hge.
        pose proof (rne_bounds (shifted m' e' loc_Exact)) as [Hb _].
        pose proof (pow2_pos (prec - 1) ltac:(lia)). lia. }
    destruct (Z.eqb_spec (rne (shifted m' e' loc_Exact)) 0); [lia|].
    destruct (rne (shifted m' e' loc_Exact) <? 2 ^ prec);
      [destruct (fexp (Zdigits2 m' + e') <=? emax - prec)
      |destruct (fexp (Zdigits2 m' + e') + 1 <=? emax - prec)]; discriminate.
  - cbn [has_sign] in Hsign. subst s'. exists mr, er. reflexivity.
Qed.

End Rounding.

(** * Binary32 arithmetic

    The rounding lemmas at [prec = 24], [emax = 128], on the value [sv32] of
    a finite [float] in units of [2^-149]. *)

Section Binary32.

Lemma prec32_pos : 0 < F32.prec.
Proof. reflexivity. Qed.

Lemma prec32_lt_emax : F32.prec < F32.emax.
Proof. reflexivity. Qed.

Lemma finite32_zero (s : bool) : finite32 (S754_zero s).
Proof. split; reflexivity. Qed.

Lemma finite32_bounded (s : bool) (m : positive) (e : Z) :
  finite32 (S754_finite s m e) -> bounded F32.prec F32.emax m e = true.
Proof. intros [V _]. exact V. Qed.

Lemma sv32_finite (s : bool) (m : positive) (e : Z) :
  sv32 (S754_finite s m e) = cond_Zopp s (Zpos m * 2 ^ (e + 149)).
Proof.
  unfold Rnd.sv. change (SpecFloat.emin F32.prec F32.emax) with (-149).
  replace (e - -149) with (e + 149) by lia. reflexivity.
Qed.

Lemma finite32_exp (s : bool) (m : positive) (e : Z) :
  finite32 (S754_finite s m e) -> -149 <= e <= 104 /\ Zpos m < 2 ^ 24.
Proof.
  intros H. apply finite32_bounded in H.
  destruct (bounded_inv F32.prec F32.emax prec32_pos m e H) as (_ & H1 & H2 & H3).
  change (SpecFloat.emin F32.prec F32.emax) with (-149) in H2.
  change (F32.emax - F32.prec) with 104 in H1.
  change (2 ^ F32.prec) with (2 ^ 24) in H3. lia.
Qed.

(** A positive bound, as the mantissa and exponent the rounding lemmas
    take. *)
Lemma positive_bound (b : float) :
  finite32 b -> 0 < sv32 b ->
  exists mh eh, b = S754_finite false mh eh
    /\ bounded F32.prec F32.emax mh eh = true
    /\ sv32 b = Zpos mh * 2 ^ (eh - SpecFloat.emin F32.prec F32.emax).
Proof.
  intros [V F] Hpos. destruct b as [s|s| |s m e]; try discriminate;
    try (cbn in Hpos; lia).
  assert (He : SpecFloat.emin F32.prec F32.emax <= e).
  { destruct (bounded_inv F32.prec F32.emax prec32_pos m e V) as (_ & _ & H & _).
    exact H. }
  assert (s = false) as ->.
  { apply (sv_nonneg_sign F32.prec F32.emax s m e He). lia. }
  exists m, e. repeat split. exact V.
Qed.

Lemma add32_valid (x y : float) :
  F32.valid x = true -> F32.valid y = true -> F32.valid (x + y)%f32 = true.
Proof. apply SFadd_valid; reflexivity. Qed.

Lemma sub32_valid (x y : float) :
  F32.valid x = true -> F32.valid y = true -> F32.valid (x - y)%f32 = true.
Proof. apply SFsub_valid; reflexivity. Qed.

Lemma mul32_valid (x y : float) :
  F32.valid x = true -> F32.valid y = true -> F32.valid (x * y)%f32 = true.
Proof. apply SFmul_valid; reflexivity. Qed.

Lemma div32_valid (x y : float) :
  F32.valid x = true -> F32.valid y = true -> F32.valid (x / y)%f32 = true.
Proof. apply SFdiv_valid; reflexivity. Qed.

(** Rounding is monotone: a sum, difference or product whose exact value
    is at most a [float] [b] in magnitude rounds to a finite [float] at most
    [b] in magnitude. *)
Lemma add32_bound (b x y : float) :
  finite32 b -> 0 < sv32 b -> finite32 x -> finite32 y ->
  Z.abs (sv32 x + sv32 y) <= sv32 b ->
  finite32 (x + y)%f32 /\ Z.abs (sv32 (x + y)%f32) <= sv32 b.
Proof.
  intros Hb Hpos [Vx Fx] [Vy Fy] H.
  destruct (positive_bound b Hb Hpos) as (mh & eh & -> & Hbd & Hsv).
  rewrite Hsv in *.
  destruct (SFadd_upper F32.prec F32.emax prec32_pos x y mh eh Vx Vy Fx Fy Hbd H)
    as [F U].
  split; [split|]; [apply add32_valid; assumption | exact F | exact U].
Qed.

Lemma sub32_bound (b x y : float) :
  finite32 b -> 0 < sv32 b -> finite32 x -> finite32 y ->
  Z.abs (sv32 x - sv32 y) <= sv32 b ->
  finite32 (x - y)%f32 /\ Z.abs (sv32 (x - y)%f32) <= sv32 b.
Proof.
  intros Hb Hpos [Vx Fx] [Vy Fy] H.
  destruct (positive_bound b Hb Hpos) as (mh & eh & -> & Hbd & Hsv).
  rewrite Hsv in *.
  destruct (SFsub_upper F32.prec F32.emax prec32_pos x y mh eh Vx Vy Fx Fy Hbd H)
    as [F U].
  split; [split|]; [apply sub32_valid; assumption | exact F | exact U].
Qed.

Lemma mul32_bound (b x y : float) :
  finite32 b -> 0 < sv32 b -> finite32 x -> finite32 y ->
  Z.abs (sv32 x) * Z.abs (sv32 y) <= sv32 b * 2 ^ 149 ->
  finite32 (x * y)%f32 /\ Z.abs (sv32 (x * y)%f32) <= sv32 b.
Proof.
  intros Hb Hpos [Vx Fx] [Vy Fy] H.
  destruct (positive_bound b Hb Hpos) as (mh & eh & -> & Hbd & Hsv).
  rewrite Hsv in *.
  destruct (SFmul_upper F32.prec F32.emax prec32_pos prec32_lt_emax
              x y mh eh Vx Vy Fx Fy Hbd H) as [F U].
  split; [split|]; [apply mul32_valid; assumption | exact F | exact U].
Qed.

Lemma add32_nonneg (x y : float) :
  finite32 x -> finite32 y -> 0 <= sv32 x + sv32 y -> 0 <= sv32 (x + y)%f32.
Proof.
  intros [Vx Fx] [Vy Fy].
  apply (SFadd_nonneg F32.prec F32.emax prec32_pos prec32_lt_emax); assumption.
Qed.

Lemma sub32_nonneg (x y : float) :
  finite32 x -> finite32 y -> 0 <= sv32 x - sv32 y -> 0 <= sv32 (x - y)%f32.
Proof.
  intros [Vx Fx] [Vy Fy].
  apply (SFsub_nonneg F32.prec F32.emax prec32_pos prec32_lt_emax); assumption.
Qed.

Lemma mul32_nonneg (x y : float) :
  finite32 x -> finite32 y -> 0 <= sv32 x -> 0 <= sv32 y ->
  0 <= sv32 (x * y)%f32.
Proof.
  intros [Vx Fx] [Vy Fy].
  apply (SFmul_nonneg F32.prec F32.emax prec32_pos prec32_lt_emax); assumption.
Qed.

(** The order of finite [float]s is the order of their values. *)
Lemma le32_sv (x y : float) :
  finite32 x -> finite32 y -> (x <=? y)%f32 = (sv32 x <=? sv32 y).
Proof.
  intros [Vx Fx] [Vy Fy].
  apply (SFleb_sv F32.prec F32.emax prec32_pos); assumption.
Qed.

Lemma lt32_sv (x y : float) :
  finite32 x -> finite32 y -> (x <? y)%f32 = (sv32 x <? sv32 y).
Proof.
  intros [Vx Fx] [Vy Fy].
  apply (SFltb_sv F32.prec F32.emax prec32_pos); assumption.
Qed.

Lemma finite32_between (lo x hi : float) :
  F32.valid x = true -> finite32 lo -> finite32 hi ->
  (lo <=? x)%f32 = true -> (x <=? hi)%f32 = true -> finite32 x.
Proof.
  intros V [_ Fl] [_ Fh] H1 H2. split; [exact V|].
  exact (SFleb_between_finite lo x hi Fl Fh H1 H2).
Qed.

Lemma sv32_f_0 : sv32 f_0 = 0. Proof. reflexivity. Qed.

Lemma sv32_f_1 : sv32 f_1 = 2 ^ 149. Proof. reflexivity. Qed.

Lemma sv32_f_neg1 : sv32 f_neg1 = - 2 ^ 149. Proof. reflexivity. Qed.

Lemma sv32_f_2 : sv32 f_2 = 2 ^ 150. Proof. reflexivity. Qed.



Lemma sv32_f_0_5 : sv32 f_0_5 = 2 ^ 148. Proof. reflexivity. Qed.


Lemma in_range_sv (lo hi v : float) :
  finite32 lo -> finite32 hi -> in_range lo hi v ->
  finite32 v /\ sv32 lo <= sv32 v <= sv32 hi.
Proof.
  intros Hlo Hhi (V & H1 & H2).
  assert (Hv : finite32 v).
  { apply (finite32_between lo v hi); assumption. }
  split; [exact Hv|].
  rewrite le32_sv in H1, H2 by assumption.
  apply Z.leb_le in H1, H2. lia.
Qed.

Lemma in_signed_unit_sv (v : float) :
  in_signed_unit v -> finite32 v /\ - 2 ^ 149 <= sv32 v <= 2 ^ 149.
Proof.
  intros H.
  destruct (in_range_sv f_neg1 f_1 v) as [Hv Hr];
    [split; reflexivity | split; reflexivity | exact H |].
  rewrite sv32_f_neg1, sv32_f_1 in Hr. split; assumption.
Qed.

Lemma wrapped_sv (p : float) :
  wrapped p -> finite32 p /\ 0 <= sv32 p < 2 ^ 149.
Proof.
  intros (V & H0 & H1).
  assert (F0 : finite32 f_0) by (split; reflexivity).
  assert (F1 : finite32 f_1) by (split; reflexivity).
  assert (Fp : finite32 p).
  { split; [exact V|]. destruct p as [s|[|]| |s m e]; try reflexivity; discriminate. }
  split; [exact Fp|].
  rewrite le32_sv in H0 by assumption. rewrite lt32_sv in H1 by assumption.
  rewrite sv32_f_0 in H0. rewrite sv32_f_1 in H1.
  apply Z.leb_le in H0. apply Z.ltb_lt in H1. lia.
Qed.

(** A binary32 value below [2^(el + 24)] has an exponent of at most [el]. *)
Lemma exponent_le (s : bool) (m : positive) (e el : Z) :
  finite32 (S754_finite s m e) -> -149 <= el ->
  Zpos m * 2 ^ (e + 149) < 2 ^ (el + 24 + 149) -> e <= el.
Proof.
  intros Hx Hel Hlt.
  destruct (finite32_exp s m e Hx) as [He Hm].
  apply finite32_bounded in Hx.
  destruct (bounded_inv F32.prec F32.emax prec32_pos m e Hx) as (Hc & _).
  destruct (fexp_cases F32.prec F32.emax (Zdigits2 (Zpos m) + e))
    as [[Hf _]|[Hf _]]; rewrite Hc in Hf.
  - change (SpecFloat.emin F32.prec F32.emax) with (-149) in Hf. lia.
  - assert (Hd : Zdigits2 (Zpos m) = 24) by (unfold F32.prec in Hf; lia).
    pose proof (Zdigits2_bounds (Zpos m) ltac:(lia)) as [Hlo _].
    rewrite Hd in Hlo. change (2 ^ (24 - 1)) with (2 ^ 23) in Hlo.
    destruct (Z.le_gt_cases e el) as [|Hgt]; [assumption|exfalso].
    assert (2 ^ (el + 24 + 149) <= 2 ^ (23 + (e + 149))) by (apply pow2_le; lia).
    rewrite (pow2_split 23 (e + 149)) in H by lia.
    pose proof (pow2_pos (e + 149) ltac:(lia)). nia.
Qed.

(** The largest [float] below 1 is [1 - 2^-24]. *)
Lemma below_one (x : float) :
  finite32 x -> sv32 x < 2 ^ 149 -> sv32 x <= 16777215 * 2 ^ 125.
Proof.
  intros Hx Hlt. destruct x as [s|s| |s m e]; try (cbn; lia).
  destruct (finite32_exp s m e Hx) as [He Hm].
  rewrite sv32_finite in *.
  pose proof (pow2_pos (e + 149) ltac:(lia)) as Hp.
  destruct s; cbn [cond_Zopp] in *; [nia|].
  assert (Hexp : e <= -24).
  { apply (exponent_le false m e (-24) Hx); [lia|].
    change (2 ^ (-24 + 24 + 149)) with (2 ^ 149). exact Hlt. }
  pose proof (pow2_le (e + 149) 125 ltac:(lia)).
  change (2 ^ 24) with 16777216 in Hm. nia.
Qed.

(** A sum of finite numbers that is at least a positive [float] [b] rounds
    to at least [b], when one operand is fine enough for [b]. *)
Lemma add32_lower (ml : positive) (el : Z) (x y : float) :
  bounded F32.prec F32.emax ml el = true ->
  finite32 x -> finite32 y ->
  (forall s m e, x = S754_finite s m e -> e <= el) ->
  Zpos ml * 2 ^ (el + 149) <= sv32 x + sv32 y ->
  (S754_finite false ml el <=? (x + y))%f32 = true.
Proof.
  intros Hb Hx Hy Hex Hle.
  assert (Fb : finite32 (S754_finite false ml el)) by (split; [exact Hb|reflexivity]).
  assert (Sb : sv32 (S754_finite false ml el) = Zpos ml * 2 ^ (el + 149))
    by apply sv32_finite.
  assert (Hpos : 0 < Zpos ml * 2 ^ (el + 149)).
  { destruct (finite32_exp false ml el Fb) as [He _].
    pose proof (pow2_pos (el + 149) ltac:(lia)). nia. }
  destruct x as [sx|sx| |sx mx ex]; try (destruct Hx; discriminate);
    destruct y as [sy|sy| |sy my ey]; try (destruct Hy; discriminate).
  - cbn in Hle. lia.
  - change (S754_zero sx + S754_finite sy my ey)%f32 with (S754_finite sy my ey).
    rewrite le32_sv, Sb by assumption. apply Z.leb_le. cbn in Hle |- *. lia.
  - change (S754_finite sx mx ex + S754_zero sy)%f32 with (S754_finite sx mx ex).
    rewrite le32_sv, Sb by assumption. apply Z.leb_le.
    change (sv32 (S754_zero sy)) with 0 in Hle. lia.
  - destruct (finite32_exp sx mx ex Hx) as [Hex1 _].
    destruct (finite32_exp sy my ey Hy) as [Hey1 _].
    specialize (Hex sx mx ex eq_refl).
    unfold F32.add, SFadd.
    pose proof (add_exact F32.prec F32.emax sx sy mx my ex ey
                  ltac:(change (SpecFloat.emin F32.prec F32.emax) with (-149); lia)
                  ltac:(change (SpecFloat.emin F32.prec F32.emax) with (-149); lia))
      as Hexact.
    destruct (binary_normalize_lower F32.prec F32.emax prec32_pos prec32_lt_emax
                (cond_Zopp sx (Z.pos (shl_align mx ex (Z.min ex ey)).1) +
                 cond_Zopp sy (Z.pos (shl_align my ey (Z.min ex ey)).1))
                (Z.min ex ey) ml el Hb
                ltac:(change (SpecFloat.emin F32.prec F32.emax) with (-149); lia)
                ltac:(lia))
      as [Hinf | (mr & er & Hr & Hlo)].
    + rewrite Hexact.
      change (SpecFloat.emin F32.prec F32.emax) with (-149).
      replace (el - -149) with (el + 149) by lia. exact Hle.
    + rewrite Hinf. reflexivity.
    + rewrite Hr.
      pose proof (add32_valid _ _ (proj1 Hx) (proj1 Hy)) as V.
      unfold F32.add, SFadd in V. rewrite Hr in V.
      rewrite le32_sv by (assumption || (split; [exact V | reflexivity])).
      rewrite Sb, sv32_finite. cbn [cond_Zopp].
      change (SpecFloat.emin F32.prec F32.emax) with (-149) in Hlo.
      replace (el - -149) with (el + 149) in Hlo by lia.
      replace (er - -149) with (er + 149) in Hlo by lia.
      apply Z.leb_le. exact Hlo.
Qed.

(** The same for a difference [x - y] of two finite non-zero numbers. *)
Lemma sub32_lower (ml : positive) (el : Z) (sx sy : bool) (mx my : positive)
    (ex ey : Z) :
  bounded F32.prec F32.emax ml el = true ->
  finite32 (S754_finite sx mx ex) -> finite32 (S754_finite sy my ey) ->
  ey <= el ->
  Zpos ml * 2 ^ (el + 149)
    <= sv32 (S754_finite sx mx ex) - sv32 (S754_finite sy my ey) ->
  (S754_finite false ml el <=? (S754_finite sx mx ex - S754_finite sy my ey))%f32
  = true.
Proof.
  intros Hb Hx Hy Hey Hle.
  assert (Fb : finite32 (S754_finite false ml el)) by (split; [exact Hb|reflexivity]).
  assert (Sb : sv32 (S754_finite false ml el) = Zpos ml * 2 ^ (el + 149))
    by apply sv32_finite.
  destruct (finite32_exp sx mx ex Hx) as [Hex1 _].
  destruct (finite32_exp sy my ey Hy) as [Hey1 _].
  pose proof (sub32_valid _ _ (proj1 Hx) (proj1 Hy)) as V.
  unfold F32.sub, SFsub in *.
  pose proof (sub_exact F32.prec F32.emax sx sy mx my ex ey
                ltac:(change (SpecFloat.emin F32.prec F32.emax) with (-149); lia)
                ltac:(change (SpecFloat.emin F32.prec F32.emax) with (-149); lia))
    as Hexact.
  destruct (binary_normalize_lower F32.prec F32.emax prec32_pos prec32_lt_emax
              (cond_Zopp sx (Z.pos (shl_align mx ex (Z.min ex ey)).1) -
               cond_Zopp sy (Z.pos (shl_align my ey (Z.min ex ey)).1))
              (Z.min ex ey) ml el Hb
              ltac:(change (SpecFloat.emin F32.prec F32.emax) with (-149); lia)
              ltac:(lia))
    as [Hinf | (mr & er & Hr & Hlo)].
  - rewrite Hexact.
    change (SpecFloat.emin F32.prec F32.emax) with (-149).
    replace (el - -149) with (el + 149) by lia. exact Hle.
  - rewrite Hinf. reflexivity.
  - rewrite Hr in *.
    rewrite le32_sv by (assumption || (split; [exact V | reflexivity])).
    rewrite Sb, sv32_finite. cbn [cond_Zopp].
    change (SpecFloat.emin F32.prec F32.emax) with (-149) in Hlo.
    replace (el - -149) with (el + 149) in Hlo by lia.
    replace (er - -149) with (er + 149) in Hlo by lia.
    apply Z.leb_le. exact Hlo.
Qed.

(** A product of two positive finite numbers that is at least a positive
    [float] [b] rounds to at least [b], when the exponents allow. *)
Lemma mul32_lower (ml : positive) (el : Z) (mx my : positive) (ex ey : Z) :
  bounded F32.prec F32.emax ml el = true ->
  finite32 (S754_finite false mx ex) -> finite32 (S754_finite false my ey) ->
  ex + ey <= el ->
  Zpos ml * 2 ^ (el + 149) * 2 ^ 149
    <= sv32 (S754_finite false mx ex) * sv32 (S754_finite false my ey) ->
  (S754_finite false ml el <=? S754_finite false mx ex * S754_finite false my ey)%f32
  = true.
Proof.
  intros Hb Hx Hy He Hle.
  assert (Fb : finite32 (S754_finite false ml el)) by (split; [exact Hb|reflexivity]).
  pose proof (mul32_valid _ _ (proj1 Hx) (proj1 Hy)) as V.
  destruct (SFmul_lower F32.prec F32.emax prec32_pos prec32_lt_emax
              mx my ex ey ml el (proj1 Hx) (proj1 Hy) Hb He)
    as [Hinf | (mr & er & Hr & _ & Hlo)].
  - rewrite !sv32_finite in Hle. cbn [cond_Zopp] in Hle.
    change (SpecFloat.emin F32.prec F32.emax) with (-149).
    replace (el - -149) with (el + 149) by lia.
    replace (ex - -149) with (ex + 149) by lia.
    replace (ey - -149) with (ey + 149) by lia.
    change (- -149) with 149. exact Hle.
  - unfold F32.mul. rewrite Hinf. reflexivity.
  - unfold F32.mul in *. rewrite Hr in *.
    rewrite le32_sv by (assumption || (split; [exact V | reflexivity])).
    rewrite !sv32_finite. cbn [cond_Zopp].
    change (SpecFloat.emin F32.prec F32.emax) with (-149) in Hlo.
    replace (el - -149) with (el + 149) in Hlo by lia.
    replace (er - -149) with (er + 149) in Hlo by lia.
    apply Z.leb_le. exact Hlo.
Qed.

(** At or above [1.0f] is not below it. *)
Lemma ge_one_not_lt (q : float) :
  F32.valid q = true -> (f_1 <=? q)%f32 = true -> (q <? f_1)%f32 = false.
Proof.
  intros V H. destruct q as [s|[|]| |s m e]; try discriminate; try reflexivity.
  assert (Fq : finite32 (S754_finite s m e)) by (split; [exact V|reflexivity]).
  assert (F1 : finite32 f_1) by (split; reflexivity).
  rewrite le32_sv in H by assumption. rewrite lt32_sv by assumption.
  apply Z.leb_le in H. apply Z.ltb_ge. exact H.
Qed.

(** [1.0f * x] is [x], for every binary32 value. *)
Lemma mul32_one_l (x : float) :
  F32.valid x = true -> (f_1 * x)%f32 = x.
Proof.
  intros V. destruct x as [s|s| |s m e]; try reflexivity.
  unfold F32.mul, f_1, F32.one, SFmul. cbn [xorb].
  apply (binary_round_aux_representable F32.prec F32.emax prec32_pos
           prec32_lt_emax s _ _ m e (-23 + e)); try lia.
  - apply (mul_aligned F32.prec F32.emax prec32_pos prec32_lt_emax
             8388608 m (-23) e); [reflexivity | exact V].
  - exact V.
  - replace (-23 + e - (-23 + e)) with 0 by lia.
    replace (e - (-23 + e)) with 23 by lia.
    rewrite Pos2Z.inj_mul. change (2 ^ 23) with 8388608. lia.
Qed.

(** [0.0f * w] is a zero when [w] is finite. *)
Lemma mul32_zero_l (w : float) :
  F32.is_finite w = true -> exists s, (f_0 * w)%f32 = S754_zero s.
Proof. destruct w; try discriminate; intros _; eexists; reflexivity. Qed.

(** Adding a zero changes nothing, except that [-0 + +0] is [+0]. *)
Lemma add32_zero_r (x : float) (s : bool) :
  x <> S754_zero true -> (x + S754_zero s)%f32 = x.
Proof.
  destruct x as [[|]|sx| |sx m e]; try reflexivity; [congruence|].
  destruct s; reflexivity.
Qed.

(** A sum of two finite numbers is never [-0]. *)
Lemma add32_finite_not_neg_zero (x : float) (sy : bool) (my : positive) (ey : Z) :
  F32.valid x = true -> F32.valid (S754_finite sy my ey) = true ->
  (x + S754_finite sy my ey)%f32 <> S754_zero true.
Proof.
  intros Vx Vy. destruct x as [sx|sx| |sx mx ex]; try discriminate.
  unfold F32.add, SFadd.
  set (ez := Z.min ex ey).
  assert (Hez : SpecFloat.emin F32.prec F32.emax <= ez).
  { destruct (bounded_inv F32.prec F32.emax prec32_pos mx ex Vx) as (_ & _ & H1 & _).
    destruct (bounded_inv F32.prec F32.emax prec32_pos my ey Vy) as (_ & _ & H2 & _).
    unfold ez. lia. }
  destruct (cond_Zopp sx (Z.pos (shl_align mx ex ez).1) +
            cond_Zopp sy (Z.pos (shl_align my ey ez).1)) as [|p|p];
    unfold binary_normalize; [discriminate| |].
  - destruct (binary_round_valid F32.prec F32.emax prec32_pos prec32_lt_emax
                false p ez) as [_ Hs].
    intros E. rewrite E in Hs. discriminate Hs.
  - intros E.
    destruct (binary_round_nonzero F32.prec F32.emax prec32_pos prec32_lt_emax
                true p ez Hez) as (mr & er & E').
    + rewrite E. reflexivity.
    + congruence.
Qed.

(** [+0 + w] has the value of [w]. *)
Lemma add32_zero_l (w : float) :
  finite32 w ->
  finite32 (f_0 + w)%f32 /\ sv32 (f_0 + w)%f32 = sv32 w.
Proof.
  intros Hw. destruct w as [[|]|s| |s m e]; try (destruct Hw; discriminate);
    (split; [exact Hw || (split; reflexivity) | reflexivity]).
Qed.

(** [clamp11] leaves a finite value in [[-1, 1]] as it is. *)
Lemma clamp11_id (y : float) :
  finite32 y -> - 2 ^ 149 < sv32 y < 2 ^ 149 -> clamp11 y = y.
Proof.
  intros Hy Hr.
  assert (F1 : finite32 f_1) by (split; reflexivity).
  assert (Fn : finite32 f_neg1) by (split; reflexivity).
  unfold clamp11, std_min, std_max.
  rewrite (lt32_sv y f_1 Hy F1), sv32_f_1.
  destruct (Z.ltb_spec (sv32 y) (2 ^ 149)) as [_|?]; [|lia].
  rewrite (lt32_sv f_neg1 y Fn Hy), sv32_f_neg1.
  destruct (Z.ltb_spec (- 2 ^ 149) (sv32 y)) as [_|?]; [reflexivity|lia].
Qed.

(** [x + 1e-20f] is finite for every finite [x]: below the largest
    [float] by monotonicity, at the largest [float] by evaluation. *)
Lemma add32_tiny_finite (x : float) :
  finite32 x -> finite32 (x + f_1e_20)%f32.
Proof.
  intros Hx.
  destruct x as [s|s| |s m e]; try (destruct Hx; discriminate).
  - split; reflexivity.
  - assert (Ft : finite32 f_1e_20) by (split; reflexivity).
    set (top := S754_finite false 16777215 104).
    assert (Ftop : finite32 top) by (split; reflexivity).
    assert (Stop : sv32 top = 16777215 * 2 ^ 253) by reflexivity.
    assert (St : sv32 f_1e_20 = 12379400 * 2 ^ 59) by reflexivity.
    destruct (finite32_exp s m e Hx) as [He Hm].
    change (2 ^ 24) with 16777216 in Hm.
    pose proof (pow2_pos (e + 149) ltac:(lia)) as Hp.
    destruct (Z.eq_dec e 104) as [->|Hne];
      [destruct (Z.eq_dec (Zpos m) 16777215) as [Hm1|Hm1]|].
    + assert (m = 16777215%positive) as -> by lia.
      destruct s; split; reflexivity.
    + destruct (add32_bound top (S754_finite s m 104) f_1e_20
                  Ftop eq_refl Hx Ft) as [F _]; [|exact F].
      rewrite Stop, St, sv32_finite. change (104 + 149) with 253.
      destruct s; cbn [cond_Zopp]; lia.
    + destruct (add32_bound top (S754_finite s m e) f_1e_20
                  Ftop eq_refl Hx Ft) as [F _]; [|exact F].
      rewrite Stop, St, sv32_finite.
      pose proof (pow2_le (e + 149) 252 ltac:(lia)).
      change (2 ^ 253) with (2 * 2 ^ 252).
      destruct s; cbn [cond_Zopp]; nia.
Qed.



(** [fmod(x, 1.0f)] is [x] for [x] in [[0, 1)]. *)
Lemma fmodf_wrapped (x : float) : wrapped x -> fmodf x f_1 = x.
Proof.
  intros Hw. destruct (wrapped_sv x Hw) as [Hx Rx].
  destruct x as [s|s| |s m e]; try (destruct Hx; discriminate); [reflexivity|].
  destruct (finite32_exp s m e Hx) as [He Hm].
  assert (s = false) as ->.
  { apply (sv_nonneg_sign F32.prec F32.emax s m e); [|lia].
    change (SpecFloat.emin F32.prec F32.emax) with (-149). lia. }
  rewrite sv32_finite in Rx. cbn [cond_Zopp] in Rx.
  assert (Hexp : e <= -24).
  { apply (exponent_le false m e (-24) Hx); [lia|].
    change (2 ^ (-24 + 24 + 149)) with (2 ^ 149). lia. }
  unfold fmodf, f_1, F32.one.
  replace (Z.min e (-23)) with e by lia.
  destruct (shl_align_spec m e e) as [_ HX].
  destruct (shl_align_spec 8388608 (-23) e) as [_ HY].
  replace (Z.min e e) with e in HX by lia.
  replace (Z.min (-23) e) with e in HY by lia.
  rewrite HX, HY. replace (e - e) with 0 by lia.
  change (2 ^ 0) with 1. rewrite Z.mul_1_r.
  assert (Hlt : Zpos m < 8388608 * 2 ^ (-23 - e)).
  { pose proof (pow2_pos (e + 149) ltac:(lia)) as Hp.
    assert (E : 2 ^ 149 = 8388608 * 2 ^ (-23 - e) * 2 ^ (e + 149)).
    { change 8388608 with (2 ^ 23). rewrite <- !pow2_split by lia.
      f_equal. lia. }
    rewrite E in Rx. nia. }
  rewrite Z.mod_small by lia.
  apply binary_round_id; [reflexivity | reflexivity | exact (proj1 Hx)].
Qed.


End Binary32.

(** * Rounding to nearest: bounds at a midpoint *)

Section RoundingToNearest.
Variables prec emax : Z.
Hypothesis Hprec : 0 < prec.
Hypothesis Hemax : prec < emax.

(** Shifting keeps a mantissa below a midpoint below it. *)
Lemma iter_shr_1_half (n : nat) (R : shr_record) (h : Z) :
  0 <= shr_m R -> 0 <= h ->
  Tenc R < (4 * h + 2) * 2 ^ Z.of_nat n ->
  Tenc (Nat.iter n shr_1 R) < 4 * h + 2.
Proof.
  revert R. induction n as [|n IH]; intros R HR Hh HT.
  - change (Nat.iter 0 shr_1 R) with R.
    change (2 ^ Z.of_nat 0) with 1 in HT. lia.
  - rewrite Nat.iter_succ_r. apply IH; [apply shr_1_nonneg; exact HR|exact Hh|].
    rewrite shr_1_Tenc by exact HR.
    rewrite Nat2Z.inj_succ, Z.pow_succ_r in HT by lia.
    unfold Tenc in HT.
    set (K := (2 * h + 1) * 2 ^ Z.of_nat n).
    replace ((4 * h + 2) * (2 * 2 ^ Z.of_nat n)) with (4 * K) in HT
      by (unfold K; ring).
    replace ((4 * h + 2) * 2 ^ Z.of_nat n) with (2 * K) by (unfold K; ring).
    destruct (shr_r R), (shr_s R); cbn [orb]; lia.
Qed.

Lemma rne_below_midpoint (R : shr_record) (h : Z) :
  Tenc R < 4 * h + 2 -> rne R <= h.
Proof.
  intros HT.
  change h with (rne (Build_shr_record h false true)).
  apply rne_mono. unfold Tenc at 2. cbn [shr_m shr_r shr_s]. lia.
Qed.

Lemma canonical_exp_le_half (m e : Z) (mh : positive) (eh b : Z) :
  0 < m -> bounded prec emax mh eh = true ->
  b <= e -> b <= eh ->
  2 * (m * 2 ^ (e - b)) < (2 * Zpos mh + 1) * 2 ^ (eh - b) ->
  SpecFloat.fexp prec emax (Zdigits2 m + e) <= eh.
Proof.
  intros Hm Hb Hbe Hbh Hle.
  destruct (bounded_inv prec emax Hprec mh eh Hb) as (Hcanh & _ & _ & _).
  destruct (Z.le_gt_cases (SpecFloat.fexp prec emax (Zdigits2 m + e)) eh)
    as [|Hgt]; [assumption|exfalso].
  assert (Hd : Zdigits2 (Zpos mh) + eh < Zdigits2 m + e).
  { destruct (Z.lt_ge_cases (Zdigits2 (Zpos mh) + eh) (Zdigits2 m + e));
      [assumption|].
    pose proof (fexp_mono prec emax (Zdigits2 m + e) (Zdigits2 (Zpos mh) + eh)
                  ltac:(lia)). lia. }
  pose proof (Zdigits2_bounds m Hm) as [Hlo _].
  pose proof (Zdigits2_bounds (Zpos mh) ltac:(lia)) as [_ Hhih].
  pose proof (Zdigits2_pos (Zpos mh) ltac:(lia)).
  pose proof (Zdigits2_pos m Hm).
  assert (H1 : (Zpos mh + 1) * 2 ^ (eh - b)
               <= 2 ^ (Zdigits2 (Zpos mh) + (eh - b))).
  { rewrite pow2_split by lia. pose proof (pow2_pos (eh - b) ltac:(lia)). nia. }
  assert (H2 : 2 ^ (Zdigits2 (Zpos mh) + (eh - b))
               <= 2 ^ ((Zdigits2 m - 1) + (e - b)))
    by (apply pow2_le; lia).
  assert (H3 : 2 ^ ((Zdigits2 m - 1) + (e - b)) <= m * 2 ^ (e - b)).
  { rewrite pow2_split by lia. pose proof (pow2_pos (e - b) ltac:(lia)). nia. }
  pose proof (pow2_pos (eh - b) ltac:(lia)). nia.
Qed.

(** Rounding to nearest does not cross a representable number from
    below its upper midpoint. *)
Lemma binary_round_aux_upper_half (s : bool) (m e : Z) (mh : positive)
    (eh b : Z) :
  0 <= m -> e <= SpecFloat.fexp prec emax (Zdigits2 m + e) ->
  bounded prec emax mh eh = true ->
  b <= e -> b <= eh ->
  2 * (m * 2 ^ (e - b)) < (2 * Zpos mh + 1) * 2 ^ (eh - b) ->
  finite_or_zero (binary_round_aux prec emax s m e loc_Exact) = true
  /\ Rnd.mag prec emax (binary_round_aux prec emax s m e loc_Exact)
     <= Zpos mh * 2 ^ (eh - SpecFloat.emin prec emax).
Proof.
  intros Hm Hal Hb Hbe Hbh Hlt.
  destruct (bounded_inv prec emax Hprec mh eh Hb)
    as (Hcanh & Hehmax & Hehmin & Hmh).
  destruct (Z.eq_dec m 0) as [->|Hm0].
  { assert (He : e <= eh).
    { cbn [Zdigits2 Z.add] in Hal. unfold SpecFloat.fexp in Hal. lia. }
    apply (binary_round_aux_upper prec emax Hprec s 0 e loc_Exact mh eh
             ltac:(lia) Hal Hb He).
    cbn [loc_bits]. pose proof (pow2_pos (eh - e) ltac:(lia)). nia. }
  assert (Hmpos : 0 < m) by lia.
  pose proof (canonical_exp_le_half m e mh eh b Hmpos Hb Hbe Hbh Hlt) as Hceh.
  set (c := SpecFloat.fexp prec emax (Zdigits2 m + e)) in *.
  pose proof (fexp_ge_emin prec emax (Zdigits2 m + e)) as Hcmin. fold c in Hcmin.
  destruct (Z.eq_dec c eh) as [Hc|Hc].
  - (* the input is in the binade of the bound *)
    rewrite binary_round_aux_shape by (assumption || lia). fold c.
    pose proof (rne_shifted_bounds prec emax Hprec m e loc_Exact ltac:(lia) Hal)
      as Hm1.
    assert (Hle : rne (Rnd.shifted prec emax m e loc_Exact) <= Zpos mh).
    { apply rne_below_midpoint. unfold Rnd.shifted. fold c.
      apply iter_shr_1_half; [rewrite shr_m_of_loc; lia|lia|].
      rewrite Tenc_of_loc. cbn [loc_bits]. rewrite Z2Nat.id by lia.
      rewrite Hc.
      replace (eh - b) with ((eh - e) + (e - b)) in Hlt by lia.
      rewrite pow2_split in Hlt by lia.
      pose proof (pow2_pos (e - b) ltac:(lia)).
      pose proof (pow2_pos (eh - e) ltac:(lia)). nia. }
    set (m1 := rne (Rnd.shifted prec emax m e loc_Exact)) in *.
    assert (Hfin : finite_or_zero (Rnd.round_shape prec emax s m1 c) = true).
    { unfold Rnd.round_shape.
      destruct (Z.eqb_spec m1 0); [reflexivity|].
      destruct (Z.ltb_spec m1 (2 ^ prec)); [|lia].
      destruct (Z.leb_spec c (emax - prec)); [reflexivity|lia]. }
    split; [exact Hfin|].
    rewrite (round_shape_mag prec emax Hprec) by (assumption || lia).
    rewrite Hc. pose proof (pow2_pos (eh - SpecFloat.emin prec emax) ltac:(lia)).
    nia.
  - (* the input is in a binade below *)
    assert (Hclt : c < eh) by lia.
    set (mb := Z.to_pos (2 ^ (prec - 1))).
    assert (Hmb : Zpos mb = 2 ^ (prec - 1)).
    { unfold mb. rewrite Z2Pos.id; [reflexivity|]. apply pow2_pos. lia. }
    assert (Hbb : bounded prec emax mb (c + 1) = true).
    { unfold bounded, canonical_mantissa. apply andb_true_iff. split.
      - apply Z.eqb_eq.
        change (Z.pos (digits2_pos mb)) with (Zdigits2 (Z.pos mb)).
        rewrite Hmb, Zdigits2_pow2 by lia.
        unfold SpecFloat.fexp. unfold SpecFloat.fexp in c. lia.
      - apply Z.leb_le. lia. }
    destruct (binary_round_aux_upper prec emax Hprec s m e loc_Exact mb (c + 1)
                ltac:(lia) Hal Hbb ltac:(lia)) as [F U].
    { cbn [loc_bits]. rewrite Hmb, <- pow2_split by lia.
      pose proof (Zdigits2_bounds m Hmpos) as [_ Hhi].
      pose proof (fexp_ge_sub prec emax (Zdigits2 m + e)) as Hsub. fold c in Hsub.
      assert (2 ^ Zdigits2 m <= 2 ^ (prec - 1 + (c + 1 - e)))
        by (apply pow2_le; pose proof (Zdigits2_pos m Hmpos); lia).
      lia. }
    split; [exact F|].
    assert (Hnorm : 2 ^ (prec - 1) <= Zpos mh).
    { destruct (fexp_cases prec emax (Zdigits2 (Zpos mh) + eh)) as [[Hf _]|[Hf _]];
        [lia|].
      pose proof (Zdigits2_bounds (Zpos mh) ltac:(lia)) as [Hlo _].
      replace (Zdigits2 (Zpos mh)) with prec in Hlo by lia. exact Hlo. }
    rewrite Hmb in U.
    assert (2 ^ (prec - 1) * 2 ^ (c + 1 - SpecFloat.emin prec emax)
            <= Zpos mh * 2 ^ (eh - SpecFloat.emin prec emax)); [|lia].
    assert (2 ^ (c + 1 - SpecFloat.emin prec emax)
            <= 2 ^ (eh - SpecFloat.emin prec emax)) by (apply pow2_le; lia).
    pose proof (pow2_pos (c + 1 - SpecFloat.emin prec emax) ltac:(lia)).
    pose proof (pow2_pos (prec - 1) ltac:(lia)). nia.
Qed.

Lemma binary_round_upper_half (s : bool) (m : positive) (e : Z)
    (mh : positive) (eh b : Z) :
  bounded prec emax mh eh = true ->
  b <= e -> b <= eh ->
  2 * (Zpos m * 2 ^ (e - b)) < (2 * Zpos mh + 1) * 2 ^ (eh - b) ->
  finite_or_zero (binary_round prec emax s m e) = true
  /\ Rnd.mag prec emax (binary_round prec emax s m e)
     <= Zpos mh * 2 ^ (eh - SpecFloat.emin prec emax).
Proof.
  intros Hb Hbe Hbh Hlt.
  destruct (bounded_inv prec emax Hprec mh eh Hb) as (_ & _ & Hehmin & _).
  rewrite binary_round_eq.
  set (ae := Rnd.aligned_exp prec emax m e).
  assert (Hae : ae <= e) by (unfold ae, Rnd.aligned_exp; lia).
  pose proof (aligned_mantissa_nonneg prec emax Hprec Hemax m e) as Hpos.
  fold ae in Hpos.
  apply (binary_round_aux_upper_half s _ _ mh eh (Z.min b ae));
    try assumption; try lia.
  - apply binary_round_aligned.
  - rewrite <- Z.mul_assoc, <- pow2_split by lia.
    replace (e - ae + (ae - Z.min b ae))
      with ((e - b) + (b - Z.min b ae)) by lia.
    replace (eh - Z.min b ae) with ((eh - b) + (b - Z.min b ae)) by lia.
    rewrite !pow2_split by lia.
    pose proof (pow2_pos (b - Z.min b ae) ltac:(lia)). nia.
Qed.

Lemma binary_normalize_upper_half (M e : Z) (mh : positive) (eh : Z) :
  bounded prec emax mh eh = true ->
  SpecFloat.emin prec emax <= e ->
  2 * (Z.abs M * 2 ^ (e - SpecFloat.emin prec emax))
    < (2 * Zpos mh + 1) * 2 ^ (eh - SpecFloat.emin prec emax) ->
  finite_or_zero (binary_normalize prec emax M e false) = true
  /\ Z.abs (Rnd.sv prec emax (binary_normalize prec emax M e false))
     <= Zpos mh * 2 ^ (eh - SpecFloat.emin prec emax).
Proof.
  intros Hb He Hlt.
  destruct (bounded_inv prec emax Hprec mh eh Hb) as (_ & _ & Hehmin & _).
  rewrite abs_sv.
  destruct M as [|p|p]; cbn [binary_normalize].
  - split; [reflexivity|]. cbn [Rnd.mag].
    pose proof (pow2_pos (eh - SpecFloat.emin prec emax) ltac:(lia)). nia.
  - apply (binary_round_upper_half false p e mh eh (SpecFloat.emin prec emax));
      auto; lia.
  - apply (binary_round_upper_half true p e mh eh (SpecFloat.emin prec emax));
      auto; lia.
Qed.

(** The sum of two finite numbers that is below the upper midpoint of a
    representable bound rounds to at most the bound. *)
Lemma SFadd_upper_half (sx sy : bool) (mx my : positive) (ex ey : Z)
    (mh : positive) (eh : Z) :
  bounded prec emax mx ex = true -> bounded prec emax my ey = true ->
  bounded prec emax mh eh = true ->
  2 * Z.abs (Rnd.sv prec emax (S754_finite sx mx ex)
             + Rnd.sv prec emax (S754_finite sy my ey))
    < (2 * Zpos mh + 1) * 2 ^ (eh - SpecFloat.emin prec emax) ->
  finite_or_zero
    (SFadd prec emax (S754_finite sx mx ex) (S754_finite sy my ey)) = true
  /\ Z.abs (Rnd.sv prec emax
              (SFadd prec emax (S754_finite sx mx ex) (S754_finite sy my ey)))
     <= Zpos mh * 2 ^ (eh - SpecFloat.emin prec emax).
Proof.
  intros Vx Vy Hb Hlt.
  destruct (bounded_inv prec emax Hprec mx ex Vx) as (_ & _ & Hminx & _).
  destruct (bounded_inv prec emax Hprec my ey Vy) as (_ & _ & Hminy & _).
  cbn [SFadd]. apply binary_normalize_upper_half; [assumption|lia|].
  rewrite <- (add_exact prec emax sx sy mx my ex ey Hminx Hminy) in Hlt.
  rewrite Z.abs_mul in Hlt.
  rewrite (Z.abs_eq (2 ^ _)) in Hlt
    by (pose proof (pow2_pos (Z.min ex ey - SpecFloat.emin prec emax)
                      ltac:(lia)); lia).
  exact Hlt.
Qed.

End RoundingToNearest.

Section UnitRange.

Lemma finite32_finite (x : float) :
  finite32 x -> sv32 x <> 0 -> exists s m e, x = S754_finite s m e.
Proof.
  intros Fx Hx. destruct x as [s|s| |s m e]; try (destruct Fx; discriminate).
  - exfalso. apply Hx. reflexivity.
  - eauto.
Qed.

(** A sum below the midpoint between 1 and the next [float]. *)
Lemma add32_le_one (x y : float) :
  finite32 x -> finite32 y ->
  0 <= sv32 x <= 2 ^ 149 -> 0 <= sv32 y <= 2 ^ 149 ->
  sv32 x + sv32 y < 2 ^ 149 + 2 ^ 125 ->
  finite32 (x + y)%f32 /\ 0 <= sv32 (x + y)%f32 <= 2 ^ 149.
Proof.
  intros Fx Fy Hx Hy Hs.
  assert (F1 : finite32 f_1) by (split; reflexivity).
  pose proof (add32_nonneg x y Fx Fy ltac:(lia)) as Hnn.
  destruct (Z.le_gt_cases (sv32 x + sv32 y) (2 ^ 149)) as [Hle|Hgt].
  - destruct (add32_bound f_1 x y F1 eq_refl Fx Fy) as [F B].
    { rewrite sv32_f_1, Z.abs_eq by lia. exact Hle. }
    rewrite sv32_f_1 in B. split; [exact F|lia].
  - destruct (finite32_finite x Fx ltac:(lia)) as (sx & mx & ex & ->).
    destruct (finite32_finite y Fy ltac:(lia)) as (sy & my & ey & ->).
    destruct (SFadd_upper_half F32.prec F32.emax prec32_pos prec32_lt_emax
                sx sy mx my ex ey 8388608 (-23)
                (finite32_bounded _ _ _ Fx) (finite32_bounded _ _ _ Fy) eq_refl)
      as [F B].
    { change ((2 * 8388608 + 1) * 2 ^ (-23 - SpecFloat.emin F32.prec F32.emax))
        with (2 * 2 ^ 149 + 2 * 2 ^ 125).
      rewrite Z.abs_eq by lia. lia. }
    change (8388608 * 2 ^ (-23 - SpecFloat.emin F32.prec F32.emax))
      with (2 ^ 149) in B.
    split; [split; [apply add32_valid; [exact (proj1 Fx)|exact (proj1 Fy)]
                   |exact F]|].
    unfold F32.add in *. lia.
Qed.

(** A product with a factor in [[0, 1]] is at most the other factor. *)
Lemma mul32_le_left (x y : float) :
  finite32 x -> finite32 y -> 0 <= sv32 x -> 0 <= sv32 y <= 2 ^ 149 ->
  finite32 (x * y)%f32 /\ 0 <= sv32 (x * y)%f32 <= sv32 x.
Proof.
  intros Fx Fy Hx Hy.
  pose proof (mul32_nonneg x y Fx Fy Hx ltac:(lia)) as Hnn.
  destruct (Z.eq_dec (sv32 x) 0) as [Hz|Hnz].
  - assert (F1 : finite32 f_1) by (split; reflexivity).
    destruct x as [s|s| |s m e]; try (destruct Fx; discriminate).
    + destruct y as [sy|sy| |sy my ey]; try (destruct Fy; discriminate);
        (split; [split; reflexivity|cbn; lia]).
    + exfalso. destruct (finite32_exp s m e Fx) as [He _].
      rewrite sv32_finite in Hz.
      pose proof (pow2_pos (e + 149) ltac:(lia)). destruct s; cbn in Hz; nia.
  - destruct (mul32_bound x x y Fx ltac:(lia) Fx Fy) as [F B].
    { rewrite !Z.abs_eq by lia. nia. }
    split; [exact F|lia].
Qed.

(** A multiple of [2^-24] that is at most 1 is a [float]. *)
Lemma grid_bound (k : Z) :
  0 < k <= 2 ^ 24 ->
  exists b, finite32 b /\ sv32 b = k * 2 ^ 125.
Proof.
  intros Hk. destruct (Z.eq_dec k (2 ^ 24)) as [->|Hne].
  - exists f_1. split; [split; reflexivity|reflexivity].
  - exists (binary_normalize F32.prec F32.emax k (-24) false).
    pose proof (binary_normalize_valid F32.prec F32.emax prec32_pos
                  prec32_lt_emax k (-24)) as V.
    destruct (binary_normalize_exact F32.prec F32.emax prec32_pos
                prec32_lt_emax k (-24) ltac:(vm_compute; discriminate)
                ltac:(lia)
                ltac:(change (2 ^ F32.prec) with (2 ^ 24); lia)
                ltac:(vm_compute; discriminate)) as [F Sv].
    change (-24 - SpecFloat.emin F32.prec F32.emax) with 125 in Sv.
    split; [split; assumption|exact Sv].
Qed.

(** [1.0f - a] for [a] in [[0, 1]]: the rounding error is less than
    [2^-24], so [a + (1.0f - a)] stays below the midpoint above 1. *)
Lemma one_minus (a : float) :
  finite32 a -> 0 <= sv32 a <= 2 ^ 149 ->
  finite32 (f_1 - a)%f32
  /\ 0 <= sv32 (f_1 - a)%f32 <= 2 ^ 149
  /\ sv32 a + sv32 (f_1 - a)%f32 < 2 ^ 149 + 2 ^ 125.
Proof.
  intros Fa Ha.
  assert (F1 : finite32 f_1) by (split; reflexivity).
  assert (Pg : 0 < 2 ^ 125) by reflexivity.
  assert (HU : 2 ^ 149 = 2 ^ 24 * 2 ^ 125) by reflexivity.
  pose proof (sub32_nonneg f_1 a F1 Fa ltac:(rewrite sv32_f_1; lia)) as Hnn.
  destruct (sub32_bound f_1 f_1 a F1 eq_refl F1 Fa) as [F B].
  { rewrite sv32_f_1, Z.abs_eq by lia. lia. }
  rewrite sv32_f_1 in B.
  split; [exact F|]. split; [lia|].
  destruct (Z.eq_dec (sv32 a) 0) as [Hz|Hnz]; [lia|].
  destruct (Z.eq_dec (sv32 a) (2 ^ 149)) as [Hone|Hne].
  { destruct (sub32_bound (S754_finite false 1 (-149)) f_1 a
                ltac:(split; reflexivity) eq_refl F1 Fa) as [_ B'].
    { rewrite sv32_f_1, Hone. cbn. lia. }
    change (sv32 (S754_finite false 1 (-149))) with 1 in B'. lia. }
  set (X := 2 ^ 149 - sv32 a) in *.
  set (k := (X + 2 ^ 125 - 1) / 2 ^ 125).
  assert (Hk : X <= k * 2 ^ 125 < X + 2 ^ 125).
  { unfold k. pose proof (Z.div_mod (X + 2 ^ 125 - 1) (2 ^ 125) ltac:(lia)).
    pose proof (Z.mod_pos_bound (X + 2 ^ 125 - 1) (2 ^ 125) ltac:(lia)). lia. }
  assert (Hk24 : 0 < k <= 2 ^ 24) by (unfold X in *; nia).
  destruct (grid_bound k Hk24) as (b & Fb & Sb).
  destruct (sub32_bound b f_1 a Fb ltac:(lia) F1 Fa) as [_ B'].
  { rewrite sv32_f_1, Sb. fold X. rewrite Z.abs_eq by (unfold X; lia). lia. }
  rewrite Sb in B'. unfold X in *. lia.
Qed.

(** One smoothing step with the coefficient, the state and the target in
    [[0, 1]] ends in [[0, 1]]. *)
Lemma step_unit (a z t : float) :
  in_range f_0 f_1 a -> in_range f_0 f_1 z -> in_range f_0 f_1 t ->
  in_range f_0 f_1 (OnePoleSmoother.step a z t).
Proof.
  intros Ha Hz Ht.
  assert (F0 : finite32 f_0) by (split; reflexivity).
  assert (F1 : finite32 f_1) by (split; reflexivity).
  assert (Ft : finite32 f_1e_20) by (split; reflexivity).
  destruct (in_range_sv _ _ _ F0 F1 Ha) as [Fa Ra].
  destruct (in_range_sv _ _ _ F0 F1 Hz) as [Fz Rz].
  destruct (in_range_sv _ _ _ F0 F1 Ht) as [Ftg Rt].
  rewrite sv32_f_0, sv32_f_1 in Ra, Rz, Rt.
  unfold OnePoleSmoother.step.
  assert (Htiny : 0 <= sv32 f_1e_20 < 2 ^ 125) by (vm_compute; split; congruence).
  destruct (add32_le_one z f_1e_20 Fz Ft Rz ltac:(lia) ltac:(lia)) as [Fy Ry].
  destruct (mul32_le_left a (z + f_1e_20)%f32 Fa Fy ltac:(lia) Ry) as [Fp Rp].
  destruct (one_minus a Fa Ra) as (Fb & Rb & Hab).
  destruct (mul32_le_left (f_1 - a)%f32 t Fb Ftg ltac:(lia) Rt) as [Fq Rq].
  destruct (add32_le_one _ _ Fp Fq ltac:(lia) ltac:(lia) ltac:(lia)) as [Fr Rr].
  split; [exact (proj1 Fr)|].
  rewrite (le32_sv _ _ F0 Fr), (le32_sv _ _ Fr F1), sv32_f_0, sv32_f_1.
  split; apply Z.leb_le; lia.
Qed.

End UnitRange.

Section RoundingToNearestMore.
Variables prec emax : Z.
Hypothesis Hprec : 0 < prec.
Hypothesis Hemax : prec < emax.

(** A product below the upper midpoint of a representable bound rounds to
    at most the bound. *)
Lemma SFmul_upper_half (x y : spec_float) (mh : positive) (eh : Z) :
  valid_binary prec emax x = true -> valid_binary prec emax y = true ->
  finite_or_zero x = true -> finite_or_zero y = true ->
  bounded prec emax mh eh = true ->
  2 * (Z.abs (Rnd.sv prec emax x) * Z.abs (Rnd.sv prec emax y))
    < (2 * Zpos mh + 1) * 2 ^ (eh - SpecFloat.emin prec emax)
      * 2 ^ (- SpecFloat.emin prec emax) ->
  finite_or_zero (SFmul prec emax x y) = true
  /\ Z.abs (Rnd.sv prec emax (SFmul prec emax x y))
     <= Zpos mh * 2 ^ (eh - SpecFloat.emin prec emax).
Proof.
  intros Vx Vy Fx Fy Hb Hlt.
  destruct (bounded_inv prec emax Hprec mh eh Hb) as (_ & _ & Hehmin & _).
  pose proof (emin_nonpos prec emax Hprec Hemax) as Hemin.
  assert (Hpos : 0 <= Zpos mh * 2 ^ (eh - SpecFloat.emin prec emax)).
  { pose proof (pow2_pos (eh - SpecFloat.emin prec emax) ltac:(lia)). nia. }
  destruct x as [sx|sx| |sx mx ex], y as [sy|sy| |sy my ey]; try discriminate;
    try (split; [reflexivity | cbn [SFmul Rnd.sv Z.abs]; exact Hpos]).
  cbn [valid_binary] in Vx, Vy.
  destruct (bounded_inv prec emax Hprec mx ex Vx) as (_ & _ & Hminx & _).
  destruct (bounded_inv prec emax Hprec my ey Vy) as (_ & _ & Hminy & _).
  rewrite !abs_sv in *. cbn [SFmul Rnd.mag] in *.
  apply (binary_round_aux_upper_half prec emax Hprec _ _ _ mh eh
           (SpecFloat.emin prec emax + SpecFloat.emin prec emax));
    try assumption; try lia.
  - apply (mul_aligned prec emax Hprec Hemax); assumption.
  - rewrite Pos2Z.inj_mul.
    replace (ex + ey - (SpecFloat.emin prec emax + SpecFloat.emin prec emax))
      with ((ex - SpecFloat.emin prec emax) + (ey - SpecFloat.emin prec emax))
      by lia.
    replace (eh - (SpecFloat.emin prec emax + SpecFloat.emin prec emax))
      with ((eh - SpecFloat.emin prec emax) + (- SpecFloat.emin prec emax))
      by lia.
    rewrite !pow2_split by lia. nia.
Qed.

Lemma SFsub_upper_half (sx sy : bool) (mx my : positive) (ex ey : Z)
    (mh : positive) (eh : Z) :
  bounded prec emax mx ex = true -> bounded prec emax my ey = true ->
  bounded prec emax mh eh = true ->
  2 * Z.abs (Rnd.sv prec emax (S754_finite sx mx ex)
             - Rnd.sv prec emax (S754_finite sy my ey))
    < (2 * Zpos mh + 1) * 2 ^ (eh - SpecFloat.emin prec emax) ->
  finite_or_zero
    (SFsub prec emax (S754_finite sx mx ex) (S754_finite sy my ey)) = true
  /\ Z.abs (Rnd.sv prec emax
              (SFsub prec emax (S754_finite sx mx ex) (S754_finite sy my ey)))
     <= Zpos mh * 2 ^ (eh - SpecFloat.emin prec emax).
Proof.
  intros Vx Vy Hb Hlt.
  destruct (bounded_inv prec emax Hprec mx ex Vx) as (_ & _ & Hminx & _).
  destruct (bounded_inv prec emax Hprec my ey Vy) as (_ & _ & Hminy & _).
  cbn [SFsub].
  apply (binary_normalize_upper_half prec emax Hprec Hemax);
    [assumption|lia|].
  rewrite <- (sub_exact prec emax sx sy mx my ex ey Hminx Hminy) in Hlt.
  rewrite Z.abs_mul in Hlt.
  rewrite (Z.abs_eq (2 ^ _)) in Hlt
    by (pose proof (pow2_pos (Z.min ex ey - SpecFloat.emin prec emax)
                      ltac:(lia)); lia).
  exact Hlt.
Qed.

End RoundingToNearestMore.



Section LargeFloats.

Lemma sv32_f_max : sv32 f_max = 16777215 * 2 ^ 253.
Proof. reflexivity. Qed.

(** No finite [float] is above [FLT_MAX] in magnitude. *)
Lemma finite32_max (x : float) :
  finite32 x -> Z.abs (sv32 x) <= 16777215 * 2 ^ 253.
Proof.
  intros Fx. destruct x as [s|s| |s m e]; try (destruct Fx; discriminate).
  destruct (finite32_exp s m e Fx) as [He Hm].
  rewrite sv32_finite.
  pose proof (pow2_pos (e + 149) ltac:(lia)) as Hp.
  assert (Hle : 2 ^ (e + 149) <= 2 ^ 253) by (apply pow2_le; lia).
  destruct s; cbn [cond_Zopp];
    [rewrite Z.abs_neq by nia | rewrite Z.abs_eq by nia]; nia.
Qed.

(** A mantissa of 24 bits with an exponent in range is a [float]. *)
Lemma normal_bounded (k e : Z) :
  2 ^ 23 <= k < 2 ^ 24 -> -149 <= e <= 104 ->
  bounded F32.prec F32.emax (Z.to_pos k) e = true.
Proof.
  intros Hk He. unfold bounded, canonical_mantissa.
  assert (Hd : Zdigits2 (Zpos (Z.to_pos k)) = 24).
  { apply Zdigits2_unique; [lia|]. rewrite Z2Pos.id by lia.
    change (2 ^ (24 - 1)) with (2 ^ 23). exact Hk. }
  cbn [Zdigits2] in Hd. rewrite Hd.
  apply andb_true_iff. split.
  - apply Z.eqb_eq. unfold SpecFloat.fexp, SpecFloat.emin, F32.prec, F32.emax.
    lia.
  - apply Z.leb_le. unfold F32.prec, F32.emax. lia.
Qed.

(** The mantissa of a [float] above the subnormal range has 24 bits. *)
Lemma normal_mantissa (s : bool) (m : positive) (e : Z) :
  finite32 (S754_finite s m e) -> -149 < e -> 2 ^ 23 <= Zpos m.
Proof.
  intros Fx He. apply finite32_bounded in Fx.
  destruct (bounded_inv F32.prec F32.emax prec32_pos m e Fx) as (Hc & _ & _ & _).
  pose proof (Zdigits2_bounds (Zpos m) ltac:(lia)) as [Hlo _].
  assert (Hd : Zdigits2 (Zpos m) = 24).
  { unfold SpecFloat.fexp, SpecFloat.emin, F32.prec, F32.emax in Hc. lia. }
  rewrite Hd in Hlo. exact Hlo.
Qed.

Lemma finite32_of (x : float) :
  F32.valid x = true -> finite_or_zero x = true -> finite32 x.
Proof. intros V F. split; assumption. Qed.

(** A sum below the midpoint above a [float] rounds to at most that
    [float]. *)
Lemma add32_half (x y : float) (mh : positive) (eh : Z) :
  finite32 x -> finite32 y -> bounded F32.prec F32.emax mh eh = true ->
  Z.abs (sv32 x) <= Zpos mh * 2 ^ (eh + 149) ->
  Z.abs (sv32 y) <= Zpos mh * 2 ^ (eh + 149) ->
  2 * Z.abs (sv32 x + sv32 y) < (2 * Zpos mh + 1) * 2 ^ (eh + 149) ->
  finite32 (x + y)%f32
  /\ Z.abs (sv32 (x + y)%f32) <= Zpos mh * 2 ^ (eh + 149).
Proof.
  intros Fx Fy Hb Hx Hy Hs.
  set (b := S754_finite false mh eh).
  assert (Fb : finite32 b) by (split; [exact Hb|reflexivity]).
  assert (Sb : sv32 b = Zpos mh * 2 ^ (eh + 149)) by apply sv32_finite.
  destruct (finite32_exp false mh eh Fb) as [He _].
  pose proof (pow2_pos (eh + 149) ltac:(lia)) as Hp.
  destruct (Z.le_gt_cases (Z.abs (sv32 x + sv32 y)) (Zpos mh * 2 ^ (eh + 149)))
    as [Hle|Hgt].
  - destruct (add32_bound b x y Fb ltac:(rewrite Sb; nia) Fx Fy) as [F B].
    { rewrite Sb. exact Hle. }
    rewrite Sb in B. split; assumption.
  - destruct (finite32_finite x Fx ltac:(lia)) as (sx & mx & ex & ->).
    destruct (finite32_finite y Fy ltac:(lia)) as (sy & my & ey & ->).
    destruct (SFadd_upper_half F32.prec F32.emax prec32_pos prec32_lt_emax
                sx sy mx my ex ey mh eh
                (finite32_bounded _ _ _ Fx) (finite32_bounded _ _ _ Fy) Hb)
      as [F B].
    { change (SpecFloat.emin F32.prec F32.emax) with (-149).
      replace (eh - -149) with (eh + 149) by lia. exact Hs. }
    change (SpecFloat.emin F32.prec F32.emax) with (-149) in B.
    replace (eh - -149) with (eh + 149) in B by lia.
    split; [|exact B].
    apply finite32_of; [|exact F].
    apply add32_valid; [exact (proj1 Fx)|exact (proj1 Fy)].
Qed.

Lemma sub32_half (x y : float) (mh : positive) (eh : Z) :
  finite32 x -> finite32 y -> bounded F32.prec F32.emax mh eh = true ->
  sv32 x <> 0 -> sv32 y <> 0 ->
  2 * Z.abs (sv32 x - sv32 y) < (2 * Zpos mh + 1) * 2 ^ (eh + 149) ->
  finite32 (x - y)%f32
  /\ Z.abs (sv32 (x - y)%f32) <= Zpos mh * 2 ^ (eh + 149).
Proof.
  intros Fx Fy Hb Hx Hy Hs.
  destruct (finite32_finite x Fx Hx) as (sx & mx & ex & ->).
  destruct (finite32_finite y Fy Hy) as (sy & my & ey & ->).
  destruct (SFsub_upper_half F32.prec F32.emax prec32_pos prec32_lt_emax
              sx sy mx my ex ey mh eh
              (finite32_bounded _ _ _ Fx) (finite32_bounded _ _ _ Fy) Hb)
    as [F B].
  { change (SpecFloat.emin F32.prec F32.emax) with (-149).
    replace (eh - -149) with (eh + 149) by lia. exact Hs. }
  change (SpecFloat.emin F32.prec F32.emax) with (-149) in B.
  replace (eh - -149) with (eh + 149) in B by lia.
  split; [|exact B].
  apply finite32_of; [|exact F].
  apply sub32_valid; [exact (proj1 Fx)|exact (proj1 Fy)].
Qed.

Lemma mul32_half (x y : float) (mh : positive) (eh : Z) :
  finite32 x -> finite32 y -> bounded F32.prec F32.emax mh eh = true ->
  2 * (Z.abs (sv32 x) * Z.abs (sv32 y))
    < (2 * Zpos mh + 1) * 2 ^ (eh + 149) * 2 ^ 149 ->
  finite32 (x * y)%f32
  /\ Z.abs (sv32 (x * y)%f32) <= Zpos mh * 2 ^ (eh + 149).
Proof.
  intros Fx Fy Hb Hs.
  destruct (SFmul_upper_half F32.prec F32.emax prec32_pos prec32_lt_emax
              x y mh eh (proj1 Fx) (proj1 Fy) (proj2 Fx) (proj2 Fy) Hb)
    as [F B].
  { change (SpecFloat.emin F32.prec F32.emax) with (-149).
    replace (eh - -149) with (eh + 149) by lia.
    change (- -149) with 149. exact Hs. }
  change (SpecFloat.emin F32.prec F32.emax) with (-149) in B.
  replace (eh - -149) with (eh + 149) in B by lia.
  split; [|exact B].
  apply finite32_of; [|exact F].
  apply mul32_valid; [exact (proj1 Fx)|exact (proj1 Fy)].
Qed.

(** The product of a [float] of magnitude at most [k * 2^j], [k] a
    24-bit mantissa, with any finite [float]: multiplying by [FLT_MAX]
    gives the predecessor of [k * 2^j], scaled by [2^128]. *)
Lemma mul32_max (x y : float) (k j : Z) :
  finite32 x -> finite32 y ->
  2 ^ 23 <= k < 2 ^ 24 -> 0 <= j <= 125 ->
  Z.abs (sv32 x) <= k * 2 ^ j ->
  finite32 (x * y)%f32
  /\ Z.abs (sv32 (x * y)%f32) <= k * 2 ^ j * 2 ^ 128 - 2 ^ j * 2 ^ 127
  /\ (2 ^ 23 < k ->
      Z.abs (sv32 (x * y)%f32) <= (k - 1) * 2 ^ j * 2 ^ 128).
Proof.
  intros Fx Fy Hk Hj Hx.
  pose proof (finite32_max y Fy) as Hy.
  pose proof (pow2_pos j ltac:(lia)) as Pj.
  pose proof (Z.abs_nonneg (sv32 x)) as Nx.
  pose proof (Z.abs_nonneg (sv32 y)) as Ny.
  set (pj := 2 ^ j) in *.
  assert (Hxy : Z.abs (sv32 x) * Z.abs (sv32 y)
                <= k * pj * (16777215 * 2 ^ 253)) by nia.
  destruct (Z.eq_dec k (2 ^ 23)) as [->|Hne].
  - set (b := S754_finite false 16777215 (j - 22)).
    assert (Fb : finite32 b).
    { split; [|reflexivity].
      exact (normal_bounded 16777215 (j - 22) ltac:(lia) ltac:(lia)). }
    assert (Sb : sv32 b = 16777215 * (pj * 2 ^ 127)).
    { unfold b. rewrite sv32_finite. cbn [cond_Zopp].
      replace (j - 22 + 149) with (j + 127) by lia.
      rewrite pow2_split by lia. reflexivity. }
    destruct (mul32_bound b x y Fb ltac:(rewrite Sb; nia) Fx Fy) as [F B].
    { rewrite Sb. lia. }
    rewrite Sb in B. split; [exact F|]. split; [lia|lia].
  - assert (Hb : bounded F32.prec F32.emax (Z.to_pos (k - 1)) (j - 21) = true)
      by (apply normal_bounded; lia).
    destruct (mul32_half x y (Z.to_pos (k - 1)) (j - 21) Fx Fy Hb) as [F B].
    { rewrite Z2Pos.id by lia.
      replace (j - 21 + 149) with (j + 128) by lia.
      rewrite pow2_split by lia. fold pj.
      assert (E : (2 * (k - 1) + 1) * (pj * 2 ^ 128) * 2 ^ 149
                  = (2 * k - 1) * pj * 2 ^ 277) by ring.
      rewrite E.
      assert (2 * (k * pj * (16777215 * 2 ^ 253)) < (2 * k - 1) * pj * 2 ^ 277);
        [|lia].
      assert (E2 : 2 * (k * pj * (16777215 * 2 ^ 253))
                   = (2 * k * 16777215) * (pj * 2 ^ 253)) by ring.
      assert (E3 : (2 * k - 1) * pj * 2 ^ 277
                   = ((2 * k - 1) * 16777216) * (pj * 2 ^ 253)) by ring.
      rewrite E2, E3. apply Z.mul_lt_mono_pos_r; lia. }
    rewrite Z2Pos.id in B by lia.
    replace (j - 21 + 149) with (j + 128) in B by lia.
    rewrite pow2_split in B by lia. fold pj in B.
    split; [exact F|]. split; [nia|]. intros _. lia.
Qed.

(** The sum of two finite [float]s below the midpoint above [FLT_MAX]. *)
Lemma add32_max (x y : float) :
  finite32 x -> finite32 y ->
  Z.abs (sv32 x + sv32 y) < 16777215 * 2 ^ 253 + 2 ^ 252 ->
  finite32 (x + y)%f32.
Proof.
  intros Fx Fy Hs.
  apply (add32_half x y 16777215 104 Fx Fy eq_refl).
  - exact (finite32_max x Fx).
  - exact (finite32_max y Fy).
  - change (2 ^ (104 + 149)) with (2 ^ 253). lia.
Qed.

(** One smoothing step with a coefficient in [[0, 1]] is finite for every
    finite state and every finite target: no rounding of the two products
    and of their sum reaches the midpoint above [FLT_MAX]. *)
Lemma step_finite_all (a z t : float) :
  in_range f_0 f_1 a -> finite32 z -> finite32 t ->
  finite32 (OnePoleSmoother.step a z t).
Proof.
  intros Ha Fz Ft.
  assert (F0 : finite32 f_0) by (split; reflexivity).
  assert (F1 : finite32 f_1) by (split; reflexivity).
  assert (Fe : finite32 f_1e_20) by (split; reflexivity).
  assert (Fm : finite32 f_max) by (split; reflexivity).
  destruct (in_range_sv _ _ _ F0 F1 Ha) as [Fa Ra].
  rewrite sv32_f_0, sv32_f_1 in Ra.
  unfold OnePoleSmoother.step.
  (* z + tiny *)
  pose proof (finite32_max z Fz) as Mz.
  assert (Se : sv32 f_1e_20 = 12379400 * 2 ^ 59) by reflexivity.
  destruct (add32_half z f_1e_20 16777215 104 Fz Fe eq_refl) as [Fy My].
  { exact Mz. }
  { rewrite Se. change (2 ^ (104 + 149)) with (2 ^ 253). lia. }
  { rewrite Se. change (2 ^ (104 + 149)) with (2 ^ 253). lia. }
  change (2 ^ (104 + 149)) with (2 ^ 253) in My.
  set (y := (z + f_1e_20)%f32) in *.
  pose proof (finite32_max t Ft) as Mt.
  (* 1 - a *)
  destruct (one_minus a Fa Ra) as (Fb & Rb & _).
  set (b := (f_1 - a)%f32) in *.
  destruct (Z.le_gt_cases (sv32 a) (2 ^ 124)) as [HI|HI].
  { (* a <= 2^-25 *)
    set (bI := S754_finite false 16777215 79).
    destruct (mul32_bound bI a y ltac:(split; reflexivity) eq_refl Fa Fy)
      as [Fp Bp].
    { change (sv32 bI) with (16777215 * 2 ^ 228).
      rewrite (Z.abs_eq (sv32 a)) by lia.
      pose proof (Z.abs_nonneg (sv32 y)). nia. }
    change (sv32 bI) with (16777215 * 2 ^ 228) in Bp.
    destruct (mul32_bound f_max b t Fm eq_refl Fb Ft) as [Fq Bq].
    { rewrite sv32_f_max. rewrite (Z.abs_eq (sv32 b)) by lia.
      pose proof (Z.abs_nonneg (sv32 t)). nia. }
    rewrite sv32_f_max in Bq.
    apply add32_max; [exact Fp|exact Fq|]. lia. }
  destruct (Z.eq_dec (sv32 a) (2 ^ 149)) as [HV|HV].
  { (* a = 1 *)
    destruct (sub32_bound (S754_finite false 1 (-149)) f_1 a
                ltac:(split; reflexivity) eq_refl F1 Fa) as [_ Bb].
    { rewrite sv32_f_1, HV. cbn. lia. }
    change (sv32 (S754_finite false 1 (-149))) with 1 in Bb. fold b in Bb.
    set (bV := S754_finite false 8388608 (-44)).
    destruct (mul32_bound bV b t ltac:(split; reflexivity) eq_refl Fb Ft)
      as [Fq Bq].
    { change (sv32 bV) with (2 ^ 128).
      pose proof (Z.abs_nonneg (sv32 t)). nia. }
    change (sv32 bV) with (2 ^ 128) in Bq.
    destruct (mul32_bound f_max a y Fm eq_refl Fa Fy) as [Fp Bp].
    { rewrite sv32_f_max, HV. rewrite (Z.abs_eq (2 ^ 149)) by lia.
      pose proof (Z.abs_nonneg (sv32 y)). nia. }
    rewrite sv32_f_max in Bp.
    apply add32_max; [exact Fp|exact Fq|]. lia. }
  (* 2^-25 < a < 1: a is a normal number ma * 2^j *)
  destruct (finite32_finite a Fa ltac:(lia)) as (sa & ma & ea & Ea).
  assert (Fa' : finite32 (S754_finite sa ma ea)) by (rewrite <- Ea; exact Fa).
  destruct (finite32_exp sa ma ea Fa') as [Hea Hma].
  assert (Sa : sv32 a = Zpos ma * 2 ^ (ea + 149)).
  { rewrite Ea, sv32_finite. rewrite Ea, sv32_finite in HI.
    pose proof (pow2_pos (ea + 149) ltac:(lia)).
    destruct sa; cbn [cond_Zopp] in *; [nia|reflexivity]. }
  set (j := ea + 149) in *.
  pose proof (pow2_pos j ltac:(unfold j; lia)) as Pj.
  assert (Hj1 : 0 < j).
  { destruct (Z.eq_dec j 0) as [E|]; [|unfold j in *; lia].
    rewrite E in Sa. change (2 ^ 0) with 1 in Sa. lia. }
  assert (Hnorm : 2 ^ 23 <= Zpos ma)
    by (apply (normal_mantissa sa ma ea Fa'); unfold j in Hj1; lia).
  assert (Hj2 : j <= 125).
  { destruct (Z.le_gt_cases j 125); [assumption|exfalso].
    assert (2 ^ 126 <= 2 ^ j) by (apply pow2_le; lia). nia. }
  destruct (mul32_max a y (Zpos ma) j Fa Fy ltac:(lia) ltac:(lia)
              ltac:(rewrite Sa, Z.abs_eq by nia; lia)) as (Fp & Bp & Bp').
  rewrite <- Sa in Bp.
  destruct (Z.le_gt_cases (sv32 a) (2 ^ 148)) as [HII|HIV].
  - (* 2^-25 < a <= 1/2 *)
    set (kb := (2 * (2 ^ 149 - sv32 a) + 2 ^ 125) / (2 * 2 ^ 125)).
    assert (Hkb : 2 * 2 ^ 125 * kb <= 2 * (2 ^ 149 - sv32 a) + 2 ^ 125
                  < 2 * 2 ^ 125 * (kb + 1)).
    { unfold kb. split.
      - apply Z.mul_div_le. lia.
      - pose proof (Z.mul_succ_div_gt (2 * (2 ^ 149 - sv32 a) + 2 ^ 125)
                      (2 * 2 ^ 125) ltac:(lia)). lia. }
    assert (Hkr : 2 ^ 23 <= kb < 2 ^ 24) by lia.
    assert (Hbb : bounded F32.prec F32.emax (Z.to_pos kb) (-24) = true)
      by (apply normal_bounded; lia).
    destruct (sub32_half f_1 a (Z.to_pos kb) (-24) F1 Fa Hbb) as [_ Bb].
    { rewrite sv32_f_1. lia. }
    { lia. }
    { rewrite Z2Pos.id by lia. rewrite sv32_f_1.
      change (2 ^ (-24 + 149)) with (2 ^ 125).
      rewrite Z.abs_eq by lia. lia. }
    rewrite Z2Pos.id in Bb by lia.
    change (2 ^ (-24 + 149)) with (2 ^ 125) in Bb. fold b in Bb.
    destruct (mul32_max b t kb 125 Fb Ft Hkr ltac:(lia) Bb)
      as (Fq & Bq & Bq').
    apply add32_max; [exact Fp|exact Fq|].
    pose proof (Z.abs_triangle (sv32 (a * y)%f32) (sv32 (b * t)%f32)).
    destruct (Z.eq_dec kb (2 ^ 23)) as [Ek|Nk].
    + rewrite Ek in Bq. nia.
    + specialize (Bq' ltac:(lia)). nia.
  - (* 1/2 < a < 1 *)
    assert (Hj3 : j = 125).
    { destruct (Z.le_gt_cases 125 j); [lia|exfalso].
      assert (2 ^ j <= 2 ^ 124) by (apply pow2_le; lia). nia. }
    rewrite Hj3 in *.
    assert (Hma2 : 2 ^ 23 < Zpos ma) by nia.
    specialize (Bp' Hma2).
    set (kB := 2 ^ 24 - Zpos ma).
    destruct (grid_bound kB ltac:(unfold kB; lia)) as (gb & Fgb & Sgb).
    destruct (sub32_bound gb f_1 a Fgb ltac:(rewrite Sgb; unfold kB; lia) F1 Fa)
      as [_ Bb].
    { rewrite Sgb, sv32_f_1, Sa. unfold kB. rewrite Z.abs_eq by lia. lia. }
    rewrite Sgb in Bb. fold b in Bb.
    pose proof (binary_normalize_valid F32.prec F32.emax prec32_pos
                  prec32_lt_emax kB 104) as Vq.
    destruct (binary_normalize_exact F32.prec F32.emax prec32_pos
                prec32_lt_emax kB 104 ltac:(vm_compute; discriminate)
                ltac:(unfold kB; lia)
                ltac:(change (2 ^ F32.prec) with (2 ^ 24); unfold kB; lia)
                ltac:(vm_compute; discriminate)) as [Fqb Sqb].
    change (104 - SpecFloat.emin F32.prec F32.emax) with 253 in Sqb.
    set (qb := binary_normalize F32.prec F32.emax kB 104 false) in *.
    assert (Pqb : 0 < sv32 qb) by (rewrite Sqb; unfold kB; lia).
    destruct (mul32_bound qb b t (finite32_of _ Vq Fqb) Pqb Fb Ft)
      as [Fq Bq].
    { rewrite Sqb.
      pose proof (Z.abs_nonneg (sv32 b)). pose proof (Z.abs_nonneg (sv32 t)).
      assert (Z.abs (sv32 b) * Z.abs (sv32 t)
              <= kB * 2 ^ 125 * (16777215 * 2 ^ 253)) by nia.
      assert (0 < kB) by (unfold kB; lia). nia. }
    rewrite Sqb in Bq.
    apply add32_max; [exact Fp|exact Fq|].
    pose proof (Z.abs_triangle (sv32 (a * y)%f32) (sv32 (b * t)%f32)).
    unfold kB in Bq. nia.
Qed.

End LargeFloats.

(** ** The coefficient of the smoothers *)

Section SmootherCoefficient.

Lemma convert_sign32 (s : bool) (d : double) :
  F64.valid d = true -> has_sign s d ->
  F32.valid (float_of_double d) = true /\ has_sign s (float_of_double d).
Proof.
  intros V S. destruct d as [s'|s'| |s' m e]; cbn in S; try contradiction;
    subst s'; cbn [float_of_double]; try (split; reflexivity).
  apply (binary_round_valid F32.prec F32.emax); reflexivity.
Qed.

Lemma convert_sign64 (s : bool) (x : float) :
  F32.valid x = true -> has_sign s x ->
  F64.valid (double_of_float x) = true /\ has_sign s (double_of_float x).
Proof.
  intros V S. destruct x as [s'|s'| |s' m e]; cbn in S; try contradiction;
    subst s'; cbn [double_of_float]; try (split; reflexivity).
  apply (binary_round_valid F64.prec F64.emax); reflexivity.
Qed.

(** The sign of a product with a finite number that is not zero. *)
Lemma mul32_sign (sx sy : bool) (mx : positive) (ex : Z) (y : float) :
  F32.valid (S754_finite sx mx ex) = true ->
  F32.valid y = true -> has_sign sy y ->
  F32.valid (S754_finite sx mx ex * y)%f32 = true
  /\ has_sign (xorb sx sy) (S754_finite sx mx ex * y)%f32.
Proof.
  intros Vx Vy S. destruct y as [s'|s'| |s' my ey]; cbn in S;
    try contradiction; subst s'; try (split; reflexivity).
  unfold F32.mul, F32.valid in *. cbn [SFmul valid_binary] in *.
  apply (binary_round_aux_valid F32.prec F32.emax prec32_pos); [lia|].
  apply (mul_aligned F32.prec F32.emax prec32_pos prec32_lt_emax);
    assumption.
Qed.

(** The sign of a quotient of a finite number that is not zero. *)
Lemma div64_sign (sx sy : bool) (mx : positive) (ex : Z) (y : double) :
  F64.valid (S754_finite sx mx ex) = true ->
  F64.valid y = true -> has_sign sy y ->
  F64.valid (F64.div (S754_finite sx mx ex) y) = true
  /\ has_sign (xorb sx sy) (F64.div (S754_finite sx mx ex) y).
Proof.
  intros Vx Vy S. destruct y as [s'|s'| |s' my ey]; cbn in S;
    try contradiction; subst s'; try (split; reflexivity).
  unfold F64.div, F64.valid in *. cbn [SFdiv valid_binary] in *.
  destruct (div_core_spec F64.prec F64.emax mx my ex ey) as [_ ->].
  destruct (div_aligned F64.prec F64.emax eq_refl mx my ex ey Vx)
    as [Hq Hal].
  apply (binary_round_aux_valid F64.prec F64.emax eq_refl); assumption.
Qed.

(** A number with the sign bit set, a zero included, is not above zero. *)
Lemma negative_le_zero (x : float) :
  has_sign true x -> (x <=? f_0)%f32 = true.
Proof.
  destruct x as [s|s| |s m e]; cbn; try contradiction; intros ->; reflexivity.
Qed.

(** The argument of the exponential in [updateCoeff], for a finite
    positive time constant and a positive sample rate, is a negative
    number, [-0] or [-inf]: never a NaN and never above zero. *)
Lemma coeff_argument (tau0 : float) (fs : double) :
  finite32 tau0 -> (f_0 <? tau0)%f32 = true ->
  F64.valid fs = true -> F64.gt fs F64.zero = true ->
  F32.valid
    (float_of_double
       (F64.div d_neg1 (double_of_float (tau0 * float_of_double fs)%f32)))
    = true
  /\ (float_of_double
        (F64.div d_neg1 (double_of_float (tau0 * float_of_double fs)%f32))
      <=? f_0)%f32 = true.
Proof.
  intros Ft Pt Vf Pf.
  assert (Sf : has_sign false fs).
  { destruct fs as [s|s| |s m e]; try discriminate Pf;
      destruct s; try discriminate Pf; reflexivity. }
  destruct (convert_sign32 false fs Vf Sf) as [V1 S1].
  destruct tau0 as [s|s| |s mt et]; try (destruct Ft; discriminate);
    try discriminate Pt.
  destruct s; [discriminate Pt|].
  destruct (mul32_sign false false mt et _ (proj1 Ft) V1 S1) as [V2 S2].
  destruct (convert_sign64 _ _ V2 S2) as [V3 S3].
  destruct (div64_sign true (xorb false false) 4503599627370496 (-52) _
              eq_refl V3 S3) as [V4 S4].
  change (S754_finite true 4503599627370496 (-52)) with d_neg1 in V4, S4.
  destruct (convert_sign32 _ _ V4 S4) as [V5 S5].
  split; [exact V5|]. apply negative_le_zero. exact S5.
Qed.

Lemma coeff_unit (libm : Libm) (tau0 : float) (fs : double) :
  (forall x, F32.valid x = true -> (x <=? f_0)%f32 = true ->
     in_range f_0 f_1 (expf libm x)) ->
  finite32 tau0 -> (f_0 <? tau0)%f32 = true ->
  F64.valid fs = true -> F64.gt fs F64.zero = true ->
  in_range f_0 f_1 (OnePoleSmoother.coeff libm tau0 fs).
Proof.
  intros Hexp Ft Pt Vf Pf. unfold OnePoleSmoother.coeff.
  destruct (coeff_argument tau0 fs Ft Pt Vf Pf) as [V L].
  apply Hexp; assumption.
Qed.

Lemma smoother_init_ok : smoother_ok OnePoleSmoother.init.
Proof. repeat split. Qed.

Lemma smoother_apply_ok (libm : Libm) (s : OnePoleSmoother.t)
    (c : smoother_call) :
  (forall x, F32.valid x = true -> (x <=? f_0)%f32 = true ->
     in_range f_0 f_1 (expf libm x)) ->
  finite_arguments c -> smoother_ok s ->
  smoother_ok (fst (smoother_apply libm s c))
  /\ (forall y, snd (smoother_apply libm s c) = Some y -> finite32 y)
  /\ (snd (smoother_apply libm s c) = None <->
      match c with SmProcess _ => False | _ => True end).
Proof.
  intros Hexp Hc (Ha & Hz & Ft & Pt & Vs & Ps).
  destruct c as [fs|tauSeconds|value|target]; cbn [smoother_apply fst snd];
    cbn [finite_arguments] in Hc.
  - split; [|split; [discriminate|tauto]].
    unfold OnePoleSmoother.setSampleRate, OnePoleSmoother.updateCoeff.
    cbn [OnePoleSmoother.sampleRate OnePoleSmoother.tau].
    assert (H : F64.valid (if F64.gt fs F64.zero then fs else d_48000) = true
                /\ F64.gt (if F64.gt fs F64.zero then fs else d_48000)
                     F64.zero = true).
    { destruct (F64.gt fs F64.zero) eqn:E; split;
        assumption || reflexivity. }
    destruct H as [V P].
    repeat split; cbn [OnePoleSmoother.a OnePoleSmoother.z
                       OnePoleSmoother.tau OnePoleSmoother.sampleRate];
      try apply Hz; try apply Ft; try assumption;
      apply (coeff_unit libm _ _ Hexp Ft Pt V P).
  - split; [|split; [discriminate|tauto]].
    unfold OnePoleSmoother.setTimeConstant, OnePoleSmoother.updateCoeff.
    cbn [OnePoleSmoother.sampleRate OnePoleSmoother.tau].
    assert (H : finite32 (if (tauSeconds >? f_1e_6)%f32 then tauSeconds
                          else f_1e_6)
                /\ (f_0 <? (if (tauSeconds >? f_1e_6)%f32 then tauSeconds
                            else f_1e_6))%f32 = true).
    { destruct (tauSeconds >? f_1e_6)%f32 eqn:E.
      - split; [exact Hc|].
        change ((f_1e_6 <? tauSeconds)%f32 = true) in E.
        rewrite (lt32_sv f_1e_6 tauSeconds ltac:(split; reflexivity) Hc) in E.
        rewrite (lt32_sv f_0 tauSeconds ltac:(split; reflexivity) Hc).
        apply Z.ltb_lt in E. apply Z.ltb_lt.
        assert (0 < sv32 f_1e_6) by reflexivity.
        rewrite sv32_f_0. lia.
      - split; [split|]; reflexivity. }
    destruct H as [F P].
    repeat split; cbn [OnePoleSmoother.a OnePoleSmoother.z
                       OnePoleSmoother.tau OnePoleSmoother.sampleRate];
      try apply Hz; try apply F; try assumption;
      apply (coeff_unit libm _ _ Hexp F P Vs Ps).
  - split; [|split; [discriminate|tauto]].
    unfold OnePoleSmoother.reset.
    repeat split; cbn [OnePoleSmoother.a OnePoleSmoother.z
                       OnePoleSmoother.tau OnePoleSmoother.sampleRate];
      try apply Ha; try apply Hc; try apply Ft; assumption.
  - pose proof (step_finite_all _ _ _ Ha Hz Hc) as Fs.
    split; [|split].
    + unfold OnePoleSmoother.process. cbn [fst].
      repeat split; cbn [OnePoleSmoother.a OnePoleSmoother.z
                         OnePoleSmoother.tau OnePoleSmoother.sampleRate];
        try apply Ha; try apply Fs; try apply Ft; assumption.
    + intros y E. injection E as <-. exact Fs.
    + split; [discriminate|contradiction].
Qed.

(** Finite arguments never lead a smoother out of the finite numbers:
    every value that [process] returns in the sequence is finite, and the
    sequence returns one value for each of its [process] calls. *)
Lemma smoother_run_finite (libm : Libm) (calls : list smoother_call)
    (s : OnePoleSmoother.t) :
  (forall x, F32.valid x = true -> (x <=? f_0)%f32 = true ->
     in_range f_0 f_1 (expf libm x)) ->
  Forall finite_arguments calls -> smoother_ok s ->
  smoother_ok (fst (smoother_run libm calls s))
  /\ Forall finite32 (snd (smoother_run libm calls s))
  /\ length (snd (smoother_run libm calls s)) = process_calls calls.
Proof.
  intros Hexp Hcs. revert s.
  induction Hcs as [|c calls Hc Hcs IH]; intros s Hs.
  - split; [exact Hs|]. split; [constructor|reflexivity].
  - destruct (smoother_apply_ok libm s c Hexp Hc Hs) as (H1 & H2 & H3).
    destruct (IH _ H1) as (I1 & I2 & I3).
    cbn [smoother_run fst snd]. split; [exact I1|].
    unfold process_calls in *. cbn [List.filter].
    destruct c as [fs|tauSeconds|value|target];
      cbn [smoother_apply fst snd] in *;
      try (split; [exact I2|exact I3]).
    split; [constructor; [apply H2; reflexivity|exact I2]|].
    cbn [length]. f_equal. exact I3.
Qed.

End SmootherCoefficient.

(** * Properties of the program *)

(** ** [Tremolo::process]: structure of the loop *)

Section ProcessStructure.
Context (libm : Libm).

Lemma process_frame_mono (i : nat) (tr : Tremolo.t) (buf : list float)
    (s : float) :
  buf !! i = Some s ->
  Tremolo.process_frame libm 1 i tr buf =
    Some (Tremolo.frame_next tr,
          <[i := Tremolo.out_sample tr s (fst (Tremolo.frame_gains libm tr))]> buf).
Proof.
  intros Hs. unfold Tremolo.process_frame, Tremolo.frame_next,
    Tremolo.frame_gains, Tremolo.out_sample.
  destruct (OnePoleSmoother.process (Tremolo.rateHz_ tr) (Tremolo.rateSm_ tr))
    as [rsm rateNow].
  destruct (OnePoleSmoother.process (Tremolo.depth_ tr) (Tremolo.depthSm_ tr))
    as [dsm dNow].
  cbn [fst snd]. rewrite Z.eqb_refl, Hs. reflexivity.
Qed.

Lemma process_frame_stereo (channels : Z) (i : nat) (tr : Tremolo.t)
    (buf : list float) (sL sR : float) :
  channels <> 1 ->
  buf !! (i * 2 + 0)%nat = Some sL ->
  buf !! (i * 2 + 1)%nat = Some sR ->
  Tremolo.process_frame libm channels i tr buf =
    Some (Tremolo.frame_next tr,
          <[(i * 2 + 1)%nat :=
              Tremolo.out_sample tr sR (snd (Tremolo.frame_gains libm tr))]>
            (<[(i * 2 + 0)%nat :=
                 Tremolo.out_sample tr sL (fst (Tremolo.frame_gains libm tr))]>
               buf)).
Proof.
  intros Hc HL HR. unfold Tremolo.process_frame, Tremolo.frame_next,
    Tremolo.frame_gains, Tremolo.out_sample.
  destruct (OnePoleSmoother.process (Tremolo.rateHz_ tr) (Tremolo.rateSm_ tr))
    as [rsm rateNow].
  destruct (OnePoleSmoother.process (Tremolo.depth_ tr) (Tremolo.depthSm_ tr))
    as [dsm dNow].
  cbn [fst snd]. apply Z.eqb_neq in Hc. rewrite Hc, HL, HR. reflexivity.
Qed.

End ProcessStructure.

Section ProcessLoop.
Context (libm : Libm).

Abbreviation engine_after n tr := (Nat.iter n Tremolo.frame_next tr).

Lemma engine_after_succ (n : nat) (tr : Tremolo.t) :
  engine_after n (Tremolo.frame_next tr) = engine_after (S n) tr.
Proof. symmetry. apply Nat.iter_succ_r. Qed.

(** A stereo run over frames [i .. i+n-1]: it succeeds when the buffer holds
    [2*(i+n)] samples, advances the engine by [n] frames whatever the
    samples are, and rewrites exactly the [2*n] samples of those frames. *)
Lemma process_loop_stereo (channels : Z) (n i : nat) (tr : Tremolo.t)
    (buf : list float) :
  channels <> 1 ->
  (2 * (i + n) <= length buf)%nat ->
  exists out,
    Tremolo.process_loop libm channels n i tr buf =
      Some (engine_after n tr, out)
    /\ length out = length buf
    /\ (forall j, (j < 2 * i \/ 2 * (i + n) <= j)%nat -> out !! j = buf !! j)
    /\ (forall k s, (k < n)%nat -> buf !! (2 * (i + k))%nat = Some s ->
          out !! (2 * (i + k))%nat =
            Some (Tremolo.out_sample (engine_after k tr) s
                    (fst (Tremolo.frame_gains libm (engine_after k tr)))))
    /\ (forall k s, (k < n)%nat -> buf !! (2 * (i + k) + 1)%nat = Some s ->
          out !! (2 * (i + k) + 1)%nat =
            Some (Tremolo.out_sample (engine_after k tr) s
                    (snd (Tremolo.frame_gains libm (engine_after k tr))))).
Proof.
  intros Hc. revert i tr buf.
  induction n as [|n IH]; intros i tr buf Hlen.
  - exists buf. cbn. repeat split; auto; intros; lia.
  - destruct (lookup_lt_is_Some_2 buf (i * 2 + 0)%nat ltac:(lia)) as [sL HL].
    destruct (lookup_lt_is_Some_2 buf (i * 2 + 1)%nat ltac:(lia)) as [sR HR].
    cbn [Tremolo.process_loop].
    rewrite (process_frame_stereo libm channels i tr buf sL sR Hc HL HR).
    cbn [mbind option_bind].
    set (vL := Tremolo.out_sample tr sL _) in *.
    set (vR := Tremolo.out_sample tr sR _) in *.
    set (buf1 := <[(i * 2 + 1)%nat := vR]> (<[(i * 2 + 0)%nat := vL]> buf)).
    assert (Hlen1 : length buf1 = length buf)
      by (unfold buf1; rewrite !length_insert; reflexivity).
    destruct (IH (S i) (Tremolo.frame_next tr) buf1 ltac:(lia))
      as (out & Hrun & Hlo & Hsame & HoutL & HoutR).
    assert (Hb1 : forall j, j <> (i * 2 + 0)%nat -> j <> (i * 2 + 1)%nat ->
                            buf1 !! j = buf !! j).
    { intros j H0 H1. unfold buf1.
      rewrite list_lookup_insert_ne by congruence.
      rewrite list_lookup_insert_ne by congruence. reflexivity. }
    exists out. rewrite Hrun, engine_after_succ.
    split; [reflexivity|]. split; [congruence|].
    split; [|split].
    + intros j Hj. rewrite Hsame by lia. apply Hb1; lia.
    + intros [|k] s Hk Hs.
      * replace (2 * (i + 0))%nat with (i * 2 + 0)%nat in * by lia.
        rewrite Hsame by lia. unfold buf1.
        rewrite list_lookup_insert_ne by lia.
        rewrite list_lookup_insert_eq by lia.
        rewrite HL in Hs. injection Hs as <-. reflexivity.
      * replace (2 * (i + S k))%nat with (2 * (S i + k))%nat in * by lia.
        rewrite (HoutL k s) by (try lia; rewrite Hb1 by lia; exact Hs).
        rewrite engine_after_succ. reflexivity.
    + intros [|k] s Hk Hs.
      * replace (2 * (i + 0) + 1)%nat with (i * 2 + 1)%nat in * by lia.
        rewrite Hsame by lia. unfold buf1.
        rewrite list_lookup_insert_eq by (rewrite length_insert; lia).
        rewrite HR in Hs. injection Hs as <-. reflexivity.
      * replace (2 * (i + S k) + 1)%nat with (2 * (S i + k) + 1)%nat in * by lia.
        rewrite (HoutR k s) by (try lia; rewrite Hb1 by lia; exact Hs).
        rewrite engine_after_succ. reflexivity.
Qed.

(** The same for a mono run over frames [i .. i+n-1]. *)
Lemma process_loop_mono (n i : nat) (tr : Tremolo.t) (buf : list float) :
  (i + n <= length buf)%nat ->
  exists out,
    Tremolo.process_loop libm 1 n i tr buf = Some (engine_after n tr, out)
    /\ length out = length buf
    /\ (forall j, (j < i \/ i + n <= j)%nat -> out !! j = buf !! j)
    /\ (forall k s, (k < n)%nat -> buf !! (i + k)%nat = Some s ->
          out !! (i + k)%nat =
            Some (Tremolo.out_sample (engine_after k tr) s
                    (fst (Tremolo.frame_gains libm (engine_after k tr))))).
Proof.
  revert i tr buf.
  induction n as [|n IH]; intros i tr buf Hlen.
  - exists buf. cbn. repeat split; auto; intros; lia.
  - destruct (lookup_lt_is_Some_2 buf i ltac:(lia)) as [s0 H0].
    cbn [Tremolo.process_loop].
    rewrite (process_frame_mono libm i tr buf s0 H0).
    cbn [mbind option_bind].
    set (v := Tremolo.out_sample tr s0 _) in *.
    set (buf1 := <[i := v]> buf).
    assert (Hlen1 : length buf1 = length buf)
      by (unfold buf1; rewrite length_insert; reflexivity).
    destruct (IH (S i) (Tremolo.frame_next tr) buf1 ltac:(lia))
      as (out & Hrun & Hlo & Hsame & Hout).
    exists out. rewrite Hrun, engine_after_succ.
    split; [reflexivity|]. split; [congruence|]. split.
    + intros j Hj. rewrite Hsame by lia. unfold buf1.
      apply list_lookup_insert_ne. lia.
    + intros [|k] s Hk Hs.
      * replace (i + 0)%nat with i in * by lia.
        rewrite Hsame by lia. unfold buf1.
        rewrite list_lookup_insert_eq by lia.
        rewrite H0 in Hs. injection Hs as <-. reflexivity.
      * replace (i + S k)%nat with (S i + k)%nat in * by lia.
        rewrite (Hout k s); [| lia |].
        -- rewrite engine_after_succ. reflexivity.
        -- unfold buf1. rewrite list_lookup_insert_ne by lia. exact Hs.
Qed.

End ProcessLoop.

(** ** The phase accumulator *)

Section PhaseAccumulator.

(** The phase and the increment after one frame. *)
Lemma frame_next_phase (tr : Tremolo.t) :
  Tremolo.phase_ (Tremolo.frame_next tr) =
    (let ph := (Tremolo.phase_ tr + Tremolo.phaseInc_ (Tremolo.frame_next tr))%f32 in
     if (ph >=? f_1)%f32 then (ph - f_1)%f32 else ph).
Proof.
  unfold Tremolo.frame_next.
  destruct (OnePoleSmoother.process _ _). reflexivity.
Qed.

(** The wrap of [process], [phase_ += phaseInc_; if (phase_ >= 1.0f)
    phase_ -= 1.0f;], on a phase in [[0, 1)] and an increment of 2 or more:
    one subtraction leaves the phase at 1 or more. *)
Lemma wrap_leaves_unit (ph inc : float) :
  finite32 ph -> 0 <= sv32 ph < 2 ^ 149 ->
  finite32 inc -> 2 ^ 150 <= sv32 inc ->
  (ph + inc >=? f_1)%f32 = true
  /\ (f_1 <=? ph + inc - f_1)%f32 = true
  /\ (ph + inc - f_1 <? f_1)%f32 = false.
Proof.
  intros Hph Rph Hinc Rinc.
  assert (F1 : finite32 f_1) by (split; reflexivity).
  assert (F2 : finite32 f_2) by (split; reflexivity).
  assert (H2 : (f_2 <=? ph + inc)%f32 = true).
  { apply (add32_lower 8388608 (-22) ph inc); try assumption; try reflexivity.
    - intros s m e ->.
      assert (e <= -24); [|lia].
      apply (exponent_le s m e (-24) Hph); [lia|].
      rewrite sv32_finite in Rph. destruct s; cbn [cond_Zopp] in Rph.
      + pose proof (pow2_pos (e + 149)
                      ltac:(destruct (finite32_exp true m e Hph); lia)). nia.
      + change (2 ^ (-24 + 24 + 149)) with (2 ^ 149). lia.
    - change (8388608 * 2 ^ (-22 + 149)) with (2 ^ 150). lia. }
  pose proof (add32_valid ph inc (proj1 Hph) (proj1 Hinc)) as Vp.
  destruct (ph + inc)%f32 as [s|[|]| |s m e] eqn:Ep; try discriminate.
  - repeat split.
  - assert (Fp : finite32 (S754_finite s m e)) by (split; [exact Vp|reflexivity]).
    rewrite le32_sv in H2 by assumption. rewrite sv32_f_2 in H2.
    apply Z.leb_le in H2.
    assert (Hle : (f_1 <=? S754_finite s m e - f_1)%f32 = true).
    { apply (sub32_lower 8388608 (-23) s false m 8388608 e (-23) eq_refl Fp F1
               ltac:(lia)).
      change (sv32 (S754_finite false 8388608 (-23))) with (2 ^ 149).
      change (8388608 * 2 ^ (-23 + 149)) with (2 ^ 149). lia. }
    split; [|split; [exact Hle|]].
    + unfold F32.ge. rewrite le32_sv by assumption. rewrite sv32_f_1.
      apply Z.leb_le. lia.
    + apply ge_one_not_lt; [|exact Hle].
      apply sub32_valid; [exact Vp | reflexivity].
Qed.

(** The wrap of [process] on a phase in [[0, 1)] and an increment in
    [[0, 1)]: the phase stays in [[0, 1)]. *)
Lemma wrap_stays_in_unit (ph inc : float) :
  wrapped ph -> wrapped inc ->
  wrapped (if (ph + inc >=? f_1)%f32 then (ph + inc - f_1)%f32 else (ph + inc)%f32).
Proof.
  intros Hph Hinc.
  destruct (wrapped_sv _ Hph) as [Fp Rp]. destruct (wrapped_sv _ Hinc) as [Fi Ri].
  pose proof (below_one ph Fp ltac:(lia)) as Bp.
  pose proof (below_one inc Fi ltac:(lia)) as Bi.
  assert (F0 : finite32 f_0) by (split; reflexivity).
  assert (F1 : finite32 f_1) by (split; reflexivity).
  set (b := S754_finite false 16777215 (-23)).
  assert (Fb : finite32 b) by (split; reflexivity).
  assert (Sb : sv32 b = 16777215 * 2 ^ 126) by reflexivity.
  destruct (add32_bound b ph inc) as [Fs Us]; try assumption.
  { rewrite Sb. lia. }
  { rewrite Sb. change (2 ^ 126) with (2 * 2 ^ 125). lia. }
  pose proof (add32_nonneg ph inc Fp Fi ltac:(lia)) as Ns.
  rewrite Sb in Us. rewrite Z.abs_eq in Us by exact Ns.
  change (ph + inc >=? f_1)%f32 with (f_1 <=? ph + inc)%f32.
  rewrite (le32_sv f_1 _ F1 Fs), sv32_f_1.
  destruct (Z.leb_spec (2 ^ 149) (sv32 (ph + inc)%f32)) as [Hge|Hlt].
  - set (b' := S754_finite false 16777215 (-24)).
    assert (Fb' : finite32 b') by (split; reflexivity).
    assert (Sb' : sv32 b' = 16777215 * 2 ^ 125) by reflexivity.
    destruct (sub32_bound b' (ph + inc)%f32 f_1) as [Fq Uq]; try assumption.
    { rewrite Sb'. lia. }
    { rewrite Sb', sv32_f_1. change (2 ^ 126) with (2 * 2 ^ 125) in Us.
      change (2 ^ 149) with (16777216 * 2 ^ 125) in *. lia. }
    pose proof (sub32_nonneg (ph + inc)%f32 f_1 Fs F1
                  ltac:(rewrite sv32_f_1; lia)) as Nq.
    rewrite Sb' in Uq. rewrite Z.abs_eq in Uq by exact Nq.
    split; [exact (proj1 Fq)|].
    rewrite (le32_sv f_0 _ F0 Fq), (lt32_sv _ f_1 Fq F1), sv32_f_0, sv32_f_1.
    split; [apply Z.leb_le; exact Nq|].
    apply Z.ltb_lt. change (2 ^ 149) with (16777216 * 2 ^ 125). lia.
  - split; [exact (proj1 Fs)|].
    rewrite (le32_sv f_0 _ F0 Fs), (lt32_sv _ f_1 Fs F1), sv32_f_0, sv32_f_1.
    split; [apply Z.leb_le; exact Ns | apply Z.ltb_lt; exact Hlt].
Qed.

(** C1 fails on the code.  Take any engine whose phase is in [[0, 1)], and
    let the increment that the next frame computes, [max(1e-9f,
    float(rateNow / sr_))], be a finite value of 2 or more (a smoothed rate
    of at least twice the sample rate).  Then [process] on one mono frame
    leaves a phase that is at least 1: the single [phase_ -= 1.0f] does not
    bring it back into [[0, 1)]. *)
Theorem phase_leaves_unit_interval (libm : Libm) (tr : Tremolo.t)
    (s : float) (rest : list float) :
  wrapped (Tremolo.phase_ tr) ->
  F32.valid (Tremolo.phaseInc_ (Tremolo.frame_next tr)) = true ->
  F32.is_finite (Tremolo.phaseInc_ (Tremolo.frame_next tr)) = true ->
  (f_2 <=? Tremolo.phaseInc_ (Tremolo.frame_next tr))%f32 = true ->
  exists out,
    Tremolo.process libm tr (Some (s :: rest)) 1 1 =
      Some (Tremolo.frame_next tr, Some out)
    /\ (f_1 <=? Tremolo.phase_ (Tremolo.frame_next tr))%f32 = true
    /\ (Tremolo.phase_ (Tremolo.frame_next tr) <? f_1)%f32 = false
    /\ ~ wrapped (Tremolo.phase_ (Tremolo.frame_next tr)).
Proof.
  intros Hw Vi Fi Hi.
  destruct (wrapped_sv _ Hw) as [Fp Rp].
  assert (Finc : finite32 (Tremolo.phaseInc_ (Tremolo.frame_next tr)))
    by (split; assumption).
  assert (F2 : finite32 f_2) by (split; reflexivity).
  rewrite le32_sv in Hi by assumption. rewrite sv32_f_2 in Hi.
  apply Z.leb_le in Hi.
  destruct (wrap_leaves_unit _ _ Fp Rp Finc Hi) as (Hge & Hle & Hlt).
  destruct (process_loop_mono libm 1 0 tr (s :: rest) ltac:(cbn; lia))
    as (out & Hrun & _).
  exists out. unfold Tremolo.process. change (1 <? 1) with false.
  rewrite Hrun. split; [reflexivity|].
  rewrite frame_next_phase. cbv zeta. rewrite Hge.
  split; [exact Hle|]. split; [exact Hlt|].
  intros (_ & _ & H). rewrite Hlt in H. discriminate H.
Qed.

(** At 48 kHz with the rate set to 240 kHz: the smoother starts at its
    target, the increment is 5 and the phase after the first sample is 4. *)
Lemma phase_leaves_unit_interval_witness :
  exists out,
    Tremolo.process libm_ref
      (Tremolo.setSampleRate libm_ref d_48000
         (Tremolo.setRateHz f_240000 Tremolo.init))
      (Some [f_0]) 1 1 =
      Some (Tremolo.frame_next
              (Tremolo.setSampleRate libm_ref d_48000
                 (Tremolo.setRateHz f_240000 Tremolo.init)), Some out)
    /\ Tremolo.phaseInc_
         (Tremolo.frame_next
            (Tremolo.setSampleRate libm_ref d_48000
               (Tremolo.setRateHz f_240000 Tremolo.init))) = f_5
    /\ Tremolo.phase_
         (Tremolo.frame_next
            (Tremolo.setSampleRate libm_ref d_48000
               (Tremolo.setRateHz f_240000 Tremolo.init))) = f_4.
Proof.
  destruct (phase_leaves_unit_interval libm_ref
              (Tremolo.setSampleRate libm_ref d_48000
                 (Tremolo.setRateHz f_240000 Tremolo.init)) f_0 [])
    as (out & Hrun & _); try reflexivity.
  - repeat split.
  - exists out. split; [exact Hrun|]. split; reflexivity.
Defined.

(** What holds of C1: the phase stays in [[0, 1)] over a run of frames
    for as long as the increment of each frame is in [[0, 1)] (the smoothed
    rate is below the sample rate). *)
Theorem phase_stays_wrapped (tr : Tremolo.t) (frames : nat) :
  wrapped (Tremolo.phase_ tr) ->
  (forall k, (k < frames)%nat ->
     wrapped (Tremolo.phaseInc_ (Nat.iter (S k) Tremolo.frame_next tr))) ->
  forall k, (k <= frames)%nat ->
    wrapped (Tremolo.phase_ (Nat.iter k Tremolo.frame_next tr)).
Proof.
  intros H0 Hinc k. induction k as [|k IH]; intros Hk; [exact H0|].
  rewrite Nat.iter_succ, frame_next_phase. cbv zeta.
  apply wrap_stays_in_unit; [apply IH; lia|].
  rewrite <- Nat.iter_succ. apply Hinc. lia.
Qed.

(** The default engine (5 Hz at 48 kHz) over three frames. *)
Lemma phase_stays_wrapped_witness :
  wrapped (Tremolo.phase_ (Nat.iter 3 Tremolo.frame_next Tremolo.init)).
Proof.
  apply (phase_stays_wrapped Tremolo.init 3).
  - repeat split.
  - intros [|[|[|k]]] Hk; try lia; repeat split.
  - lia.
Defined.

End PhaseAccumulator.

(** ** [OnePoleSmoother::process] *)

Section Smoother.

(** C2.  [process(target)] stores and returns
    [a*(z + 1e-20f) + (1 - a)*target] and leaves the other members as they
    were; [setSampleRate] and [setTimeConstant] both recompute
    [a = exp(float(-1.0 / (tau * float(sampleRate))))] from the members
    they leave.  With the coefficient in [[0, 1]] the result is finite for
    every finite state and every finite target, [FLT_MAX] included, and so
    is the state that [process] leaves.  And finite input keeps a smoother
    there: the argument of the exponential is never above zero and never a
    NaN, so that, for a C library whose exponential of such a number is in
    [[0, 1]], every [process] call in a sequence of calls with finite
    [float] arguments (and any sample rate) on a default-constructed
    smoother returns a finite value. *)
Theorem smoother_process (libm : Libm) (s : OnePoleSmoother.t)
    (target : float) (fs : double) (tauSeconds : float) :
  snd (OnePoleSmoother.process target s) =
    (OnePoleSmoother.a s * (OnePoleSmoother.z s + f_1e_20)
     + (f_1 - OnePoleSmoother.a s) * target)%f32
  /\ fst (OnePoleSmoother.process target s) =
       OnePoleSmoother.reset (snd (OnePoleSmoother.process target s)) s
  /\ (let s' := OnePoleSmoother.setSampleRate libm fs s in
      OnePoleSmoother.sampleRate s' = (if F64.gt fs F64.zero then fs else d_48000)
      /\ OnePoleSmoother.tau s' = OnePoleSmoother.tau s
      /\ OnePoleSmoother.z s' = OnePoleSmoother.z s
      /\ OnePoleSmoother.a s' =
           expf libm
             (float_of_double
                (F64.div d_neg1
                   (double_of_float
                      (OnePoleSmoother.tau s'
                       * float_of_double (OnePoleSmoother.sampleRate s'))%f32))))
  /\ (let s' := OnePoleSmoother.setTimeConstant libm tauSeconds s in
      OnePoleSmoother.sampleRate s' = OnePoleSmoother.sampleRate s
      /\ OnePoleSmoother.tau s' =
           (if (tauSeconds >? f_1e_6)%f32 then tauSeconds else f_1e_6)
      /\ OnePoleSmoother.z s' = OnePoleSmoother.z s
      /\ OnePoleSmoother.a s' =
           expf libm
             (float_of_double
                (F64.div d_neg1
                   (double_of_float
                      (OnePoleSmoother.tau s'
                       * float_of_double (OnePoleSmoother.sampleRate s'))%f32))))
  /\ (in_range f_0 f_1 (OnePoleSmoother.a s) ->
      finite32 (OnePoleSmoother.z s) -> finite32 target ->
      F32.valid (snd (OnePoleSmoother.process target s)) = true
      /\ F32.is_finite (snd (OnePoleSmoother.process target s)) = true
      /\ finite32 (OnePoleSmoother.z (fst (OnePoleSmoother.process target s)))
      /\ OnePoleSmoother.a (fst (OnePoleSmoother.process target s))
         = OnePoleSmoother.a s)
  /\ (forall calls : list smoother_call,
        (forall x, F32.valid x = true -> (x <=? f_0)%f32 = true ->
           in_range f_0 f_1 (expf libm x)) ->
        Forall finite_arguments calls ->
        Forall finite32
          (snd (smoother_run libm calls OnePoleSmoother.init))
        /\ length (snd (smoother_run libm calls OnePoleSmoother.init))
           = process_calls calls
        /\ finite32
             (OnePoleSmoother.z
                (fst (smoother_run libm calls OnePoleSmoother.init)))
        /\ in_range f_0 f_1
             (OnePoleSmoother.a
                (fst (smoother_run libm calls OnePoleSmoother.init)))).
Proof.
  split; [reflexivity|]. split; [reflexivity|].
  split; [repeat split|]. split; [repeat split|].
  split.
  - intros Ha Hz Ht.
    pose proof (step_finite_all _ _ _ Ha Hz Ht) as [V F].
    split; [exact V|]. split; [exact F|].
    split; [split; assumption|reflexivity].
  - intros calls Hexp Hcs.
    destruct (smoother_run_finite libm calls OnePoleSmoother.init Hexp Hcs
                smoother_init_ok) as ((Ha & Hz & _) & Hf & Hl).
    repeat split; assumption || apply Ha || apply Hz.
Qed.

(** The smoother of an engine at 48 kHz, with the state and the target at
    [FLT_MAX]: one call, and the same as a sequence of calls. *)
Lemma smoother_process_witness :
  F32.valid
    (snd (OnePoleSmoother.process f_max
            (OnePoleSmoother.reset f_max
               (OnePoleSmoother.setSampleRate libm_ref d_48000
                  OnePoleSmoother.init)))) = true
  /\ F32.is_finite
       (snd (OnePoleSmoother.process f_max
               (OnePoleSmoother.reset f_max
                  (OnePoleSmoother.setSampleRate libm_ref d_48000
                     OnePoleSmoother.init)))) = true
  /\ Forall finite32
       (snd (smoother_run libm_ref
               [SmSetSampleRate d_48000; SmReset f_max; SmProcess f_max;
                SmSetTimeConstant f_0_01; SmProcess f_max]
               OnePoleSmoother.init)).
Proof.
  destruct (smoother_process libm_ref
              (OnePoleSmoother.reset f_max
                 (OnePoleSmoother.setSampleRate libm_ref d_48000
                    OnePoleSmoother.init)) f_max d_48000 f_0_01)
    as (_ & _ & _ & _ & H & R).
  destruct H as (V & F & _); [repeat split..|].
  destruct (R [SmSetSampleRate d_48000; SmReset f_max; SmProcess f_max;
               SmSetTimeConstant f_0_01; SmProcess f_max]) as (Hf & _).
  - intros x _ _. repeat split.
  - repeat constructor.
  - split; [exact V|]. split; [exact F|exact Hf].
Defined.

End Smoother.

(** ** The dry path of [Tremolo::process] *)

Section DryPath.

(** With [wet = 0] the mix is the clamped dry sample, as long as the wet
    product is finite. *)
Lemma mix_dry (x g : float) :
  F32.valid x = true -> x <> S754_zero true ->
  F32.is_finite (x * g)%f32 = true ->
  Tremolo.mix f_0 x g = clamp11 x.
Proof.
  intros V Hnz Hfin. unfold Tremolo.mix.
  change (f_1 - f_0)%f32 with f_1. rewrite (mul32_one_l x V).
  destruct (mul32_zero_l _ Hfin) as [s ->].
  rewrite (add32_zero_r x s Hnz). reflexivity.
Qed.

Lemma out_sample_dry (tr : Tremolo.t) (s g : float) :
  Tremolo.wet_ tr = f_0 -> F32.valid s = true ->
  F32.is_finite ((s + f_1e_20) * g)%f32 = true ->
  Tremolo.out_sample tr s g = clamp11 (s + f_1e_20)%f32.
Proof.
  intros Hw V Hfin. unfold Tremolo.out_sample. rewrite Hw.
  apply mix_dry; [| |exact Hfin].
  - apply add32_valid; [exact V | reflexivity].
  - apply add32_finite_not_neg_zero; [exact V | reflexivity].
Qed.

Lemma frame_next_wet (tr : Tremolo.t) :
  Tremolo.wet_ (Tremolo.frame_next tr) = Tremolo.wet_ tr.
Proof.
  unfold Tremolo.frame_next.
  destruct (OnePoleSmoother.process _ _). reflexivity.
Qed.

Lemma engine_after_wet (n : nat) (tr : Tremolo.t) :
  Tremolo.wet_ (Nat.iter n Tremolo.frame_next tr) = Tremolo.wet_ tr.
Proof.
  induction n as [|n IH]; [reflexivity|].
  rewrite Nat.iter_succ, frame_next_wet. exact IH.
Qed.

(** The wet product of a finite sample is finite for every gain in
    [[-1, 1]]. *)
Lemma wet_product_finite (x g : float) :
  finite32 x -> in_range f_neg1 f_1 g -> F32.is_finite (x * g)%f32 = true.
Proof.
  intros Hx Hg. destruct (in_signed_unit_sv g Hg) as [Fg Rg].
  destruct x as [s|s| |s m e]; try (destruct Hx; discriminate).
  - destruct Fg as [_ Fg]. destruct g; try discriminate; reflexivity.
  - assert (Fb : finite32 (S754_finite false m e))
      by (split; [exact (proj1 Hx) | reflexivity]).
    destruct (finite32_exp s m e Hx) as [He _].
    pose proof (pow2_pos (e + 149) ltac:(lia)) as Hp.
    assert (Sb : sv32 (S754_finite false m e) = Zpos m * 2 ^ (e + 149))
      by apply sv32_finite.
    destruct (mul32_bound (S754_finite false m e) (S754_finite s m e) g)
      as [[_ F] _]; try assumption.
    + rewrite Sb. nia.
    + rewrite Sb, sv32_finite.
      assert (Z.abs (sv32 g) <= 2 ^ 149) by lia.
      pose proof (Z.abs_nonneg (sv32 g)).
      destruct s; cbn [cond_Zopp];
        [rewrite Z.abs_neq by nia | rewrite Z.abs_eq by nia]; nia.
Qed.

(** With [wet = 0] the mix is the clamped dry sample when the wet product
    is finite, and [1] when it is not. *)
Lemma mix_dry_all (x g : float) :
  F32.valid x = true -> x <> S754_zero true ->
  Tremolo.mix f_0 x g =
    if F32.is_finite (x * g)%f32 then clamp11 x else f_1.
Proof.
  intros V Hnz. destruct (F32.is_finite (x * g)%f32) eqn:Hfin.
  - apply mix_dry; assumption.
  - unfold Tremolo.mix.
    change (f_1 - f_0)%f32 with f_1. rewrite (mul32_one_l x V).
    assert (Hnan : (f_0 * (x * g))%f32 = S754_nan).
    { destruct (x * g)%f32; try discriminate; reflexivity. }
    rewrite Hnan.
    assert (Hsum : (x + S754_nan)%f32 = S754_nan)
      by (destruct x; reflexivity).
    rewrite Hsum. reflexivity.
Qed.

Lemma out_sample_dry_all (tr : Tremolo.t) (s g : float) :
  Tremolo.wet_ tr = f_0 -> F32.valid s = true ->
  Tremolo.out_sample tr s g = dry_written s g.
Proof.
  intros Hw V. unfold Tremolo.out_sample, dry_written. rewrite Hw.
  apply mix_dry_all.
  - apply add32_valid; [exact V | reflexivity].
  - apply add32_finite_not_neg_zero; [exact V | reflexivity].
Qed.

(** A sample that is not finite has no finite wet product. *)
Lemma wet_product_of_non_finite (s g : float) :
  F32.is_finite s = false ->
  F32.is_finite ((s + f_1e_20) * g)%f32 = false.
Proof.
  intros H. destruct s as [?|[|]| |]; try discriminate;
    destruct g as [[|]|[|]| |[|] ? ?]; reflexivity.
Qed.

(** C3 as stated fails for a sample that is [-inf]: the wet product is
    infinite, [0 * inf] is a NaN, and [clamp11] turns the NaN into [+1],
    where the clamped input is [-1]. *)
Lemma wet_zero_negative_infinity :
  ~ (forall (libm : Libm) (tr tr' : Tremolo.t) (buf out : list float)
       (frames : nat) (j : nat) (s : float),
       Tremolo.process libm (Tremolo.setWet f_0 tr) (Some buf) frames 1 =
         Some (tr', Some out) ->
       (j < frames)%nat -> buf !! j = Some s ->
       out !! j = Some (clamp11 (s + f_1e_20)%f32)).
Proof.
  intros H.
  specialize (H libm_ref (Tremolo.setShape Triangle Tremolo.init)
                _ [F32.neg_infinity] _ 1%nat 0%nat F32.neg_infinity
                eq_refl ltac:(lia) eq_refl).
  vm_compute in H. discriminate H.
Qed.

(** C3, amended.  With the wet mix at 0 (as [setWet(0)] leaves it), every
    processed sample [s] (any binary32 value, infinities and NaNs
    included) is written back as [dry_written s g], [g] being the gain of
    its frame and channel: as [clamp11(s + tiny)], the input plus
    [1e-20f] clamped into [[-1, 1]], when the wet product
    [(s + tiny) * g] is finite, and as [1] when it is not.  This holds for
    mono buffers and, with two or more channels, for both samples of every
    frame; samples past the processed frames are left as they were.  The
    wet product is finite for every finite sample when the gain is in
    [[-1, 1]]; it is never finite for a sample that is not; and the value
    [1] written then is the clamped input for [+inf] and for a NaN, but
    not for [-inf], whose clamped input is [-1]. *)
Theorem wet_zero_writes_back_input (libm : Libm) (tr : Tremolo.t)
    (buf : list float) (frames : nat) :
  Tremolo.wet_ tr = f_0 ->
  (forall j s, buf !! j = Some s -> F32.valid s = true) ->
  Tremolo.wet_ (Tremolo.setWet f_0 tr) = f_0
  /\ ((frames <= length buf)%nat ->
      exists tr' out,
        Tremolo.process libm tr (Some buf) frames 1 = Some (tr', Some out)
        /\ length out = length buf
        /\ (forall j s, (j < frames)%nat -> buf !! j = Some s ->
              out !! j =
                Some (dry_written s
                        (fst (Tremolo.frame_gains libm
                                (Nat.iter j Tremolo.frame_next tr)))))
        /\ (forall j, (frames <= j)%nat -> out !! j = buf !! j))
  /\ (forall channels, 2 <= channels ->
      (2 * frames <= length buf)%nat ->
      exists tr' out,
        Tremolo.process libm tr (Some buf) frames channels = Some (tr', Some out)
        /\ length out = length buf
        /\ (forall k s, (k < frames)%nat -> buf !! (2 * k)%nat = Some s ->
              out !! (2 * k)%nat =
                Some (dry_written s
                        (fst (Tremolo.frame_gains libm
                                (Nat.iter k Tremolo.frame_next tr)))))
        /\ (forall k s, (k < frames)%nat -> buf !! (2 * k + 1)%nat = Some s ->
              out !! (2 * k + 1)%nat =
                Some (dry_written s
                        (snd (Tremolo.frame_gains libm
                                (Nat.iter k Tremolo.frame_next tr)))))
        /\ (forall j, (2 * frames <= j)%nat -> out !! j = buf !! j))
  /\ (forall s g, F32.is_finite ((s + f_1e_20) * g)%f32 = true ->
        dry_written s g = clamp11 (s + f_1e_20)%f32)
  /\ (forall s g, F32.is_finite ((s + f_1e_20) * g)%f32 = false ->
        dry_written s g = f_1)
  /\ (forall s g, finite32 s -> in_range f_neg1 f_1 g ->
        F32.is_finite ((s + f_1e_20) * g)%f32 = true)
  /\ (forall s g, F32.is_finite s = false ->
        F32.is_finite ((s + f_1e_20) * g)%f32 = false)
  /\ clamp11 (F32.infinity + f_1e_20)%f32 = f_1
  /\ clamp11 (F32.nan + f_1e_20)%f32 = f_1
  /\ clamp11 (F32.neg_infinity + f_1e_20)%f32 = f_neg1.
Proof.
  intros Hw Hv. split; [reflexivity|]. split; [|split].
  - intros Hlen.
    destruct (process_loop_mono libm frames 0 tr buf ltac:(lia))
      as (out & Hrun & Hlo & Hsame & Hout).
    exists (Nat.iter frames Tremolo.frame_next tr), out.
    unfold Tremolo.process. change (1 <? 1) with false. rewrite Hrun.
    split; [reflexivity|]. split; [exact Hlo|]. split.
    + intros j s Hj Hs.
      specialize (Hout j s Hj). rewrite Nat.add_0_l in Hout.
      rewrite (Hout Hs). f_equal.
      apply out_sample_dry_all; [|eauto].
      rewrite engine_after_wet. exact Hw.
    + intros j Hj. apply Hsame. lia.
  - intros channels Hc Hlen.
    destruct (process_loop_stereo libm channels frames 0 tr buf ltac:(lia)
                ltac:(lia)) as (out & Hrun & Hlo & Hsame & HL & HR).
    exists (Nat.iter frames Tremolo.frame_next tr), out.
    unfold Tremolo.process.
    destruct (Z.ltb_spec channels 1) as [?|_]; [lia|]. rewrite Hrun.
    split; [reflexivity|]. split; [exact Hlo|]. split; [|split].
    + intros k s Hk Hs.
      specialize (HL k s Hk). rewrite Nat.add_0_l in HL.
      rewrite (HL Hs). f_equal.
      apply out_sample_dry_all; [|eauto].
      rewrite engine_after_wet. exact Hw.
    + intros k s Hk Hs.
      specialize (HR k s Hk). rewrite Nat.add_0_l in HR.
      rewrite (HR Hs). f_equal.
      apply out_sample_dry_all; [|eauto].
      rewrite engine_after_wet. exact Hw.
    + intros j Hj. apply Hsame. lia.
  - split; [intros s g H; unfold dry_written; rewrite H; reflexivity|].
    split; [intros s g H; unfold dry_written; rewrite H; reflexivity|].
    split.
    { intros s g Hs Hg.
      apply wet_product_finite; [apply add32_tiny_finite; exact Hs | exact Hg]. }
    split; [exact wet_product_of_non_finite|].
    repeat split.
Qed.

(** A triangle engine with the wet mix at 0 on [0.5, -inf, NaN, 5, 0.25]:
    as four mono frames and as two stereo frames. *)
Lemma wet_zero_writes_back_input_witness :
  (exists tr' out,
     Tremolo.process libm_ref
       (Tremolo.setShape Triangle (Tremolo.setWet f_0 Tremolo.init))
       (Some [f_0_5; F32.neg_infinity; F32.nan; f_5; f_0_25]) 4 1
     = Some (tr', Some out)
     /\ out !! 0%nat = Some f_0_5
     /\ out !! 1%nat = Some f_1
     /\ out !! 2%nat = Some f_1
     /\ out !! 3%nat = Some f_1
     /\ out !! 4%nat = Some f_0_25)
  /\ (exists tr' out,
        Tremolo.process libm_ref
          (Tremolo.setShape Triangle (Tremolo.setWet f_0 Tremolo.init))
          (Some [f_0_5; F32.neg_infinity; F32.nan; f_5; f_0_25]) 2 2
        = Some (tr', Some out)
        /\ out !! 1%nat = Some f_1).
Proof.
  assert (Hv : forall (j : nat) (s : float),
            [f_0_5; F32.neg_infinity; F32.nan; f_5; f_0_25] !! j = Some s ->
            F32.valid s = true).
  { intros [|[|[|[|[|j]]]]] s E; inversion E; reflexivity. }
  split.
  - destruct (wet_zero_writes_back_input libm_ref
                (Tremolo.setShape Triangle (Tremolo.setWet f_0 Tremolo.init))
                [f_0_5; F32.neg_infinity; F32.nan; f_5; f_0_25] 4 eq_refl Hv)
      as (_ & Hmono & _).
    destruct Hmono as (tr' & out & Hrun & _ & Hout & Hrest).
    + cbn. lia.
    + exists tr', out. split; [exact Hrun|].
      split; [rewrite (Hout 0%nat f_0_5) by (lia || reflexivity); reflexivity|].
      split; [rewrite (Hout 1%nat F32.neg_infinity) by (lia || reflexivity);
              reflexivity|].
      split; [rewrite (Hout 2%nat F32.nan) by (lia || reflexivity);
              reflexivity|].
      split; [rewrite (Hout 3%nat f_5) by (lia || reflexivity); reflexivity|].
      rewrite Hrest by lia. reflexivity.
  - destruct (wet_zero_writes_back_input libm_ref
                (Tremolo.setShape Triangle (Tremolo.setWet f_0 Tremolo.init))
                [f_0_5; F32.neg_infinity; F32.nan; f_5; f_0_25] 2 eq_refl Hv)
      as (_ & _ & Hstereo & _).
    destruct (Hstereo 2) as (tr' & out & Hrun & _ & _ & HR & _).
    + lia.
    + cbn. lia.
    + exists tr', out. split; [exact Hrun|].
      exact (HR 0%nat F32.neg_infinity ltac:(lia) eq_refl).
Defined.

End DryPath.

(** ** The waveforms *)

Section Waveforms.






End Waveforms.

(** ** The stereo phase offset *)

Section StereoPhase.

(** The two gains of a frame: the left channel takes the phase as it is,
    the right channel takes it through [fmod]. *)
Lemma frame_gains_phases (libm : Libm) (tr : Tremolo.t) :
  Tremolo.frame_gains libm tr =
    let d := OnePoleSmoother.step (OnePoleSmoother.a (Tremolo.depthSm_ tr))
               (OnePoleSmoother.z (Tremolo.depthSm_ tr)) (Tremolo.depth_ tr) in
    ((f_1 - d * Tremolo.lfo libm (Tremolo.shape_ tr) (Tremolo.phase_ tr))%f32,
     (f_1 - d * Tremolo.lfo libm (Tremolo.shape_ tr)
                  (fmodf (Tremolo.phase_ tr + Tremolo.stereoPhaseR_ tr)%f32 f_1))%f32).
Proof. reflexivity. Qed.

(** With no stereo offset the right channel's phase is the left one's. *)
Lemma right_phase_is_left (ph : float) :
  wrapped ph -> ph <> S754_zero true ->
  fmodf (ph + f_0)%f32 f_1 = ph.
Proof.
  intros Hw Hnz. unfold f_0, F32.zero.
  rewrite (add32_zero_r ph false Hnz). apply fmodf_wrapped. exact Hw.
Qed.

Lemma frame_next_stereoPhase (tr : Tremolo.t) :
  Tremolo.stereoPhaseR_ (Tremolo.frame_next tr) = Tremolo.stereoPhaseR_ tr.
Proof.
  unfold Tremolo.frame_next.
  destruct (OnePoleSmoother.process _ _). reflexivity.
Qed.

Lemma engine_after_stereoPhase (n : nat) (tr : Tremolo.t) :
  Tremolo.stereoPhaseR_ (Nat.iter n Tremolo.frame_next tr) =
    Tremolo.stereoPhaseR_ tr.
Proof.
  induction n as [|n IH]; [reflexivity|].
  rewrite Nat.iter_succ, frame_next_stereoPhase. exact IH.
Qed.

(** The left sample of the second frame of [fast_engine]: with a sine of
    [2^-21] or more at phase 4, a sample of [0.5] comes out below
    [0.25 - 2^-23]. *)
Lemma left_sample_bound (s4 : float) :
  in_range f_2pm21 f_2pm20 s4 ->
  finite32 (Tremolo.mix f_1 f_0_5 (f_1 - f_1 * (f_0_5 * (f_1 + s4)))%f32)
  /\ sv32 (Tremolo.mix f_1 f_0_5 (f_1 - f_1 * (f_0_5 * (f_1 + s4)))%f32)
     <= 2 ^ 147 - 2 ^ 126.
Proof.
  intros Hs.
  assert (F1 : finite32 f_1) by (split; reflexivity).
  assert (Fh : finite32 f_0_5) by (split; reflexivity).
  destruct (in_range_sv f_2pm21 f_2pm20 s4) as [Fs Rs];
    [split; reflexivity | split; reflexivity | exact Hs |].
  change (sv32 f_2pm21) with (2 ^ 128) in Rs.
  change (sv32 f_2pm20) with (2 ^ 129) in Rs.
  (* u = 1 + s4 is in [1 + 2^-21, 1 + 2^-20] *)
  set (u := (f_1 + s4)%f32).
  destruct (add32_bound (S754_finite false 8388616 (-23)) f_1 s4) as [Fu Uu];
    try assumption; try (split; reflexivity).
  { rewrite sv32_f_1. change (sv32 (S754_finite false 8388616 (-23)))
      with (2 ^ 149 + 2 ^ 129). lia. }
  fold u in Fu, Uu.
  change (sv32 (S754_finite false 8388616 (-23))) with (2 ^ 149 + 2 ^ 129) in Uu.
  assert (Lu : (S754_finite false 8388612 (-23) <=? u)%f32 = true).
  { apply (add32_lower 8388612 (-23) f_1 s4); try assumption; try reflexivity.
    - intros s m e E. injection E as _ _ <-. lia.
    - rewrite sv32_f_1.
      change (8388612 * 2 ^ (-23 + 149)) with (2 ^ 149 + 2 ^ 128). lia. }
  rewrite le32_sv in Lu by (assumption || (split; reflexivity)).
  change (sv32 (S754_finite false 8388612 (-23))) with (2 ^ 149 + 2 ^ 128) in Lu.
  apply Z.leb_le in Lu.
  rewrite Z.abs_eq in Uu by lia.
  (* lfo = 0.5 * u is in [0.5 + 2^-22, 0.5 + 2^-21] *)
  set (lfoL := (f_0_5 * u)%f32).
  destruct (mul32_bound (S754_finite false 8388616 (-24)) f_0_5 u) as [Fl Ul];
    try assumption; try (split; reflexivity).
  { rewrite sv32_f_0_5.
    change (sv32 (S754_finite false 8388616 (-24))) with (2 ^ 148 + 2 ^ 128).
    rewrite !Z.abs_eq by lia.
    change (2 ^ 149) with (2 * 2 ^ 148) in *. nia. }
  fold lfoL in Fl, Ul.
  change (sv32 (S754_finite false 8388616 (-24))) with (2 ^ 148 + 2 ^ 128) in Ul.
  assert (Ll : 2 ^ 148 + 2 ^ 127 <= sv32 lfoL).
  { destruct (positive_bound u Fu ltac:(lia)) as (mu & eu & Eu & _ & _).
    assert (Heu : eu <= 0).
    { rewrite Eu in Fu, Uu. rewrite sv32_finite in Uu. cbn [cond_Zopp] in Uu.
      apply (exponent_le false mu eu 0 Fu); [lia|].
      change (2 ^ (0 + 24 + 149)) with (2 ^ 173). lia. }
    assert (H : (S754_finite false 8388612 (-24) <=? lfoL)%f32 = true).
    { unfold lfoL. rewrite Eu. unfold f_0_5.
      apply (mul32_lower 8388612 (-24) 8388608 mu (-24) eu eq_refl Fh).
      - rewrite <- Eu. exact Fu.
      - lia.
      - rewrite <- Eu.
        change (sv32 (S754_finite false 8388608 (-24))) with (2 ^ 148).
        change (8388612 * 2 ^ (-24 + 149)) with (2 ^ 148 + 2 ^ 127).
        change (2 ^ 149) with (2 * 2 ^ 148) in *. nia. }
    rewrite le32_sv in H by (assumption || (split; reflexivity)).
    change (sv32 (S754_finite false 8388612 (-24))) with (2 ^ 148 + 2 ^ 127) in H.
    apply Z.leb_le in H. exact H. }
  rewrite Z.abs_eq in Ul by lia.
  (* depth 1: 1 * lfo = lfo; the gain 1 - lfo is in [0, 0.5 - 2^-22] *)
  rewrite (mul32_one_l lfoL (proj1 Fl)).
  set (g := (f_1 - lfoL)%f32).
  destruct (sub32_bound (S754_finite false 16777208 (-25)) f_1 lfoL) as [Fg Ug];
    try assumption; try (split; reflexivity).
  { rewrite sv32_f_1.
    change (sv32 (S754_finite false 16777208 (-25))) with (2 ^ 148 - 2 ^ 127).
    change (2 ^ 149) with (2 * 2 ^ 148) in *. lia. }
  fold g in Fg, Ug.
  change (sv32 (S754_finite false 16777208 (-25))) with (2 ^ 148 - 2 ^ 127) in Ug.
  assert (Ng : 0 <= sv32 g).
  { apply sub32_nonneg; try assumption. rewrite sv32_f_1.
    change (2 ^ 149) with (2 * 2 ^ 148) in *. lia. }
  rewrite Z.abs_eq in Ug by exact Ng.
  (* the wet sample 0.5 * gain, and the mix with wet = 1 *)
  set (w := (f_0_5 * g)%f32).
  destruct (mul32_bound (S754_finite false 16777208 (-26)) f_0_5 g) as [Fw Uw];
    try assumption; try (split; reflexivity).
  { rewrite sv32_f_0_5.
    change (sv32 (S754_finite false 16777208 (-26))) with (2 ^ 147 - 2 ^ 126).
    rewrite !Z.abs_eq by lia.
    change (2 ^ 149) with (2 * 2 ^ 148). change (2 ^ 148) with (2 * 2 ^ 147) in *.
    change (2 ^ 127) with (2 * 2 ^ 126) in *. nia. }
  fold w in Fw, Uw.
  change (sv32 (S754_finite false 16777208 (-26))) with (2 ^ 147 - 2 ^ 126) in Uw.
  pose proof (mul32_nonneg f_0_5 g Fh Fg ltac:(rewrite sv32_f_0_5; lia) Ng) as Nw.
  fold w in Nw. rewrite Z.abs_eq in Uw by exact Nw.
  unfold Tremolo.mix. fold w.
  change ((f_1 - f_1) * f_0_5)%f32 with f_0.
  rewrite (mul32_one_l w (proj1 Fw)).
  destruct (add32_zero_l w Fw) as [Fy Sy].
  rewrite clamp11_id; [| exact Fy | rewrite Sy; lia].
  split; [exact Fy | rewrite Sy; exact Uw].
Qed.

(** C8 fails on the code, through the defect of C1.  On [fast_engine]
    (stereo offset 0, rate above the sample rate) the phase is 4 after the
    first frame; in the second frame the left channel takes the phase 4
    and the right channel [fmod(4 + 0, 1) = 0].  With a C library whose
    sine is [0] at [0] and between [2^-21] and [2^-20] at the [float]
    nearest to [8*pi] (the sine there is [6.99e-7]), equal left and right
    samples of [0.5] come out different in the second frame: [0.25] on the
    right and less than that on the left. *)
Theorem stereo_channels_diverge (libm : Libm) :
  sinf libm (Tremolo.two_pi_times f_0) = f_0 ->
  in_range f_2pm21 f_2pm20 (sinf libm (Tremolo.two_pi_times f_4)) ->
  exists tr' out vL,
    Tremolo.process libm fast_engine (Some [f_0_5; f_0_5; f_0_5; f_0_5]) 2 2 =
      Some (tr', Some out)
    /\ Tremolo.stereoPhaseR_ fast_engine = f_0
    /\ Tremolo.phase_ (Tremolo.frame_next fast_engine) = f_4
    /\ fmodf (f_4 + f_0)%f32 f_1 = f_0
    /\ out !! 0%nat = out !! 1%nat
    /\ out !! 2%nat = Some vL /\ out !! 3%nat = Some f_0_25
    /\ (vL <? f_0_25)%f32 = true.
Proof.
  intros H0 H4.
  destruct (process_loop_stereo libm 2 2 0 fast_engine
              [f_0_5; f_0_5; f_0_5; f_0_5] ltac:(lia) ltac:(cbn; lia))
    as (out & Hrun & _ & _ & HL & HR).
  pose proof (HL 0%nat f_0_5 ltac:(lia) eq_refl) as HL0.
  pose proof (HR 0%nat f_0_5 ltac:(lia) eq_refl) as HR0.
  pose proof (HL 1%nat f_0_5 ltac:(lia) eq_refl) as HL1.
  pose proof (HR 1%nat f_0_5 ltac:(lia) eq_refl) as HR1.
  clear HL HR.
  change (2 * (0 + 0) + 1)%nat with 1%nat in *.
  change (2 * (0 + 1) + 1)%nat with 3%nat in *.
  change (2 * (0 + 0))%nat with 0%nat in *.
  change (2 * (0 + 1))%nat with 2%nat in *.
  rewrite frame_gains_phases in HL0, HR0, HL1, HR1.
  cbv zeta in HL0, HR0, HL1, HR1. cbn [fst snd] in HL0, HR0, HL1, HR1.
  change (Nat.iter 0 Tremolo.frame_next fast_engine) with fast_engine in HL0, HR0.
  change (Nat.iter 1 Tremolo.frame_next fast_engine)
    with (Tremolo.frame_next fast_engine) in HL1, HR1.
  change (Tremolo.shape_ fast_engine) with Sine in HL0, HR0.
  change (Tremolo.shape_ (Tremolo.frame_next fast_engine)) with Sine in HL1, HR1.
  cbn [Tremolo.lfo] in HL0, HR0, HL1, HR1.
  unfold Tremolo.lfoSine in HL0, HR0, HL1, HR1.
  change (Tremolo.phase_ fast_engine) with f_0 in HL0, HR0.
  change (Tremolo.stereoPhaseR_ fast_engine) with f_0 in HR0.
  change (fmodf (f_0 + f_0)%f32 f_1) with f_0 in HR0.
  change (Tremolo.phase_ (Tremolo.frame_next fast_engine)) with f_4 in HL1, HR1.
  change (Tremolo.stereoPhaseR_ (Tremolo.frame_next fast_engine)) with f_0 in HR1.
  change (fmodf (f_4 + f_0)%f32 f_1) with f_0 in HR1.
  rewrite H0 in HL0, HR0, HR1.
  unfold Tremolo.out_sample in HL1.
  change (Tremolo.wet_ (Tremolo.frame_next fast_engine)) with f_1 in HL1.
  change (f_0_5 + f_1e_20)%f32 with f_0_5 in HL1.
  change (OnePoleSmoother.step
            (OnePoleSmoother.a (Tremolo.depthSm_ (Tremolo.frame_next fast_engine)))
            (OnePoleSmoother.z (Tremolo.depthSm_ (Tremolo.frame_next fast_engine)))
            (Tremolo.depth_ (Tremolo.frame_next fast_engine)))
    with f_1 in HL1.
  destruct (left_sample_bound _ H4) as [Fv Uv].
  eexists _, out, _. unfold Tremolo.process. change (2 <? 1) with false.
  rewrite Hrun. split; [reflexivity|].
  split; [reflexivity|]. split; [reflexivity|]. split; [reflexivity|].
  split; [rewrite HL0, HR0; reflexivity|].
  split; [exact HL1|]. split; [rewrite HR1; vm_compute; reflexivity|].
  rewrite lt32_sv by (assumption || (split; reflexivity)).
  change (sv32 f_0_25) with (2 ^ 147). apply Z.ltb_lt. lia.
Qed.

(** With the correctly rounded sine the second frame comes out as
    [0.24999982, 0.25]. *)
Lemma stereo_channels_diverge_witness :
  exists tr' out,
    Tremolo.process libm_ref fast_engine (Some [f_0_5; f_0_5; f_0_5; f_0_5]) 2 2 =
      Some (tr', Some out)
    /\ out !! 2%nat = Some (S754_finite false 16777204 (-26))
    /\ out !! 3%nat = Some f_0_25.
Proof.
  destruct (stereo_channels_diverge libm_ref eq_refl ltac:(repeat split))
    as (tr' & out & vL & Hrun & _).
  exists tr', out. split; [exact Hrun|].
  vm_compute in Hrun. injection Hrun as _ <-. split; reflexivity.
Defined.

(** What holds of C8: with the stereo offset at 0 (as
    [setStereoPhaseDeg(0)] leaves it), a stereo buffer whose left and right
    samples agree in every frame comes out with left and right samples that
    agree in every frame, as long as the phase is in [[0, 1)] at each
    frame. *)
Theorem stereo_phase_zero_identical (libm : Libm) (tr : Tremolo.t)
    (buf : list float) (frames : nat) (channels : Z) :
  2 <= channels ->
  (2 * frames <= length buf)%nat ->
  Tremolo.stereoPhaseR_ tr = f_0 ->
  (forall k, (k < frames)%nat ->
     wrapped (Tremolo.phase_ (Nat.iter k Tremolo.frame_next tr))
     /\ Tremolo.phase_ (Nat.iter k Tremolo.frame_next tr) <> S754_zero true) ->
  (forall k, (k < frames)%nat ->
     buf !! (2 * k)%nat = buf !! (2 * k + 1)%nat) ->
  Tremolo.stereoPhaseR_ (Tremolo.setStereoPhaseDeg f_0 tr) = f_0
  /\ exists tr' out,
       Tremolo.process libm tr (Some buf) frames channels = Some (tr', Some out)
       /\ forall k, (k < frames)%nat ->
            out !! (2 * k)%nat = out !! (2 * k + 1)%nat.
Proof.
  intros Hc Hlen Hoff Hph Hbuf. split; [reflexivity|].
  destruct (process_loop_stereo libm channels frames 0 tr buf ltac:(lia)
              ltac:(lia)) as (out & Hrun & _ & _ & HL & HR).
  exists (Nat.iter frames Tremolo.frame_next tr), out.
  unfold Tremolo.process.
  destruct (Z.ltb_spec channels 1) as [?|_]; [lia|]. rewrite Hrun.
  split; [reflexivity|]. intros k Hk.
  destruct (lookup_lt_is_Some_2 buf (2 * k)%nat ltac:(lia)) as [s Hs].
  specialize (HL k s Hk). specialize (HR k s Hk).
  rewrite Nat.add_0_l in HL, HR.
  rewrite (HL Hs), (HR ltac:(rewrite <- Hbuf by exact Hk; exact Hs)).
  rewrite frame_gains_phases. cbv zeta. cbn [fst snd].
  rewrite engine_after_stereoPhase, Hoff.
  destruct (Hph k Hk) as [Hw Hnz].
  rewrite (right_phase_is_left _ Hw Hnz). reflexivity.
Qed.

(** A triangle engine at the default rate with a stereo offset of 0, on
    two stereo frames. *)
Lemma stereo_phase_zero_identical_witness :
  exists tr' out,
    Tremolo.process libm_ref
      (Tremolo.setShape Triangle (Tremolo.setStereoPhaseDeg f_0 Tremolo.init))
      (Some [f_0_5; f_0_5; f_0_25; f_0_25]) 2 2 = Some (tr', Some out)
    /\ out !! 2%nat = out !! 3%nat.
Proof.
  destruct (stereo_phase_zero_identical libm_ref
              (Tremolo.setShape Triangle
                 (Tremolo.setStereoPhaseDeg f_0 Tremolo.init))
              [f_0_5; f_0_5; f_0_25; f_0_25] 2 2)
    as (_ & tr' & out & Hrun & Heq).
  - lia.
  - cbn. lia.
  - reflexivity.
  - intros [|[|k]] Hk; try lia; vm_compute; (split; [repeat split | discriminate]).
  - intros [|[|k]] Hk; try lia; reflexivity.
  - exists tr', out. split; [exact Hrun|]. apply (Heq 1%nat). lia.
Defined.

End StereoPhase.

(** ** The guard of [Tremolo::process] *)

(** C4.  With a null buffer pointer, or a channel count below 1, [process]
    returns at once: the engine (phase, phase increment, both smoothers and
    every other field) and the buffer are the ones it was given. *)
Theorem process_null_or_no_channel_is_noop (libm : Libm) (tr : Tremolo.t)
    (interleaved : option (list float)) (frames : nat) (channels : Z) :
  interleaved = None \/ channels < 1 ->
  Tremolo.process libm tr interleaved frames channels = Some (tr, interleaved).
Proof.
  intros [-> | Hc]; [reflexivity|].
  destruct interleaved as [buf|]; [|reflexivity].
  unfold Tremolo.process.
  destruct (Z.ltb_spec channels 1) as [_|Hge]; [reflexivity | lia].
Qed.

Lemma process_null_or_no_channel_is_noop_witness :
  Tremolo.process libm_ref Tremolo.init (Some [f_0_5; f_0_25]) 2 0
  = Some (Tremolo.init, Some [f_0_5; f_0_25]).
Proof.
  apply (process_null_or_no_channel_is_noop libm_ref
           Tremolo.init (Some [f_0_5; f_0_25]) 2 0).
  right. lia.
Defined.

(** ** [Tremolo::process] with two or more channels *)

(** C10 as stated fails: with three channels and two frames the loop
    rewrites index 2, which holds the third channel's sample of frame 0. *)
Lemma third_channel_is_modified :
  ~ (forall (libm : Libm) (tr tr' : Tremolo.t) (buf out : list float)
       (frames : nat) (channels : Z) (j : nat),
       2 < channels ->
       Tremolo.process libm tr (Some buf) frames channels = Some (tr', Some out) ->
       2 <= Z.of_nat j mod channels ->
       out !! j = buf !! j).
Proof.
  intros H.
  assert (E : exists tr' out,
             Tremolo.process libm_ref
               (Tremolo.setShape Triangle Tremolo.init)
               (Some [f_0; f_0; f_5; f_0; f_0; f_5]) 2 3 = Some (tr', Some out)
             /\ out !! 2%nat = Some f_1).
  { eexists _, _. split; reflexivity. }
  destruct E as (tr' & out & E & E2).
  specialize (H _ _ _ _ _ _ 3 2%nat ltac:(lia) E ltac:(vm_compute; discriminate)).
  rewrite E2 in H. discriminate H.
Qed.

(** C10, amended.  With [channels >= 2] the buffer is indexed as
    two-channel interleaved whatever [channels] is: the call does what it
    does for [channels = 2]; it leaves every sample from index [2*frames]
    on as it was, and neither the engine nor the first [2*frames] samples
    after the call depend on those later samples. *)
Theorem process_two_or_more_channels (libm : Libm) (tr : Tremolo.t)
    (buf : list float) (frames : nat) (channels : Z) :
  2 <= channels ->
  (2 * frames <= length buf)%nat ->
  exists out,
    Tremolo.process libm tr (Some buf) frames channels =
      Some (Nat.iter frames Tremolo.frame_next tr, Some out)
    /\ Tremolo.process libm tr (Some buf) frames 2 =
         Tremolo.process libm tr (Some buf) frames channels
    /\ length out = length buf
    /\ (forall j, (2 * frames <= j)%nat -> out !! j = buf !! j)
    /\ (forall buf2,
          (2 * frames <= length buf2)%nat ->
          (forall j, (j < 2 * frames)%nat -> buf2 !! j = buf !! j) ->
          exists out2,
            Tremolo.process libm tr (Some buf2) frames channels =
              Some (Nat.iter frames Tremolo.frame_next tr, Some out2)
            /\ (forall j, (j < 2 * frames)%nat -> out2 !! j = out !! j)
            /\ (forall j, (2 * frames <= j)%nat -> out2 !! j = buf2 !! j)).
Proof.
  intros Hc Hlen.
  assert (Hrun : forall c b, 2 <= c ->
            Tremolo.process libm tr (Some b) frames c =
              '(tr', b') ← Tremolo.process_loop libm c frames 0 tr b;
              Some (tr', Some b')).
  { intros c b Hc2. unfold Tremolo.process.
    destruct (Z.ltb_spec c 1); [lia | reflexivity]. }
  destruct (process_loop_stereo libm channels frames 0 tr buf ltac:(lia)
              ltac:(lia)) as (out & Hout & Hlo & Hsame & HL & HR).
  destruct (process_loop_stereo libm 2 frames 0 tr buf ltac:(lia)
              ltac:(lia)) as (out' & Hout' & Hlo' & Hsame' & HL' & HR').
  assert (Hext : forall (o1 o2 b1 b2 : list float),
            (2 * frames <= length b1)%nat -> (2 * frames <= length b2)%nat ->
            length o1 = length b1 -> length o2 = length b2 ->
            (forall j, (j < 2 * frames)%nat -> b2 !! j = b1 !! j) ->
            (forall k s, (k < frames)%nat -> b1 !! (2 * (0 + k))%nat = Some s ->
               o1 !! (2 * (0 + k))%nat =
               Some (Tremolo.out_sample (Nat.iter k Tremolo.frame_next tr) s
                 (fst (Tremolo.frame_gains libm (Nat.iter k Tremolo.frame_next tr))))) ->
            (forall k s, (k < frames)%nat -> b1 !! (2 * (0 + k) + 1)%nat = Some s ->
               o1 !! (2 * (0 + k) + 1)%nat =
               Some (Tremolo.out_sample (Nat.iter k Tremolo.frame_next tr) s
                 (snd (Tremolo.frame_gains libm (Nat.iter k Tremolo.frame_next tr))))) ->
            (forall k s, (k < frames)%nat -> b2 !! (2 * (0 + k))%nat = Some s ->
               o2 !! (2 * (0 + k))%nat =
               Some (Tremolo.out_sample (Nat.iter k Tremolo.frame_next tr) s
                 (fst (Tremolo.frame_gains libm (Nat.iter k Tremolo.frame_next tr))))) ->
            (forall k s, (k < frames)%nat -> b2 !! (2 * (0 + k) + 1)%nat = Some s ->
               o2 !! (2 * (0 + k) + 1)%nat =
               Some (Tremolo.out_sample (Nat.iter k Tremolo.frame_next tr) s
                 (snd (Tremolo.frame_gains libm (Nat.iter k Tremolo.frame_next tr))))) ->
            forall j, (j < 2 * frames)%nat -> o2 !! j = o1 !! j).
  { intros o1 o2 b1 b2 Hl1 Hl2 Ho1 Ho2 Hagree H1L H1R H2L H2R j Hj.
    destruct (lookup_lt_is_Some_2 b1 j ltac:(lia)) as [s Hs].
    assert (Hs2 : b2 !! j = Some s) by (rewrite Hagree by lia; exact Hs).
    destruct (Nat.Even_or_Odd j) as [[k ->] | [k ->]].
    - replace (2 * k)%nat with (2 * (0 + k))%nat in * by lia.
      rewrite (H1L k s), (H2L k s) by (lia || assumption). reflexivity.
    - replace (2 * k + 1)%nat with (2 * (0 + k) + 1)%nat in * by lia.
      rewrite (H1R k s), (H2R k s) by (lia || assumption). reflexivity. }
  exists out. rewrite !Hrun by lia. rewrite Hout, Hout'. cbn [mbind option_bind].
  split; [reflexivity|]. split; [|split; [exact Hlo|split]].
  - do 3 f_equal. apply list_eq. intros j.
    destruct (Nat.lt_ge_cases j (2 * frames)) as [Hj|Hj].
    + apply (Hext out out' buf buf); auto.
    + rewrite Hsame, Hsame' by lia. reflexivity.
  - intros j Hj. apply Hsame. lia.
  - intros buf2 Hlen2 Hagree.
    destruct (process_loop_stereo libm channels frames 0 tr buf2 ltac:(lia)
                ltac:(lia)) as (out2 & Hout2 & Hlo2 & Hsame2 & HL2 & HR2).
    exists out2. rewrite Hrun, Hout2 by lia. cbn [mbind option_bind].
    split; [reflexivity|]. split.
    + apply (Hext out out2 buf buf2); auto.
    + intros j Hj. apply Hsame2. lia.
Qed.

Lemma process_two_or_more_channels_witness :
  exists out,
    Tremolo.process libm_ref (Tremolo.setShape Triangle Tremolo.init)
      (Some [f_0; f_0; f_5; f_0; f_0; f_5]) 2 3 =
      Some (Nat.iter 2 Tremolo.frame_next (Tremolo.setShape Triangle Tremolo.init),
            Some out)
    /\ out !! 4%nat = Some f_0 /\ out !! 5%nat = Some f_5.
Proof.
  destruct (process_two_or_more_channels libm_ref
              (Tremolo.setShape Triangle Tremolo.init)
              [f_0; f_0; f_5; f_0; f_0; f_5] 2 3 ltac:(lia) ltac:(cbn; lia))
    as (out & Hrun & _ & _ & Hsame & _).
  exists out. split; [exact Hrun|].
  split; apply Hsame; lia.
Defined.

(** ** [FeatureExtractor]: the window *)

Section Window.
Import FeatureExtractor.

Lemma pushSample_buf (L R : float) (fe : t) :
  buf (pushSample L R fe) =
    if (length (buf fe) <? FrameSize)%nat
    then buf fe ++ [(f_0_5 * (L + R))%f32]
    else drop 1 (buf fe ++ [(f_0_5 * (L + R))%f32]).
Proof.
  unfold pushSample. cbn [buf]. rewrite length_app. cbn [length].
  destruct (Nat.ltb_spec FrameSize (length (buf fe) + 1));
    destruct (Nat.ltb_spec (length (buf fe)) FrameSize);
    try reflexivity; lia.
Qed.

Lemma pushSample_length (L R : float) (fe : t) :
  (length (buf fe) <= FrameSize)%nat ->
  length (buf (pushSample L R fe)) = Nat.min (S (length (buf fe))) FrameSize.
Proof.
  intros Hle. rewrite pushSample_buf.
  destruct (Nat.ltb_spec (length (buf fe)) FrameSize).
  - rewrite length_app. cbn [length]. lia.
  - rewrite length_drop, length_app. cbn [length]. lia.
Qed.

Lemma apply_op_bound (fe : t) (o : op) :
  (length (buf fe) <= FrameSize)%nat ->
  (length (buf (apply_op fe o)) <= FrameSize)%nat.
Proof.
  intros Hle. destruct o; cbn [apply_op]; try assumption.
  - rewrite pushSample_length by assumption. lia.
  - cbn. lia.
Qed.

Lemma fold_apply_op_bound (ops : list op) (fe : t) :
  (length (buf fe) <= FrameSize)%nat ->
  (length (buf (fold_left apply_op ops fe)) <= FrameSize)%nat.
Proof.
  revert fe. induction ops as [|o ops IH]; intros fe Hle; cbn [fold_left].
  - assumption.
  - apply IH, apply_op_bound, Hle.
Qed.

Lemma run_bound (ops : list op) :
  (length (buf (run ops)) <= FrameSize)%nat.
Proof. apply fold_apply_op_bound. cbn. lia. Qed.

Lemma push_all_length (samples : list (float * float)) (fe : t) :
  (length (buf fe) + length samples <= FrameSize)%nat ->
  length (buf (fold_left (fun fe '(L, R) => pushSample L R fe) samples fe)) =
    (length (buf fe) + length samples)%nat.
Proof.
  revert fe. induction samples as [|[L R] samples IH]; intros fe Hle;
    cbn [fold_left length] in *.
  - lia.
  - rewrite IH; rewrite pushSample_length by lia; lia.
Qed.

(** C5.  After any sequence of operations on a fresh extractor the window
    holds at most [FrameSize = 1024] samples; [ready] is true exactly when
    it holds 1024; pushing onto a full window drops the oldest sample and
    appends the new one (first in, first out), and pushing onto a window
    that is not full only appends; after a reset followed by fewer than
    1024 pushes the extractor is not ready. *)
Theorem window_invariant (ops : list op) :
  FrameSize = 1024%nat
  /\ (length (buf (run ops)) <= FrameSize)%nat
  /\ (ready (run ops) = true <-> length (buf (run ops)) = FrameSize)
  /\ (forall L R,
        length (buf (run ops)) = FrameSize ->
        buf (pushSample L R (run ops)) =
          drop 1 (buf (run ops)) ++ [(f_0_5 * (L + R))%f32])
  /\ (forall L R,
        (length (buf (run ops)) < FrameSize)%nat ->
        buf (pushSample L R (run ops)) =
          buf (run ops) ++ [(f_0_5 * (L + R))%f32])
  /\ (forall samples : list (float * float),
        (length samples < FrameSize)%nat ->
        ready (fold_left (fun fe '(L, R) => pushSample L R fe) samples
                 (reset (run ops))) = false).
Proof.
  split; [reflexivity|]. split; [apply run_bound|]. split; [|split; [|split]].
  - unfold ready. apply Nat.eqb_eq.
  - intros L R Hfull. rewrite pushSample_buf, Hfull, Nat.ltb_irrefl.
    destruct (buf (run ops)) as [|x rest]; [discriminate Hfull|].
    reflexivity.
  - intros L R Hlt. rewrite pushSample_buf.
    apply Nat.ltb_lt in Hlt. rewrite Hlt. reflexivity.
  - intros samples Hlt. unfold ready. apply Nat.eqb_neq.
    rewrite push_all_length; cbn [reset buf length]; lia.
Qed.

End Window.

(** ** [FeatureExtractor::zcr] *)

Section ZeroCrossings.
Import FeatureExtractor.

(** The counting loop, started anywhere inside the window. *)
Lemma zcr_loop_counts (rest pre : list float) (x : float) (c : nat) :
  zcr_loop (pre ++ x :: rest) (length rest) (S (length pre)) c =
    (c + sign_changes (x :: rest))%nat.
Proof.
  revert pre x c. induction rest as [|y rest IH]; intros pre x c.
  - cbn. lia.
  - cbn [length zcr_loop].
    replace (S (length pre) - 1)%nat with (length pre) by lia.
    rewrite list_lookup_middle by reflexivity.
    replace (pre ++ x :: y :: rest) with ((pre ++ [x]) ++ y :: rest)
      by (rewrite <- app_assoc; reflexivity).
    rewrite (list_lookup_middle (pre ++ [x]) rest y (S (length pre)))
      by (rewrite length_app; cbn; lia).
    replace (S (S (length pre))) with (S (length (pre ++ [x])))
      by (rewrite length_app; cbn; lia).
    rewrite IH. cbn [sign_changes]. lia.
Qed.

Lemma zcr_loop_sign_changes (b : list float) :
  zcr_loop b (length b - 1) 1 0 = sign_changes b.
Proof.
  destruct b as [|x rest]; [reflexivity|].
  cbn [length]. rewrite Nat.sub_succ, Nat.sub_0_r.
  exact (zcr_loop_counts rest [] x 0).
Qed.

Lemma sign_changes_le (b : list float) :
  (sign_changes b <= length b - 1)%nat.
Proof.
  induction b as [|x [|y rest] IH]; cbn [sign_changes length] in *; try lia.
  destruct (crossing x y); lia.
Qed.

(** An integer below [2^24] converts to [float] exactly. *)
Lemma of_Z_exact (n : Z) :
  0 <= n < 2 ^ 24 ->
  F32.valid (F32.of_Z n) = true
  /\ finite_or_zero (F32.of_Z n) = true
  /\ sv32 (F32.of_Z n) = n * 2 ^ 149
  /\ (0 < n -> exists m e, F32.of_Z n = S754_finite false m e).
Proof.
  intros Hn. unfold F32.of_Z, F32.valid.
  split; [apply binary_normalize_valid; reflexivity|].
  destruct (Z.eq_dec n 0) as [->|Hne].
  - repeat split; try reflexivity. lia.
  - assert (Hmin : SpecFloat.emin F32.prec F32.emax <= 0) by discriminate.
    assert (Hmax : 0 + F32.prec <= F32.emax) by discriminate.
    assert (Habs : Z.abs n < 2 ^ F32.prec)
      by (change (2 ^ F32.prec) with (2 ^ 24); lia).
    destruct (binary_normalize_exact F32.prec F32.emax eq_refl eq_refl n 0
                Hmin Hne Habs Hmax) as [Hfin Hsv].
    change (0 - SpecFloat.emin F32.prec F32.emax) with 149 in Hsv.
    split; [exact Hfin|]. split; [exact Hsv|]. intros Hpos.
    destruct (binary_normalize_sign F32.prec F32.emax eq_refl eq_refl n 0)
      as [Hs _]. specialize (Hs ltac:(lia)).
    destruct (binary_normalize F32.prec F32.emax n 0 false)
      as [s|s| |s m e]; try discriminate.
    + cbn in Hsv. lia.
    + cbn in Hs. subst s. eauto.
Qed.

(** [float(c) / float(m)] lies in [[0, 1]] whenever [c <= m < 2^24]. *)
Lemma ratio_in_unit (c m : Z) :
  0 <= c <= m -> 0 < m < 2 ^ 24 ->
  (f_0 <=? F32.of_Z c / F32.of_Z m)%f32 = true
  /\ (F32.of_Z c / F32.of_Z m <=? f_1)%f32 = true.
Proof.
  intros Hc Hm.
  destruct (of_Z_exact c ltac:(lia)) as (Vc & Fc & Sc & _).
  destruct (of_Z_exact m ltac:(lia)) as (Vm & Fm & Sm & Hmf).
  destruct (Hmf ltac:(lia)) as (mm & em & Em).
  unfold F32.valid in *.
  pose proof (SFdiv_valid F32.prec F32.emax eq_refl _ _ Vc Vm) as Vq.
  assert (P149 : 0 < 2 ^ 149) by reflexivity.
  destruct (SFdiv_upper F32.prec F32.emax eq_refl eq_refl
              (F32.of_Z c) (F32.of_Z m) 8388608 (-23) Vc Vm Fc
              ltac:(eauto) eq_refl) as [Fq Uq].
  { rewrite Sc, Sm.
    change (SpecFloat.emin F32.prec F32.emax) with (-149).
    change (- -149) with 149. change (-23 - -149) with 126.
    change (Z.pos 8388608 * 2 ^ 126) with (2 ^ 149).
    rewrite !Z.abs_eq by lia. nia. }
  assert (Nq : 0 <= sv32 (F32.of_Z c / F32.of_Z m)%f32).
  { apply (SFdiv_nonneg F32.prec F32.emax eq_refl); auto.
    - eauto.
    - rewrite Sc. lia. }
  unfold F32.le, F32.div in *.
  rewrite !(SFleb_sv F32.prec F32.emax eq_refl) by (auto || reflexivity).
  split; apply Z.leb_le.
  - exact Nq.
  - change (sv32 f_1) with (8388608 * 2 ^ (-23 - SpecFloat.emin F32.prec F32.emax)).
    rewrite Z.abs_eq in Uq by exact Nq. exact Uq.
Qed.

(** C6.  For a window of at most [FrameSize] samples (every window the
    extractor can hold), [zcr] is [0] when the window has fewer than two
    samples and otherwise the number of adjacent pairs [(a, b)] with
    [a >= 0 > b] or [a < 0 <= b] (so a zero counts as non-negative),
    divided in [float] by the number [length - 1] of adjacent pairs; the
    result lies in [[0, 1]]. *)
Theorem zcr_counts_sign_changes (fe : t) :
  (length (buf fe) <= FrameSize)%nat ->
  zcr fe =
    (if (length (buf fe) <? 2)%nat then f_0
     else (F32.of_Z (Z.of_nat (sign_changes (buf fe)))
           / F32.of_Z (Z.of_nat (length (buf fe) - 1)))%f32)
  /\ (forall a b : float,
        crossing a b = (((f_0 <=? a) && (b <? f_0))
                        || ((a <? f_0) && (f_0 <=? b)))%f32)
  /\ (f_0 <=? zcr fe)%f32 = true
  /\ (zcr fe <=? f_1)%f32 = true.
Proof.
  intros Hlen.
  assert (Hz : zcr fe =
    (if (length (buf fe) <? 2)%nat then f_0
     else (F32.of_Z (Z.of_nat (sign_changes (buf fe)))
           / F32.of_Z (Z.of_nat (length (buf fe) - 1)))%f32)).
  { unfold zcr. rewrite zcr_loop_sign_changes. reflexivity. }
  split; [exact Hz|]. split; [reflexivity|].
  rewrite Hz. destruct (Nat.ltb_spec (length (buf fe)) 2) as [Hlt|Hge].
  - split; reflexivity.
  - pose proof (sign_changes_le (buf fe)).
    replace (Z.of_nat (length (buf fe) - 1)) with (Z.of_nat (length (buf fe)) - 1)
      by lia.
    apply ratio_in_unit; [lia|].
    unfold FrameSize in Hlen. lia.
Qed.

Lemma zcr_counts_sign_changes_witness :
  zcr {| buf := [f_1; f_neg1; f_0; f_neg1; F32.nan; f_1] |} = F32.of_ratio 3 5
  /\ (f_0 <=? zcr {| buf := [f_1; f_neg1; f_0; f_neg1; F32.nan; f_1] |})%f32
     = true.
Proof.
  destruct (zcr_counts_sign_changes
              {| buf := [f_1; f_neg1; f_0; f_neg1; F32.nan; f_1] |})
    as (Hz & _ & Hlo & _).
  - unfold FrameSize. cbn [buf length]. lia.
  - split; [rewrite Hz; reflexivity | exact Hlo].
Defined.

End ZeroCrossings.

(** ** Tempo sync ([main.cpp]) *)

Section TempoSync.
Import Main.

Lemma beats_unrecognised (div : string) :
  div <> "1"%string -> div <> "1/2"%string -> div <> "1/4"%string ->
  div <> "1/8"%string -> div <> "1/16"%string ->
  beats !! div = None.
Proof.
  intros H1 H2 H4 H8 H16. unfold beats.
  rewrite !lookup_insert_ne by congruence.
  apply lookup_singleton_ne. congruence.
Qed.

Lemma rateSync_parsed (stof : string -> option float) (arg : string)
    (bpm : float) (div : string) (trem : Tremolo.t) :
  parseRateSync stof arg = Some (bpm, div) ->
  rateSync stof arg trem = syncRate bpm div trem.
Proof.
  intros Hparse. unfold rateSync. rewrite Hparse.
  destruct (String.eqb arg "") eqn:E; [|reflexivity].
  apply String.eqb_eq in E. subst arg. discriminate Hparse.
Qed.

(** C9.  For a [--rate-sync] argument that parses to a tempo [bpm] and a
    division [div]: [divisionToHz] maps the divisions 1, 1/2, 1/4, 1/8 and
    1/16 to [(bpm / 60) / beatsPerCycle] with [beatsPerCycle] 4, 2, 1, 0.5
    and 0.25; when the rate [hz] so obtained is positive, the tempo-sync
    step of [main] is [setRateHz(hz)]: the rate of the engine becomes
    [max(0.0001, hz)] and nothing else changes; for any other division
    [divisionToHz] answers [-1]; and whenever the rate obtained is not
    positive (an unrecognised division, a tempo that is not positive) the
    engine, its rate included, stays as it was. *)
Theorem tempo_sync_mapping (stof : string -> option float) (bpm : float)
    (div arg : string) (trem : Tremolo.t) :
  parseRateSync stof arg = Some (bpm, div) ->
  (forall b : float,
     divisionToHz b "1" = (b / f_60 / f_4)%f32
     /\ divisionToHz b "1/2" = (b / f_60 / f_2)%f32
     /\ divisionToHz b "1/4" = (b / f_60 / f_1)%f32
     /\ divisionToHz b "1/8" = (b / f_60 / f_0_5)%f32
     /\ divisionToHz b "1/16" = (b / f_60 / f_0_25)%f32)
  /\ ((divisionToHz bpm div >? f_0)%f32 = true ->
      rateSync stof arg trem = Tremolo.setRateHz (divisionToHz bpm div) trem
      /\ Tremolo.rateHz_ (rateSync stof arg trem)
         = std_max f_0_0001 (divisionToHz bpm div)
      /\ Tremolo.depth_ (rateSync stof arg trem) = Tremolo.depth_ trem
      /\ Tremolo.phase_ (rateSync stof arg trem) = Tremolo.phase_ trem
      /\ Tremolo.rateSm_ (rateSync stof arg trem) = Tremolo.rateSm_ trem)
  /\ (div <> "1"%string -> div <> "1/2"%string -> div <> "1/4"%string ->
      div <> "1/8"%string -> div <> "1/16"%string ->
      divisionToHz bpm div = f_neg1
      /\ rateSync stof arg trem = trem
      /\ Tremolo.rateHz_ (rateSync stof arg trem) = Tremolo.rateHz_ trem)
  /\ ((divisionToHz bpm div >? f_0)%f32 = false ->
      rateSync stof arg trem = trem).
Proof.
  intros Hparse.
  rewrite (rateSync_parsed stof arg bpm div trem Hparse).
  split; [intros b; repeat split; reflexivity|].
  split; [|split].
  - intros Hpos. unfold syncRate. rewrite Hpos. repeat split.
  - intros H1 H2 H4 H8 H16.
    assert (Hhz : divisionToHz bpm div = f_neg1).
    { unfold divisionToHz. rewrite beats_unrecognised by assumption.
      reflexivity. }
    split; [exact Hhz|].
    unfold syncRate. rewrite Hhz. split; reflexivity.
  - intros Hneg. unfold syncRate. rewrite Hneg. reflexivity.
Qed.

(** ["bpm:120,div:1/8"] sets the rate to 4 Hz; ["bpm:120,div:1/3"] is
    ignored. *)
Lemma tempo_sync_mapping_witness :
  Tremolo.rateHz_
    (rateSync (fun _ => Some (F32.of_Z 120)) "bpm:120,div:1/8" Tremolo.init)
  = f_4
  /\ rateSync (fun _ => Some (F32.of_Z 120)) "bpm:120,div:1/3" Tremolo.init
     = Tremolo.init.
Proof.
  split.
  - destruct (tempo_sync_mapping (fun _ => Some (F32.of_Z 120))
                (F32.of_Z 120) "1/8" "bpm:120,div:1/8" Tremolo.init eq_refl)
      as (_ & H & _).
    destruct (H eq_refl) as (_ & Hr & _). rewrite Hr. reflexivity.
  - destruct (tempo_sync_mapping (fun _ => Some (F32.of_Z 120))
                (F32.of_Z 120) "1/3" "bpm:120,div:1/3" Tremolo.init eq_refl)
      as (_ & _ & H & _).
    destruct H as (_ & Hr & _); try discriminate. exact Hr.
Defined.

End TempoSync.

(** * Further properties of the program *)

Section Clamps.

Lemma SFltb_SFleb (x y : spec_float) : SFltb x y = true -> SFleb x y = true.
Proof.
  unfold SFltb, SFleb. destruct (SFcompare x y) as [[| |]|]; congruence.
Qed.

(** [clamp11] answers in [[-1, 1]] whatever it is given; a NaN gives 1. *)
Lemma clamp11_clamped (x : float) : clamped (clamp11 x).
Proof.
  unfold clamped, clamp11, std_min, std_max.
  destruct (x <? f_1)%f32 eqn:H1.
  - destruct (f_neg1 <? x)%f32 eqn:H2.
    + split; apply SFltb_SFleb; assumption.
    + split; reflexivity.
  - split; reflexivity.
Qed.

(** [clamp01] answers in [[0, 1]] whatever it is given; a NaN gives 1. *)
Lemma clamp01_in_unit (x : float) : in_unit (clamp01 x).
Proof.
  unfold in_unit, clamp01, std_min, std_max.
  destruct (x <? f_1)%f32 eqn:H1.
  - destruct (f_0 <? x)%f32 eqn:H2.
    + split; apply SFltb_SFleb; assumption.
    + split; reflexivity.
  - split; reflexivity.
Qed.

Lemma clamp01_nan : clamp01 F32.nan = f_1.
Proof. reflexivity. Qed.


End Clamps.

Section ProcessRange.

Lemma frame_next_parameters (tr : Tremolo.t) :
  parameters (Tremolo.frame_next tr) = parameters tr.
Proof.
  unfold parameters, Tremolo.frame_next.
  destruct (OnePoleSmoother.process (Tremolo.rateHz_ tr) (Tremolo.rateSm_ tr)).
  reflexivity.
Qed.

Lemma engine_after_parameters (n : nat) (tr : Tremolo.t) :
  parameters (Nat.iter n Tremolo.frame_next tr) = parameters tr.
Proof.
  induction n as [|n IH]; [reflexivity|].
  rewrite Nat.iter_succ, frame_next_parameters. exact IH.
Qed.

Lemma out_sample_clamped (tr : Tremolo.t) (s g : float) :
  clamped (Tremolo.out_sample tr s g).
Proof. apply clamp11_clamped. Qed.

Lemma process_clamps (libm : Libm) (tr : Tremolo.t)
    (buf : list float) (frames : nat) (channels : Z) :
  channels = 1 \/ channels = 2 ->
  (Z.to_nat channels * frames <= length buf)%nat ->
  exists tr' out,
    Tremolo.process libm tr (Some buf) frames channels = Some (tr', Some out)
    /\ length out = length buf
    /\ (forall j v, (j < Z.to_nat channels * frames)%nat ->
          out !! j = Some v -> clamped v)
    /\ (forall j, (Z.to_nat channels * frames <= j)%nat ->
          out !! j = buf !! j)
    /\ parameters tr' = parameters tr.
Proof.
  intros [-> | ->] Hlen.
  - change (Z.to_nat 1) with 1%nat in *.
    destruct (process_loop_mono libm frames 0 tr buf ltac:(lia))
      as (out & Hrun & Hlo & Hsame & Hout).
    exists (Nat.iter frames Tremolo.frame_next tr), out.
    unfold Tremolo.process. change (1 <? 1) with false. cbv iota.
    rewrite Hrun. split; [reflexivity|]. split; [exact Hlo|].
    split; [|split].
    + intros j v Hj Hv.
      destruct (lookup_lt_is_Some_2 buf j ltac:(lia)) as [s Hs].
      specialize (Hout j s ltac:(lia)). rewrite Nat.add_0_l in Hout.
      rewrite (Hout Hs) in Hv. injection Hv as <-. apply out_sample_clamped.
    + intros j Hj. apply Hsame. lia.
    + apply engine_after_parameters.
  - change (Z.to_nat 2) with 2%nat in *.
    destruct (process_loop_stereo libm 2 frames 0 tr buf ltac:(lia)
                ltac:(lia)) as (out & Hrun & Hlo & Hsame & HL & HR).
    exists (Nat.iter frames Tremolo.frame_next tr), out.
    unfold Tremolo.process. change (2 <? 1) with false. cbv iota.
    rewrite Hrun. split; [reflexivity|]. split; [exact Hlo|].
    split; [|split].
    + intros j v Hj Hv.
      destruct (lookup_lt_is_Some_2 buf j ltac:(lia)) as [s Hs].
      destruct (Nat.Even_or_Odd j) as [[k ->]|[k ->]].
      * specialize (HL k s ltac:(lia)). rewrite Nat.add_0_l in HL.
        rewrite (HL Hs) in Hv. injection Hv as <-. apply out_sample_clamped.
      * specialize (HR k s ltac:(lia)). rewrite Nat.add_0_l in HR.
        rewrite (HR Hs) in Hv. injection Hv as <-. apply out_sample_clamped.
    + intros j Hj. apply Hsame. lia.
    + apply engine_after_parameters.
Qed.

(** Every sample that [process] writes is in [[-1, 1]], whatever the engine
    and the input are (infinities and NaNs included): on a buffer that
    holds the [frames] frames, a mono or stereo call returns, keeps the
    length of the buffer, leaves the samples after the last frame as they
    were, writes only values in [[-1, 1]] into the frames, and changes none
    of the parameters set through the setters. *)
Theorem process_output_in_range (libm : Libm) (tr : Tremolo.t)
    (buf : list float) (frames : nat) (channels : Z) :
  channels = 1 \/ channels = 2 ->
  (Z.to_nat channels * frames <= length buf)%nat ->
  exists tr' out,
    Tremolo.process libm tr (Some buf) frames channels = Some (tr', Some out)
    /\ length out = length buf
    /\ (forall j v, (j < Z.to_nat channels * frames)%nat ->
          out !! j = Some v -> clamped v)
    /\ (forall j, (Z.to_nat channels * frames <= j)%nat ->
          out !! j = buf !! j)
    /\ parameters tr' = parameters tr.
Proof. exact (process_clamps libm tr buf frames channels). Qed.

(** A default engine on one stereo frame made of a NaN and an infinity. *)
Lemma process_output_in_range_witness :
  exists tr' out,
    Tremolo.process libm_ref Tremolo.init
      (Some [F32.nan; F32.infinity; f_2]) 1 2 = Some (tr', Some out)
    /\ length out = 3%nat
    /\ (forall j v, (j < 2)%nat -> out !! j = Some v -> clamped v)
    /\ (forall j, (2 <= j)%nat -> out !! j = [F32.nan; F32.infinity; f_2] !! j)
    /\ parameters tr' = parameters Tremolo.init.
Proof.
  apply (process_output_in_range libm_ref Tremolo.init
           [F32.nan; F32.infinity; f_2] 1 2).
  - right. reflexivity.
  - cbn. lia.
Defined.

End ProcessRange.

Section Blocks.

Lemma engine_after_add (n m : nat) (tr : Tremolo.t) :
  Nat.iter (n + m) Tremolo.frame_next tr =
    Nat.iter m Tremolo.frame_next (Nat.iter n Tremolo.frame_next tr).
Proof. rewrite Nat.add_comm. apply Nat.iter_add. Qed.

Lemma process_append (libm : Libm) (tr : Tremolo.t)
    (b1 b2 : list float) (n m : nat) (channels : Z) :
  channels = 1 \/ channels = 2 ->
  length b1 = (Z.to_nat channels * n)%nat ->
  (Z.to_nat channels * m <= length b2)%nat ->
  exists o1 o2,
    Tremolo.process libm tr (Some b1) n channels =
      Some (Nat.iter n Tremolo.frame_next tr, Some o1)
    /\ Tremolo.process libm (Nat.iter n Tremolo.frame_next tr) (Some b2) m
         channels = Some (Nat.iter (n + m) Tremolo.frame_next tr, Some o2)
    /\ Tremolo.process libm tr (Some (b1 ++ b2)) (n + m) channels =
         Some (Nat.iter (n + m) Tremolo.frame_next tr, Some (o1 ++ o2))
    /\ length o1 = length b1 /\ length o2 = length b2.
Proof.
  intros [-> | ->] H1 H2.
  - change (Z.to_nat 1) with 1%nat in *.
    destruct (process_loop_mono libm n 0 tr b1 ltac:(lia))
      as (o1 & R1 & L1 & _ & O1).
    destruct (process_loop_mono libm m 0 (Nat.iter n Tremolo.frame_next tr) b2
                ltac:(lia)) as (o2 & R2 & L2 & S2 & O2).
    destruct (process_loop_mono libm (n + m) 0 tr (b1 ++ b2)
                ltac:(rewrite length_app; lia)) as (o & R & L & S & O).
    exists o1, o2.
    unfold Tremolo.process. change (1 <? 1) with false. cbv iota.
    rewrite R1, R2, R, engine_after_add. cbn [mbind option_bind].
    split; [reflexivity|]. split; [reflexivity|].
    split; [|split; assumption].
    do 3 f_equal. apply list_eq. intros j.
    destruct (Nat.lt_ge_cases j n) as [Hj|Hj].
    + rewrite lookup_app_l by lia.
      destruct (lookup_lt_is_Some_2 b1 j ltac:(lia)) as [s Hs].
      specialize (O j s ltac:(lia)). specialize (O1 j s Hj).
      rewrite Nat.add_0_l in O, O1.
      rewrite O1 by exact Hs. apply O. rewrite lookup_app_l by lia. exact Hs.
    + rewrite lookup_app_r by lia. rewrite L1, H1, Nat.mul_1_l.
      destruct (Nat.lt_ge_cases (j - n) m) as [Hm|Hm].
      * destruct (lookup_lt_is_Some_2 b2 (j - n)%nat ltac:(lia)) as [s Hs].
        specialize (O j s ltac:(lia)). specialize (O2 (j - n)%nat s Hm).
        rewrite Nat.add_0_l in O, O2. rewrite O2 by exact Hs.
        rewrite O.
        -- rewrite <- engine_after_add.
           replace (n + (j - n))%nat with j by lia. reflexivity.
        -- rewrite lookup_app_r by lia. rewrite H1, Nat.mul_1_l. exact Hs.
      * rewrite S by lia. rewrite S2 by lia.
        rewrite lookup_app_r by lia. rewrite H1, Nat.mul_1_l. reflexivity.
  - change (Z.to_nat 2) with 2%nat in *.
    destruct (process_loop_stereo libm 2 n 0 tr b1 ltac:(lia) ltac:(lia))
      as (o1 & R1 & L1 & _ & OL1 & OR1).
    destruct (process_loop_stereo libm 2 m 0
                (Nat.iter n Tremolo.frame_next tr) b2 ltac:(lia) ltac:(lia))
      as (o2 & R2 & L2 & S2 & OL2 & OR2).
    destruct (process_loop_stereo libm 2 (n + m) 0 tr (b1 ++ b2) ltac:(lia)
                ltac:(rewrite length_app; lia)) as (o & R & L & S & OL & OR).
    exists o1, o2.
    unfold Tremolo.process. change (2 <? 1) with false. cbv iota.
    rewrite R1, R2, R, engine_after_add. cbn [mbind option_bind].
    split; [reflexivity|]. split; [reflexivity|].
    split; [|split; assumption].
    do 3 f_equal. apply list_eq. intros j.
    destruct (Nat.lt_ge_cases j (2 * n)) as [Hj|Hj].
    + rewrite lookup_app_l by lia.
      destruct (lookup_lt_is_Some_2 b1 j ltac:(lia)) as [s Hs].
      assert (Hs' : (b1 ++ b2) !! j = Some s)
        by (rewrite lookup_app_l by lia; exact Hs).
      destruct (Nat.Even_or_Odd j) as [[k ->]|[k ->]].
      * specialize (OL k s ltac:(lia)). specialize (OL1 k s ltac:(lia)).
        rewrite Nat.add_0_l in OL, OL1.
        rewrite OL1 by exact Hs. apply OL. exact Hs'.
      * specialize (OR k s ltac:(lia)). specialize (OR1 k s ltac:(lia)).
        rewrite Nat.add_0_l in OR, OR1.
        rewrite OR1 by exact Hs. apply OR. exact Hs'.
    + rewrite lookup_app_r by lia. rewrite L1, H1.
      destruct (Nat.lt_ge_cases (j - 2 * n) (2 * m)) as [Hm|Hm].
      * destruct (lookup_lt_is_Some_2 b2 (j - 2 * n)%nat ltac:(lia)) as [s Hs].
        assert (Hs' : (b1 ++ b2) !! j = Some s)
          by (rewrite lookup_app_r by lia; rewrite H1; exact Hs).
        destruct (Nat.Even_or_Odd (j - 2 * n)) as [[k Hk]|[k Hk]].
        -- rewrite Hk in Hs |- *.
           specialize (OL2 k s ltac:(lia)). rewrite Nat.add_0_l in OL2.
           rewrite OL2 by exact Hs.
           specialize (OL (n + k)%nat s ltac:(lia)). rewrite Nat.add_0_l in OL.
           replace (2 * (n + k))%nat with j in OL by lia.
           rewrite OL by exact Hs'. rewrite <- engine_after_add. reflexivity.
        -- rewrite Hk in Hs |- *.
           specialize (OR2 k s ltac:(lia)). rewrite Nat.add_0_l in OR2.
           rewrite OR2 by exact Hs.
           specialize (OR (n + k)%nat s ltac:(lia)). rewrite Nat.add_0_l in OR.
           replace (2 * (n + k) + 1)%nat with j in OR by lia.
           rewrite OR by exact Hs'. rewrite <- engine_after_add. reflexivity.
      * rewrite S by lia. rewrite S2 by lia.
        rewrite lookup_app_r by lia. rewrite H1. reflexivity.
Qed.

(** Processing a buffer in two blocks is processing it in one call, for a
    mono or a stereo buffer: the engine after the first block carries the
    phase and the smoother states into the second. *)
Theorem process_in_blocks (libm : Libm) (tr : Tremolo.t)
    (b1 b2 : list float) (n m : nat) (channels : Z) :
  channels = 1 \/ channels = 2 ->
  length b1 = (Z.to_nat channels * n)%nat ->
  (Z.to_nat channels * m <= length b2)%nat ->
  exists tr1 o1 tr2 o2,
    Tremolo.process libm tr (Some b1) n channels = Some (tr1, Some o1)
    /\ Tremolo.process libm tr1 (Some b2) m channels = Some (tr2, Some o2)
    /\ Tremolo.process libm tr (Some (b1 ++ b2)) (n + m) channels =
         Some (tr2, Some (o1 ++ o2)).
Proof.
  intros Hc H1 H2.
  destruct (process_append libm tr b1 b2 n m channels Hc H1 H2)
    as (o1 & o2 & R1 & R2 & R & _).
  exists (Nat.iter n Tremolo.frame_next tr), o1,
    (Nat.iter (n + m) Tremolo.frame_next tr), o2.
  split; [exact R1|]. split; [exact R2|exact R].
Qed.

(** A default engine on a stereo buffer of three frames, cut after the
    first. *)
Lemma process_in_blocks_witness :
  exists tr1 o1 tr2 o2,
    Tremolo.process libm_ref Tremolo.init (Some [f_0_5; f_0_25]) 1 2 =
      Some (tr1, Some o1)
    /\ Tremolo.process libm_ref tr1 (Some [f_1; f_neg1; f_0_5; f_0]) 2 2 =
         Some (tr2, Some o2)
    /\ Tremolo.process libm_ref Tremolo.init
         (Some ([f_0_5; f_0_25] ++ [f_1; f_neg1; f_0_5; f_0])) (1 + 2) 2 =
         Some (tr2, Some (o1 ++ o2)).
Proof.
  apply (process_in_blocks libm_ref Tremolo.init [f_0_5; f_0_25]
           [f_1; f_neg1; f_0_5; f_0] 1 2 2).
  - right. reflexivity.
  - reflexivity.
  - cbn. lia.
Defined.

End Blocks.

Section Setters.



(** [std::max(lo, std::min(hi, x))] is between the bounds for every [x]. *)
Lemma clamp_range (lo hi x : float) :
  finite32 lo -> finite32 hi -> sv32 lo <= sv32 hi -> F32.valid x = true ->
  finite32 (std_max lo (std_min hi x))
  /\ sv32 lo <= sv32 (std_max lo (std_min hi x)) <= sv32 hi.
Proof.
  intros Fl Fh Hlh V. unfold std_min, std_max.
  destruct (x <? hi)%f32 eqn:H1.
  - destruct (lo <? x)%f32 eqn:H2.
    + assert (Fx : finite32 x).
      { apply (finite32_between lo x hi); try assumption;
          apply SFltb_SFleb; assumption. }
      rewrite (lt32_sv x hi Fx Fh) in H1. rewrite (lt32_sv lo x Fl Fx) in H2.
      apply Z.ltb_lt in H1, H2. split; [exact Fx|lia].
    + split; [exact Fl|lia].
  - destruct (lo <? hi)%f32; (split; [assumption|lia]).
Qed.

Lemma div32_nonneg_bound (b x y : float) :
  finite32 b -> 0 < sv32 b -> finite32 x -> finite32 y ->
  0 <= sv32 x -> 0 < sv32 y ->
  sv32 x * 2 ^ 149 <= sv32 b * sv32 y ->
  finite32 (x / y)%f32 /\ 0 <= sv32 (x / y)%f32 <= sv32 b.
Proof.
  intros Fb Hb Fx Fy Hx Hy Hle.
  destruct (positive_bound b Fb Hb) as (mh & eh & -> & Bh & Sb).
  destruct (positive_bound y Fy Hy) as (my & ey & -> & By & Sy).
  destruct Fx as [Vx Fx].
  pose proof (proj1 Fy) as Vy. unfold F32.valid in *.
  pose proof (SFdiv_valid F32.prec F32.emax eq_refl _ _ Vx Vy) as Vq.
  destruct (SFdiv_upper F32.prec F32.emax eq_refl eq_refl
              x (S754_finite false my ey) mh eh Vx Vy Fx
              ltac:(eauto) Bh) as [Fq Uq].
  { rewrite <- Sb. change (- SpecFloat.emin F32.prec F32.emax) with 149.
    rewrite !Z.abs_eq by lia. exact Hle. }
  assert (Nq : 0 <= sv32 (x / S754_finite false my ey)%f32).
  { apply (SFdiv_nonneg F32.prec F32.emax eq_refl); eauto. }
  split; [split; assumption|]. split; [exact Nq|].
  rewrite Sb. unfold F32.div. rewrite Z.abs_eq in Uq by exact Nq. exact Uq.
Qed.

Lemma stereoPhase_range (deg : float) (tr : Tremolo.t) :
  F32.valid deg = true ->
  in_range f_0 f_0_5 (Tremolo.stereoPhaseR_ (Tremolo.setStereoPhaseDeg deg tr)).
Proof.
  intros V. unfold Tremolo.setStereoPhaseDeg. cbn [Tremolo.stereoPhaseR_].
  assert (F0 : finite32 f_0) by (split; reflexivity).
  assert (F180 : finite32 f_180) by (split; reflexivity).
  assert (F360 : finite32 f_360) by (split; reflexivity).
  assert (Fh : finite32 f_0_5) by (split; reflexivity).
  destruct (clamp_range f_0 f_180 deg F0 F180 ltac:(vm_compute; discriminate) V)
    as [Fd Rd].
  set (d := std_max f_0 (std_min f_180 deg)) in *.
  change (sv32 f_0) with 0 in Rd. change (sv32 f_180) with (180 * 2 ^ 149) in Rd.
  destruct (div32_nonneg_bound f_0_5 d f_360 Fh eq_refl Fd F360 ltac:(lia)
              eq_refl) as [Fq Rq].
  { change (sv32 f_0_5) with (2 ^ 148). change (sv32 f_360) with (360 * 2 ^ 149).
    assert (0 < 2 ^ 149) by reflexivity.
    replace (2 ^ 148 * (360 * 2 ^ 149)) with (180 * 2 ^ 149 * 2 ^ 149)
      by (change (2 ^ 149) with (2 * 2 ^ 148); ring).
    nia. }
  split; [exact (proj1 Fq)|].
  rewrite (le32_sv _ _ F0 Fq), (le32_sv _ _ Fq Fh).
  change (sv32 f_0) with 0. split; apply Z.leb_le; lia.
Qed.

End Setters.

Section Invariant.

Lemma process_frame_engine (libm : Libm) (channels : Z) (i : nat)
    (tr tr' : Tremolo.t) (buf out : list float) :
  Tremolo.process_frame libm channels i tr buf = Some (tr', out) ->
  tr' = Tremolo.frame_next tr.
Proof.
  unfold Tremolo.process_frame, Tremolo.frame_next.
  destruct (OnePoleSmoother.process (Tremolo.rateHz_ tr) (Tremolo.rateSm_ tr))
    as [rsm rateNow].
  destruct (OnePoleSmoother.process (Tremolo.depth_ tr) (Tremolo.depthSm_ tr))
    as [dsm dNow] eqn:Hd.
  cbn [fst].
  destruct (channels =? 1).
  - destruct (buf !! i); cbn [mbind option_bind]; [|discriminate].
    intros H. injection H as <- _. reflexivity.
  - destruct (buf !! (i * 2 + 0)%nat); cbn [mbind option_bind]; [|discriminate].
    destruct (buf !! (i * 2 + 1)%nat); cbn [mbind option_bind]; [|discriminate].
    intros H. injection H as <- _. reflexivity.
Qed.

Lemma process_loop_engine (libm : Libm) (channels : Z) (n i : nat)
    (tr tr' : Tremolo.t) (buf out : list float) :
  Tremolo.process_loop libm channels n i tr buf = Some (tr', out) ->
  tr' = Nat.iter n Tremolo.frame_next tr.
Proof.
  revert i tr buf. induction n as [|n IH]; intros i tr buf.
  - cbn. intros H. injection H as <- _. reflexivity.
  - cbn [Tremolo.process_loop].
    destruct (Tremolo.process_frame libm channels i tr buf) as [[tr1 b1]|] eqn:Hf;
      cbn [mbind option_bind]; [|discriminate].
    apply process_frame_engine in Hf. subst tr1. intros H.
    apply IH in H. rewrite H. symmetry. apply Nat.iter_succ_r.
Qed.

(** [process] leaves the engine advanced by some number of frames. *)
Lemma process_engine (libm : Libm) (tr tr' : Tremolo.t)
    (interleaved out : option (list float)) (frames : nat) (channels : Z) :
  Tremolo.process libm tr interleaved frames channels = Some (tr', out) ->
  exists n, tr' = Nat.iter n Tremolo.frame_next tr.
Proof.
  unfold Tremolo.process. destruct interleaved as [buf|].
  - destruct (channels <? 1).
    + intros H. injection H as <- _. exists 0%nat. reflexivity.
    + destruct (Tremolo.process_loop libm channels frames 0 tr buf)
        as [[tr1 b1]|] eqn:Hl; cbn [mbind option_bind]; [|discriminate].
      intros H. injection H as <- _. exists frames.
      exact (process_loop_engine _ _ _ _ _ _ _ _ Hl).
  - intros H. injection H as <- _. exists 0%nat. reflexivity.
Qed.

Lemma frame_next_ok (libm : Libm) (tr : Tremolo.t) :
  engine_ok libm tr -> engine_ok libm (Tremolo.frame_next tr).
Proof.
  unfold engine_ok, Tremolo.frame_next, OnePoleSmoother.process.
  cbn. tauto.
Qed.

Lemma setSampleRate_ok (libm : Libm) (fs : double) (tr : Tremolo.t) :
  engine_ok libm tr -> engine_ok libm (Tremolo.setSampleRate libm fs tr).
Proof.
  unfold engine_ok. intros (Hsr & Hd & Hw & Hr & Hp & _).
  unfold Tremolo.setSampleRate. cbn -[F64.gt d_48000 f_0_01 f_1e_6 F32.gt].
  assert (Hpos : F64.gt (if F64.gt fs F64.zero then fs else d_48000) F64.zero
                 = true).
  { destruct (F64.gt fs F64.zero) eqn:E; [exact E|reflexivity]. }
  rewrite Hpos. change (F32.gt f_0_01 f_1e_6) with true. cbv iota.
  split; [reflexivity|]. split; [exact Hd|]. split; [exact Hw|].
  split; [exact Hr|]. split; [exact Hp|].
  repeat split; try reflexivity. right. reflexivity.
Qed.

(** The engine invariant: after any sequence of calls of the public member
    functions on a default-constructed engine, the sample rate is positive,
    depth and wet mix are in [[0, 1]], the rate is at least [0.0001] Hz, the
    stereo offset is in [[0, 0.5]] cycles, and the two smoothers run at the
    engine's sample rate with the time constant [0.01] s and one
    coefficient, which is 0 (no smoothing) or [exp(-1/(0.01*sr))]. *)
Theorem engine_invariant (libm : Libm) (calls : list call) (tr : Tremolo.t) :
  Forall valid_call calls ->
  run_calls libm calls = Some tr ->
  engine_ok libm tr.
Proof.
  unfold run_calls. revert tr.
  induction calls as [|c calls IH] using rev_ind; intros tr Hv.
  - cbn. intros H. injection H as <-.
    unfold engine_ok. cbn.
    repeat split; try reflexivity. left. reflexivity.
  - rewrite foldl_snoc.
    apply Forall_app in Hv. destruct Hv as [Hv Hc].
    apply Forall_cons_1 in Hc. destruct Hc as [Hc _].
    destruct (foldl _ (Some Tremolo.init) calls) as [tr0|];
      cbn [mbind option_bind]; [|discriminate].
    specialize (IH tr0 Hv eq_refl).
    destruct c as [fs|d|r|w|deg|s|b f ch]; cbn [apply_call].
    + intros H. injection H as <-. apply setSampleRate_ok. exact IH.
    + intros H. injection H as <-.
      destruct IH as (H1 & H2 & H3). split; [exact H1|].
      split; [apply clamp01_in_unit|exact H3].
    + intros H. injection H as <-.
      destruct IH as (H1 & H2 & H3 & H4 & H5). split; [exact H1|].
      split; [exact H2|]. split; [exact H3|]. split; [|exact H5].
      cbn [Tremolo.setRateHz Tremolo.rateHz_]. unfold std_max.
      destruct (f_0_0001 <? r)%f32 eqn:E; [|reflexivity].
      apply SFltb_SFleb. exact E.
    + intros H. injection H as <-.
      destruct IH as (H1 & H2 & H3 & H4). split; [exact H1|].
      split; [exact H2|]. split; [apply clamp01_in_unit|exact H4].
    + intros H. injection H as <-.
      destruct IH as (H1 & H2 & H3 & H4 & H5 & H6). split; [exact H1|].
      split; [exact H2|]. split; [exact H3|]. split; [exact H4|].
      split; [|exact H6]. apply stereoPhase_range. exact Hc.
    + intros H. injection H as <-. exact IH.
    + destruct (Tremolo.process libm tr0 b f ch) as [[tr1 o]|] eqn:Hp;
        cbn [fmap option_fmap option_map fst]; [|discriminate].
      intros H. injection H as <-.
      destruct (process_engine _ _ _ _ _ _ _ Hp) as [n ->].
      clear Hp. induction n as [|n IHn]; [exact IH|].
      rewrite Nat.iter_succ. apply frame_next_ok. exact IHn.
Qed.

(** An engine configured for 44.1 kHz, with a depth above 1 and a NaN as
    the stereo offset, after processing a stereo frame. *)
Lemma engine_invariant_witness :
  exists tr,
    run_calls libm_ref
      [SetDepth f_2; SetStereoPhaseDeg F32.nan; SetRateHz f_0;
       SetSampleRate (F64.of_Z 44100); Process (Some [f_0_5; f_0_25]) 1 2]
      = Some tr
    /\ engine_ok libm_ref tr.
Proof.
  eexists. split; [vm_compute; reflexivity|].
  apply (engine_invariant libm_ref
           [SetDepth f_2; SetStereoPhaseDeg F32.nan; SetRateHz f_0;
            SetSampleRate (F64.of_Z 44100); Process (Some [f_0_5; f_0_25]) 1 2]).
  - repeat constructor.
  - vm_compute. reflexivity.
Defined.

End Invariant.

Section SettersIdentity.




End SettersIdentity.

Section LastSamples.
Import FeatureExtractor.

Lemma push_all_buf (samples : list (float * float)) (fe : t) :
  (length (buf fe) <= FrameSize)%nat ->
  buf (fold_left (fun fe '(L, R) => pushSample L R fe) samples fe) =
    drop (length (buf fe) + length samples - FrameSize)
      (buf fe ++ map (fun '(L, R) => (f_0_5 * (L + R))%f32) samples).
Proof.
  revert fe. induction samples as [|[L R] samples IH]; intros fe Hle;
    cbn [fold_left map length].
  - replace (length (buf fe) + 0 - FrameSize)%nat with 0%nat by lia.
    rewrite app_nil_r. reflexivity.
  - rewrite IH by (rewrite pushSample_length by exact Hle; lia).
    rewrite pushSample_length by exact Hle. rewrite pushSample_buf.
    set (m := (f_0_5 * (L + R))%f32). set (ms := map _ samples).
    assert (Hms : length ms = length samples) by apply length_map.
    destruct (Nat.ltb_spec (length (buf fe)) FrameSize) as [Hlt|Hge].
    + rewrite <- app_assoc. cbn [app].
      f_equal. lia.
    + assert (Hfull : length (buf fe) = FrameSize) by lia.
      rewrite Nat.min_r by lia.
      replace (buf fe ++ m :: ms) with ((buf fe ++ [m]) ++ ms)
        by (rewrite <- app_assoc; reflexivity).
      replace (length (buf fe) + S (length samples) - FrameSize)%nat
        with (1 + (FrameSize + length samples - FrameSize))%nat by lia.
      rewrite <- drop_drop. f_equal.
      symmetry. apply drop_app_le. rewrite length_app. cbn. lia.
Qed.

(** The window always holds the most recent samples: after any history,
    pushing further stereo samples leaves in the window the last
    [FrameSize] of the mid values [0.5f * (L + R)] pushed since the last
    reset (all of them while there are fewer), in the order pushed, and the
    extractor is ready exactly when at least [FrameSize] were pushed. *)
Theorem window_holds_last_samples (ops : list op)
    (samples : list (float * float)) :
  let mids := map (fun '(L, R) => (f_0_5 * (L + R))%f32) samples in
  let fe := fold_left (fun fe '(L, R) => pushSample L R fe) samples (run ops) in
  buf fe =
    drop (length (buf (run ops) ++ mids) - FrameSize) (buf (run ops) ++ mids)
  /\ (ready fe = true <->
      (FrameSize <= length (buf (run ops)) + length samples)%nat).
Proof.
  cbv zeta. pose proof (run_bound ops) as Hb. unfold ready.
  rewrite (push_all_buf samples (run ops) Hb).
  rewrite length_app, length_map. split; [reflexivity|].
  rewrite Nat.eqb_eq, length_drop, length_app, length_map. lia.
Qed.

End LastSamples.

Section Samples.
Import WavIO.

Lemma int16_check_from_spec (k : nat) (lo n : Z) :
  int16_check_from lo k = true -> lo <= n < lo + Z.of_nat k ->
  int16_check n = true.
Proof.
  revert lo. induction k as [|k IH]; intros lo H Hn; [lia|].
  cbn [int16_check_from] in H. apply andb_true_iff in H. destruct H as [H0 H1].
  destruct (Z.eq_dec n lo) as [->|Hne]; [exact H0|].
  apply (IH (lo + 1)); [exact H1|lia].
Qed.

Lemma int16_table : int16_check_from (-32768) (Z.to_nat 65536) = true.
Proof. vm_compute. reflexivity. Qed.

Lemma int16_checked (n : Z) : -32768 <= n <= 32767 -> int16_check n = true.
Proof.
  intros Hn. apply (int16_check_from_spec (Z.to_nat 65536) (-32768));
    [exact int16_table|lia].
Qed.

(** [read16] decodes a 16-bit sample [n] to exactly [n / 32768]: the
    product with [scale] is exact and the clamp to [[-1, 0.9999695]] never
    acts, so the decoded samples are the multiples of [2^-15] in
    [[-1, 1 - 2^-15]]. *)
Theorem sample_of_int16_exact (n : Z) :
  -32768 <= n <= 32767 ->
  finite32 (sample_of_int16 n)
  /\ sv32 (sample_of_int16 n) * 32768 = n * sv32 f_1
  /\ (f_neg1 <=? sample_of_int16 n)%f32 = true
  /\ (sample_of_int16 n <? f_1)%f32 = true.
Proof.
  intros Hn. pose proof (int16_checked n Hn) as H. unfold int16_check in H.
  cbv zeta in H.
  destruct (F32.valid (sample_of_int16 n)) eqn:V; [|discriminate H].
  destruct (F32.is_finite (sample_of_int16 n)) eqn:F; [|discriminate H].
  destruct (Z.eqb_spec (sv32 (sample_of_int16 n)) (n * 2 ^ 134)) as [S|];
    [|discriminate H].
  clear H.
  assert (Fx : finite32 (sample_of_int16 n)) by (split; assumption).
  assert (F1 : finite32 f_1) by (split; reflexivity).
  assert (Fn : finite32 f_neg1) by (split; reflexivity).
  split; [exact Fx|]. split; [|split].
  - rewrite S, sv32_f_1. change (2 ^ 149) with (2 ^ 134 * 32768). ring.
  - rewrite (le32_sv _ _ Fn Fx), S, sv32_f_neg1. apply Z.leb_le.
    change (2 ^ 149) with (2 ^ 134 * 32768).
    assert (0 < 2 ^ 134) by reflexivity. nia.
  - rewrite (lt32_sv _ _ Fx F1), S, sv32_f_1. apply Z.ltb_lt.
    change (2 ^ 149) with (2 ^ 134 * 32768).
    assert (0 < 2 ^ 134) by reflexivity. nia.
Qed.

(** The sample 12345. *)
Lemma sample_of_int16_exact_witness :
  finite32 (sample_of_int16 12345)
  /\ sv32 (sample_of_int16 12345) * 32768 = 12345 * sv32 f_1
  /\ (f_neg1 <=? sample_of_int16 12345)%f32 = true
  /\ (sample_of_int16 12345 <? f_1)%f32 = true.
Proof. apply (sample_of_int16_exact 12345). lia. Defined.

Lemma lround_bound (y : float) (k : Z) :
  finite32 y -> 0 <= k < 2 ^ 31 -> Z.abs (sv32 y) <= k * 2 ^ 149 ->
  exists r, lround y = Some r /\ Z.abs r <= k.
Proof.
  intros Fy Hk Hle.
  destruct y as [s|s| |s m e]; try (destruct Fy; discriminate).
  - exists 0. split; [reflexivity|lia].
  - destruct (finite32_exp s m e Fy) as [He _].
    rewrite sv32_finite in Hle.
    assert (Hm : Zpos m * 2 ^ (e + 149) <= k * 2 ^ 149).
    { pose proof (pow2_pos (e + 149) ltac:(lia)).
      destruct s; cbn [cond_Zopp] in Hle; lia. }
    clear Hle. cbn [lround].
    set (r := if 0 <=? e then Zpos m * 2 ^ e
              else (2 * Zpos m + 2 ^ (- e)) / (2 * 2 ^ (- e))).
    assert (Hr : 0 <= r <= k).
    { unfold r. assert (P149 : 0 < 2 ^ 149) by reflexivity.
      destruct (Z.leb_spec 0 e) as [H0|H0].
      - rewrite (pow2_split e 149) in Hm by lia.
        pose proof (pow2_pos e H0). nia.
      - pose proof (pow2_pos (- e) ltac:(lia)) as Pd.
        assert (Hs : 2 ^ 149 = 2 ^ (e + 149) * 2 ^ (- e)).
        { rewrite <- pow2_split by lia. f_equal. lia. }
        pose proof (pow2_pos (e + 149) ltac:(lia)) as Pe.
        assert (Hmk : Zpos m <= k * 2 ^ (- e)) by (rewrite Hs in Hm; nia).
        split.
        + apply Z.div_pos; lia.
        + apply Z.lt_succ_r. apply Z.div_lt_upper_bound; [lia|]. nia. }
    destruct (Z.ltb_spec r (2 ^ 31)) as [_|Hbig]; [|lia].
    exists (cond_Zopp s r). split; [reflexivity|].
    destruct s; cbn [cond_Zopp]; lia.
Qed.

Lemma int16_of_sample_bounds (x : float) :
  F32.valid x = true ->
  exists v, int16_of_sample x = Some v /\ -32767 <= v <= 32767.
Proof.
  intros V. unfold int16_of_sample. cbv zeta.
  assert (F1 : finite32 f_1) by (split; reflexivity).
  assert (Fn : finite32 f_neg1) by (split; reflexivity).
  assert (Fs : finite32 f_32767) by (split; reflexivity).
  destruct (clamp_range f_neg1 f_1 x Fn F1 ltac:(vm_compute; discriminate) V)
    as [Fc Rc].
  set (c := std_max f_neg1 (std_min f_1 x)) in *.
  rewrite sv32_f_1, sv32_f_neg1 in Rc.
  destruct (mul32_bound f_32767 c f_32767 Fs eq_refl Fc Fs) as [Fp Bp].
  { change (sv32 f_32767) with (32767 * 2 ^ 149).
    assert (0 < 2 ^ 149) by reflexivity.
    rewrite (Z.abs_eq (32767 * 2 ^ 149)) by lia.
    assert (Z.abs (sv32 c) <= 2 ^ 149) by lia. nia. }
  change (sv32 f_32767) with (32767 * 2 ^ 149) in Bp.
  destruct (lround_bound _ 32767 Fp ltac:(lia) Bp) as (r & Hr & Br).
  rewrite Hr. cbn [fmap option_fmap option_map].
  exists (to_int16 r). split; [reflexivity|].
  unfold to_int16. rewrite Z.mod_small by lia. lia.
Qed.

(** [write16] encodes every [float] to a 16-bit value in
    [[-32767, 32767]]: the clamp to [[-1, 1]] keeps the product with
    [32767] in range, so [lround] and the narrowing to [int16_t] are both
    defined and [-32768] is never written.  A sample that is not below 1 (a
    NaN included) is written as [32767], one that is not above -1 as
    [-32767]. *)
Theorem int16_of_sample_range (x : float) :
  F32.valid x = true ->
  (exists v, int16_of_sample x = Some v /\ -32767 <= v <= 32767)
  /\ ((x <? f_1)%f32 = false -> int16_of_sample x = Some 32767)
  /\ ((x <? f_1)%f32 = true -> (f_neg1 <? x)%f32 = false ->
        int16_of_sample x = Some (-32767)).
Proof.
  intros V. split; [|split].
  - exact (int16_of_sample_bounds x V).
  - intros H. unfold int16_of_sample, std_min. rewrite H. reflexivity.
  - intros H1 H2. unfold int16_of_sample, std_min, std_max. rewrite H1, H2.
    reflexivity.
Qed.

(** The sample 0.5. *)
Lemma int16_of_sample_range_witness :
  exists v, int16_of_sample f_0_5 = Some v /\ -32767 <= v <= 32767.
Proof.
  destruct (int16_of_sample_range f_0_5 eq_refl) as [H _]. exact H.
Defined.

(** Reading a 16-bit sample and writing it back does not always return
    it: [read16] divides by 32768 and [write16] multiplies by 32767, so
    the round trip keeps a sample [n] with [|n| <= 16416] and moves every
    other sample by one towards zero ([-32768] becomes [-32767]). *)
Theorem int16_round_trip (n : Z) :
  -32768 <= n <= 32767 ->
  int16_of_sample (sample_of_int16 n) =
    Some (if Z.abs n <=? 16416 then n else n - Z.sgn n).
Proof.
  intros Hn. pose proof (int16_checked n Hn) as H. unfold int16_check in H.
  cbv zeta in H. apply andb_true_iff in H. destruct H as [_ H].
  destruct (int16_of_sample (sample_of_int16 n)) as [v|]; [|discriminate H].
  apply Z.eqb_eq in H. rewrite H. reflexivity.
Qed.

(** The sample 20000 comes back as 19999. *)
Lemma int16_round_trip_witness :
  int16_of_sample (sample_of_int16 20000) = Some 19999.
Proof. apply (int16_round_trip 20000). lia. Defined.

End Samples.

Section Streams.
Import WavIO.

Lemma Z_of_byte_of_Z (z : Z) : Z_of_byte (byte_of_Z z) = z mod 256.
Proof.
  unfold Z_of_byte, byte_of_Z.
  pose proof (Z.mod_pos_bound z 256 ltac:(lia)) as Hb.
  destruct (Byte.of_N (Z.to_N (z mod 256))) as [b|] eqn:E.
  - change (default Byte.x00 (Some b)) with b.
    rewrite (@Byte.to_of_N _ _ E). rewrite Z2N.id by lia. reflexivity.
  - apply Byte.of_N_None_iff in E. lia.
Qed.

Lemma Z_of_u16_bytes (v : Z) : Z_of_bytes (u16_bytes v) = v mod 2 ^ 16.
Proof.
  unfold Z_of_bytes, u16_bytes. cbn [foldr]. rewrite !Z_of_byte_of_Z.
  change (2 ^ 8) with 256. change (2 ^ 16) with (256 * 256).
  rewrite (Z.rem_mul_r v 256 256) by lia. lia.
Qed.

Lemma Z_of_u32_bytes (v : Z) : Z_of_bytes (u32_bytes v) = v mod 2 ^ 32.
Proof.
  unfold Z_of_bytes, u32_bytes. cbn [foldr]. rewrite !Z_of_byte_of_Z.
  change (2 ^ 8) with 256. change (2 ^ 16) with (256 * 256).
  change (2 ^ 24) with (256 * (256 * 256)).
  change (2 ^ 32) with (256 * (256 * (256 * 256))).
  rewrite (Z.rem_mul_r v 256 (256 * (256 * 256))) by lia.
  rewrite <- !Z.div_div by lia.
  rewrite (Z.rem_mul_r (v / 256) 256 (256 * 256)) by lia.
  rewrite (Z.rem_mul_r (v / 256 / 256) 256 256) by lia.
  lia.
Qed.

Lemma read_at (pre chunk rest : list Byte.byte) :
  read (Z.of_nat (length chunk)) (stream_at pre (chunk ++ rest)) =
    (chunk, stream_at (pre ++ chunk) rest).
Proof.
  unfold read, stream_at. cbn [failbit eofbit data pos orb].
  rewrite !Nat2Z.id, drop_app_length, take_app_length, Z.ltb_irrefl.
  rewrite length_app, Nat2Z.inj_add, <- app_assoc. reflexivity.
Qed.

Lemma read_u32_at (pre rest : list Byte.byte) (v : Z) :
  0 <= v < 2 ^ 32 ->
  read_u32 (stream_at pre (u32_bytes v ++ rest)) =
    (v, stream_at (pre ++ u32_bytes v) rest).
Proof.
  intros Hv. unfold read_u32.
  change 4 with (Z.of_nat (length (u32_bytes v))).
  rewrite read_at, Z_of_u32_bytes, Z.mod_small by lia. reflexivity.
Qed.

Lemma read_u16_at (pre rest : list Byte.byte) (v : Z) :
  0 <= v < 2 ^ 16 ->
  read_u16 (stream_at pre (u16_bytes v ++ rest)) =
    (v, stream_at (pre ++ u16_bytes v) rest).
Proof.
  intros Hv. unfold read_u16.
  change 2 with (Z.of_nat (length (u16_bytes v))).
  rewrite read_at, Z_of_u16_bytes, Z.mod_small by lia. reflexivity.
Qed.

(** A read at or beyond the end of the file. *)
Lemma read_past (n : Z) (f : ifstream) :
  failbit f = false -> eofbit f = false ->
  Z.of_nat (length (data f)) <= pos f -> 0 < n ->
  read n f = ([], {| data := data f; pos := pos f; failbit := true;
                     eofbit := true |}).
Proof.
  intros Hf He Hp Hn. unfold read. rewrite Hf, He. cbn [orb].
  rewrite drop_ge by lia. rewrite take_nil. cbn [length].
  destruct (Z.ltb_spec (Z.of_nat 0) n) as [_|]; [|lia].
  rewrite Z.add_0_r. reflexivity.
Qed.

Lemma read_all (n : Z) (pre rest : list Byte.byte) :
  Z.of_nat (length rest) <= n ->
  fst (read n (stream_at pre rest)) = rest.
Proof.
  intros Hn. unfold read, stream_at. cbn [failbit eofbit data pos orb].
  rewrite Nat2Z.id, drop_app_length.
  rewrite take_ge by lia.
  destruct (Z.of_nat (length rest) <? n); reflexivity.
Qed.

Lemma seekg_cur_at (off : Z) (pre rest : list Byte.byte) :
  seekg_cur off (stream_at pre rest) =
    {| data := pre ++ rest; pos := Z.of_nat (length pre) + off;
       failbit := false; eofbit := false |}.
Proof. reflexivity. Qed.

Lemma tellg_at (pre rest : list Byte.byte) :
  tellg (stream_at pre rest) = (Z.of_nat (length pre), stream_at pre rest).
Proof. reflexivity. Qed.

(** The chunk loop on the rest of a file with the 44-byte header, when
    the file ends inside or at the end of the data chunk. *)
Lemma chunks_pcm16 (k : nat) (pre payload : list Byte.byte)
    (ch sr br ba sz : Z) (h : fmt) :
  0 <= ch < 2 ^ 16 -> 0 <= sr < 2 ^ 32 -> 0 <= br < 2 ^ 32 ->
  0 <= ba < 2 ^ 16 -> 0 <= sz < 2 ^ 32 ->
  Z.of_nat (length payload) <= sz ->
  exists f,
    chunks (S (S (S k)))
      (stream_at pre
         (String.list_byte_of_string "fmt " ++ u32_bytes 16
          ++ u16_bytes 1 ++ u16_bytes ch ++ u32_bytes sr ++ u32_bytes br
          ++ u16_bytes ba ++ u16_bytes 16
          ++ String.list_byte_of_string "data" ++ u32_bytes sz ++ payload)) h
    = Some (f, {| audioFormat := 1; numChannels := ch; bitsPerSample := 16;
                  fmt_sampleRate := sr; byteRate := br; blockAlign := ba;
                  dataSize := sz;
                  dataPos := Z.of_nat (length pre) + 32 |})
    /\ data f =
         (pre ++ String.list_byte_of_string "fmt " ++ u32_bytes 16
          ++ u16_bytes 1 ++ u16_bytes ch ++ u32_bytes sr ++ u32_bytes br
          ++ u16_bytes ba ++ u16_bytes 16
          ++ String.list_byte_of_string "data" ++ u32_bytes sz) ++ payload.
Proof.
  intros Hch Hsr Hbr Hba Hsz Hpay.
  set (tfmt := String.list_byte_of_string "fmt ").
  set (tdata := String.list_byte_of_string "data").
  (* the fmt chunk *)
  cbn [chunks]. cbn [stream_at failbit eofbit negb andb].
  fold (stream_at pre (tfmt ++ u32_bytes 16 ++ u16_bytes 1 ++ u16_bytes ch
                       ++ u32_bytes sr ++ u32_bytes br ++ u16_bytes ba
                       ++ u16_bytes 16 ++ tdata ++ u32_bytes sz ++ payload)).
  change 4 with (Z.of_nat (length tfmt)) at 1.
  rewrite read_at. cbn [stream_at failbit].
  match goal with |- context [read_u32 ?f] =>
    change f with (stream_at (pre ++ tfmt)
                     (u32_bytes 16 ++ u16_bytes 1 ++ u16_bytes ch
                      ++ u32_bytes sr ++ u32_bytes br ++ u16_bytes ba
                      ++ u16_bytes 16 ++ tdata ++ u32_bytes sz ++ payload))
  end.
  rewrite (read_u32_at _ _ 16) by lia.
  change (same4 tfmt (String.list_byte_of_string "fmt ")) with true.
  cbv iota.
  rewrite (read_u16_at _ _ 1) by lia.
  rewrite (read_u16_at _ _ ch) by lia.
  rewrite (read_u32_at _ _ sr) by lia.
  rewrite (read_u32_at _ _ br) by lia.
  rewrite (read_u16_at _ _ ba) by lia.
  rewrite (read_u16_at _ _ 16) by lia.
  change (16 <? 16) with false. change (Z.odd 16) with false. cbv iota.
  (* the data chunk *)
  set (p1 := (((((((pre ++ tfmt) ++ u32_bytes 16) ++ u16_bytes 1)
                 ++ u16_bytes ch) ++ u32_bytes sr) ++ u32_bytes br)
              ++ u16_bytes ba) ++ u16_bytes 16).
  cbn [chunks]. cbn [stream_at failbit eofbit negb andb].
  fold (stream_at p1 (tdata ++ u32_bytes sz ++ payload)).
  change 4 with (Z.of_nat (length tdata)) at 1.
  rewrite read_at. cbn [stream_at failbit].
  match goal with |- context [read_u32 ?f] =>
    change f with (stream_at (p1 ++ tdata) (u32_bytes sz ++ payload))
  end.
  rewrite (read_u32_at _ _ sz) by lia.
  change (same4 tdata (String.list_byte_of_string "fmt ")) with false.
  change (same4 tdata (String.list_byte_of_string "data")) with true.
  cbv iota. rewrite tellg_at, seekg_cur_at.
  set (p2 := (p1 ++ tdata) ++ u32_bytes sz).
  assert (Hp2 : Z.of_nat (length p2) = Z.of_nat (length pre) + 32).
  { unfold p2, p1. rewrite !length_app.
    change (length tfmt) with 4%nat. change (length tdata) with 4%nat.
    cbn [length u32_bytes u16_bytes]. lia. }
  (* the end of the file *)
  set (f2 := if Z.odd sz
             then seekg_cur 1 {| data := p2 ++ payload;
                    pos := Z.of_nat (length p2) + sz; failbit := false;
                    eofbit := false |}
             else {| data := p2 ++ payload;
                    pos := Z.of_nat (length p2) + sz; failbit := false;
                    eofbit := false |}).
  assert (Hf2 : failbit f2 = false /\ eofbit f2 = false
                /\ data f2 = p2 ++ payload
                /\ Z.of_nat (length (data f2)) <= pos f2).
  { unfold f2. destruct (Z.odd sz); cbn; rewrite length_app; repeat split; lia. }
  destruct Hf2 as (Hf & He & Hd & Hpos).
  cbn [chunks]. rewrite Hf, He. cbn [negb andb].
  rewrite (read_past 4 f2 Hf He Hpos ltac:(lia)). cbn [failbit].
  eexists. split.
  - rewrite Hp2. reflexivity.
  - cbn [data]. rewrite Hd. unfold p2, p1. rewrite <- !app_assoc. reflexivity.
Qed.

(** [read16] on a file with the 44-byte header that ends inside or at the
    end of its data chunk. *)
Lemma read16_pcm16 (riff ch sr br ba sz : Z) (payload : list Byte.byte) :
  0 <= riff < 2 ^ 32 -> ch = 1 \/ ch = 2 -> 0 <= sr < 2 ^ 32 ->
  0 <= br < 2 ^ 32 -> 0 <= ba < 2 ^ 16 -> 0 <= sz < 2 ^ 32 ->
  Z.of_nat (length payload) <= sz ->
  read16 (Some (pcm16_file riff ch sr br ba sz payload)) =
    if (2 * Z.to_nat (sz / 2) <? length payload)%nat then Undefined
    else
      Returned true
        (Some {| sampleRate := to_int32 sr; channels := ch;
                 samples :=
                   (fun i => sample_of_int16 (temp_at payload i))
                   <$> seq 0 (Z.to_nat (sz / 2)) |}).
Proof.
  intros Hriff Hch Hsr Hbr Hba Hsz Hpay.
  assert (Hch' : 0 <= ch < 2 ^ 16) by (destruct Hch as [-> | ->]; lia).
  unfold read16, pcm16_file, pcm16_header.
  set (tRIFF := String.list_byte_of_string "RIFF").
  set (tWAVE := String.list_byte_of_string "WAVE").
  set (tfmt := String.list_byte_of_string "fmt ").
  set (tdata := String.list_byte_of_string "data").
  set (whole := (tRIFF ++ u32_bytes riff ++ tWAVE ++ tfmt ++ u32_bytes 16
                 ++ u16_bytes 1 ++ u16_bytes ch ++ u32_bytes sr
                 ++ u32_bytes br ++ u16_bytes ba ++ u16_bytes 16
                 ++ tdata ++ u32_bytes sz) ++ payload).
  assert (Hlen : length whole = (44 + length payload)%nat).
  { unfold whole. rewrite !length_app.
    change (length tRIFF) with 4%nat. change (length tWAVE) with 4%nat.
    change (length tfmt) with 4%nat. change (length tdata) with 4%nat.
    cbn [length u32_bytes u16_bytes]. lia. }
  replace (S (length whole)) with (S (S (S (length whole - 2)))) by lia.
  assert (Hw : whole = tRIFF ++ u32_bytes riff ++ tWAVE ++ tfmt
                 ++ u32_bytes 16 ++ u16_bytes 1 ++ u16_bytes ch
                 ++ u32_bytes sr ++ u32_bytes br ++ u16_bytes ba
                 ++ u16_bytes 16 ++ tdata ++ u32_bytes sz ++ payload).
  { unfold whole. rewrite <- !app_assoc. reflexivity. }
  change {| data := whole; pos := 0; failbit := false; eofbit := false |}
    with (stream_at [] whole).
  rewrite Hw at 1.
  change 4 with (Z.of_nat (length tRIFF)) at 1.
  rewrite read_at.
  change (differs tRIFF (String.list_byte_of_string "RIFF")) with (Some false).
  cbv iota. rewrite (read_u32_at _ _ riff) by lia.
  change 4 with (Z.of_nat (length tWAVE)) at 1.
  rewrite read_at.
  change (differs tWAVE (String.list_byte_of_string "WAVE")) with (Some false).
  cbv iota.
  set (pre := (([] ++ tRIFF) ++ u32_bytes riff) ++ tWAVE).
  assert (Hpre : length pre = 12%nat) by reflexivity.
  destruct (chunks_pcm16 (length whole - 2) pre payload ch sr br ba sz
              {| audioFormat := 0; numChannels := 0; bitsPerSample := 0;
                 fmt_sampleRate := 0; byteRate := 0; blockAlign := 0;
                 dataSize := 0; dataPos := 0 |}
              Hch' Hsr Hbr Hba Hsz Hpay) as (f & Hrun & Hdata).
  fold tfmt tdata in Hrun, Hdata. rewrite Hrun.
  cbn [audioFormat bitsPerSample numChannels dataPos dataSize fmt_sampleRate].
  change (negb (1 =? 1)) with false. change (negb (16 =? 16)) with false.
  cbv iota.
  replace ((ch <? 1) || (2 <? ch)) with false
    by (destruct Hch as [-> | ->]; reflexivity).
  rewrite Hpre. change (Z.of_nat 12 + 32) with 44.
  set (hdr := pre ++ tfmt ++ u32_bytes 16 ++ u16_bytes 1 ++ u16_bytes ch
              ++ u32_bytes sr ++ u32_bytes br ++ u16_bytes ba ++ u16_bytes 16
              ++ tdata ++ u32_bytes sz) in *.
  assert (Hhdr : length hdr = 44%nat).
  { unfold hdr. rewrite !length_app, Hpre.
    change (length tfmt) with 4%nat. change (length tdata) with 4%nat.
    cbn [length u32_bytes u16_bytes]. lia. }
  assert (Hseek : seekg 44 (clear f) = stream_at hdr payload).
  { unfold seekg, clear, stream_at. cbn [failbit data pos].
    change (44 <? 0) with false. cbv iota. rewrite Hdata, Hhdr. reflexivity. }
  rewrite Hseek.
  pose proof (read_all sz hdr payload Hpay) as Hraw.
  destruct (read sz (stream_at hdr payload)) as [raw f'].
  cbn [fst] in Hraw. subst raw. reflexivity.
Qed.

Lemma sample_bytes_length (body : list Z) :
  length (concat (u16_bytes <$> body)) = (2 * length body)%nat.
Proof.
  induction body as [|v body IH]; [reflexivity|].
  cbn [fmap list_fmap concat]. rewrite length_app. cbn [length u16_bytes].
  change (list_fmap Z (list Byte.byte) u16_bytes body) with (u16_bytes <$> body).
  rewrite IH. cbn [length]. lia.
Qed.

Lemma temp_at_samples (body : list Z) (i : nat) (v : Z) :
  body !! i = Some v -> -32768 <= v < 32768 ->
  temp_at (concat (u16_bytes <$> body)) i = v.
Proof.
  revert i. induction body as [|v0 body IH]; intros i Hi Hv; [discriminate|].
  destruct i as [|i].
  - injection Hi as ->. unfold temp_at. cbn.
    pose proof (Z_of_u16_bytes v) as H. unfold Z_of_bytes, u16_bytes in H.
    cbn [foldr] in H. rewrite Z.mul_0_r, Z.add_0_r in H. rewrite H.
    unfold to_int16.
    replace ((v mod 2 ^ 16 + 32768) mod 65536) with ((v + 32768) mod 65536).
    + rewrite Z.mod_small by lia. lia.
    + change (2 ^ 16) with 65536. rewrite Zplus_mod_idemp_l. reflexivity.
  - cbn [lookup list_lookup] in Hi. rewrite <- (IH i Hi Hv).
    unfold temp_at. cbn [fmap list_fmap concat u16_bytes app].
    replace (2 * S i)%nat with (S (S (2 * i))) by lia.
    replace (2 * S i + 1)%nat with (S (S (2 * i + 1))) by lia.
    reflexivity.
Qed.

Lemma to_int32_mod (v : Z) :
  - 2 ^ 31 <= v < 2 ^ 31 -> to_int32 (v mod 2 ^ 32) = v.
Proof.
  intros Hv. unfold to_int32. rewrite Zplus_mod_idemp_l.
  rewrite Z.mod_small by lia. lia.
Qed.

Lemma mapM_int16_bounds (xs : list float) :
  Forall (fun x => F32.valid x = true) xs ->
  exists body,
    mapM int16_of_sample xs = Some body
    /\ length body = length xs
    /\ Forall (fun v => -32767 <= v <= 32767) body.
Proof.
  induction xs as [|x xs IH]; intros H.
  - exists []. repeat split. constructor.
  - apply Forall_cons_1 in H. destruct H as [Hx Hxs].
    destruct (IH Hxs) as (body & Hb & Hl & Hr).
    destruct (int16_of_sample_bounds x Hx) as (v & Hv & Rv).
    exists (v :: body). cbn [mapM]. rewrite Hv, Hb.
    split; [reflexivity|]. split; [cbn; lia|]. constructor; assumption.
Qed.

(** [read16] trusts the size that the data chunk announces.  On a file
    with the 44-byte header of a PCM file with 16 bits and one or two
    channels, whatever the RIFF size, the byte rate and the block align
    announce, [read16] returns [true] with as many samples as the data
    chunk announces, also when the file ends before: the samples that the
    file does not hold are 0. *)
Theorem read16_accepts_truncated (riff ch sr br ba sz : Z)
    (payload : list Byte.byte) :
  0 <= riff < 2 ^ 32 -> ch = 1 \/ ch = 2 -> 0 <= sr < 2 ^ 32 ->
  0 <= br < 2 ^ 32 -> 0 <= ba < 2 ^ 16 -> 0 <= sz < 2 ^ 32 ->
  (length payload <= 2 * Z.to_nat (sz / 2))%nat ->
  exists w,
    read16 (Some (pcm16_file riff ch sr br ba sz payload))
      = Returned true (Some w)
    /\ sampleRate w = to_int32 sr /\ channels w = ch
    /\ length (samples w) = Z.to_nat (sz / 2)
    /\ (forall i, (i < Z.to_nat (sz / 2))%nat ->
          samples w !! i = Some (sample_of_int16 (temp_at payload i)))
    /\ (forall i, (i < Z.to_nat (sz / 2))%nat -> (length payload <= 2 * i)%nat ->
          samples w !! i = Some f_0).
Proof.
  intros Hriff Hch Hsr Hbr Hba Hsz Hpay.
  assert (Hpay' : Z.of_nat (length payload) <= sz).
  { pose proof (Z.mul_div_le sz 2 ltac:(lia)).
    assert (0 <= sz / 2) by (apply Z.div_pos; lia). lia. }
  rewrite (read16_pcm16 riff ch sr br ba sz payload Hriff Hch Hsr Hbr Hba Hsz
             Hpay').
  destruct (Nat.ltb_spec (2 * Z.to_nat (sz / 2)) (length payload)) as [|_];
    [lia|].
  eexists. split; [reflexivity|]. cbn [sampleRate channels samples].
  split; [reflexivity|]. split; [reflexivity|].
  split; [rewrite length_fmap, length_seq; reflexivity|].
  assert (Hlook : forall i, (i < Z.to_nat (sz / 2))%nat ->
            ((fun i => sample_of_int16 (temp_at payload i))
             <$> seq 0 (Z.to_nat (sz / 2))) !! i
            = Some (sample_of_int16 (temp_at payload i))).
  { intros i Hi. rewrite list_lookup_fmap.
    assert (Hs : seq 0 (Z.to_nat (sz / 2)) !! i = Some i)
      by (apply lookup_seq; lia).
    rewrite Hs. reflexivity. }
  split; [exact Hlook|].
  intros i Hi Hout. rewrite (Hlook i Hi). f_equal.
  unfold temp_at.
  rewrite (lookup_ge_None_2 payload (2 * i)) by lia.
  rewrite (lookup_ge_None_2 payload (2 * i + 1)) by lia.
  reflexivity.
Qed.

(** A header that announces four samples, on a file that holds one. *)
Lemma read16_accepts_truncated_witness :
  exists w,
    read16 (Some (pcm16_file 44 1 44100 88200 2 8 (u16_bytes 12345)))
      = Returned true (Some w)
    /\ sampleRate w = to_int32 44100 /\ channels w = 1
    /\ length (samples w) = Z.to_nat (8 / 2)
    /\ (forall i, (i < Z.to_nat (8 / 2))%nat ->
          samples w !! i
            = Some (sample_of_int16 (temp_at (u16_bytes 12345) i)))
    /\ (forall i, (i < Z.to_nat (8 / 2))%nat ->
          (length (u16_bytes 12345) <= 2 * i)%nat ->
          samples w !! i = Some f_0).
Proof.
  apply (read16_accepts_truncated 44 1 44100 88200 2 8 (u16_bytes 12345)
           ltac:(lia) (or_introl eq_refl) ltac:(lia) ltac:(lia) ltac:(lia)
           ltac:(lia)).
  vm_compute. lia.
Defined.

(** A data chunk of odd size overruns the buffer.  When the data chunk
    announces an odd number [sz] of bytes and the file holds them,
    [read16] allocates [sz / 2] samples, one byte less than [sz], and
    reads [sz] bytes into them: the call has no defined behaviour. *)
Theorem read16_odd_data_size_overruns (riff ch sr br ba sz : Z)
    (payload : list Byte.byte) :
  0 <= riff < 2 ^ 32 -> ch = 1 \/ ch = 2 -> 0 <= sr < 2 ^ 32 ->
  0 <= br < 2 ^ 32 -> 0 <= ba < 2 ^ 16 -> 0 <= sz < 2 ^ 32 ->
  Z.odd sz = true ->
  Z.of_nat (length payload) = sz ->
  read16 (Some (pcm16_file riff ch sr br ba sz payload)) = Undefined.
Proof.
  intros Hriff Hch Hsr Hbr Hba Hsz Hodd Hpay.
  rewrite (read16_pcm16 riff ch sr br ba sz payload Hriff Hch Hsr Hbr Hba Hsz
             ltac:(lia)).
  destruct (Nat.ltb_spec (2 * Z.to_nat (sz / 2)) (length payload)) as [_|Hge];
    [reflexivity|exfalso].
  rewrite (Zodd_div2 sz) in Hpay at 1 by (apply Zodd_bool_iff; exact Hodd).
  rewrite Z.div2_div in Hpay.
  assert (0 <= sz / 2) by (apply Z.div_pos; lia). lia.
Qed.

(** A mono file whose data chunk holds three bytes. *)
Lemma read16_odd_data_size_overruns_witness :
  read16 (Some (pcm16_file 39 1 44100 88200 2 3
                  [Byte.x01; Byte.x02; Byte.x03])) = Undefined.
Proof.
  apply (read16_odd_data_size_overruns 39 1 44100 88200 2 3
           [Byte.x01; Byte.x02; Byte.x03]
           ltac:(lia) (or_introl eq_refl) ltac:(lia) ltac:(lia) ltac:(lia)
           ltac:(lia) eq_refl eq_refl).
Defined.

(** What [write16] writes, [read16] reads back.  For one or two channels,
    a sample rate that an [int] holds and fewer than [2^31] samples,
    [write16] writes a 44-byte header followed by two bytes per sample,
    and [read16] on that file returns [true] with the same sample rate and
    channel count and with every sample replaced by its 16-bit
    quantisation: the value [n / 32768] for the integer [n] that [write16]
    wrote for it. *)
Theorem write16_read16 (w : WavData) :
  channels w = 1 \/ channels w = 2 ->
  - 2 ^ 31 <= sampleRate w < 2 ^ 31 ->
  Z.of_nat (length (samples w)) < 2 ^ 31 ->
  Forall (fun x => F32.valid x = true) (samples w) ->
  exists bytes body,
    write16 w = Some bytes
    /\ length bytes = (44 + 2 * length (samples w))%nat
    /\ mapM int16_of_sample (samples w) = Some body
    /\ read16 (Some bytes) =
         Returned true
           (Some {| sampleRate := sampleRate w; channels := channels w;
                    samples := sample_of_int16 <$> body |}).
Proof.
  intros Hch Hsr Hn Hvalid.
  destruct (mapM_int16_bounds (samples w) Hvalid) as (body & Hbody & Hlen & Hr).
  set (N := Z.of_nat (length (samples w))) in *.
  set (ch := channels w) in *. set (sr := sampleRate w) in *.
  set (payload := concat (u16_bytes <$> body)).
  assert (Hpl : length payload = (2 * length body)%nat)
    by apply sample_bytes_length.
  assert (Hchm : ch mod 2 ^ 16 = ch) by (destruct Hch as [-> | ->]; reflexivity).
  assert (Hsz : (N * 2) mod 2 ^ 32 = N * 2) by (apply Z.mod_small; lia).
  exists (pcm16_file ((36 + N * 2) mod 2 ^ 32) ch (sr mod 2 ^ 32)
            ((sr mod 2 ^ 32 * ((ch * 16 / 8) mod 2 ^ 16)) mod 2 ^ 32)
            ((ch * 16 / 8) mod 2 ^ 16) (N * 2) payload), body.
  split; [|split; [|split]].
  - unfold write16. fold N ch sr. cbv zeta. rewrite Hbody, Hchm, Hsz.
    cbn [mbind option_bind]. unfold pcm16_file, pcm16_header.
    rewrite <- !app_assoc. reflexivity.
  - unfold pcm16_file, pcm16_header. rewrite !length_app, Hpl, Hlen.
    cbn [length u32_bytes u16_bytes]. reflexivity.
  - exact Hbody.
  - rewrite read16_pcm16.
    + replace (Z.to_nat (N * 2 / 2)) with (length body)
        by (rewrite Z.div_mul by lia; unfold N; lia).
      destruct (Nat.ltb_spec (2 * length body) (length payload)) as [|_];
        [lia|].
      rewrite (to_int32_mod sr Hsr). do 3 f_equal.
      apply list_eq. intros i. rewrite !list_lookup_fmap.
      destruct (body !! i) as [v|] eqn:Hv.
      * assert (Hs : seq 0 (length body) !! i = Some i).
        { apply lookup_seq. split; [reflexivity|].
          apply lookup_lt_is_Some. eauto. }
        rewrite Hs. cbn [fmap option_fmap option_map]. do 2 f_equal.
        apply (temp_at_samples body i v Hv).
        pose proof (Forall_lookup_1 _ _ _ _ Hr Hv) as Hb. cbv beta in Hb. lia.
      * assert (Hs : seq 0 (length body) !! i = None).
        { apply lookup_ge_None_2. rewrite length_seq.
          apply lookup_ge_None_1. exact Hv. }
        rewrite Hs. reflexivity.
    + apply Z.mod_pos_bound. lia.
    + exact Hch.
    + apply Z.mod_pos_bound. lia.
    + apply Z.mod_pos_bound. lia.
    + apply Z.mod_pos_bound. lia.
    + lia.
    + rewrite Hpl. lia.
Qed.

(** A stereo file of two frames. *)
Lemma write16_read16_witness :
  exists bytes body,
    write16 {| sampleRate := 44100; channels := 2;
               samples := [f_0_5; f_neg1; f_1; f_0] |} = Some bytes
    /\ length bytes = (44 + 2 * 4)%nat
    /\ mapM int16_of_sample [f_0_5; f_neg1; f_1; f_0] = Some body
    /\ read16 (Some bytes) =
         Returned true
           (Some {| sampleRate := 44100; channels := 2;
                    samples := sample_of_int16 <$> body |}).
Proof.
  apply (write16_read16 {| sampleRate := 44100; channels := 2;
                           samples := [f_0_5; f_neg1; f_1; f_0] |}).
  - right. reflexivity.
  - cbn. lia.
  - cbn. lia.
  - repeat constructor.
Defined.

End Streams.

Section SqrtRounding.
Variables prec emax : Z.
Hypothesis Hprec : 0 < prec.
Hypothesis Hemax : prec < emax.

Lemma div2_double_add (a b : Z) : Z.div2 (a + 2 * b) = Z.div2 a + b.
Proof.
  rewrite !Z.div2_div. rewrite (Z.mul_comm 2 b). apply Z.div_add. lia.
Qed.

(** What [SFsqrt_core_binary] computes: the integer square root of the
    mantissa at an even exponent, and where the root lies. *)
Lemma sqrt_core_spec (m : positive) (e : Z) :
  let e' := Z.min (SpecFloat.fexp prec emax (Z.div2 (Zdigits2 (Zpos m) + e + 1)))
              (Z.div2 e) in
  let m' := Zpos m * 2 ^ (e - 2 * e') in
  0 <= e - 2 * e'
  /\ SFsqrt_core_binary prec emax (Zpos m) e =
       (fst (Z.sqrtrem m'), e',
        if snd (Z.sqrtrem m') =? 0 then loc_Exact
        else loc_Inexact
               (if snd (Z.sqrtrem m') <=? fst (Z.sqrtrem m') then Lt else Gt)).
Proof.
  intros e' m'.
  assert (Hs : 0 <= e - 2 * e').
  { unfold e'. pose proof (Z.div2_div e) as H.
    pose proof (Z.mul_div_le e 2 ltac:(lia)). lia. }
  split; [exact Hs|].
  unfold SFsqrt_core_binary. fold e'.
  change IntDef.Z.div2 with Z.div2. change IntDef.Z.sqrtrem with Z.sqrtrem.
  cbv zeta. fold e'.
  rewrite (shiftl_match (Zpos m) (e - 2 * e') Hs). fold m'.
  destruct (Z.sqrtrem m') as [q r]. reflexivity.
Qed.

(** The root is aligned for [binary_round_aux]. *)
Lemma sqrt_aligned (m : positive) (e : Z) :
  let e' := Z.min (SpecFloat.fexp prec emax (Z.div2 (Zdigits2 (Zpos m) + e + 1)))
              (Z.div2 e) in
  let q := fst (Z.sqrtrem (Zpos m * 2 ^ (e - 2 * e'))) in
  0 < q /\ e' <= SpecFloat.fexp prec emax (Zdigits2 q + e').
Proof.
  intros e' q.
  destruct (sqrt_core_spec m e) as [Hs _]. fold e' in Hs.
  set (m' := Zpos m * 2 ^ (e - 2 * e')) in *.
  assert (Hm' : 0 < m').
  { unfold m'. pose proof (pow2_pos (e - 2 * e') Hs). nia. }
  pose proof (Z.sqrtrem_spec m' ltac:(lia)) as Hspec.
  unfold q. destruct (Z.sqrtrem m') as [q0 r0]. cbn [fst].
  destruct Hspec as [Heq Hr].
  assert (Hq0 : 0 < q0) by nia.
  split; [exact Hq0|].
  set (D := Zdigits2 m').
  assert (HD : D = Zdigits2 (Zpos m) + (e - 2 * e')).
  { unfold D, m'. apply Zdigits2_mul_pow2; lia. }
  pose proof (Zdigits2_bounds m' Hm') as [Hlo Hhi]. fold D in Hlo, Hhi.
  pose proof (Zdigits2_pos m' Hm') as HDpos. fold D in HDpos.
  set (j := Z.div2 (D + 1)).
  assert (Hj : 2 * j - 1 <= D <= 2 * j /\ 1 <= j).
  { unfold j. rewrite Z.div2_div.
    pose proof (Z.div_mod (D + 1) 2 ltac:(lia)).
    pose proof (Z.mod_pos_bound (D + 1) 2 ltac:(lia)). lia. }
  assert (Hqj : 2 ^ (j - 1) <= q0).
  { destruct (Z.le_gt_cases (2 ^ (j - 1)) q0) as [|Hlt]; [assumption|exfalso].
    assert (Hp : 0 < 2 ^ (j - 1)) by (apply pow2_pos; lia).
    assert (Hsq : 2 ^ (j - 1) * 2 ^ (j - 1) <= 2 ^ (D - 1)).
    { rewrite <- pow2_split by lia. apply pow2_le. lia. }
    nia. }
  assert (Hdq : j <= Zdigits2 q0).
  { pose proof (Zdigits2_bounds q0 Hq0) as [_ Hqhi].
    pose proof (Zdigits2_pos q0 Hq0).
    destruct (Z.le_gt_cases j (Zdigits2 q0)) as [|Hlt]; [assumption|exfalso].
    assert (2 ^ Zdigits2 q0 <= 2 ^ (j - 1)) by (apply pow2_le; lia). lia. }
  assert (He' : e' <= SpecFloat.fexp prec emax
                        (Z.div2 (Zdigits2 (Zpos m) + e + 1)))
    by (unfold e'; lia).
  replace (Zdigits2 (Zpos m) + e + 1) with ((D + 1) + 2 * e') in He' by lia.
  rewrite div2_double_add in He'. fold j in He'.
  pose proof (fexp_mono prec emax (j + e') (Zdigits2 q0 + e') ltac:(lia)).
  lia.
Qed.

Lemma SFsqrt_valid (x : spec_float) :
  valid_binary prec emax x = true ->
  valid_binary prec emax (SFsqrt prec emax x) = true.
Proof.
  intros V. destruct x as [s|[|]| |[|] m e]; try reflexivity.
  cbn [SFsqrt].
  destruct (sqrt_core_spec m e) as [_ ->].
  destruct (sqrt_aligned m e) as [Hq Hal].
  apply binary_round_aux_valid; [exact Hprec|lia|exact Hal].
Qed.

Lemma SFsqrt_nonneg (x : spec_float) :
  0 <= Rnd.sv prec emax (SFsqrt prec emax x).
Proof.
  destruct x as [s|[|]| |[|] m e]; try (cbn; lia).
  cbn [SFsqrt].
  destruct (sqrt_core_spec m e) as [_ ->].
  destruct (sqrt_aligned m e) as [Hq Hal].
  apply (sv_sign prec emax false).
  refine (proj2 (binary_round_aux_valid prec emax Hprec false _ _ _ _ Hal)).
  lia.
Qed.

(** The square root of a number that is at most 1 is at most 1. *)
Lemma SFsqrt_le_one (x : spec_float) :
  valid_binary prec emax x = true ->
  finite_or_zero x = true ->
  0 <= Rnd.sv prec emax x <= 2 ^ (- SpecFloat.emin prec emax) ->
  finite_or_zero (SFsqrt prec emax x) = true
  /\ Rnd.sv prec emax (SFsqrt prec emax x) <= 2 ^ (- SpecFloat.emin prec emax).
Proof.
  intros V F [H0 H1].
  pose proof (emin_nonpos prec emax Hprec Hemax) as Hemin.
  assert (P1 : 0 < 2 ^ (- SpecFloat.emin prec emax)) by (apply pow2_pos; lia).
  destruct x as [s|s| |s m e]; try discriminate.
  - cbn. split; [reflexivity|lia].
  - cbn [valid_binary] in V.
    destruct (bounded_inv prec emax Hprec m e V) as (Hcan & Hemx & Hemn & Hm).
    assert (s = false) as ->
      by (apply (sv_nonneg_sign prec emax s m e Hemn H0)).
    cbn [Rnd.sv cond_Zopp] in H1.
    cbn [SFsqrt].
    destruct (sqrt_core_spec m e) as [Hs ->].
    destruct (sqrt_aligned m e) as [Hq Hal].
    set (e' := Z.min (SpecFloat.fexp prec emax
                        (Z.div2 (Zdigits2 (Zpos m) + e + 1))) (Z.div2 e)) in *.
    set (m' := Zpos m * 2 ^ (e - 2 * e')) in *.
    pose proof (Z.sqrtrem_spec m' ltac:(unfold m';
      pose proof (pow2_pos (e - 2 * e') Hs); nia)) as Hspec.
    destruct (Z.sqrtrem m') as [q r]. cbn [fst snd] in *.
    destruct Hspec as [Heq Hr].
    (* the bound 1 = 2^(prec-1) * 2^(1-prec) *)
    set (mh := Z.to_pos (2 ^ (prec - 1))).
    assert (Hmh : Zpos mh = 2 ^ (prec - 1)).
    { unfold mh. rewrite Z2Pos.id; [reflexivity|]. apply pow2_pos. lia. }
    assert (Hb : bounded prec emax mh (1 - prec) = true).
    { unfold bounded, canonical_mantissa. apply andb_true_iff. split.
      - apply Z.eqb_eq.
        change (Z.pos (digits2_pos mh)) with (Zdigits2 (Z.pos mh)).
        rewrite Hmh, Zdigits2_pow2 by lia.
        unfold SpecFloat.fexp, SpecFloat.emin. lia.
      - apply Z.leb_le. lia. }
    (* the value is at most 1: e' <= 0 and m' <= (2^(-e'))^2 *)
    assert (He'neg : e' <= 1 - prec).
    { assert (Hd : Zdigits2 (Zpos m) + e <= 1).
      { pose proof (Zdigits2_bounds (Zpos m) ltac:(lia)) as [Hlo _].
        pose proof (Zdigits2_pos (Zpos m) ltac:(lia)).
        destruct (Z.le_gt_cases (Zdigits2 (Zpos m) + e) 1) as [|Hgt];
          [assumption|exfalso].
        assert (Hp : 2 ^ (- SpecFloat.emin prec emax) * 2
                     <= 2 ^ (Zdigits2 (Zpos m) - 1) * 2 ^ (e - SpecFloat.emin prec emax)).
        { rewrite <- pow2_split by lia.
          change 2 with (2 ^ 1) at 2. rewrite <- pow2_split by lia.
          apply pow2_le. lia. }
        pose proof (pow2_pos (e - SpecFloat.emin prec emax) ltac:(lia)). nia. }
      assert (Z.div2 (Zdigits2 (Zpos m) + e + 1) <= 1).
      { rewrite Z.div2_div. apply Z.div_le_upper_bound; lia. }
      pose proof (fexp_mono prec emax _ 1 H) as Hf.
      assert (SpecFloat.fexp prec emax 1 = 1 - prec)
        by (unfold SpecFloat.fexp, SpecFloat.emin in *; lia).
      unfold e'. lia. }
    assert (He'min : SpecFloat.emin prec emax <= e').
    { pose proof (fexp_ge_emin prec emax
                    (Z.div2 (Zdigits2 (Zpos m) + e + 1))).
      assert (SpecFloat.emin prec emax <= Z.div2 e).
      { rewrite Z.div2_div. pose proof (Z.div_mod e 2 ltac:(lia)).
        pose proof (Z.mod_pos_bound e 2 ltac:(lia)). lia. }
      unfold e'. lia. }
    assert (Hm'le : m' <= 2 ^ (- e') * 2 ^ (- e')).
    { unfold m'. rewrite <- pow2_split by lia.
      set (K := 2 ^ (2 * e' - 2 * SpecFloat.emin prec emax)).
      assert (PK : 0 < K) by (apply pow2_pos; lia).
      assert (Hx : Zpos m * 2 ^ (e - 2 * e') * K <= 2 ^ (- e' + - e') * K).
      { unfold K. rewrite <- Z.mul_assoc, <- !pow2_split by lia.
        replace (e - 2 * e' + (2 * e' - 2 * SpecFloat.emin prec emax))
          with ((e - SpecFloat.emin prec emax) + - SpecFloat.emin prec emax)
          by lia.
        replace (- e' + - e' + (2 * e' - 2 * SpecFloat.emin prec emax))
          with (- SpecFloat.emin prec emax + - SpecFloat.emin prec emax) by lia.
        rewrite !pow2_split by lia. nia. }
      nia. }
    assert (Pe : 0 < 2 ^ (- e')) by (apply pow2_pos; lia).
    assert (Hqle : q <= 2 ^ (- e')) by nia.
    destruct (binary_round_aux_upper prec emax Hprec false q e'
                (if r =? 0 then loc_Exact
                 else loc_Inexact (if r <=? q then Lt else Gt))
                mh (1 - prec) ltac:(lia) Hal Hb He'neg) as [Fin Up].
    { rewrite Hmh, <- pow2_split by lia.
      replace (prec - 1 + (1 - prec - e')) with (- e') by lia.
      destruct (Z.eqb_spec r 0) as [->|Hr0]; cbn [loc_bits]; [lia|].
      assert (q < 2 ^ (- e')) by nia.
      destruct (r <=? q); cbn [loc_bits]; lia. }
    split; [exact Fin|].
    pose proof (abs_sv prec emax
      (binary_round_aux prec emax false q e'
         (if r =? 0 then loc_Exact
          else loc_Inexact (if r <=? q then Lt else Gt)))) as Habs.
    rewrite Hmh, <- pow2_split in Up by lia.
    replace (prec - 1 + (1 - prec - SpecFloat.emin prec emax))
      with (- SpecFloat.emin prec emax) in Up by lia.
    lia.
Qed.

End SqrtRounding.

Section Binary64.

Lemma prec64_pos : 0 < F64.prec.
Proof. reflexivity. Qed.

Lemma prec64_lt_emax : F64.prec < F64.emax.
Proof. reflexivity. Qed.

Lemma emin64 : SpecFloat.emin F64.prec F64.emax = -1074.
Proof. reflexivity. Qed.

(** An integer of at most 53 bits is a [double]. *)
Lemma int64_bound (n : Z) :
  0 < n < 2 ^ 53 ->
  exists mh eh,
    F64.of_Z n = S754_finite false mh eh
    /\ bounded F64.prec F64.emax mh eh = true
    /\ Zpos mh * 2 ^ (eh - SpecFloat.emin F64.prec F64.emax) = n * 2 ^ 1074.
Proof.
  intros Hn. unfold F64.of_Z.
  pose proof (binary_normalize_valid F64.prec F64.emax prec64_pos
                prec64_lt_emax n 0) as V.
  destruct (binary_normalize_exact F64.prec F64.emax prec64_pos prec64_lt_emax
              n 0 ltac:(rewrite emin64; lia) ltac:(lia)
              ltac:(change (2 ^ F64.prec) with (2 ^ 53); lia)
              ltac:(vm_compute; discriminate)) as [F Sv].
  destruct (binary_normalize_sign F64.prec F64.emax prec64_pos prec64_lt_emax
              n 0) as [Hs _]. specialize (Hs ltac:(lia)).
  change (0 - SpecFloat.emin F64.prec F64.emax) with 1074 in Sv.
  destruct (binary_normalize F64.prec F64.emax n 0 false) as [s|s| |s m e];
    try discriminate.
  - exfalso. cbn in Sv. assert (0 < 2 ^ 1074) by reflexivity. nia.
  - cbn in Hs. subst s. exists m, e. split; [reflexivity|].
    split; [exact V|]. exact Sv.
Qed.

Lemma within64_zero (n : Z) : 0 <= n -> within64 n F64.zero.
Proof.
  intros Hn. split; [split; reflexivity|]. cbn.
  assert (0 < 2 ^ 1074) by reflexivity. nia.
Qed.

(** [double(x)] of a [float] in [[-1, 1]]. *)
Lemma double_of_float_bound (x : float) :
  finite32 x -> Z.abs (sv32 x) <= 2 ^ 149 ->
  finite64 (double_of_float x) /\ Z.abs (sv64 (double_of_float x)) <= 2 ^ 1074.
Proof.
  intros Fx Hx. destruct x as [s|s| |s m e]; try (destruct Fx; discriminate).
  - split; [split; reflexivity|]. cbn. assert (0 < 2 ^ 1074) by reflexivity. lia.
  - destruct (finite32_exp s m e Fx) as [He _].
    rewrite sv32_finite in Hx.
    assert (Hm : Zpos m * 2 ^ (e + 149) <= 2 ^ 149).
    { pose proof (pow2_pos (e + 149) ltac:(lia)).
      destruct s; cbn [cond_Zopp] in Hx; lia. }
    cbn [double_of_float].
    destruct (binary_round_valid F64.prec F64.emax prec64_pos prec64_lt_emax
                s m e) as [V _].
    destruct (binary_round_upper F64.prec F64.emax prec64_pos s m e
                4503599627370496 (-52) (-149) eq_refl ltac:(lia) ltac:(lia))
      as [F U].
    { replace (e - -149) with (e + 149) by lia.
      change (4503599627370496 * 2 ^ (-52 - -149)) with (2 ^ 149). exact Hm. }
    split; [split; assumption|].
    rewrite (abs_sv F64.prec F64.emax).
    change (4503599627370496 * 2 ^ (-52 - SpecFloat.emin F64.prec F64.emax))
      with (2 ^ 1074) in U. exact U.
Qed.

(** The square of a [double] in [[-1, 1]]. *)
Lemma square64 (d : double) :
  finite64 d -> Z.abs (sv64 d) <= 2 ^ 1074 -> within64 1 (F64.mul d d).
Proof.
  intros [V F] Hd. unfold within64, finite64, F64.mul, F64.valid in *.
  destruct (SFmul_upper F64.prec F64.emax prec64_pos prec64_lt_emax d d
              4503599627370496 (-52) V V F F eq_refl) as [Fm Um].
  { change (4503599627370496 * 2 ^ (-52 - SpecFloat.emin F64.prec F64.emax))
      with (2 ^ 1074).
    change (- SpecFloat.emin F64.prec F64.emax) with 1074.
    assert (0 <= Z.abs (sv64 d)) by lia. nia. }
  change (4503599627370496 * 2 ^ (-52 - SpecFloat.emin F64.prec F64.emax))
    with (2 ^ 1074) in Um.
  assert (Hnn : 0 <= sv64 (SFmul F64.prec F64.emax d d)).
  { destruct d as [s|s| |s m e]; try discriminate.
    cbn [SFmul]. apply (sv_sign F64.prec F64.emax false).
    replace (xorb s s) with false by (destruct s; reflexivity).
    apply binary_round_aux_valid; [exact prec64_pos|lia|].
    apply mul_aligned; try assumption; reflexivity. }
  split; [split; [|exact Fm]|lia].
  apply SFmul_valid; try assumption; reflexivity.
Qed.

(** One step of the sum: [acc += double(x) * double(x)]. *)
Lemma sum_step (k : Z) (acc sq : double) :
  0 <= k -> k + 1 < 2 ^ 53 ->
  within64 k acc -> within64 1 sq -> within64 (k + 1) (F64.add acc sq).
Proof.
  intros Hk Hk1 [[Va Fa] Ra] [[Vs Fs] Rs].
  unfold within64, finite64, F64.add, F64.valid in *.
  destruct (int64_bound (k + 1) ltac:(lia)) as (mh & eh & _ & Hb & Hv).
  destruct (SFadd_upper F64.prec F64.emax prec64_pos acc sq mh eh Va Vs Fa Fs Hb)
    as [F U].
  { rewrite Hv. rewrite Z.abs_eq by lia. lia. }
  pose proof (SFadd_nonneg F64.prec F64.emax prec64_pos prec64_lt_emax acc sq
                Va Vs Fa Fs ltac:(lia)) as Hnn.
  rewrite Hv in U.
  split; [split; [|exact F]|lia].
  apply SFadd_valid; try assumption; reflexivity.
Qed.

(** [float(std::sqrt(acc / double(n)))] for a sum of [n] squares. *)
Lemma root_mean (n : Z) (acc : double) :
  0 < n < 2 ^ 53 -> within64 n acc ->
  F32.valid (float_of_double (F64.sqrt (F64.div acc (F64.of_Z n)))) = true
  /\ in_unit (float_of_double (F64.sqrt (F64.div acc (F64.of_Z n)))).
Proof.
  intros Hn [[Va Fa] Ra]. unfold F64.valid, F64.div, F64.sqrt in *.
  destruct (int64_bound n Hn) as (mn & en & En & Bn & Sn). rewrite En.
  assert (P : 0 < 2 ^ 1074) by reflexivity.
  (* the quotient is in [0, 1] *)
  pose proof (SFdiv_valid F64.prec F64.emax prec64_pos acc
                (S754_finite false mn en) Va Bn) as Vq.
  destruct (SFdiv_upper F64.prec F64.emax prec64_pos prec64_lt_emax acc
              (S754_finite false mn en) 4503599627370496 (-52) Va Bn Fa
              ltac:(eauto) eq_refl) as [Fq Uq].
  { change (4503599627370496 * 2 ^ (-52 - SpecFloat.emin F64.prec F64.emax))
      with (2 ^ 1074).
    change (- SpecFloat.emin F64.prec F64.emax) with 1074.
    cbn [Rnd.sv cond_Zopp]. rewrite Sn.
    rewrite !Z.abs_eq by nia. nia. }
  assert (Nq : 0 <= sv64 (SFdiv F64.prec F64.emax acc (S754_finite false mn en))).
  { apply (SFdiv_nonneg F64.prec F64.emax prec64_pos); eauto. lia. }
  change (4503599627370496 * 2 ^ (-52 - SpecFloat.emin F64.prec F64.emax))
    with (2 ^ 1074) in Uq.
  rewrite Z.abs_eq in Uq by exact Nq.
  set (q := SFdiv F64.prec F64.emax acc (S754_finite false mn en)) in *.
  (* so is its square root *)
  pose proof (SFsqrt_valid F64.prec F64.emax prec64_pos q Vq) as Vr.
  pose proof (SFsqrt_nonneg F64.prec F64.emax prec64_pos q) as Nr.
  destruct (SFsqrt_le_one F64.prec F64.emax prec64_pos prec64_lt_emax q Vq Fq)
    as [Fr Ur].
  { change (- SpecFloat.emin F64.prec F64.emax) with 1074. lia. }
  change (- SpecFloat.emin F64.prec F64.emax) with 1074 in Ur.
  set (r := SFsqrt F64.prec F64.emax q) in *.
  (* and the float nearest to it *)
  destruct r as [s|s| |s m e]; try discriminate.
  - cbn [float_of_double]. split; [reflexivity|]. destruct s; split; reflexivity.
  - cbn [valid_binary] in Vr.
    destruct (bounded_inv F64.prec F64.emax prec64_pos m e Vr)
      as (_ & _ & Hemn & _).
    rewrite emin64 in Hemn.
    assert (s = false) as ->.
    { apply (sv_nonneg_sign F64.prec F64.emax s m e);
        [rewrite emin64; exact Hemn|exact Nr]. }
    cbn [Rnd.sv cond_Zopp] in Ur. rewrite emin64 in Ur.
    cbn [float_of_double].
    destruct (binary_round_valid F32.prec F32.emax prec32_pos prec32_lt_emax
                false m e) as [V Sg].
    destruct (binary_round_upper F32.prec F32.emax prec32_pos false m e
                8388608 (-23) (-1074) eq_refl ltac:(lia) ltac:(lia)) as [F U].
    { change (8388608 * 2 ^ (-23 - -1074)) with (2 ^ 1074). exact Ur. }
    change (8388608 * 2 ^ (-23 - SpecFloat.emin F32.prec F32.emax))
      with (2 ^ 149) in U.
    rewrite <- (abs_sv F32.prec F32.emax) in U.
    pose proof (sv_sign F32.prec F32.emax false _ Sg) as Nf. cbv iota in Nf.
    set (y := binary_round F32.prec F32.emax false m e) in *.
    assert (Fy : finite32 y) by (split; assumption).
    assert (F0 : finite32 f_0) by (split; reflexivity).
    assert (F1 : finite32 f_1) by (split; reflexivity).
    split; [exact V|]. unfold in_unit.
    rewrite (le32_sv f_0 y F0 Fy), (le32_sv y f_1 Fy F1), sv32_f_0, sv32_f_1.
    split; apply Z.leb_le; lia.
Qed.

End Binary64.

Section RootMeanSquare.
Import FeatureExtractor.

Lemma sum_squares_within (b : list float) (acc : double) (k : Z) :
  Forall (in_range f_neg1 f_1) b ->
  0 <= k -> k + Z.of_nat (length b) < 2 ^ 53 ->
  within64 k acc ->
  within64 (k + Z.of_nat (length b))
    (fold_left
       (fun acc x =>
          F64.add acc (F64.mul (double_of_float x) (double_of_float x)))
       b acc).
Proof.
  revert acc k. induction b as [|x b IH]; intros acc k Hb Hk Hlen Hacc.
  - cbn [fold_left length]. rewrite Z.add_0_r. exact Hacc.
  - apply Forall_cons_1 in Hb. destruct Hb as [Hx Hb].
    cbn [fold_left length] in *.
    replace (k + Z.of_nat (S (length b))) with ((k + 1) + Z.of_nat (length b))
      by lia.
    apply IH; [exact Hb|lia|lia|].
    apply sum_step; [lia|lia|exact Hacc|].
    assert (Fn : finite32 f_neg1) by (split; reflexivity).
    assert (F1 : finite32 f_1) by (split; reflexivity).
    destruct (in_range_sv _ _ _ Fn F1 Hx) as [Fx Rx].
    rewrite sv32_f_neg1, sv32_f_1 in Rx.
    destruct (double_of_float_bound x Fx ltac:(lia)) as [Fd Bd].
    apply square64; assumption.
Qed.

(** The RMS of a window of samples in [[-1, 1]] is in [[0, 1]]: the sum
    of the squares, the mean and the square root, each rounded in
    [double], and the conversion to [float] never leave the range. *)
Theorem rms_in_unit (fe : t) :
  (length (buf fe) <= FrameSize)%nat ->
  Forall (in_range f_neg1 f_1) (buf fe) ->
  F32.valid (rms fe) = true /\ in_unit (rms fe).
Proof.
  intros Hlen Hb. unfold rms.
  destruct (buf fe) as [|x b] eqn:E.
  - split; [reflexivity|split; reflexivity].
  - rewrite <- E in *. unfold FrameSize in Hlen.
    assert (Hn : 0 < Z.of_nat (length (buf fe)) < 2 ^ 53).
    { split; [rewrite E; cbn [length]; lia|].
      assert (Z.of_nat (length (buf fe)) <= 1024) by lia.
      assert (1024 < 2 ^ 53) by reflexivity. lia. }
    apply root_mean; [exact Hn|].
    pose proof (sum_squares_within (buf fe) F64.zero 0 Hb ltac:(lia)
                  ltac:(lia) (within64_zero 0 ltac:(lia))) as H.
    rewrite Z.add_0_l in H. exact H.
Qed.

(** A window of three samples. *)
Lemma rms_in_unit_witness :
  F32.valid (rms {| buf := [f_0_5; f_neg1; f_0_25] |}) = true
  /\ in_unit (rms {| buf := [f_0_5; f_neg1; f_0_25] |}).
Proof.
  apply (rms_in_unit {| buf := [f_0_5; f_neg1; f_0_25] |}).
  - unfold FrameSize. cbn [buf length]. lia.
  - repeat constructor.
Defined.

End RootMeanSquare.

Section Attenuation.

(** After any sequence of targets in [[0, 1]], the state of a smoother
    whose coefficient and state were in [[0, 1]] is in [[0, 1]], and so is
    what it returns for the next such target.  (The rounding of
    [1.0f - a] and of the sum cannot carry the result above 1.) *)
Theorem smoother_keeps_unit_range (s : OnePoleSmoother.t)
    (targets : list float) :
  in_range f_0 f_1 (OnePoleSmoother.a s) ->
  in_range f_0 f_1 (OnePoleSmoother.z s) ->
  Forall (in_range f_0 f_1) targets ->
  let s' := foldl (fun s t => fst (OnePoleSmoother.process t s)) s targets in
  OnePoleSmoother.a s' = OnePoleSmoother.a s
  /\ in_range f_0 f_1 (OnePoleSmoother.z s')
  /\ forall t, in_range f_0 f_1 t ->
       in_range f_0 f_1 (snd (OnePoleSmoother.process t s')).
Proof.
  intros Ha Hz Ht. cbv zeta. revert s Ha Hz.
  induction Ht as [|t targets Ht Hts IH]; intros s Ha Hz.
  - cbn [foldl]. split; [reflexivity|]. split; [exact Hz|].
    intros t Ht. apply step_unit; assumption.
  - cbn [foldl].
    destruct (IH (fst (OnePoleSmoother.process t s))) as (Ea & Hz' & Hn).
    + exact Ha.
    + cbn. apply step_unit; assumption.
    + split; [rewrite Ea; reflexivity|]. split; [exact Hz'|exact Hn].
Qed.

(** A smoother at 48 kHz that moves from 0.25 towards 1 and back to 0.5. *)
Lemma smoother_keeps_unit_range_witness :
  let s := OnePoleSmoother.reset f_0_25
             (OnePoleSmoother.setSampleRate libm_ref d_48000
                OnePoleSmoother.init) in
  let s' := foldl (fun s t => fst (OnePoleSmoother.process t s)) s
              [f_1; f_1; f_0_5] in
  OnePoleSmoother.a s' = OnePoleSmoother.a s
  /\ in_range f_0 f_1 (OnePoleSmoother.z s')
  /\ forall t, in_range f_0 f_1 t ->
       in_range f_0 f_1 (snd (OnePoleSmoother.process t s')).
Proof.
  apply (smoother_keeps_unit_range
           (OnePoleSmoother.reset f_0_25
              (OnePoleSmoother.setSampleRate libm_ref d_48000
                 OnePoleSmoother.init)) [f_1; f_1; f_0_5]).
  - repeat split.
  - repeat split.
  - repeat constructor.
Defined.

Lemma gain_unit (d l : float) :
  in_range f_0 f_1 d -> in_range f_0 f_1 l ->
  finite32 (f_1 - d * l)%f32 /\ 0 <= sv32 (f_1 - d * l)%f32 <= 2 ^ 149.
Proof.
  intros Hd Hl.
  assert (F0 : finite32 f_0) by (split; reflexivity).
  assert (F1 : finite32 f_1) by (split; reflexivity).
  destruct (in_range_sv _ _ _ F0 F1 Hd) as [Fd Rd].
  destruct (in_range_sv _ _ _ F0 F1 Hl) as [Fl Rl].
  rewrite sv32_f_0, sv32_f_1 in Rd, Rl.
  destruct (mul32_le_left d l Fd Fl ltac:(lia) Rl) as [Fp Rp].
  destruct (one_minus (d * l)%f32 Fp ltac:(lia)) as (Fg & Rg & _).
  split; assumption.
Qed.

Lemma add32_any_zero (s : bool) (w : float) :
  finite32 w ->
  finite32 (S754_zero s + w)%f32 /\ sv32 (S754_zero s + w)%f32 = sv32 w.
Proof.
  intros Fw. destruct w as [sw|sw| |sw mw ew]; try (destruct Fw; discriminate).
  - destruct s, sw; (split; [split; reflexivity|reflexivity]).
  - split; [exact Fw|reflexivity].
Qed.

Lemma clamp11_abs (y : float) :
  finite32 y ->
  finite32 (clamp11 y) /\ Z.abs (sv32 (clamp11 y)) <= Z.abs (sv32 y).
Proof.
  intros Fy.
  assert (F1 : finite32 f_1) by (split; reflexivity).
  assert (Fn : finite32 f_neg1) by (split; reflexivity).
  unfold clamp11, std_max, std_min.
  rewrite (lt32_sv y f_1 Fy F1), sv32_f_1.
  destruct (Z.ltb_spec (sv32 y) (2 ^ 149)) as [Hlt|Hge].
  - rewrite (lt32_sv f_neg1 y Fn Fy), sv32_f_neg1.
    destruct (Z.ltb_spec (- 2 ^ 149) (sv32 y)) as [Hgt|Hle].
    + split; [exact Fy|lia].
    + split; [exact Fn|]. rewrite sv32_f_neg1. lia.
  - change ((f_neg1 <? f_1)%f32) with true. cbv iota.
    split; [exact F1|]. rewrite sv32_f_1. lia.
Qed.

(** A product with a gain in [[0, 1]] is not larger than the sample. *)
Lemma mul32_gain (x g : float) :
  finite32 x -> finite32 g -> 0 <= sv32 g <= 2 ^ 149 ->
  finite32 (x * g)%f32 /\ Z.abs (sv32 (x * g)%f32) <= Z.abs (sv32 x).
Proof.
  intros Fx Fg Hg.
  destruct x as [s|s| |s m e]; try (destruct Fx; discriminate).
  - destruct g as [sg|sg| |sg mg eg]; try (destruct Fg; discriminate);
      (split; [split; reflexivity|cbn; lia]).
  - destruct (finite32_exp s m e Fx) as [He _].
    pose proof (pow2_pos (e + 149) ltac:(lia)) as Pe.
    assert (Fb : finite32 (S754_finite false m e)) by exact Fx.
    assert (Sb : sv32 (S754_finite false m e) = Z.abs (sv32 (S754_finite s m e))).
    { rewrite !sv32_finite. destruct s; cbn [cond_Zopp]; lia. }
    destruct (mul32_bound (S754_finite false m e) (S754_finite s m e) g Fb
                ltac:(rewrite sv32_finite; cbn [cond_Zopp]; nia) Fx Fg) as [F B].
    { rewrite Sb. rewrite (Z.abs_eq (sv32 g)) by lia.
      assert (0 <= Z.abs (sv32 (S754_finite s m e))) by lia. nia. }
    rewrite Sb in B. split; assumption.
Qed.

(** With the wet mix at 1 and a gain in [[0, 1]], the sample written is
    not larger in magnitude than the input with [tiny] added. *)
Lemma out_sample_attenuates (tr : Tremolo.t) (s g : float) :
  Tremolo.wet_ tr = f_1 -> finite32 s -> finite32 g ->
  0 <= sv32 g <= 2 ^ 149 ->
  finite32 (Tremolo.out_sample tr s g)
  /\ Z.abs (sv32 (Tremolo.out_sample tr s g))
     <= Z.abs (sv32 (s + f_1e_20)%f32).
Proof.
  intros Hw Fs Fg Hg. unfold Tremolo.out_sample, Tremolo.mix. rewrite Hw.
  pose proof (add32_tiny_finite s Fs) as Fx.
  set (x := (s + f_1e_20)%f32) in *.
  change (f_1 - f_1)%f32 with f_0.
  destruct (mul32_zero_l x (proj2 Fx)) as [sz ->].
  destruct (mul32_gain x g Fx Fg Hg) as [Fw Bw].
  rewrite (mul32_one_l (x * g)%f32 (proj1 Fw)).
  destruct (add32_any_zero sz (x * g)%f32 Fw) as [Fsum Ssum].
  destruct (clamp11_abs _ Fsum) as [Fc Bc].
  split; [exact Fc|]. rewrite Ssum in Bc. lia.
Qed.

Lemma frame_next_depth_path (tr : Tremolo.t) :
  depth_path_ok tr -> depth_path_ok (Tremolo.frame_next tr).
Proof.
  intros (Hd & Ha & Hz). unfold depth_path_ok, Tremolo.frame_next.
  destruct (OnePoleSmoother.process (Tremolo.rateHz_ tr) (Tremolo.rateSm_ tr))
    as [rsm rateNow].
  cbn [Tremolo.shape_ Tremolo.depth_ Tremolo.depthSm_ OnePoleSmoother.process
       fst OnePoleSmoother.a OnePoleSmoother.z].
  split; [exact Hd|]. split; [exact Ha|].
  apply step_unit; assumption.
Qed.

Lemma engine_after_depth_path (n : nat) (tr : Tremolo.t) :
  depth_path_ok tr ->
  depth_path_ok (Nat.iter n Tremolo.frame_next tr).
Proof.
  intros H. induction n as [|n IH]; [exact H|].
  rewrite Nat.iter_succ. apply frame_next_depth_path. exact IH.
Qed.

Lemma frame_gain_left (libm : Libm) (tr : Tremolo.t) :
  depth_path_ok tr -> in_range f_0 f_1 (lfo_left libm tr) ->
  finite32 (fst (Tremolo.frame_gains libm tr))
  /\ 0 <= sv32 (fst (Tremolo.frame_gains libm tr)) <= 2 ^ 149.
Proof.
  intros (Hd & Ha & Hz) Hl. unfold Tremolo.frame_gains. cbn [fst].
  apply gain_unit; [|exact Hl].
  cbn. apply step_unit; assumption.
Qed.

Lemma frame_gain_right (libm : Libm) (tr : Tremolo.t) :
  depth_path_ok tr -> in_range f_0 f_1 (lfo_right libm tr) ->
  finite32 (snd (Tremolo.frame_gains libm tr))
  /\ 0 <= sv32 (snd (Tremolo.frame_gains libm tr)) <= 2 ^ 149.
Proof.
  intros (Hd & Ha & Hz) Hl. unfold Tremolo.frame_gains. cbn [snd].
  apply gain_unit; [|exact Hl].
  cbn. apply step_unit; assumption.
Qed.

(** A fully wet tremolo never makes a sample louder.  With [wet] at 1, the
    depth and the depth smoother in [[0, 1]], and the waveform in
    [[0, 1]] at the phases of the frames of the call (the left phase of
    every frame, and with two channels the right phase as well),
    [process] on finite samples writes finite samples, each no larger in
    magnitude than its input with [tiny] added: the gain
    [1 - depth * lfo] stays in [[0, 1]] through every rounding, on every
    frame.  The depth path is then in [[0, 1]] again for the next call. *)
Theorem full_wet_never_amplifies (libm : Libm) (tr : Tremolo.t)
    (buf : list float) (frames : nat) (channels : Z) :
  channels = 1 \/ channels = 2 ->
  (Z.to_nat channels * frames <= length buf)%nat ->
  Tremolo.wet_ tr = f_1 ->
  depth_path_ok tr ->
  (forall k, (k < frames)%nat ->
     in_range f_0 f_1 (lfo_left libm (Nat.iter k Tremolo.frame_next tr))) ->
  (channels = 2 ->
   forall k, (k < frames)%nat ->
     in_range f_0 f_1 (lfo_right libm (Nat.iter k Tremolo.frame_next tr))) ->
  exists tr' out,
    Tremolo.process libm tr (Some buf) frames channels = Some (tr', Some out)
    /\ depth_path_ok tr'
    /\ forall j s, (j < Z.to_nat channels * frames)%nat ->
         buf !! j = Some s -> finite32 s ->
         exists v, out !! j = Some v /\ finite32 v
           /\ Z.abs (sv32 v) <= Z.abs (sv32 (s + f_1e_20)%f32).
Proof.
  intros Hc Hlen Hw Hok HL HR.
  assert (Hcell : forall k s g,
            finite32 g /\ 0 <= sv32 g <= 2 ^ 149 ->
            finite32 s ->
            finite32 (Tremolo.out_sample (Nat.iter k Tremolo.frame_next tr) s g)
            /\ Z.abs (sv32 (Tremolo.out_sample (Nat.iter k Tremolo.frame_next tr) s g))
               <= Z.abs (sv32 (s + f_1e_20)%f32)).
  { intros k s g [Fg Rg] Fs.
    apply out_sample_attenuates; [|exact Fs|exact Fg|exact Rg].
    rewrite engine_after_wet. exact Hw. }
  destruct Hc as [-> | ->].
  - change (Z.to_nat 1) with 1%nat in *.
    destruct (process_loop_mono libm frames 0 tr buf ltac:(lia))
      as (out & Hrun & Hlo & Hsame & Hout).
    exists (Nat.iter frames Tremolo.frame_next tr), out.
    unfold Tremolo.process. change (1 <? 1) with false. cbv iota.
    rewrite Hrun. split; [reflexivity|].
    split; [apply engine_after_depth_path; exact Hok|].
    intros j s Hj Hs Fs.
    specialize (Hout j s ltac:(lia)). rewrite Nat.add_0_l in Hout.
    eexists. split; [exact (Hout Hs)|].
    apply Hcell; [|exact Fs].
    apply frame_gain_left; [apply engine_after_depth_path; exact Hok|].
    apply HL. lia.
  - change (Z.to_nat 2) with 2%nat in *.
    destruct (process_loop_stereo libm 2 frames 0 tr buf ltac:(lia)
                ltac:(lia)) as (out & Hrun & Hlo & Hsame & HLo & HRo).
    exists (Nat.iter frames Tremolo.frame_next tr), out.
    unfold Tremolo.process. change (2 <? 1) with false. cbv iota.
    rewrite Hrun. split; [reflexivity|].
    split; [apply engine_after_depth_path; exact Hok|].
    intros j s Hj Hs Fs.
    destruct (Nat.Even_or_Odd j) as [[k ->]|[k ->]].
    + specialize (HLo k s ltac:(lia)). rewrite Nat.add_0_l in HLo.
      eexists. split; [exact (HLo Hs)|].
      apply Hcell; [|exact Fs].
      apply frame_gain_left; [apply engine_after_depth_path; exact Hok|].
      apply HL. lia.
    + specialize (HRo k s ltac:(lia)). rewrite Nat.add_0_l in HRo.
      eexists. split; [exact (HRo Hs)|].
      apply Hcell; [|exact Fs].
      apply frame_gain_right; [apply engine_after_depth_path; exact Hok|].
      apply (HR eq_refl). lia.
Qed.

(** The triangle engine on two stereo frames. *)
Lemma full_wet_never_amplifies_witness :
  exists tr' out,
    Tremolo.process libm_ref triangle_engine
      (Some [f_0_5; f_neg1; f_0_25; f_1]) 2 2 = Some (tr', Some out)
    /\ depth_path_ok tr'
    /\ forall j s, (j < 4)%nat ->
         [f_0_5; f_neg1; f_0_25; f_1] !! j = Some s -> finite32 s ->
         exists v, out !! j = Some v /\ finite32 v
           /\ Z.abs (sv32 v) <= Z.abs (sv32 (s + f_1e_20)%f32).
Proof.
  apply (full_wet_never_amplifies libm_ref triangle_engine
           [f_0_5; f_neg1; f_0_25; f_1] 2 2).
  - right. reflexivity.
  - cbn. lia.
  - reflexivity.
  - repeat split.
  - intros [|[|k]] Hk; [repeat split..|lia].
  - intros _ [|[|k]] Hk; [repeat split..|lia].
Defined.

End Attenuation.

Section ParseShape.

Lemma nat_of_tolower (c : Ascii.ascii) :
  Ascii.nat_of_ascii (tolower c) =
    if ((65 <=? Ascii.nat_of_ascii c) && (Ascii.nat_of_ascii c <=? 90))%nat
    then (Ascii.nat_of_ascii c + 32)%nat else Ascii.nat_of_ascii c.
Proof.
  unfold tolower. cbv zeta.
  destruct ((65 <=? Ascii.nat_of_ascii c) && (Ascii.nat_of_ascii c <=? 90))%nat
    eqn:E; [|reflexivity].
  apply andb_true_iff in E. destruct E as [E1 E2].
  apply Nat.leb_le in E1, E2.
  apply Ascii.nat_ascii_embedding. lia.
Qed.

Lemma ascii_eqb_nat (c d : Ascii.ascii) :
  Ascii.eqb c d = (Ascii.nat_of_ascii c =? Ascii.nat_of_ascii d)%nat.
Proof.
  destruct (Ascii.eqb_spec c d) as [->|Hne].
  - symmetry. apply Nat.eqb_refl.
  - symmetry. apply Nat.eqb_neq. intros H. apply Hne.
    rewrite <- (Ascii.ascii_nat_embedding c), <- (Ascii.ascii_nat_embedding d).
    rewrite H. reflexivity.
Qed.

Lemma tolower_same_letter (c d : Ascii.ascii) :
  negb ((65 <=? Ascii.nat_of_ascii d) && (Ascii.nat_of_ascii d <=? 90))%nat
    = true ->
  Ascii.eqb (tolower c) d = same_letter c d.
Proof.
  intros Hd. rewrite ascii_eqb_nat, nat_of_tolower. unfold same_letter.
  cbv zeta. apply negb_true_iff in Hd. rewrite Hd, orb_false_r.
  set (n := Ascii.nat_of_ascii c) in *. set (k := Ascii.nat_of_ascii d) in *.
  destruct ((65 <=? n) && (n <=? 90))%nat eqn:E.
  - cbn [andb]. rewrite (Nat.eqb_sym k).
    destruct (Nat.eqb_spec n k) as [Heq|_]; [|reflexivity].
    rewrite <- Heq, E in Hd. discriminate.
  - cbn [andb]. rewrite orb_false_r. reflexivity.
Qed.

Lemma lower_is (s t l : string) :
  no_upper t = true -> lower s = Some l ->
  String.eqb l t = same_word s t.
Proof.
  revert t l. induction s as [|c s IH]; intros t l Ht Hl.
  - cbn in Hl. injection Hl as <-. destruct t; reflexivity.
  - cbn [lower] in Hl. destruct (is_basic c); [|discriminate].
    destruct (lower s) as [l'|] eqn:E; [|discriminate].
    cbn in Hl. injection Hl as <-.
    destruct t as [|d t]; [reflexivity|].
    cbn [no_upper] in Ht. apply andb_true_iff in Ht. destruct Ht as [Hd Ht].
    cbn [String.eqb same_word].
    rewrite <- (tolower_same_letter c d Hd), (IH t l' Ht eq_refl).
    destruct (Ascii.eqb (tolower c) d); reflexivity.
Qed.

Lemma lower_total (s : string) :
  all_basic s = true -> exists l, lower s = Some l.
Proof.
  induction s as [|c s IH]; intros H.
  - exists EmptyString. reflexivity.
  - cbn [all_basic] in H. apply andb_true_iff in H. destruct H as [Hc Hs].
    destruct (IH Hs) as [l Hl]. exists (String (tolower c) l).
    cbn [lower]. rewrite Hc, Hl. reflexivity.
Qed.

(** [parseShape] reads the four shape names whatever the case of their
    letters, and answers [Sine] for every other string of the basic
    character set, the empty one included: it has no way of reporting an
    unknown name. *)
Theorem parseShape_ignores_case (s : string) :
  all_basic s = true ->
  parseShape s =
    Some (if same_word s "sine" then Sine
          else if same_word s "triangle" then Triangle
          else if same_word s "square" then Square
          else if same_word s "square-soft" then SquareSoft
          else Sine).
Proof.
  intros Hs. destruct (lower_total s Hs) as [l Hl].
  unfold parseShape. rewrite Hl. cbn [mbind option_bind].
  rewrite (lower_is s "sine" l eq_refl Hl).
  rewrite (lower_is s "triangle" l eq_refl Hl).
  rewrite (lower_is s "square" l eq_refl Hl).
  rewrite (lower_is s "square-soft" l eq_refl Hl).
  reflexivity.
Qed.

(** The name of the soft square in mixed case. *)
Lemma parseShape_ignores_case_witness :
  parseShape "Square-SOFT" = Some SquareSoft.
Proof. apply (parseShape_ignores_case "Square-SOFT"). reflexivity. Defined.

End ParseShape.

Section MainLoop.
Import App.

(** The clock of [main]: [dt = 1.0 / double(sampleRate)] is in [[0, 1]] for
    a positive sample rate, and after [k] samples the time is in
    [[0, k]]. *)
Lemma dt_unit (fs : Z) :
  0 < fs < 2 ^ 53 -> within64 1 (F64.div d_1 (F64.of_Z fs)).
Proof.
  intros Hfs. unfold within64, finite64, F64.valid, F64.div.
  destruct (int64_bound fs Hfs) as (mn & en & En & Bn & Sn). rewrite En.
  assert (P : 0 < 2 ^ 1074) by reflexivity.
  assert (V1 : valid_binary F64.prec F64.emax d_1 = true) by reflexivity.
  assert (S1 : sv64 d_1 = 2 ^ 1074) by reflexivity.
  pose proof (SFdiv_valid F64.prec F64.emax prec64_pos d_1
                (S754_finite false mn en) V1 Bn) as Vq.
  destruct (SFdiv_upper F64.prec F64.emax prec64_pos prec64_lt_emax d_1
              (S754_finite false mn en) 4503599627370496 (-52) V1 Bn eq_refl
              ltac:(eauto) eq_refl) as [Fq Uq].
  { change (4503599627370496 * 2 ^ (-52 - SpecFloat.emin F64.prec F64.emax))
      with (2 ^ 1074).
    change (- SpecFloat.emin F64.prec F64.emax) with 1074.
    cbn [Rnd.sv cond_Zopp]. rewrite Sn, S1.
    rewrite !Z.abs_eq by nia. nia. }
  assert (Nq : 0 <= sv64 (SFdiv F64.prec F64.emax d_1 (S754_finite false mn en))).
  { apply (SFdiv_nonneg F64.prec F64.emax prec64_pos); eauto. rewrite S1. lia. }
  change (4503599627370496 * 2 ^ (-52 - SpecFloat.emin F64.prec F64.emax))
    with (2 ^ 1074) in Uq.
  rewrite Z.abs_eq in Uq by exact Nq.
  split; [split; assumption|]. lia.
Qed.

Lemma clock_within (dt : double) (n : nat) (k : Z) (t : double) :
  within64 1 dt -> 0 <= k -> k + Z.of_nat n < 2 ^ 53 -> within64 k t ->
  within64 (k + Z.of_nat n) (Nat.iter n (fun t => F64.add t dt) t).
Proof.
  intros Hdt Hk. induction n as [|n IH]; intros Hn Ht.
  - cbn [Nat.iter nat_rect]. replace (k + Z.of_nat 0) with k by lia. exact Ht.
  - rewrite Nat.iter_succ.
    replace (k + Z.of_nat (S n)) with (k + Z.of_nat n + 1) by lia.
    apply sum_step; [lia|lia|apply IH; [lia|exact Ht]|exact Hdt].
Qed.

(** A time in [[0, k]] converts to whole seconds when a [size_t] holds
    [k]. *)
Lemma size_t_of_floor_within (k : Z) (t : double) :
  within64 k t -> k < 2 ^ 64 -> exists z, size_t_of_floor t = Some z.
Proof.
  intros [[V F] R] Hk. unfold size_t_of_floor.
  assert (P : 0 < 2 ^ 1074) by reflexivity.
  destruct t as [s|s| |s m e]; try discriminate.
  - exists 0. reflexivity.
  - cbn [valid_binary F64.valid] in V. unfold F64.valid in V.
    cbn [valid_binary] in V.
    destruct (bounded_inv F64.prec F64.emax prec64_pos m e V)
      as (_ & _ & Hemn & _).
    rewrite emin64 in Hemn.
    assert (s = false) as ->.
    { apply (sv_nonneg_sign F64.prec F64.emax s m e);
        [rewrite emin64; exact Hemn|lia]. }
    cbn [Rnd.sv cond_Zopp] in R. rewrite emin64 in R.
    replace (e - -1074) with (e + 1074) in R by lia.
    cbn [floor_Z cond_Zopp mbind option_bind].
    set (z := if 0 <=? e then Z.pos m * 2 ^ e else Z.pos m / 2 ^ (- e)).
    assert (Hz : 0 <= z <= k).
    { unfold z. destruct (Z.leb_spec 0 e) as [He|He].
      - rewrite pow2_split in R by lia.
        pose proof (pow2_pos e He). nia.
      - pose proof (pow2_pos (- e) ltac:(lia)) as Pe.
        pose proof (Z.div_pos (Z.pos m) (2 ^ (- e)) ltac:(lia) Pe).
        pose proof (Z.mul_div_le (Z.pos m) (2 ^ (- e)) Pe).
        assert (E : 2 ^ 1074 = 2 ^ (- e) * 2 ^ (e + 1074)).
        { rewrite <- pow2_split by lia. f_equal. lia. }
        pose proof (pow2_pos (e + 1074) ltac:(lia)).
        split; [lia|].
        assert (Z.pos m / 2 ^ (- e) * 2 ^ 1074 <= k * 2 ^ 1074); [|nia].
        rewrite E at 1. nia. }
    exists z.
    destruct (Z.leb_spec 0 z); [|lia].
    destruct (Z.ltb_spec z (2 ^ 64)); [|lia]. reflexivity.
Qed.

(** The time after the feature loop: one addition of [dt] per sample. *)
Lemma feature_loop_time (args : Args) (nch : Z) (dt : double)
    (bb : list float) (n i : nat)
    (st st' : Tremolo.t * FeatureExtractor.t * double) :
  feature_loop args nch dt bb n i st = Some st' ->
  snd st' = Nat.iter n (fun t => F64.add t dt) (snd st).
Proof.
  revert i st. induction n as [|n IH]; intros i st H.
  - cbn in H. injection H as <-. reflexivity.
  - cbn [feature_loop] in H.
    destruct (feature_step args nch dt bb i st) as [st1|] eqn:E;
      [|discriminate H].
    cbn [mbind option_bind] in H.
    rewrite (IH _ _ H). rewrite Nat.iter_succ_r. f_equal.
    unfold feature_step in E. destruct st as [[tr fe] t].
    destruct (bb !! (if nch =? 1 then i else (i * 2 + 0)%nat)) as [L|];
      cbn [mbind option_bind] in E; [|discriminate E].
    destruct (bb !! (if nch =? 1 then i else (i * 2 + 1)%nat)) as [R|];
      cbn [mbind option_bind] in E; [|discriminate E].
    destruct (FeatureExtractor.ready _); cbn [NoOpController_update] in E;
      injection E as <-; reflexivity.
Qed.

(** An engine whose depth and rate targets are those of the command
    line. *)
Lemma retarget_fixed (args : Args) (tr : Tremolo.t) :
  Tremolo.depth_ tr = clamp01 (depth args) ->
  Tremolo.rateHz_ tr = std_max f_0_0001 (rate args) ->
  retarget args tr = tr.
Proof.
  intros Hd Hr. destruct tr. cbn in *. subst.
  reflexivity.
Qed.

Lemma retarget_retarget (args : Args) (tr : Tremolo.t) :
  retarget args (retarget args tr) = retarget args tr.
Proof. reflexivity. Qed.

Lemma frame_next_retarget (args : Args) (tr : Tremolo.t) :
  retarget args tr = tr ->
  retarget args (Tremolo.frame_next tr) = Tremolo.frame_next tr.
Proof.
  intros H.
  assert (Hd : Tremolo.depth_ tr = clamp01 (depth args)) by (rewrite <- H; reflexivity).
  assert (Hr : Tremolo.rateHz_ tr = std_max f_0_0001 (rate args))
    by (rewrite <- H; reflexivity).
  apply retarget_fixed.
  - rewrite <- Hd. unfold Tremolo.frame_next.
    destruct (OnePoleSmoother.process _ _). reflexivity.
  - rewrite <- Hr. unfold Tremolo.frame_next.
    destruct (OnePoleSmoother.process _ _). reflexivity.
Qed.

Lemma engine_after_retarget (args : Args) (n : nat) (tr : Tremolo.t) :
  retarget args tr = tr ->
  retarget args (Nat.iter n Tremolo.frame_next tr)
    = Nat.iter n Tremolo.frame_next tr.
Proof.
  intros H. induction n as [|n IH]; [exact H|].
  rewrite Nat.iter_succ. apply frame_next_retarget. exact IH.
Qed.

(** One step of the feature loop without [--demo]. *)
Lemma feature_step_plain (args : Args) (nch : Z) (dt : double)
    (bb : list float) (i : nat) (tr : Tremolo.t) (fe : FeatureExtractor.t)
    (t : double) (L R : float) :
  demo args = false ->
  bb !! (if nch =? 1 then i else (i * 2 + 0)%nat) = Some L ->
  bb !! (if nch =? 1 then i else (i * 2 + 1)%nat) = Some R ->
  feature_step args nch dt bb i (tr, fe, t) =
    Some (if FeatureExtractor.ready (FeatureExtractor.pushSample L R fe)
          then retarget args tr else tr,
          if FeatureExtractor.ready (FeatureExtractor.pushSample L R fe)
          then FeatureExtractor.reset (FeatureExtractor.pushSample L R fe)
          else FeatureExtractor.pushSample L R fe,
          F64.add t dt).
Proof.
  intros Hdemo HL HR. unfold feature_step. rewrite HL, HR, Hdemo.
  cbn [mbind option_bind andb].
  destruct (FeatureExtractor.ready (FeatureExtractor.pushSample L R fe));
    reflexivity.
Qed.

(** The reads of the feature loop stay inside a block that holds the
    frames. *)
Lemma block_reads (nch : Z) (bb : list float) (i : nat) :
  nch = 1 \/ nch = 2 -> (Z.to_nat nch * S i <= length bb)%nat ->
  exists L R,
    bb !! (if nch =? 1 then i else (i * 2 + 0)%nat) = Some L
    /\ bb !! (if nch =? 1 then i else (i * 2 + 1)%nat) = Some R.
Proof.
  intros [-> | ->] Hlen.
  - change (Z.to_nat 1) with 1%nat in Hlen. cbn [Z.eqb Pos.eqb].
    destruct (lookup_lt_is_Some_2 bb i ltac:(lia)) as [L HL]. eauto.
  - change (Z.to_nat 2) with 2%nat in Hlen. cbn [Z.eqb Pos.eqb].
    destruct (lookup_lt_is_Some_2 bb (i * 2 + 0)%nat ltac:(lia)) as [L HL].
    destruct (lookup_lt_is_Some_2 bb (i * 2 + 1)%nat ltac:(lia)) as [R HR].
    eauto.
Qed.

(** While the window does not fill up, the feature loop leaves the engine
    as it is. *)
Lemma feature_loop_short (args : Args) (nch : Z) (dt : double)
    (bb : list float) (n i : nat) (tr : Tremolo.t)
    (fe : FeatureExtractor.t) (t : double) :
  demo args = false -> nch = 1 \/ nch = 2 ->
  (Z.to_nat nch * (i + n) <= length bb)%nat ->
  (length (FeatureExtractor.buf fe) + n < FeatureExtractor.FrameSize)%nat ->
  exists fe' t',
    feature_loop args nch dt bb n i (tr, fe, t) = Some (tr, fe', t')
    /\ length (FeatureExtractor.buf fe')
       = (length (FeatureExtractor.buf fe) + n)%nat.
Proof.
  intros Hdemo Hch. revert i fe t.
  induction n as [|n IH]; intros i fe t Hlen Hfe.
  - exists fe, t. split; [reflexivity|lia].
  - destruct (block_reads nch bb i Hch ltac:(lia)) as (L & R & HL & HR).
    cbn [feature_loop].
    rewrite (feature_step_plain args nch dt bb i tr fe t L R Hdemo HL HR).
    cbn [mbind option_bind].
    assert (Hp : length (FeatureExtractor.buf (FeatureExtractor.pushSample L R fe))
                 = S (length (FeatureExtractor.buf fe))).
    { rewrite pushSample_length by lia. lia. }
    assert (Hr : FeatureExtractor.ready (FeatureExtractor.pushSample L R fe)
                 = false).
    { unfold FeatureExtractor.ready. apply Nat.eqb_neq. lia. }
    rewrite Hr.
    destruct (IH (S i) (FeatureExtractor.pushSample L R fe) (F64.add t dt)
                ltac:(lia) ltac:(lia)) as (fe' & t' & Hrun & Hl).
    exists fe', t'. split; [exact Hrun|lia].
Qed.

(** An engine that already has the targets of the command line is left as
    it is by the feature loop. *)
Lemma feature_loop_settled (args : Args) (nch : Z) (dt : double)
    (bb : list float) (n i : nat) (tr : Tremolo.t)
    (fe : FeatureExtractor.t) (t : double) :
  demo args = false -> nch = 1 \/ nch = 2 ->
  (Z.to_nat nch * (i + n) <= length bb)%nat ->
  retarget args tr = tr ->
  exists fe' t', feature_loop args nch dt bb n i (tr, fe, t) = Some (tr, fe', t').
Proof.
  intros Hdemo Hch. revert i fe t.
  induction n as [|n IH]; intros i fe t Hlen Hs.
  - exists fe, t. reflexivity.
  - destruct (block_reads nch bb i Hch ltac:(lia)) as (L & R & HL & HR).
    cbn [feature_loop].
    rewrite (feature_step_plain args nch dt bb i tr fe t L R Hdemo HL HR).
    cbn [mbind option_bind]. rewrite Hs.
    replace (if FeatureExtractor.ready (FeatureExtractor.pushSample L R fe)
             then tr else tr) with tr by (destruct (FeatureExtractor.ready _); reflexivity).
    apply IH; [lia|exact Hs].
Qed.

(** When the window fills up with the last sample of the block, the
    feature loop ends with the targets of the command line set again and
    the window empty. *)
Lemma feature_loop_fire (args : Args) (nch : Z) (dt : double)
    (bb : list float) (n i : nat) (tr : Tremolo.t)
    (fe : FeatureExtractor.t) (t : double) :
  demo args = false -> nch = 1 \/ nch = 2 ->
  (Z.to_nat nch * (i + S n) <= length bb)%nat ->
  (length (FeatureExtractor.buf fe) + S n = FeatureExtractor.FrameSize)%nat ->
  exists fe' t',
    feature_loop args nch dt bb (S n) i (tr, fe, t)
      = Some (retarget args tr, fe', t')
    /\ FeatureExtractor.buf fe' = [].
Proof.
  intros Hdemo Hch. revert i fe t.
  induction n as [|n IH]; intros i fe t Hlen Hfe.
  - destruct (block_reads nch bb i Hch ltac:(lia)) as (L & R & HL & HR).
    cbn [feature_loop].
    rewrite (feature_step_plain args nch dt bb i tr fe t L R Hdemo HL HR).
    cbn [mbind option_bind].
    assert (Hr : FeatureExtractor.ready (FeatureExtractor.pushSample L R fe)
                 = true).
    { unfold FeatureExtractor.ready. apply Nat.eqb_eq.
      rewrite pushSample_length by lia. lia. }
    rewrite Hr. eexists _, _. split; reflexivity.
  - destruct (block_reads nch bb i Hch ltac:(lia)) as (L & R & HL & HR).
    cbn [feature_loop].
    rewrite (feature_step_plain args nch dt bb i tr fe t L R Hdemo HL HR).
    cbn [mbind option_bind].
    assert (Hp : length (FeatureExtractor.buf (FeatureExtractor.pushSample L R fe))
                 = S (length (FeatureExtractor.buf fe))).
    { rewrite pushSample_length by lia. lia. }
    assert (Hr : FeatureExtractor.ready (FeatureExtractor.pushSample L R fe)
                 = false).
    { unfold FeatureExtractor.ready. apply Nat.eqb_neq. lia. }
    rewrite Hr.
    apply (IH (S i) (FeatureExtractor.pushSample L R fe) (F64.add t dt));
      lia.
Qed.

(** [process] on a block that lies at the head of a longer buffer. *)
Lemma process_block (libm : Libm) (tr : Tremolo.t) (chunk rest : list float)
    (todo : nat) (nch : Z) :
  nch = 1 \/ nch = 2 ->
  length chunk = (Z.to_nat nch * todo)%nat ->
  exists o,
    Tremolo.process libm tr (Some chunk) todo nch =
      Some (Nat.iter todo Tremolo.frame_next tr, Some o)
    /\ Tremolo.process libm tr (Some (chunk ++ rest)) todo nch =
         Some (Nat.iter todo Tremolo.frame_next tr, Some (o ++ rest))
    /\ length o = length chunk.
Proof.
  intros Hc Hlen.
  destruct (process_append libm tr chunk rest todo 0 nch Hc Hlen ltac:(lia))
    as (o1 & o2 & R1 & R2 & R & L1 & L2).
  rewrite Nat.add_0_r in R, R2.
  assert (Ho2 : o2 = rest).
  { unfold Tremolo.process in R2.
    destruct Hc as [-> | ->]; cbn in R2; congruence. }
  subst o2. exists o1. auto.
Qed.

Lemma block_step_spec (libm : Libm) (args : Args) (nch : Z) (dt : double)
    (frames : nat) (st : state) (trX : Tremolo.t)
    (feX : FeatureExtractor.t) (tX : double) :
  nch = 1 \/ nch = 2 ->
  let todo := Nat.min block (frames - processed st) in
  let n := (todo * Z.to_nat nch)%nat in
  let off := (processed st * Z.to_nat nch)%nat in
  (off + n <= length (audio_samples st))%nat ->
  length (blockBuf st) = (block * Z.to_nat nch)%nat ->
  feature_loop args nch dt
    (take n (drop off (audio_samples st)) ++ drop n (blockBuf st)) todo 0
    (trem st, feat st, timeSec st) = Some (trX, feX, tX) ->
  within64 1 dt -> Z.of_nat frames < 2 ^ 53 ->
  (processed st <= frames)%nat ->
  within64 (Z.of_nat (processed st)) (timeSec st) ->
  exists o,
    within64 (Z.of_nat (processed st + todo)) tX /\
    Tremolo.process libm trX (Some (take n (drop off (audio_samples st))))
      todo nch = Some (Nat.iter todo Tremolo.frame_next trX, Some o)
    /\ length o = n
    /\ block_step libm args nch dt frames st =
         Some {| trem := Nat.iter todo Tremolo.frame_next trX;
                 feat := feX; timeSec := tX;
                 audio_samples :=
                   take off (audio_samples st) ++ o
                   ++ drop (off + n) (audio_samples st);
                 blockBuf := o ++ drop n (blockBuf st);
                 processed := (processed st + todo)%nat |}.
Proof.
  intros Hc todo n off Hin Hbb Hfl Hdt Hfr Hp Hclock.
  assert (HtX : within64 (Z.of_nat (processed st + todo)) tX).
  { pose proof (feature_loop_time _ _ _ _ _ _ _ _ Hfl) as E.
    cbn [snd] in E. rewrite E, Nat2Z.inj_add.
    apply clock_within; [exact Hdt|lia|unfold todo; lia|exact Hclock]. }
  destruct (size_t_of_floor_within _ tX HtX ltac:(unfold todo; lia))
    as [curSec HcurSec].
  assert (Hchunk : length (take n (drop off (audio_samples st))) = n).
  { rewrite length_take, length_drop. lia. }
  destruct (process_block libm trX (take n (drop off (audio_samples st)))
              (drop n (blockBuf st)) todo nch Hc ltac:(rewrite Hchunk; unfold n; lia))
    as (o & R1 & R2 & Lo).
  exists o. split; [exact HtX|]. split; [exact R1|]. split; [lia|].
  unfold block_step. fold todo. fold n. fold off.
  assert (Hn : (n <= length (blockBuf st))%nat).
  { rewrite Hbb. unfold n, todo. unfold block. nia. }
  destruct (Nat.leb_spec (off + n) (length (audio_samples st))) as [_|]; [|lia].
  destruct (Nat.leb_spec n (length (blockBuf st))) as [_|]; [|lia].
  cbn [andb]. rewrite Hfl. cbn [mbind option_bind]. rewrite R2.
  cbn [mbind option_bind]. rewrite HcurSec. cbn [mbind option_bind].
  rewrite take_app_length' by lia. reflexivity.
Qed.

(** Once the engine has the targets of the command line, or when the
    frames that are left do not fill the analysis window, the rest of the
    loop is one [process] call on those frames. *)
Lemma main_loop_quiet (libm : Libm) (args : Args) (nch : Z) (dt : double)
    (frames fuel : nat) (st : state) :
  demo args = false -> nch = 1 \/ nch = 2 ->
  retarget args (trem st) = trem st
  \/ (length (FeatureExtractor.buf (feat st)) + (frames - processed st)
      < FeatureExtractor.FrameSize)%nat ->
  (processed st <= frames)%nat ->
  (frames * Z.to_nat nch <= length (audio_samples st))%nat ->
  length (blockBuf st) = (block * Z.to_nat nch)%nat ->
  (frames - processed st <= fuel)%nat ->
  within64 1 dt -> Z.of_nat frames < 2 ^ 53 ->
  within64 (Z.of_nat (processed st)) (timeSec st) ->
  exists st' tr' o,
    main_loop libm args nch dt frames fuel st = Some st'
    /\ Tremolo.process libm (trem st)
         (Some (take ((frames - processed st) * Z.to_nat nch)
                  (drop (processed st * Z.to_nat nch) (audio_samples st))))
         (frames - processed st) nch = Some (tr', Some o)
    /\ audio_samples st' =
         take (processed st * Z.to_nat nch) (audio_samples st) ++ o
         ++ drop (frames * Z.to_nat nch) (audio_samples st).
Proof.
  intros Hdemo Hc. revert st.
  induction fuel as [|fuel IH]; intros st Hs Hp Hlen Hbb Hfuel Hdt Hfr Hclock.
  - assert (Hdone : processed st = frames) by lia.
    exists st, (trem st), []. cbn [main_loop].
    rewrite Hdone, Nat.ltb_irrefl, Nat.sub_diag. cbn [Nat.mul take].
    split; [reflexivity|]. split.
    + unfold Tremolo.process. destruct Hc as [-> | ->]; reflexivity.
    + cbn [app]. symmetry. apply take_drop.
  - cbn [main_loop].
    destruct (Nat.ltb_spec (processed st) frames) as [Hlt|Hge].
    + set (c := Z.to_nat nch) in *.
      assert (Hcpos : (c = 1 \/ c = 2)%nat)
        by (unfold c; destruct Hc as [-> | ->]; [left|right]; reflexivity).
      set (todo := Nat.min block (frames - processed st)).
      set (n := (todo * c)%nat). set (off := (processed st * c)%nat).
      assert (Htodo : (1 <= todo <= frames - processed st)%nat)
        by (unfold todo, block; lia).
      assert (Hin : (off + n <= length (audio_samples st))%nat)
        by (unfold off, n; nia).
      assert (Hn : (n <= length (blockBuf st))%nat)
        by (rewrite Hbb; unfold n, todo, block; nia).
      assert (Hbbl : (Z.to_nat nch * (0 + todo)
                      <= length (take n (drop off (audio_samples st))
                                 ++ drop n (blockBuf st)))%nat).
      { rewrite length_app, length_take, !length_drop. fold c. unfold n. nia. }
      assert (Hfl : exists feX tX,
                 feature_loop args nch dt
                   (take n (drop off (audio_samples st)) ++ drop n (blockBuf st))
                   todo 0 (trem st, feat st, timeSec st)
                   = Some (trem st, feX, tX)
                 /\ (retarget args (trem st) = trem st
                     \/ (length (FeatureExtractor.buf feX)
                         + (frames - (processed st + todo))
                         < FeatureExtractor.FrameSize)%nat)).
      { destruct Hs as [Hs|Hs].
        - destruct (feature_loop_settled args nch dt _ todo 0 (trem st)
                      (feat st) (timeSec st) Hdemo Hc Hbbl Hs)
            as (feX & tX & Hfl).
          exists feX, tX. split; [exact Hfl|left; exact Hs].
        - destruct (feature_loop_short args nch dt _ todo 0 (trem st)
                      (feat st) (timeSec st) Hdemo Hc Hbbl ltac:(lia))
            as (feX & tX & Hfl & Hl).
          exists feX, tX. split; [exact Hfl|right; lia]. }
      destruct Hfl as (feX & tX & Hfl & Hs1).
      destruct (block_step_spec libm args nch dt frames st (trem st) feX tX Hc
                  Hin Hbb Hfl Hdt Hfr Hp Hclock) as (o & HtX & R1 & Lo & Hstep).
      fold c todo n off in R1, Lo, Hstep. rewrite Hstep.
      cbn [mbind option_bind].
      set (st1 := {| trem := Nat.iter todo Tremolo.frame_next (trem st);
                     feat := feX; timeSec := tX;
                     audio_samples :=
                       take off (audio_samples st) ++ o
                       ++ drop (off + n) (audio_samples st);
                     blockBuf := o ++ drop n (blockBuf st);
                     processed := (processed st + todo)%nat |}).
      assert (Hoff : length (take off (audio_samples st)) = off)
        by (rewrite length_take; lia).
      assert (Hlen1 : length (audio_samples st1) = length (audio_samples st)).
      { cbn [audio_samples st1]. rewrite !length_app, Hoff, Lo, length_drop. lia. }
      destruct (IH st1) as (st' & tr' & o' & Hrun & Hproc & Hout).
      { cbn [trem feat processed st1].
        destruct Hs1 as [Hs1|Hs1]; [left|right; exact Hs1].
        apply engine_after_retarget. exact Hs1. }
      { cbn [processed st1]. lia. }
      { rewrite Hlen1. exact Hlen. }
      { cbn [blockBuf st1]. rewrite length_app, Lo, length_drop. lia. }
      { cbn [processed st1]. lia. }
      { exact Hdt. }
      { exact Hfr. }
      { cbn [processed timeSec st1]. exact HtX. }
      cbn [trem processed st1] in Hproc. cbn [processed st1] in Hout.
      fold c in Hproc, Hout.
      assert (Hp1 : ((processed st + todo) * c = off + n)%nat)
        by (unfold off, n; lia).
      rewrite Hp1 in Hproc, Hout.
      assert (Hdrop1 : drop (off + n) (audio_samples st1)
                       = drop (off + n) (audio_samples st)).
      { cbn [audio_samples st1]. rewrite app_assoc.
        rewrite drop_app_length'; [reflexivity|].
        rewrite length_app, Hoff, Lo. reflexivity. }
      assert (Htake1 : take (off + n) (audio_samples st1)
                       = take off (audio_samples st) ++ o).
      { cbn [audio_samples st1]. rewrite app_assoc.
        rewrite take_app_length'; [reflexivity|].
        rewrite length_app, Hoff, Lo. reflexivity. }
      assert (Hdropf : drop (frames * c) (audio_samples st1)
                       = drop (frames * c) (audio_samples st)).
      { replace (frames * c)%nat with ((off + n) + (frames * c - (off + n)))%nat
          by (unfold off, n; nia).
        rewrite <- (drop_drop (audio_samples st1) _ (off + n)).
        rewrite <- (drop_drop (audio_samples st) _ (off + n)).
        rewrite Hdrop1. reflexivity. }
      rewrite Hdrop1 in Hproc. rewrite Htake1, Hdropf in Hout.
      set (m := (frames - (processed st + todo))%nat) in *.
      destruct (process_append libm (trem st)
                  (take n (drop off (audio_samples st)))
                  (take (m * c) (drop (off + n) (audio_samples st)))
                  todo m nch Hc)
        as (o1 & o2 & P1 & P2 & P & L1 & L2).
      { rewrite length_take, length_drop. fold c. unfold n. lia. }
      { rewrite length_take, length_drop. fold c. unfold m, off, n. nia. }
      rewrite R1 in P1. injection P1 as <-.
      rewrite Hproc in P2. injection P2 as -> <-.
      exists st', (Nat.iter (todo + m) Tremolo.frame_next (trem st)), (o ++ o').
      split; [exact Hrun|]. split.
      * replace (frames - processed st)%nat with (todo + m)%nat
          by (unfold m; lia).
        rewrite <- P. do 3 f_equal.
        rewrite <- drop_drop.
        replace ((todo + m) * c)%nat with (n + m * c)%nat by (unfold n; lia).
        symmetry. apply take_take_drop.
      * rewrite Hout. rewrite <- !app_assoc. reflexivity.
    + assert (Hdone : processed st = frames) by lia.
      exists st, (trem st), [].
      rewrite Hdone, Nat.sub_diag. cbn [Nat.mul take].
      split; [reflexivity|]. split.
      * unfold Tremolo.process. destruct Hc as [-> | ->]; reflexivity.
      * cbn [app]. symmetry. apply take_drop.
Qed.

End MainLoop.

Section MainAudio.
Import App.

Lemma parseShape_total (s : string) :
  all_basic s = true -> exists sh, parseShape s = Some sh.
Proof.
  intros H. destruct (lower_total s H) as [l Hl].
  unfold parseShape. rewrite Hl. cbn [mbind option_bind]. eauto.
Qed.

Lemma setup_total (libm : Libm) (stof : string -> option float)
    (args : Args) (fs : Z) :
  all_basic (shape args) = true ->
  exists tr, setup libm stof args fs = Some tr.
Proof.
  intros H. destruct (parseShape_total _ H) as [sh Hsh].
  unfold setup. rewrite Hsh. cbn [mbind option_bind]. eauto.
Qed.

(** Without a rate sync the engine that [setup] builds has the targets of
    the command line. *)
Lemma setup_settled (libm : Libm) (stof : string -> option float)
    (args : Args) (fs : Z) (tr : Tremolo.t) :
  rateSync args = EmptyString ->
  setup libm stof args fs = Some tr -> retarget args tr = tr.
Proof.
  intros Hrs. unfold setup.
  destruct (parseShape (shape args)) as [sh|]; cbn [mbind option_bind];
    [|discriminate].
  rewrite Hrs. unfold Main.rateSync. cbn [String.eqb].
  intros H. injection H as <-. reflexivity.
Qed.

Lemma main_audio_unfold (libm : Libm) (stof : string -> option float)
    (args : Args) (audio : WavData) (tr : Tremolo.t) :
  channels audio = 1 \/ channels audio = 2 ->
  0 < sampleRate audio ->
  sampleRate audio * channels audio < 2 ^ 31 ->
  setup libm stof args (sampleRate audio) = Some tr ->
  main_audio libm stof args audio =
    audio_samples <$>
      main_loop libm args (channels audio)
        (F64.div d_1 (F64.of_Z (sampleRate audio)))
        (length (samples audio) / Z.to_nat (channels audio))
        (length (samples audio) / Z.to_nat (channels audio))
        {| trem := tr; feat := FeatureExtractor.init; timeSec := F64.zero;
           audio_samples := samples audio;
           blockBuf := replicate (block * Z.to_nat (channels audio)) f_0;
           processed := 0 |}.
Proof.
  intros Hc Hsr Hprod Hs. unfold main_audio. rewrite Hs.
  destruct (Z.leb_spec (- 2 ^ 31) (sampleRate audio * channels audio))
    as [_|?]; [|destruct Hc as [E | E]; rewrite E in *; lia].
  destruct (Z.ltb_spec (sampleRate audio * channels audio) (2 ^ 31))
    as [_|?]; [|lia].
  destruct Hc as [-> | ->]; cbn [Z.leb Z.compare Pos.compare Pos.compare_cont andb
    mbind option_bind]; destruct (main_loop _ _ _ _ _ _ _); reflexivity.
Qed.

Lemma frames_fit (l : list float) (nch : Z) :
  nch = 1 \/ nch = 2 ->
  (length l / Z.to_nat nch * Z.to_nat nch <= length l)%nat.
Proof.
  intros [-> | ->].
  - change (Z.to_nat 1) with 1%nat. rewrite Nat.div_1_r. lia.
  - change (Z.to_nat 2) with 2%nat.
    pose proof (Nat.div_mod_eq (length l) 2). lia.
Qed.

Lemma frames_bound (l : list float) (nch : Z) :
  nch = 1 \/ nch = 2 -> Z.of_nat (length l) < 2 ^ 31 ->
  Z.of_nat (length l / Z.to_nat nch) < 2 ^ 53.
Proof.
  intros Hc Hl. pose proof (frames_fit l nch Hc) as Hfit.
  assert (1 <= Z.to_nat nch)%nat by (destruct Hc as [-> | ->]; cbn; lia).
  assert (length l / Z.to_nat nch <= length l)%nat by nia.
  lia.
Qed.

(** Without [--demo], and without [--rate-sync] or on a file of fewer than
    1024 frames, the block loop of [main] computes what one [process] call
    on the whole file computes with the engine that [main] sets up: cutting
    the file into blocks of 512 frames, and setting the rate and the depth
    again after each analysis frame, changes nothing.  The file is mono or
    stereo, its sample rate is positive and its product with the channel
    count fits an [int], and it holds fewer than [2^31] samples: the clock
    of the loop then converts to [size_t] after every block. *)
Theorem main_is_one_process_call (libm : Libm)
    (stof : string -> option float) (args : Args) (audio : WavData) :
  demo args = false ->
  all_basic (shape args) = true ->
  channels audio = 1 \/ channels audio = 2 ->
  rateSync args = EmptyString
  \/ (length (samples audio) / Z.to_nat (channels audio) < 1024)%nat ->
  0 < sampleRate audio ->
  sampleRate audio * channels audio < 2 ^ 31 ->
  Z.of_nat (length (samples audio)) < 2 ^ 31 ->
  exists tr0 tr' out,
    setup libm stof args (sampleRate audio) = Some tr0
    /\ Tremolo.process libm tr0 (Some (samples audio))
         (length (samples audio) / Z.to_nat (channels audio))
         (channels audio) = Some (tr', Some out)
    /\ main_audio libm stof args audio = Some out.
Proof.
  intros Hdemo Hshape Hc Hq Hsr Hprod Hsize.
  destruct (setup_total libm stof args (sampleRate audio) Hshape) as [tr0 Hs].
  pose proof (frames_bound (samples audio) (channels audio) Hc Hsize) as Hfr.
  assert (Hdt : within64 1 (F64.div d_1 (F64.of_Z (sampleRate audio)))).
  { apply dt_unit. destruct Hc as [E | E]; rewrite E in Hprod; lia. }
  set (c := Z.to_nat (channels audio)) in *.
  set (frames := (length (samples audio) / c)%nat) in *.
  pose proof (frames_fit (samples audio) (channels audio) Hc) as Hfit.
  fold c frames in Hfit.
  rewrite (main_audio_unfold libm stof args audio tr0 Hc Hsr Hprod Hs).
  fold c frames.
  set (st0 := {| trem := tr0; feat := FeatureExtractor.init;
                 timeSec := F64.zero; audio_samples := samples audio;
                 blockBuf := replicate (block * c) f_0; processed := 0 |}).
  destruct (main_loop_quiet libm args (channels audio)
              (F64.div d_1 (F64.of_Z (sampleRate audio))) frames frames st0
              Hdemo Hc) as (st' & tr' & o & Hrun & Hproc & Hout).
  { cbn [trem feat processed st0 FeatureExtractor.buf FeatureExtractor.init length].
    destruct Hq as [Hq|Hq]; [left|right].
    - exact (setup_settled libm stof args (sampleRate audio) tr0 Hq Hs).
    - unfold FeatureExtractor.FrameSize. lia. }
  { cbn [processed st0]. lia. }
  { cbn [audio_samples st0]. fold c. exact Hfit. }
  { cbn [blockBuf st0]. fold c. apply length_replicate. }
  { cbn [processed st0]. lia. }
  { exact Hdt. }
  { exact Hfr. }
  { exact (within64_zero 0 ltac:(lia)). }
  cbn [trem processed audio_samples st0] in Hproc, Hout. fold c in Hproc, Hout.
  rewrite Nat.sub_0_r in Hproc. cbn [Nat.mul] in Hproc, Hout.
  rewrite drop_0 in Hproc. rewrite take_0 in Hout. cbn [app] in Hout.
  destruct (process_block libm tr0 (take (frames * c) (samples audio))
              (drop (frames * c) (samples audio)) frames (channels audio) Hc)
    as (o' & R1 & R2 & _).
  { rewrite length_take. fold c. lia. }
  rewrite Hproc in R1. injection R1 as -> <-.
  rewrite take_drop in R2.
  exists tr0, (Nat.iter frames Tremolo.frame_next tr0),
    (o ++ drop (frames * c) (samples audio)).
  split; [exact Hs|]. split; [exact R2|].
  rewrite Hrun. cbn [fmap option_fmap option_map]. rewrite Hout. reflexivity.
Qed.

(** The default command line on a mono file of 1024 samples. *)
Lemma main_is_one_process_call_witness :
  exists tr0 tr' out,
    setup libm_ref stof_120 plain_args (sampleRate mono_1024) = Some tr0
    /\ Tremolo.process libm_ref tr0 (Some (samples mono_1024))
         (length (samples mono_1024) / Z.to_nat (channels mono_1024))
         (channels mono_1024) = Some (tr', Some out)
    /\ main_audio libm_ref stof_120 plain_args mono_1024 = Some out.
Proof.
  apply (main_is_one_process_call libm_ref stof_120 plain_args mono_1024).
  - reflexivity.
  - reflexivity.
  - left. reflexivity.
  - left. reflexivity.
  - reflexivity.
  - reflexivity.
  - reflexivity.
Defined.

Lemma main_loop_step (libm : Libm) (args : Args) (nch : Z) (dt : double)
    (frames fuel : nat) (st st1 : state) :
  (processed st < frames)%nat ->
  block_step libm args nch dt frames st = Some st1 ->
  main_loop libm args nch dt frames (S fuel) st =
    main_loop libm args nch dt frames fuel st1.
Proof.
  intros Hlt Hstep. cbn [main_loop].
  apply Nat.ltb_lt in Hlt. rewrite Hlt, Hstep. reflexivity.
Qed.

(** With [--rate-sync] the synced rate only reaches the first block.  On a
    file of at least 1024 frames, without [--demo], what [main] writes is
    the first 512 frames processed by the engine as it was set up, followed
    by the rest of the file processed in one call by that engine with the
    rate and the depth of the command line set again: the first analysis
    frame is complete before the second block is processed, and the loop
    then calls [setRateHz] with [--rate], which replaces the synced rate.
    The file is mono or stereo, its sample rate is positive and its product
    with the channel count fits an [int], and it holds fewer than [2^31]
    samples. *)
Theorem main_rate_sync_first_block_only (libm : Libm)
    (stof : string -> option float) (args : Args) (audio : WavData) :
  demo args = false ->
  all_basic (shape args) = true ->
  channels audio = 1 \/ channels audio = 2 ->
  (1024 <= length (samples audio) / Z.to_nat (channels audio))%nat ->
  0 < sampleRate audio ->
  sampleRate audio * channels audio < 2 ^ 31 ->
  Z.of_nat (length (samples audio)) < 2 ^ 31 ->
  exists tr0 tr1 o1 tr2 o2,
    setup libm stof args (sampleRate audio) = Some tr0
    /\ Tremolo.process libm tr0
         (Some (take (512 * Z.to_nat (channels audio)) (samples audio)))
         512 (channels audio) = Some (tr1, Some o1)
    /\ Tremolo.process libm (retarget args tr1)
         (Some (drop (512 * Z.to_nat (channels audio)) (samples audio)))
         (length (samples audio) / Z.to_nat (channels audio) - 512)
         (channels audio) = Some (tr2, Some o2)
    /\ main_audio libm stof args audio = Some (o1 ++ o2)
    /\ Tremolo.rateHz_ (retarget args tr1) = std_max f_0_0001 (rate args)
    /\ Tremolo.depth_ (retarget args tr1) = clamp01 (depth args).
Proof.
  intros Hdemo Hshape Hc Hlong Hsr Hprod Hsize.
  destruct (setup_total libm stof args (sampleRate audio) Hshape) as [tr0 Hs].
  pose proof (frames_fit (samples audio) (channels audio) Hc) as Hfit.
  pose proof (frames_bound (samples audio) (channels audio) Hc Hsize) as Hfr.
  assert (Hdt : within64 1 (F64.div d_1 (F64.of_Z (sampleRate audio)))).
  { apply dt_unit. destruct Hc as [E | E]; rewrite E in Hprod; lia. }
  rewrite (main_audio_unfold libm stof args audio tr0 Hc Hsr Hprod Hs).
  set (nch := channels audio) in *. set (S0 := samples audio) in *.
  set (c := Z.to_nat nch) in *.
  set (frames := (length S0 / c)%nat) in *.
  set (dt := F64.div d_1 (F64.of_Z (sampleRate audio))).
  assert (Hcpos : (c = 1 \/ c = 2)%nat)
    by (unfold c; destruct Hc as [-> | ->]; [left|right]; reflexivity).
  set (st0 := {| trem := tr0; feat := FeatureExtractor.init;
                 timeSec := F64.zero; audio_samples := S0;
                 blockBuf := replicate (block * c) f_0; processed := 0 |}).
  (* the first block *)
  assert (Htodo0 : Nat.min block (frames - processed st0) = 512%nat)
    by (cbn [processed st0]; unfold block; lia).
  assert (Hbb0 : length (blockBuf st0) = (block * c)%nat)
    by apply length_replicate.
  destruct (feature_loop_short args nch dt
              (take (512 * c) (drop (0 * c) S0) ++ drop (512 * c) (blockBuf st0))
              512 0 tr0 FeatureExtractor.init F64.zero Hdemo Hc)
    as (fe1 & t1 & Hfl1 & Hl1).
  { rewrite length_app, length_take, !length_drop, Hbb0. fold c.
    unfold block. nia. }
  { unfold FeatureExtractor.FrameSize.
    cbn [FeatureExtractor.buf FeatureExtractor.init length]. lia. }
  pose proof (block_step_spec libm args nch dt frames st0 tr0 fe1 t1 Hc) as B1.
  cbv zeta in B1. rewrite Htodo0 in B1. fold c in B1.
  cbn [processed audio_samples trem feat timeSec st0] in B1.
  destruct (B1 ltac:(nia) Hbb0 Hfl1 Hdt Hfr ltac:(lia)
              (within64_zero 0 ltac:(lia)))
    as (o1 & HtX1 & R1 & Lo1 & Hstep1). clear B1.
  cbn [Nat.mul Nat.add] in R1, Hstep1. rewrite drop_0 in R1.
  rewrite take_0 in Hstep1. cbn [app] in Hstep1. fold st0 in Hstep1.
  set (tr1 := Nat.iter 512 Tremolo.frame_next tr0) in *.
  set (st1 := {| trem := tr1; feat := fe1; timeSec := t1;
                 audio_samples := o1 ++ drop (512 * c) S0;
                 blockBuf := o1 ++ drop (512 * c) (blockBuf st0);
                 processed := 512 |}) in *.
  (* the second block *)
  assert (Htodo1 : Nat.min block (frames - processed st1) = 512%nat)
    by (cbn [processed st1]; unfold block; lia).
  assert (Hbb1 : length (blockBuf st1) = (block * c)%nat).
  { cbn [blockBuf st1]. rewrite length_app, Lo1, length_drop, Hbb0.
    unfold block. lia. }
  assert (HA1 : length (audio_samples st1) = length S0).
  { cbn [audio_samples st1]. rewrite length_app, Lo1, length_drop. nia. }
  destruct (feature_loop_fire args nch dt
              (take (512 * c) (drop (512 * c) (audio_samples st1))
               ++ drop (512 * c) (blockBuf st1))
              511 0 tr1 fe1 t1 Hdemo Hc)
    as (fe2 & t2 & Hfl2 & Hl2).
  { rewrite length_app, length_take, !length_drop, Hbb1, HA1. fold c.
    unfold block. nia. }
  { rewrite Hl1. reflexivity. }
  pose proof (block_step_spec libm args nch dt frames st1 (retarget args tr1)
                fe2 t2 Hc) as B2.
  cbv zeta in B2. rewrite Htodo1 in B2. fold c in B2.
  cbn [processed trem feat timeSec st1] in B2.
  destruct (B2 ltac:(rewrite HA1; nia) Hbb1 Hfl2 Hdt Hfr ltac:(lia) HtX1)
    as (o2 & HtX2 & R2 & Lo2 & Hstep2).
  clear B2.
  assert (Hd1 : drop (512 * c) (audio_samples st1) = drop (512 * c) S0).
  { cbn [audio_samples st1]. apply drop_app_length'. lia. }
  assert (Ht1 : take (512 * c) (audio_samples st1) = o1).
  { cbn [audio_samples st1]. apply take_app_length'. lia. }
  assert (Hd2 : drop (512 * c + 512 * c) (audio_samples st1)
                = drop (1024 * c) S0).
  { rewrite <- drop_drop, Hd1, drop_drop. f_equal. lia. }
  rewrite Hd1 in R2. rewrite Ht1, Hd2 in Hstep2.
  set (tr2 := Nat.iter 512 Tremolo.frame_next (retarget args tr1)) in *.
  set (st2 := {| trem := tr2; feat := fe2; timeSec := t2;
                 audio_samples := o1 ++ o2 ++ drop (1024 * c) S0;
                 blockBuf := o2 ++ drop (512 * c) (blockBuf st1);
                 processed := (512 + 512)%nat |}) in *.
  (* the rest of the file *)
  assert (HA2 : length (audio_samples st2) = length S0).
  { cbn [audio_samples st2]. rewrite !length_app, Lo1, Lo2, length_drop. nia. }
  destruct (main_loop_quiet libm args nch dt frames (frames - 2) st2 Hdemo Hc)
    as (st' & tr' & o3 & Hrun & Hproc & Hout).
  { left. change (retarget args tr2 = tr2).
    exact (engine_after_retarget args 512 (retarget args tr1)
             (retarget_retarget args tr1)). }
  { cbn [processed st2]. lia. }
  { rewrite HA2. exact Hfit. }
  { cbn [blockBuf st2]. rewrite length_app, Lo2, length_drop, Hbb1.
    unfold block. lia. }
  { cbn [processed st2]. lia. }
  { exact Hdt. }
  { exact Hfr. }
  { cbn [processed timeSec st2]. exact HtX2. }
  cbn [trem processed st2] in Hproc, Hout. fold c in Hproc, Hout.
  change (512 + 512)%nat with 1024%nat in Hproc, Hout.
  assert (Hd3 : drop (1024 * c) (audio_samples st2) = drop (1024 * c) S0).
  { cbn [audio_samples st2]. rewrite app_assoc. apply drop_app_length'.
    rewrite length_app. lia. }
  assert (Ht3 : take (1024 * c) (audio_samples st2) = o1 ++ o2).
  { cbn [audio_samples st2]. rewrite app_assoc. apply take_app_length'.
    rewrite length_app. lia. }
  assert (Hd4 : drop (frames * c) (audio_samples st2) = drop (frames * c) S0).
  { replace (frames * c)%nat with (1024 * c + (frames * c - 1024 * c))%nat
      by nia.
    rewrite <- (drop_drop (audio_samples st2) _ (1024 * c)).
    rewrite <- (drop_drop S0 _ (1024 * c)). rewrite Hd3. reflexivity. }
  rewrite Hd3 in Hproc. rewrite Ht3, Hd4 in Hout.
  (* the second block and the rest are one call *)
  destruct (process_append libm (retarget args tr1)
              (take (512 * c) (drop (512 * c) S0))
              (take ((frames - 1024) * c) (drop (1024 * c) S0))
              512 (frames - 1024) nch Hc)
    as (p1 & p2 & P1 & P2 & P & _ & _).
  { rewrite length_take, length_drop. fold c. nia. }
  { rewrite length_take, length_drop. fold c. nia. }
  rewrite R2 in P1. injection P1 as <-.
  fold tr2 in P2. rewrite Hproc in P2. injection P2 as -> <-.
  replace (take (512 * c) (drop (512 * c) S0)
           ++ take ((frames - 1024) * c) (drop (1024 * c) S0))
    with (take ((frames - 512) * c) (drop (512 * c) S0)) in P.
  2:{ replace (1024 * c)%nat with (512 * c + 512 * c)%nat by lia.
      rewrite <- (drop_drop S0 (512 * c) (512 * c)).
      rewrite take_take_drop. f_equal. lia. }
  replace (512 + (frames - 1024))%nat with (frames - 512)%nat in P by lia.
  destruct (process_block libm (retarget args tr1)
              (take ((frames - 512) * c) (drop (512 * c) S0))
              (drop ((frames - 512) * c) (drop (512 * c) S0))
              (frames - 512) nch Hc)
    as (q & Q1 & Q2 & _).
  { rewrite length_take, length_drop. fold c. nia. }
  rewrite P in Q1. injection Q1 as <-.
  rewrite take_drop in Q2.
  exists tr0, tr1, o1, (Nat.iter (frames - 512) Tremolo.frame_next
                          (retarget args tr1)),
    ((o2 ++ o3) ++ drop ((frames - 512) * c) (drop (512 * c) S0)).
  split; [exact Hs|]. split; [exact R1|]. split; [exact Q2|].
  split; [|split; reflexivity].
  replace frames with (S (S (frames - 2))) at 2 by lia.
  rewrite (main_loop_step libm args nch dt frames _ st0 st1
             ltac:(cbn [processed st0]; lia) Hstep1).
  rewrite (main_loop_step libm args nch dt frames _ st1 st2
             ltac:(cbn [processed st1]; lia) Hstep2).
  rewrite Hrun. cbn [fmap option_fmap option_map]. rewrite Hout.
  rewrite drop_drop.
  replace (512 * c + (frames - 512) * c)%nat with (frames * c)%nat by nia.
  rewrite <- !app_assoc. reflexivity.
Qed.

(** A rate sync of 120 bpm at 1/8 on a mono file of 1024 samples. *)
Lemma main_rate_sync_first_block_only_witness :
  exists tr0 tr1 o1 tr2 o2,
    setup libm_ref stof_120 sync_args (sampleRate mono_1024) = Some tr0
    /\ Tremolo.process libm_ref tr0
         (Some (take (512 * Z.to_nat (channels mono_1024)) (samples mono_1024)))
         512 (channels mono_1024) = Some (tr1, Some o1)
    /\ Tremolo.process libm_ref (retarget sync_args tr1)
         (Some (drop (512 * Z.to_nat (channels mono_1024)) (samples mono_1024)))
         (length (samples mono_1024) / Z.to_nat (channels mono_1024) - 512)
         (channels mono_1024) = Some (tr2, Some o2)
    /\ main_audio libm_ref stof_120 sync_args mono_1024 = Some (o1 ++ o2)
    /\ Tremolo.rateHz_ (retarget sync_args tr1)
         = std_max f_0_0001 (rate sync_args)
    /\ Tremolo.depth_ (retarget sync_args tr1) = clamp01 (depth sync_args).
Proof.
  apply (main_rate_sync_first_block_only libm_ref stof_120 sync_args mono_1024).
  - reflexivity.
  - reflexivity.
  - left. reflexivity.
  - apply Nat.leb_le. vm_compute. reflexivity.
  - reflexivity.
  - reflexivity.
  - reflexivity.
Defined.

End MainAudio.

Section MainRange.
Import App.

(** The feature loop returns whatever the options are: its reads stay in
    the block. *)
Lemma feature_loop_total (args : Args) (nch : Z) (dt : double)
    (bb : list float) (n i : nat)
    (st : Tremolo.t * FeatureExtractor.t * double) :
  nch = 1 \/ nch = 2 ->
  (Z.to_nat nch * (i + n) <= length bb)%nat ->
  exists st', feature_loop args nch dt bb n i st = Some st'.
Proof.
  intros Hch. revert i st.
  induction n as [|n IH]; intros i st Hlen.
  - exists st. reflexivity.
  - destruct (block_reads nch bb i Hch ltac:(lia)) as (L & R & HL & HR).
    cbn [feature_loop].
    assert (Hs : exists st1, feature_step args nch dt bb i st = Some st1).
    { unfold feature_step. destruct st as [[tr fe] t]. rewrite HL, HR.
      cbn [mbind option_bind].
      destruct (FeatureExtractor.ready _); cbn [NoOpController_update];
        eexists; reflexivity. }
    destruct Hs as [st1 ->]. cbn [mbind option_bind].
    apply IH. lia.
Qed.

Lemma block_step_inv (libm : Libm) (args : Args) (nch : Z) (dt : double)
    (orig : list float) (frames : nat) (st : state) :
  nch = 1 \/ nch = 2 ->
  (frames * Z.to_nat nch <= length orig)%nat ->
  within64 1 dt -> Z.of_nat frames < 2 ^ 53 ->
  (processed st < frames)%nat ->
  loop_inv orig (Z.to_nat nch) frames st ->
  exists st1,
    block_step libm args nch dt frames st = Some st1
    /\ (processed st < processed st1)%nat
    /\ loop_inv orig (Z.to_nat nch) frames st1.
Proof.
  intros Hc Hfit Hdt Hfr Hlt (Hla & Hlb & Hp & Hcl & Hsame & Hclock).
  set (c := Z.to_nat nch) in *.
  assert (Hcpos : (c = 1 \/ c = 2)%nat)
    by (unfold c; destruct Hc as [-> | ->]; [left|right]; reflexivity).
  set (todo := Nat.min block (frames - processed st)).
  set (n := (todo * c)%nat). set (off := (processed st * c)%nat).
  assert (Htodo : (1 <= todo <= frames - processed st)%nat)
    by (unfold todo, block; lia).
  assert (Htb : (todo <= block)%nat) by (unfold todo; lia).
  assert (Hin : (off + n <= length (audio_samples st))%nat)
    by (rewrite Hla; unfold off, n; nia).
  assert (Hn : (n <= length (blockBuf st))%nat)
    by (rewrite Hlb; unfold n; nia).
  set (chunk := take n (drop off (audio_samples st))).
  assert (Hchunk : length chunk = n).
  { unfold chunk. rewrite length_take, length_drop. lia. }
  destruct (feature_loop_total args nch dt (chunk ++ drop n (blockBuf st))
              todo 0 (trem st, feat st, timeSec st) Hc) as [[[trX feX] tX] Hfl].
  { rewrite length_app, Hchunk, length_drop. fold c. unfold n. nia. }
  destruct (block_step_spec libm args nch dt frames st trX feX tX Hc Hin
              ltac:(exact Hlb) Hfl Hdt Hfr Hp Hclock)
    as (o & HtX & Hproc & Hlo & Hstep).
  fold todo n off chunk c in Hproc, Hlo, Hstep.
  destruct (process_clamps libm trX chunk todo nch Hc
              ltac:(rewrite Hchunk; fold c; unfold n; lia))
    as (tr' & o' & Hproc' & _ & Hclo & _ & _).
  pose proof (eq_trans (eq_sym Hproc) Hproc') as E. injection E as _ <-.
  fold c in Hclo.
  exists {| trem := Nat.iter todo Tremolo.frame_next trX; feat := feX;
            timeSec := tX;
            audio_samples :=
              take off (audio_samples st) ++ o
              ++ drop (off + n) (audio_samples st);
            blockBuf := o ++ drop n (blockBuf st);
            processed := (processed st + todo)%nat |}.
  split; [exact Hstep|].
  cbn [processed]. split; [lia|].
  assert (Hlo' : length o = n) by exact Hlo.
  unfold loop_inv. cbn [audio_samples blockBuf processed].
  assert (Hto : length (take off (audio_samples st)) = off)
    by (rewrite length_take; lia).
  split; [|split; [|split; [|split; [|split]]]]; [| | | | |exact HtX].
  - rewrite !length_app, Hto, Hlo', length_drop, <- Hla. lia.
  - rewrite length_app, Hlo', length_drop. lia.
  - lia.
  - intros j v Hj Hv.
    destruct (Nat.lt_ge_cases j off) as [Hjo|Hjo].
    + rewrite lookup_app_l in Hv by lia.
      rewrite lookup_take_lt in Hv by lia.
      apply (Hcl j v); [exact Hjo|exact Hv].
    + rewrite lookup_app_r in Hv by lia. rewrite Hto in Hv.
      rewrite lookup_app_l in Hv by (rewrite Hlo'; unfold off, n in *; nia).
      apply (Hclo (j - off)%nat v); [unfold n in *; nia|exact Hv].
  - intros j Hj.
    assert (Hj' : (off + n <= j)%nat) by (unfold off, n; nia).
    rewrite lookup_app_r by lia. rewrite Hto.
    rewrite lookup_app_r by lia. rewrite Hlo'.
    rewrite lookup_drop.
    replace (off + n + (j - off - n))%nat with j by lia.
    apply Hsame. unfold off in *. nia.
Qed.

Lemma main_loop_inv (libm : Libm) (args : Args) (nch : Z) (dt : double)
    (orig : list float) (frames fuel : nat) (st : state) :
  nch = 1 \/ nch = 2 ->
  (frames * Z.to_nat nch <= length orig)%nat ->
  within64 1 dt -> Z.of_nat frames < 2 ^ 53 ->
  (frames - processed st <= fuel)%nat ->
  loop_inv orig (Z.to_nat nch) frames st ->
  exists st',
    main_loop libm args nch dt frames fuel st = Some st'
    /\ processed st' = frames
    /\ loop_inv orig (Z.to_nat nch) frames st'.
Proof.
  intros Hc Hfit Hdt Hfr. revert st.
  induction fuel as [|fuel IH]; intros st Hfuel Hinv.
  - exists st. cbn [main_loop].
    destruct (Nat.ltb_spec (processed st) frames) as [|_];
      [destruct Hinv as (_ & _ & Hp & _); lia|].
    split; [reflexivity|]. split; [|exact Hinv].
    destruct Hinv as (_ & _ & Hp & _). lia.
  - destruct (Nat.lt_ge_cases (processed st) frames) as [Hlt|Hge].
    + destruct (block_step_inv libm args nch dt orig frames st Hc Hfit Hdt Hfr
                  Hlt Hinv) as (st1 & Hstep & Hadv & Hinv1).
      rewrite (main_loop_step libm args nch dt frames fuel st st1 Hlt Hstep).
      apply IH; [lia|exact Hinv1].
    + exists st. cbn [main_loop].
      destruct (Nat.ltb_spec (processed st) frames) as [|_]; [lia|].
      split; [reflexivity|]. split; [|exact Hinv].
      destruct Hinv as (_ & _ & Hp & _). lia.
Qed.

(** Whatever the options are ([--demo], [--rate-sync] and [--analyze]
    included) and whatever the samples are (infinities and NaNs included),
    the audio path of [main] on a mono or stereo file with a positive
    sample rate (one whose product with the channel count an [int] holds)
    and fewer than [2^31] samples, as [read16] returns them, returns with
    as many samples as it was given; every sample of a complete frame is
    in [[-1, 1]]; and a last sample that does not complete a stereo frame
    is handed to [write16] as it was read.  The bounds keep the clock of
    the loop below [2^53] seconds, so that its conversion to [size_t] after
    each block is defined. *)
Theorem main_output_in_range (libm : Libm) (stof : string -> option float)
    (args : Args) (audio : WavData) :
  all_basic (shape args) = true ->
  channels audio = 1 \/ channels audio = 2 ->
  0 < sampleRate audio ->
  sampleRate audio * channels audio < 2 ^ 31 ->
  Z.of_nat (length (samples audio)) < 2 ^ 31 ->
  let c := Z.to_nat (channels audio) in
  let frames := (length (samples audio) / c)%nat in
  exists out,
    main_audio libm stof args audio = Some out
    /\ length out = length (samples audio)
    /\ (forall j v, (j < frames * c)%nat -> out !! j = Some v -> clamped v)
    /\ (forall j, (frames * c <= j)%nat -> out !! j = samples audio !! j).
Proof.
  intros Hshape Hc Hsr Hprod Hsize c frames.
  destruct (setup_total libm stof args (sampleRate audio) Hshape) as [tr Htr].
  pose proof (frames_bound (samples audio) (channels audio) Hc Hsize) as Hfr.
  assert (Hdt : within64 1 (F64.div d_1 (F64.of_Z (sampleRate audio)))).
  { apply dt_unit. destruct Hc as [E | E]; rewrite E in Hprod; lia. }
  rewrite (main_audio_unfold libm stof args audio tr Hc Hsr Hprod Htr).
  fold c. fold frames.
  pose proof (frames_fit (samples audio) (channels audio) Hc) as Hfit.
  fold c in Hfit. fold frames in Hfit.
  destruct (main_loop_inv libm args (channels audio)
              (F64.div d_1 (F64.of_Z (sampleRate audio)))
              (samples audio) frames frames
              {| trem := tr; feat := FeatureExtractor.init;
                 timeSec := F64.zero; audio_samples := samples audio;
                 blockBuf := replicate (block * c) f_0; processed := 0 |}
              Hc Hfit Hdt Hfr ltac:(cbn [processed]; lia))
    as (st' & Hrun & Hdone & Hla & Hlb & Hp & Hcl & Hsame & _).
  { unfold loop_inv. cbn [audio_samples blockBuf processed timeSec].
    split; [reflexivity|]. split; [apply length_replicate|].
    split; [lia|]. split; [intros j v Hj; lia|].
    split; [reflexivity|exact (within64_zero 0 ltac:(lia))]. }
  exists (audio_samples st'). rewrite Hrun. split; [reflexivity|].
  split; [exact Hla|]. rewrite Hdone in Hcl, Hsame. fold c in Hcl, Hsame.
  split; [exact Hcl|exact Hsame].
Qed.

(** [--demo] with [--rate-sync] on one stereo frame made of a NaN and an
    infinity, followed by a sample left over. *)
Lemma main_output_in_range_witness :
  exists out,
    main_audio libm_ref stof_120 demo_args stereo_3 = Some out
    /\ length out = 3%nat
    /\ (forall j v, (j < 2)%nat -> out !! j = Some v -> clamped v)
    /\ (forall j, (2 <= j)%nat -> out !! j = samples stereo_3 !! j).
Proof.
  apply (main_output_in_range libm_ref stof_120 demo_args stereo_3).
  - reflexivity.
  - right. reflexivity.
  - reflexivity.
  - reflexivity.
  - reflexivity.
Defined.

End MainRange.

Section TestPadLevel.

Lemma sv32_f_0_2 : sv32 App.f_0_2 = 13421773 * 2 ^ 123.
Proof. reflexivity. Qed.

Lemma sv32_f_neg0_2 : sv32 f_neg0_2 = - (13421773 * 2 ^ 123).
Proof. reflexivity. Qed.

(** [0.2f * (0.5f * (1.0f - c)) * s] for [c] and [s] in [[-1, 1]]. *)
Lemma pad_sample_level (c s : float) :
  in_signed_unit c -> in_signed_unit s ->
  in_range f_neg0_2 App.f_0_2
    (App.f_0_2 * (f_0_5 * (f_1 - c)) * s)%f32.
Proof.
  intros Hc Hs.
  destruct (in_signed_unit_sv c Hc) as [Fc Rc].
  destruct (in_signed_unit_sv s Hs) as [Fs Rs].
  assert (F1 : finite32 f_1) by (split; reflexivity).
  assert (F2 : finite32 f_2) by (split; reflexivity).
  assert (Fh : finite32 f_0_5) by (split; reflexivity).
  assert (Fp : finite32 App.f_0_2) by (split; reflexivity).
  assert (Fn : finite32 f_neg0_2) by (split; reflexivity).
  destruct (sub32_bound f_2 f_1 c F2 ltac:(rewrite sv32_f_2; lia) F1 Fc)
    as [Fd Bd].
  { rewrite sv32_f_1, sv32_f_2. lia. }
  pose proof (sub32_nonneg f_1 c F1 Fc ltac:(rewrite sv32_f_1; lia)) as Nd.
  rewrite sv32_f_2 in Bd.
  destruct (mul32_bound f_1 f_0_5 (f_1 - c)%f32 F1
              ltac:(rewrite sv32_f_1; lia) Fh Fd) as [Fe Be].
  { rewrite sv32_f_0_5, sv32_f_1. rewrite (Z.abs_eq (2 ^ 148)) by lia. nia. }
  pose proof (mul32_nonneg f_0_5 (f_1 - c)%f32 Fh Fd
                ltac:(rewrite sv32_f_0_5; lia) Nd) as Ne.
  rewrite sv32_f_1 in Be.
  destruct (mul32_le_left App.f_0_2 (f_0_5 * (f_1 - c))%f32 Fp Fe
              ltac:(rewrite sv32_f_0_2; lia) ltac:(lia)) as [Fq Rq].
  destruct (mul32_bound App.f_0_2 (App.f_0_2 * (f_0_5 * (f_1 - c)))%f32 s Fp
              ltac:(rewrite sv32_f_0_2; lia) Fq Fs) as [Fr Br].
  { rewrite (Z.abs_eq (sv32 _)) by lia.
    assert (Z.abs (sv32 s) <= 2 ^ 149) by lia. nia. }
  split; [exact (proj1 Fr)|].
  rewrite (le32_sv _ _ Fn Fr), (le32_sv _ _ Fr Fp), sv32_f_neg0_2.
  split; apply Z.leb_le; lia || (rewrite sv32_f_0_2 in Br; lia).
Qed.

(** [float(i)] for an [int] [i >= 0]. *)
Lemma of_int_range (i : Z) :
  0 <= i < 2 ^ 31 ->
  finite32 (F32.of_Z i) /\ has_sign false (F32.of_Z i)
  /\ 0 <= sv32 (F32.of_Z i) <= 2 ^ 31 * 2 ^ 149
  /\ (1 <= i -> 2 ^ 149 <= sv32 (F32.of_Z i)).
Proof.
  intros Hi. unfold F32.of_Z.
  pose proof (binary_normalize_valid F32.prec F32.emax prec32_pos
                prec32_lt_emax i 0) as V.
  destruct (binary_normalize_sign F32.prec F32.emax prec32_pos prec32_lt_emax
              i 0) as [Hs _]. specialize (Hs ltac:(lia)).
  destruct (binary_normalize_upper F32.prec F32.emax prec32_pos
              i 0 8388608 8 eq_refl ltac:(vm_compute; discriminate)) as [F U].
  { change (0 - SpecFloat.emin F32.prec F32.emax) with 149.
    change (8388608 * 2 ^ (8 - SpecFloat.emin F32.prec F32.emax))
      with (2 ^ 31 * 2 ^ 149). rewrite Z.abs_eq by lia. nia. }
  change (8388608 * 2 ^ (8 - SpecFloat.emin F32.prec F32.emax))
    with (2 ^ 31 * 2 ^ 149) in U.
  pose proof (sv_sign F32.prec F32.emax false _ Hs) as Nn. cbv iota in Nn.
  rewrite Z.abs_eq in U by exact Nn.
  split; [split; assumption|]. split; [exact Hs|]. split; [lia|].
  intros H1. destruct (Z.lt_ge_cases i (2 ^ 24)) as [Hlt|Hge].
  - destruct (binary_normalize_exact F32.prec F32.emax prec32_pos
                prec32_lt_emax i 0 ltac:(vm_compute; discriminate) ltac:(lia)
                ltac:(change (2 ^ F32.prec) with (2 ^ 24); lia)
                ltac:(vm_compute; discriminate)) as [_ Sv].
    change (0 - SpecFloat.emin F32.prec F32.emax) with 149 in Sv.
    rewrite Sv. nia.
  - destruct (binary_normalize_lower F32.prec F32.emax prec32_pos
                prec32_lt_emax i 0 8388608 1 eq_refl
                ltac:(vm_compute; discriminate) ltac:(lia)) as [E|(mr & er & E & L)].
    + change (8388608 * 2 ^ (1 - SpecFloat.emin F32.prec F32.emax))
        with (2 ^ 24 * 2 ^ 149).
      change (0 - SpecFloat.emin F32.prec F32.emax) with 149. nia.
    + rewrite E in F. discriminate F.
    + rewrite E. cbn [Rnd.sv cond_Zopp].
      change (8388608 * 2 ^ (1 - SpecFloat.emin F32.prec F32.emax))
        with (2 ^ 24 * 2 ^ 149) in L. lia.
Qed.

(** A quotient of a number that is not negative by a positive finite one
    is a [float] that is not negative, or [+inf]; never a NaN. *)
Lemma div32_signed (x y : float) :
  F32.valid x = true -> has_sign false x -> finite_or_zero x = true ->
  finite32 y -> 0 < sv32 y ->
  F32.valid (x / y)%f32 = true /\ has_sign false (x / y)%f32.
Proof.
  intros Vx Sx Fx Fy Py.
  destruct (positive_bound y Fy Py) as (my & ey & -> & By & _).
  split; [apply div32_valid; [exact Vx|exact By]|].
  destruct x as [sx|sx| |sx mx ex]; try discriminate.
  - cbn in Sx. subst sx. reflexivity.
  - cbn in Sx. subst sx. unfold F32.div. cbn [SFdiv xorb].
    unfold F32.valid in Vx. cbn [valid_binary] in Vx.
    destruct (div_core_spec F32.prec F32.emax mx my ex ey) as [_ ->].
    destruct (div_aligned F32.prec F32.emax prec32_pos mx my ex ey Vx)
      as [Hq Hal].
    apply (binary_round_aux_valid F32.prec F32.emax prec32_pos);
      assumption.
Qed.

(** [std::min(q, 1.0f)] of such a quotient is in [[0, 1]]. *)
Lemma min_one_unit (q : float) :
  F32.valid q = true -> has_sign false q ->
  in_range f_0 f_1 (std_min q f_1).
Proof.
  intros V S. unfold std_min.
  destruct q as [s|s| |s m e]; cbn in S; try contradiction; subst s.
  - repeat split.
  - repeat split.
  - assert (Fq : finite32 (S754_finite false m e)) by (split; [exact V|reflexivity]).
    assert (F0 : finite32 f_0) by (split; reflexivity).
    assert (F1 : finite32 f_1) by (split; reflexivity).
    destruct (finite32_exp false m e Fq) as [He _].
    pose proof (pow2_pos (e + 149) ltac:(lia)) as Pe.
    rewrite (lt32_sv f_1 _ F1 Fq), sv32_f_1.
    destruct (Z.ltb_spec (2 ^ 149) (sv32 (S754_finite false m e))) as [H|H].
    + repeat split.
    + split; [exact V|].
      rewrite (le32_sv _ _ F0 Fq), (le32_sv _ _ Fq F1), sv32_f_0, sv32_f_1.
      rewrite sv32_finite in *. cbn [cond_Zopp] in *.
      split; apply Z.leb_le; nia.
Qed.

(** The arguments that the cosine and the sines of frame [i] receive are
    finite. *)
Lemma pad_arguments (seconds : float) (sr i : Z) (f : float) :
  finite32 seconds -> 0 < sv32 seconds -> 0 < sr < 2 ^ 31 ->
  0 <= i < 2 ^ 31 ->
  finite32 f -> 0 <= sv32 f <= 2 ^ 10 * 2 ^ 149 ->
  let t := (F32.of_Z i / F32.of_Z sr)%f32 in
  finite32 (f_2 * f_M_PI * std_min (t / seconds) f_1)%f32
  /\ finite32 (f_2 * f_M_PI * f * t)%f32.
Proof.
  intros Fs Ps Hsr Hi Ff Rf t.
  destruct (of_int_range i Hi) as (Fi & Si & Ri & _).
  destruct (of_int_range sr ltac:(lia)) as (Fr & _ & _ & Rr).
  specialize (Rr ltac:(lia)).
  set (b31 := S754_finite false 8388608 8).
  assert (Fb : finite32 b31) by (split; reflexivity).
  assert (Sb : sv32 b31 = 2 ^ 31 * 2 ^ 149) by reflexivity.
  destruct (div32_nonneg_bound b31 (F32.of_Z i) (F32.of_Z sr) Fb eq_refl Fi Fr
              ltac:(lia) ltac:(lia)) as [Ft Rt].
  { rewrite Sb. nia. }
  rewrite Sb in Rt. fold t in Ft, Rt.
  destruct (div32_signed (F32.of_Z i) (F32.of_Z sr) (proj1 Fi) Si (proj2 Fi)
              Fr ltac:(lia)) as [_ St]. fold t in St.
  destruct (div32_signed t seconds (proj1 Ft) St (proj2 Ft) Fs Ps) as [Vq Sq].
  pose proof (min_one_unit _ Vq Sq) as Hm.
  destruct (in_range_sv f_0 f_1 _ ltac:(split; reflexivity)
              ltac:(split; reflexivity) Hm) as [Fm Rm].
  rewrite sv32_f_0, sv32_f_1 in Rm.
  set (tp := (f_2 * f_M_PI)%f32).
  assert (Ftp : finite32 tp) by (split; reflexivity).
  assert (Stp : sv32 tp = 13176795 * 2 ^ 128) by reflexivity.
  split.
  - destruct (mul32_le_left tp _ Ftp Fm ltac:(rewrite Stp; lia) Rm) as [F _].
    exact F.
  - set (b13 := S754_finite false 8388608 (-10)).
    destruct (mul32_bound b13 tp f ltac:(split; reflexivity) eq_refl Ftp Ff)
      as [Fk Bk].
    { change (sv32 b13) with (2 ^ 13 * 2 ^ 149). rewrite Stp.
      rewrite !Z.abs_eq by lia. nia. }
    change (sv32 b13) with (2 ^ 13 * 2 ^ 149) in Bk.
    set (b44 := S754_finite false 8388608 21).
    destruct (mul32_bound b44 (tp * f)%f32 t ltac:(split; reflexivity) eq_refl
                Fk Ft) as [F _].
    { change (sv32 b44) with (2 ^ 44 * 2 ^ 149).
      rewrite (Z.abs_eq (sv32 t)) by lia.
      pose proof (Z.abs_nonneg (sv32 (tp * f)%f32)). nia. }
    exact F.
Qed.

Lemma to_int_range (x : float) (n : Z) :
  to_int x = Some n -> - 2 ^ 31 <= n < 2 ^ 31.
Proof.
  unfold to_int. destruct x as [s|s| |s m e]; try discriminate.
  - intros H. injection H as <-. lia.
  - cbv zeta.
    destruct (Z.leb_spec (- 2 ^ 31)
                (cond_Zopp s (if 0 <=? e then Z.pos m * 2 ^ e
                              else Z.pos m / 2 ^ (- e)))); [|discriminate].
    destruct (Z.ltb_spec
                (cond_Zopp s (if 0 <=? e then Z.pos m * 2 ^ e
                              else Z.pos m / 2 ^ (- e))) (2 ^ 31));
      [|discriminate].
    cbn [andb]. intros E. injection E as <-. lia.
Qed.

Lemma pad_frame_level (libm : Libm) (cosf : float -> float)
    (seconds : float) (sr i : Z) :
  (forall x, finite32 x -> in_signed_unit (sinf libm x)) ->
  (forall x, finite32 x -> in_signed_unit (cosf x)) ->
  finite32 seconds -> 0 < sv32 seconds -> 0 < sr < 2 ^ 31 ->
  0 <= i < 2 ^ 31 ->
  Forall (in_range f_neg0_2 App.f_0_2) (pad_frame libm cosf seconds sr i).
Proof.
  intros Hsin Hcos Fs Ps Hsr Hi. unfold pad_frame.
  destruct (pad_arguments seconds sr i f_220 Fs Ps Hsr Hi
              ltac:(split; reflexivity) ltac:(split; vm_compute; congruence))
    as [Ac A220].
  destruct (pad_arguments seconds sr i f_330 Fs Ps Hsr Hi
              ltac:(split; reflexivity) ltac:(split; vm_compute; congruence))
    as [_ A330].
  repeat constructor; apply pad_sample_level; auto.
Qed.

(** The test pad that [main] generates for a missing input never comes
    near clipping.  For a C library whose sine and cosine return values
    in [[-1, 1]] on finite arguments, a finite duration [seconds > 0] and
    a sample rate [sr > 0], when [seconds * sr] converts to an [int] [n],
    [makeTestPad] returns a stereo signal at the rate [sr] of
    [max(1, n)] frames, every sample of which is in [[-0.2f, 0.2f]]: the
    arguments of the sine and of the cosine are finite on every frame, and
    the roundings of the envelope and of the products never carry a sample
    beyond [0.2f]. *)
Theorem makeTestPad_level (libm : Libm) (cosf : float -> float)
    (seconds : float) (sr n : Z) :
  (forall x, finite32 x -> in_signed_unit (sinf libm x)) ->
  (forall x, finite32 x -> in_signed_unit (cosf x)) ->
  finite32 seconds -> 0 < sv32 seconds -> 0 < sr < 2 ^ 31 ->
  to_int (seconds * F32.of_Z sr)%f32 = Some n ->
  exists w,
    makeTestPad libm cosf seconds sr = Some w
    /\ sampleRate w = sr /\ channels w = 2
    /\ length (samples w) = (2 * Z.to_nat (Z.max 1 n))%nat
    /\ Forall (in_range f_neg0_2 App.f_0_2) (samples w).
Proof.
  intros Hsin Hcos Fs Ps Hsr Hn. unfold makeTestPad. rewrite Hn.
  cbn [mbind option_bind]. eexists. split; [reflexivity|].
  cbn [sampleRate channels samples].
  split; [reflexivity|]. split; [reflexivity|].
  pose proof (to_int_range _ _ Hn) as Rn.
  assert (H : forall k o, Z.of_nat (o + k) <= 2 ^ 31 ->
             length (concat ((fun i => pad_frame libm cosf seconds sr (Z.of_nat i))
                               <$> seq o k)) = (2 * k)%nat
             /\ Forall (in_range f_neg0_2 App.f_0_2)
                  (concat ((fun i => pad_frame libm cosf seconds sr (Z.of_nat i))
                             <$> seq o k))).
  { induction k as [|k IH]; intros o Hok.
    - split; [reflexivity|constructor].
    - rewrite <- cons_seq, fmap_cons. cbn [concat].
      destruct (IH (S o) ltac:(lia)) as [Hl Hf].
      split.
      + rewrite length_app, Hl. cbn [pad_frame length]. lia.
      + apply Forall_app. split; [|exact Hf].
        apply pad_frame_level; try assumption. lia. }
  apply H. lia.
Qed.

(** The call that [main] makes, [makeTestPad(10.0f, 44100)], with the
    sine at its top and the cosine at its bottom on every finite argument:
    441000 frames. *)
Lemma makeTestPad_level_witness :
  exists w,
    makeTestPad libm_peak cosf_trough f_10 44100 = Some w
    /\ sampleRate w = 44100 /\ channels w = 2
    /\ length (samples w) = (2 * Z.to_nat (Z.max 1 441000))%nat
    /\ Forall (in_range f_neg0_2 App.f_0_2) (samples w).
Proof.
  apply (makeTestPad_level libm_peak cosf_trough f_10 44100 441000).
  - intros x [_ Fx]. cbn [sinf libm_peak]. rewrite Fx. repeat split.
  - intros x [_ Fx]. unfold cosf_trough. rewrite Fx. repeat split.
  - split; reflexivity.
  - reflexivity.
  - lia.
  - reflexivity.
Defined.

End TestPadLevel.
